(** * Element-abundance routines of the VCS equilibrium solver

    A shallow embedding of [vcs_elem.cpp] ([vcs_elab], [vcs_elabcheck],
    [vcs_elabPhase], [vcs_elcorr]) and of [vcs_elem_rearrange.cpp]
    ([vcs_elem_rearrange], [vcs_switch_elem_pos]).

    Conventions of the embedding:
    - the routines are embedded twice.  In the first embedding a C++
      [double] is an exact rational ([Q]): rounding, overflow and NaN are
      not modelled, and the properties stated on it rest on the control
      flow, on the positions that are written and on the order of the
      numbers that are compared.  Every division of the source is guarded
      by a test that makes its divisor nonzero, so [Qdiv] agrees with the
      source wherever the source divides.  In the second embedding (module
      [Binary64]) a [double] is a binary64 number and every operation is
      the IEEE 754 operation, rounded to nearest; the properties that
      depend on the value of a sum, a product or a quotient, or on the
      side of a threshold on which such a value falls, are stated on it;
    - a [std::vector] member is a list, read with [nth] and written with
      [upd]; a read outside the list gives the default value and a write
      outside the list is dropped (the source has undefined behaviour
      there);
    - a work array that the caller passes as a raw [double*] is a map from
      index to value ([buf]);
    - the members of [VCS_SOLVE] used by these routines form the record
      [VCS_SOLVE]; a member function is a function on that record;
    - [exit(-1)] and a failed [AssertThrowVCS] are outcomes of their own;
    - the [DEBUG] blocks (printing only) are left out. *)

From Stdlib Require Import String.
From Stdlib Require Import QArith Qabs List Lia Lqa Bool ZArith FinFun.
From Stdlib Require PrimFloat FloatOps FloatAxioms SpecFloat.
Import ListNotations.
Open Scope Q_scope.

(** ** Comparisons of doubles *)

Definition Qltb (x y : Q) : bool := negb (Qle_bool y x).
Definition Qgtb (x y : Q) : bool := Qltb y x.
Definition Qneb (x y : Q) : bool := negb (Qeq_bool x y).

(** The [MAX] macro of [vcs_internal.h]. *)
Definition MAX (x y : Q) : Q := if Qgtb x y then x else y.

(** The [SQUARE] macro. *)
Definition SQUARE (x : Q) : Q := x * x.

Definition fabs (x : Q) : Q := Qabs x.

(** ** Arrays *)

Fixpoint upd {A : Type} (i : nat) (v : A) (l : list A) : list A :=
  match l, i with
  | [], _ => []
  | _ :: t, O => v :: t
  | x :: t, S i' => x :: upd i' v t
  end.

Definition rdQ (l : list Q) (i : nat) : Q := nth i l 0.

(** A raw work array. *)
Definition buf : Type := nat -> Q.

Definition bset (b : buf) (i : nat) (v : Q) : buf :=
  fun k => if Nat.eqb k i then v else b k.

(** [vcsUtil_dsw], [vcsUtil_isw], [vcsUtil_stsw]: exchange two entries. *)
Definition vcsUtil_sw {A : Type} (d : A) (x : list A) (i1 i2 : nat) : list A :=
  let t := nth i1 x d in
  let x1 := upd i1 (nth i2 x d) x in
  upd i2 t x1.

(** ** Tags *)

Inductive species_type : Type :=
  | VCS_SPECIES_TYPE_MOLNUM
  | VCS_SPECIES_TYPE_INTERFACIALVOLTAGE.

Inductive elem_type : Type :=
  | VCS_ELEM_TYPE_ABSPOS
  | VCS_ELEM_TYPE_ELECTRONCHARGE
  | VCS_ELEM_TYPE_CHARGENEUTRALITY
  | VCS_ELEM_TYPE_OTHER.

Inductive species_status : Type :=
  | VCS_SPECIES_ACTIVE
  | VCS_SPECIES_ZEROEDSS
  | VCS_SPECIES_ZEROEDMS.

Definition is_voltage (t : species_type) : bool :=
  match t with VCS_SPECIES_TYPE_INTERFACIALVOLTAGE => true | _ => false end.

Definition elem_type_eqb (a b : elem_type) : bool :=
  match a, b with
  | VCS_ELEM_TYPE_ABSPOS, VCS_ELEM_TYPE_ABSPOS
  | VCS_ELEM_TYPE_ELECTRONCHARGE, VCS_ELEM_TYPE_ELECTRONCHARGE
  | VCS_ELEM_TYPE_CHARGENEUTRALITY, VCS_ELEM_TYPE_CHARGENEUTRALITY
  | VCS_ELEM_TYPE_OTHER, VCS_ELEM_TYPE_OTHER => true
  | _, _ => false
  end.

(** ** The problem instance *)

Record vcs_VolPhase : Type := mkVolPhase {
  nElemConstraints : nat;
  ElGlobalIndex : list Z
}.

Record VCS_SOLVE : Type := mkVCS {
  m_numElemConstraints : nat;
  m_numComponents : nat;
  m_numSpeciesTot : nat;
  m_numSpeciesRdc : nat;
  NPhase : nat;
  ga : list Q;
  gai : list Q;
  soln : list Q;
  FormulaMatrix : list (list Q);
  SpeciesUnknownType : list species_type;
  PhaseID : list nat;
  SSPhase : list bool;
  spStatus : list species_status;
  IndEl : list Z;
  m_elType : list elem_type;
  ElActive : list bool;
  ElName : list string;
  VPhaseList : list vcs_VolPhase
}.

Definition set_ga (v : list Q) (s : VCS_SOLVE) : VCS_SOLVE :=
  mkVCS (m_numElemConstraints s) (m_numComponents s) (m_numSpeciesTot s)
        (m_numSpeciesRdc s) (NPhase s) v (gai s) (soln s) (FormulaMatrix s)
        (SpeciesUnknownType s) (PhaseID s) (SSPhase s) (spStatus s) (IndEl s)
        (m_elType s) (ElActive s) (ElName s) (VPhaseList s).

Definition set_soln (v : list Q) (s : VCS_SOLVE) : VCS_SOLVE :=
  mkVCS (m_numElemConstraints s) (m_numComponents s) (m_numSpeciesTot s)
        (m_numSpeciesRdc s) (NPhase s) (ga s) (gai s) v (FormulaMatrix s)
        (SpeciesUnknownType s) (PhaseID s) (SSPhase s) (spStatus s) (IndEl s)
        (m_elType s) (ElActive s) (ElName s) (VPhaseList s).

Definition set_spStatus (v : list species_status) (s : VCS_SOLVE) : VCS_SOLVE :=
  mkVCS (m_numElemConstraints s) (m_numComponents s) (m_numSpeciesTot s)
        (m_numSpeciesRdc s) (NPhase s) (ga s) (gai s) (soln s) (FormulaMatrix s)
        (SpeciesUnknownType s) (PhaseID s) (SSPhase s) v (IndEl s)
        (m_elType s) (ElActive s) (ElName s) (VPhaseList s).

(** [FormulaMatrix[j][i]]: constraint [j], species [i]. *)
Definition FM (s : VCS_SOLVE) (j i : nat) : Q :=
  rdQ (nth j (FormulaMatrix s) []) i.

Definition voltage (s : VCS_SOLVE) (i : nat) : bool :=
  is_voltage (nth i (SpeciesUnknownType s) VCS_SPECIES_TYPE_MOLNUM).

Definition elType (s : VCS_SOLVE) (i : nat) : elem_type :=
  nth i (m_elType s) VCS_ELEM_TYPE_OTHER.

(** ** vcs_elab *)

(** The inner loop of [vcs_elab]: [ga[j] += FormulaMatrix[j][i] * soln[i]]
    for every species [i] that is not an interfacial voltage. *)
Definition elab_add (s : VCS_SOLVE) (j : nat) (acc : Q) (i : nat) : Q :=
  if voltage s i then acc else acc + FM s j i * rdQ (soln s) i.

Definition elab_row (s : VCS_SOLVE) (j : nat) : Q :=
  fold_left (elab_add s j) (seq 0 (m_numSpeciesTot s)) 0.

Definition elab_loop (s : VCS_SOLVE) (g : list Q) : list Q :=
  fold_left (fun g j => upd j (elab_row s j) g)
            (seq 0 (m_numElemConstraints s)) g.

Definition vcs_elab (s : VCS_SOLVE) : VCS_SOLVE :=
  set_ga (elab_loop s (ga s)) s.

(** ** vcs_elabPhase *)

Definition elabPhase_add (s : VCS_SOLVE) (iphase j : nat) (acc : Q) (i : nat) : Q :=
  if voltage s i then acc
  else if Nat.eqb (nth i (PhaseID s) O) iphase
       then acc + FM s j i * rdQ (soln s) i
       else acc.

Definition elabPhase_row (s : VCS_SOLVE) (iphase j : nat) : Q :=
  fold_left (elabPhase_add s iphase j) (seq 0 (m_numSpeciesTot s)) 0.

Definition vcs_elabPhase (s : VCS_SOLVE) (iphase : nat)
    (elemAbundPhase : list Q) : list Q :=
  fold_left (fun g j => upd j (elabPhase_row s iphase j) g)
            (seq 0 (m_numElemConstraints s)) elemAbundPhase.

(** ** Outcomes of a member function *)

Inductive result (A : Type) : Type :=
  | Ok (a : A) (s : VCS_SOLVE)
  | Throw (proc : string)
  | Exit (code : Z).
Arguments Ok {A} a s.
Arguments Throw {A} proc.
Arguments Exit {A} code.

Definition bind {A B : Type} (m : result A) (k : A -> VCS_SOLVE -> result B)
    : result B :=
  match m with
  | Ok a s => k a s
  | Throw p => Throw p
  | Exit c => Exit c
  end.

Section Solver.

(** Constants of [vcs_defs.h] and collaborators of [VCS_SOLVE] that the
    routines use and whose text is elsewhere in the package; the routines
    are defined for any value of them. *)
Variable VCS_DELETE_MINORSPECIES_CUTOFF : Q.
Variable VCS_FAILED_CONVERGENCE : Z.
Variable VCS_SUCCESS : Z.
(** [vcsUtil_mlequ c idem n b m]: status, and the overwritten [c] and [b]. *)
Variable vcsUtil_mlequ : buf -> nat -> nat -> buf -> nat -> Z * buf * buf.
Variable vcs_tmoles : VCS_SOLVE -> VCS_SOLVE.
Variable vcs_reinsert_deleted : nat -> VCS_SOLVE -> VCS_SOLVE.

(** ** vcs_elabcheck *)

(** The scan of row [i]: [(scale, multisign, numNonZero)]. *)
Definition check_scan (s : VCS_SOLVE) (i : nat) : Q * bool * nat :=
  fold_left
    (fun (acc : Q * bool * nat) kspec =>
       let '(scale, multisign, numNonZero) := acc in
       let eval := FM s i kspec in
       let multisign := if Qltb eval 0 then true else multisign in
       if Qneb eval 0
       then (MAX scale (fabs (eval * rdQ (soln s) kspec)), multisign, S numNonZero)
       else (scale, multisign, numNonZero))
    (seq 0 (m_numSpeciesTot s))
    (VCS_DELETE_MINORSPECIES_CUTOFF, false, O).

Inductive check : Type := CkTrue | CkFalse | CkThrow.

Definition discrepancy (s : VCS_SOLVE) (i : nat) : Q :=
  fabs (rdQ (ga s) i - rdQ (gai s) i).

Fixpoint elabcheck_loop (s : VCS_SOLVE) (idx : list nat) : check :=
  match idx with
  | [] => CkTrue
  | i :: rest =>
    if Qgtb (discrepancy s i) (fabs (rdQ (gai s) i) * 1.0e-12) then
      if elem_type_eqb (elType s i) VCS_ELEM_TYPE_CHARGENEUTRALITY
         && negb (Qeq_bool (rdQ (gai s) i) 0)
      then CkThrow
      else if Qeq_bool (rdQ (gai s) i) 0
              || elem_type_eqb (elType s i) VCS_ELEM_TYPE_ELECTRONCHARGE
      then
        let '(scale, multisign, _) := check_scan s i in
        if multisign then
          if Qgtb (discrepancy s i) (1e-11 * scale) then CkFalse
          else elabcheck_loop s rest
        else
          if Qgtb (discrepancy s i) VCS_DELETE_MINORSPECIES_CUTOFF then CkFalse
          else elabcheck_loop s rest
      else CkFalse
    else elabcheck_loop s rest
  end.

Definition vcs_elabcheck (ibound : bool) (s : VCS_SOLVE) : result bool :=
  let top := if ibound then m_numElemConstraints s else m_numComponents s in
  match elabcheck_loop s (seq 0 top) with
  | CkTrue => Ok true s
  | CkFalse => Ok false s
  | CkThrow => Throw "vcs_elabcheck"
  end.

(** ** vcs_elcorr *)

(** Stage 1: rows with one sign. *)

Definition sign_scan (s : VCS_SOLVE) (i : nat) : bool * nat :=
  fold_left
    (fun (acc : bool * nat) kspec =>
       let '(multisign, numNonZero) := acc in
       if voltage s kspec then acc
       else
         let eval := FM s i kspec in
         (if Qltb eval 0 then true else multisign,
          if Qneb eval 0 then S numNonZero else numNonZero))
    (seq 0 (m_numSpeciesTot s)) (false, O).

Definition single_step (i : nat) (acc : VCS_SOLVE * bool) (kspec : nat)
    : VCS_SOLVE * bool :=
  let '(s, changed) := acc in
  if voltage s kspec then acc
  else
    let eval := FM s i kspec in
    if Qgtb eval 0
    then (set_soln (upd kspec (rdQ (gai s) i / eval) (soln s)) s, true)
    else acc.

Definition comp_scan (s : VCS_SOLVE) (i : nat) : nat * Z :=
  fold_left
    (fun (acc : nat * Z) kspec =>
       let '(numCompNonZero, compID) := acc in
       if voltage s kspec then acc
       else if Qgtb (FM s i kspec) 0
            then (S numCompNonZero, Z.of_nat kspec)
            else acc)
    (seq 0 (m_numComponents s)) (O, (-1)%Z).

Definition diff_step (i compID : nat) (acc : Q * VCS_SOLVE * bool) (kspec : nat)
    : Q * VCS_SOLVE * bool :=
  let '(diff, s, _) := acc in
  let diff := if voltage s kspec then diff
              else diff - FM s i kspec * rdQ (soln s) kspec in
  (diff,
   set_soln (upd compID (MAX 0.0 (diff / FM s i compID)) (soln s)) s,
   true).

Definition stage1_row (acc : VCS_SOLVE * bool) (i : nat) : VCS_SOLVE * bool :=
  let '(s, changed) := acc in
  let '(multisign, numNonZero) := sign_scan s i in
  if multisign then acc
  else if Nat.ltb numNonZero 2 then
    fold_left (single_step i) (seq 0 (m_numSpeciesTot s)) acc
  else
    let '(numCompNonZero, compID) := comp_scan s i in
    if Nat.eqb numCompNonZero 1 then
      let '(_, s', changed') :=
        fold_left (diff_step i (Z.to_nat compID))
                  (seq (m_numComponents s) (m_numSpeciesTot s - m_numComponents s))
                  (rdQ (gai s) i, s, changed) in
      (s', changed')
    else acc.

Definition stage1 (s : VCS_SOLVE) : VCS_SOLVE * bool :=
  fold_left stage1_row (seq 0 (m_numElemConstraints s)) (s, false).

(** Stage 2: maximum bounds from the [VCS_ELEM_TYPE_ABSPOS] constraints. *)

Definition bound_step (i : nat) (acc : VCS_SOLVE * bool) (kspec : nat)
    : VCS_SOLVE * bool :=
  let '(s, changed) := acc in
  if voltage s kspec then acc
  else
    let atomComp := FM s i kspec in
    if Qgtb atomComp 0 then
      let maxPermissible := rdQ (gai s) i / atomComp in
      if Qgtb (rdQ (soln s) kspec) maxPermissible then
        let s1 := set_soln (upd kspec maxPermissible (soln s)) s in
        if Qltb (rdQ (soln s1) kspec) VCS_DELETE_MINORSPECIES_CUTOFF then
          let s2 := set_soln (upd kspec 0.0 (soln s1)) s1 in
          (set_spStatus
             (upd kspec
                  (if nth kspec (SSPhase s2) false
                   then VCS_SPECIES_ZEROEDSS else VCS_SPECIES_ZEROEDMS)
                  (spStatus s2)) s2,
           true)
        else (s1, true)
      else acc
    else acc.

Definition stage2_row (acc : VCS_SOLVE * bool) (i : nat) : VCS_SOLVE * bool :=
  let '(s, _) := acc in
  if elem_type_eqb (elType s i) VCS_ELEM_TYPE_ABSPOS
  then fold_left (bound_step i) (seq 0 (m_numSpeciesTot s)) acc
  else acc.

Definition stage2 (s : VCS_SOLVE) : VCS_SOLVE * bool :=
  fold_left stage2_row (seq 0 (m_numElemConstraints s)) (s, false).

(** Stage 3: the linear problem of length [m_numComponents]. *)

Definition setup_row (s : VCS_SOLVE) (acc : buf * buf * Z) (i : nat)
    : buf * buf * Z :=
  let '(aa, x, retn) := acc in
  let xi := rdQ (ga s) i - rdQ (gai s) i in
  let x := bset x i xi in
  let retn := if Qgtb (fabs xi) 1.0E-13 then 1%Z else retn in
  let aa := fold_left
              (fun aa j => bset aa (j + i * m_numElemConstraints s) (FM s j i))
              (seq 0 (m_numComponents s)) aa in
  (aa, x, retn).

Definition setup (s : VCS_SOLVE) (aa x : buf) : buf * buf * Z :=
  fold_left (setup_row s) (seq 0 (m_numComponents s)) (aa, x, 0%Z).

Definition par_step (s : VCS_SOLVE) (x : buf) (par : Q) (i : nat) : Q :=
  if Qgtb (rdQ (soln s) i) 0.0 then
    let xx := - x i / rdQ (soln s) i in
    if Qltb par xx then xx else par
  else par.

Definition damping (s : VCS_SOLVE) (x : buf) : Q :=
  let par := fold_left (par_step s x) (seq 0 (m_numComponents s)) 0.5 in
  let par := if Qgtb par 100.0 then 100.0 else par in
  1.0 / par.

(** One component of the step; [dx] is [par * x[i]] or [x[i]]. *)
Definition step_comp (dx : nat -> Q) (s : VCS_SOLVE) (i : nat) : VCS_SOLVE :=
  let tmp := rdQ (soln s) i + dx i in
  if Qgtb tmp 0.0 then set_soln (upd i tmp (soln s)) s
  else if nth i (SSPhase s) false
       then set_soln (upd i 0.0 (soln s)) s
       else set_soln (upd i (rdQ (soln s) i * 0.0001) (soln s)) s.

Definition apply_step (s : VCS_SOLVE) (x : buf) (retn : Z) : VCS_SOLVE * Z :=
  let par := damping s x in
  if Qltb par 1.0 && Qgtb par 0.0 then
    let par := par * 0.9999 in
    (fold_left (step_comp (fun i => par * x i)) (seq 0 (m_numComponents s)) s,
     2%Z)
  else
    (fold_left (step_comp (fun i => x i)) (seq 0 (m_numComponents s)) s,
     retn).

(** Stage 4: a species whose adjustment helps every component constraint. *)

Fixpoint goodSpec_loop (s : VCS_SOLVE) (kspec : nat) (saveDir : Q)
    (idx : list nat) : bool :=
  match idx with
  | [] => true
  | i :: rest =>
    let dir := FM s i kspec * (rdQ (gai s) i - rdQ (ga s) i) in
    if Qgtb (fabs dir) 1.0E-10 then
      if Qgtb dir 0.0 then
        if Qltb saveDir 0.0 then false else goodSpec_loop s kspec dir rest
      else
        if Qgtb saveDir 0.0 then false else goodSpec_loop s kspec dir rest
    else
      if Qneb (FM s i kspec) 0 then false
      else goodSpec_loop s kspec saveDir rest
  end.

Definition adhoc_delta (s : VCS_SOLVE) (kspec : nat) : Q :=
  let '(xx, its) :=
    fold_left
      (fun (acc : Q * nat) i =>
         let '(xx, its) := acc in
         if Qneb (FM s i kspec) 0.0
         then (xx + (rdQ (gai s) i - rdQ (ga s) i) / FM s i kspec, S its)
         else acc)
      (seq 0 (m_numComponents s)) (0.0, O) in
  if Nat.ltb 0 its then xx / inject_Z (Z.of_nat its) else xx.

(** The result carries [true] when the loop left through [goto L_CLEANUP]. *)
Fixpoint adhoc_loop (s : VCS_SOLVE) (ks : list nat) : VCS_SOLVE * bool :=
  match ks with
  | [] => (s, false)
  | kspec :: rest =>
    if voltage s kspec then adhoc_loop s rest
    else if goodSpec_loop s kspec 0.0 (seq 0 (m_numComponents s)) then
      let xx := adhoc_delta s kspec in
      let s1 := set_soln (upd kspec (rdQ (soln s) kspec + xx) (soln s)) s in
      let s2 := set_soln (upd kspec (MAX (rdQ (soln s1) kspec) 1.0E-10) (soln s1)) s1 in
      if Nat.leb (m_numSpeciesRdc s2) kspec then
        let s3 := vcs_reinsert_deleted kspec s2 in
        let s4 := set_soln (upd (m_numSpeciesRdc s3 - 1) xx (soln s3)) s3 in
        (vcs_elab s4, true)
      else adhoc_loop (vcs_elab s2) rest
    else adhoc_loop s rest
  end.

(** Stages 5 and 6 share the floored update of one mole number. *)
Definition add_floor (kspec : nat) (delta : Q) (s : VCS_SOLVE) : VCS_SOLVE :=
  let s1 := set_soln (upd kspec (rdQ (soln s) kspec + delta) (soln s)) s in
  if Qltb (rdQ (soln s1) kspec) 0.0
  then set_soln (upd kspec 0.0 (soln s1)) s1
  else s1.

Definition sub_floor (kspec : nat) (delta : Q) (s : VCS_SOLVE) : VCS_SOLVE :=
  let s1 := set_soln (upd kspec (rdQ (soln s) kspec - delta) (soln s)) s in
  if Qltb (rdQ (soln s1) kspec) 0.0
  then set_soln (upd kspec 0.0 (soln s1)) s1
  else s1.

(** Stage 5: charge neutrality and zero-target [ABSPOS] constraints. *)
Fixpoint neutral_inner (s : VCS_SOLVE) (i : nat) (ks : list nat) : VCS_SOLVE :=
  match ks with
  | [] => s
  | kspec :: rest =>
    if Qgtb (rdQ (ga s) i) 0.0 && Qltb (FM s i kspec) 0.0 then
      vcs_elab (sub_floor kspec (rdQ (ga s) i / FM s i kspec) s)
    else if Qltb (rdQ (ga s) i) 0.0 && Qgtb (FM s i kspec) 0.0 then
      vcs_elab (sub_floor kspec (rdQ (ga s) i / FM s i kspec) s)
    else neutral_inner s i rest
  end.

Definition neutral_row (s : VCS_SOLVE) (i : nat) : VCS_SOLVE :=
  if elem_type_eqb (elType s i) VCS_ELEM_TYPE_CHARGENEUTRALITY
     || (elem_type_eqb (elType s i) VCS_ELEM_TYPE_ABSPOS
         && Qeq_bool (rdQ (gai s) i) 0.0)
  then neutral_inner s i (seq 0 (m_numSpeciesRdc s))
  else s.

Definition stage5 (s : VCS_SOLVE) : VCS_SOLVE :=
  fold_left neutral_row (seq 0 (m_numElemConstraints s)) s.

(** Stage 6: electron-charge constraints. *)
Definition useZeroed_scan (s : VCS_SOLVE) (i : nat) (dev : Q) : bool :=
  fold_left
    (fun (useZeroed : bool) kspec =>
       if Qltb dev 0.0 then
         if Qltb (FM s i kspec) 0.0 && Qgtb (rdQ (soln s) kspec) 0.0
         then false else useZeroed
       else
         if Qgtb (FM s i kspec) 0.0 && Qgtb (rdQ (soln s) kspec) 0.0
         then false else useZeroed)
    (seq 0 (m_numSpeciesRdc s)) true.

Fixpoint electron_inner (s : VCS_SOLVE) (i : nat) (dev : Q) (useZeroed : bool)
    (ks : list nat) : VCS_SOLVE :=
  match ks with
  | [] => s
  | kspec :: rest =>
    if Qgtb (rdQ (soln s) kspec) 0.0 || useZeroed then
      if Qltb dev 0.0 && Qltb (FM s i kspec) 0.0 then
        vcs_elab (add_floor kspec (dev / FM s i kspec) s)
      else if Qgtb dev 0.0 && Qgtb (FM s i kspec) 0.0 then
        vcs_elab (add_floor kspec (dev / FM s i kspec) s)
      else electron_inner s i dev useZeroed rest
    else electron_inner s i dev useZeroed rest
  end.

Definition electron_row (s : VCS_SOLVE) (i : nat) : VCS_SOLVE :=
  let dev := rdQ (gai s) i - rdQ (ga s) i in
  if elem_type_eqb (elType s i) VCS_ELEM_TYPE_ELECTRONCHARGE
     && Qgtb (fabs dev) 1.0E-300
  then electron_inner s i dev (useZeroed_scan s i dev) (seq 0 (m_numSpeciesRdc s))
  else s.

Definition stage6 (s : VCS_SOLVE) : VCS_SOLVE :=
  fold_left electron_row (seq 0 (m_numElemConstraints s)) s.

(** [L_CLEANUP]. *)
Definition cleanup (retn : Z) (s : VCS_SOLVE) : result Z :=
  Ok retn (vcs_tmoles s).

Definition after_changed (r : VCS_SOLVE * bool) : VCS_SOLVE :=
  if snd r then vcs_elab (fst r) else fst r.

(** The part of [vcs_elcorr] after the general step. *)
Definition elcorr_tail (retn : Z) (s3 : VCS_SOLVE) : result Z :=
  let '(s4, jumped) :=
    if Z.leb 2 retn then adhoc_loop s3 (seq 0 (m_numSpeciesTot s3))
    else (s3, false) in
  if jumped then cleanup retn s4
  else
    bind (vcs_elabcheck false s4) (fun ok s4 =>
    if ok then cleanup 1%Z s4
    else
      let s5 := stage5 s4 in
      bind (vcs_elabcheck true s5) (fun ok s5 =>
      if ok then cleanup 1%Z s5
      else
        let s6 := stage6 s5 in
        bind (vcs_elabcheck true s6) (fun ok s6 =>
        if ok then cleanup 1%Z s6 else cleanup retn s6))).

Definition vcs_elcorr (aa x : buf) (s : VCS_SOLVE) : result Z :=
  let s1 := after_changed (stage1 s) in
  let s2 := after_changed (stage2 s1) in
  let '(aa, x, retn) := setup s2 aa x in
  let '(i, aa, x) :=
    vcsUtil_mlequ aa (m_numElemConstraints s2) (m_numComponents s2) x 1%nat in
  if Z.eqb i 1 then Ok VCS_FAILED_CONVERGENCE s2
  else
    let '(s3, retn) := apply_step s2 x retn in
    elcorr_tail retn (vcs_tmoles (vcs_elab s3)).

(** ** vcs_switch_elem_pos *)

(** The two tests on [ElGlobalIndex[e]], one after the other. *)
Definition switch_index (ipos jpos : nat) (g : list Z) (e : nat) : list Z :=
  let g1 := if Z.eqb (nth e g 0%Z) (Z.of_nat ipos)
            then upd e (Z.of_nat jpos) g else g in
  if Z.eqb (nth e g1 0%Z) (Z.of_nat jpos)
  then upd e (Z.of_nat ipos) g1 else g1.

Definition switch_phase (ipos jpos : nat) (volPhase : vcs_VolPhase) : vcs_VolPhase :=
  mkVolPhase (nElemConstraints volPhase)
    (fold_left (switch_index ipos jpos)
               (seq 0 (nElemConstraints volPhase)) (ElGlobalIndex volPhase)).

Definition switch_phases (ipos jpos nphase : nat) (l : list vcs_VolPhase)
    : list vcs_VolPhase :=
  fold_left
    (fun l iph => upd iph (switch_phase ipos jpos (nth iph l (mkVolPhase O []))) l)
    (seq 0 nphase) l.

Definition fm_set (fm : list (list Q)) (r c : nat) (v : Q) : list (list Q) :=
  upd r (upd c v (nth r fm [])) fm.

(** [SWAP(FormulaMatrix[ipos][j], FormulaMatrix[jpos][j], dtmp)]. *)
Definition swap_entry (ipos jpos : nat) (fm : list (list Q)) (j : nat)
    : list (list Q) :=
  let dtmp := rdQ (nth jpos fm []) j in
  let fm1 := fm_set fm jpos j (rdQ (nth ipos fm []) j) in
  fm_set fm1 ipos j dtmp.

Definition swap_rows (ipos jpos nspecies : nat) (fm : list (list Q))
    : list (list Q) :=
  fold_left (swap_entry ipos jpos) (seq 0 nspecies) fm.

Definition vcs_switch_elem_pos (ipos jpos : nat) (s : VCS_SOLVE) : VCS_SOLVE :=
  if Nat.eqb ipos jpos then s
  else
    mkVCS (m_numElemConstraints s) (m_numComponents s) (m_numSpeciesTot s)
          (m_numSpeciesRdc s) (NPhase s)
          (vcsUtil_sw 0 (ga s) ipos jpos)
          (vcsUtil_sw 0 (gai s) ipos jpos)
          (soln s)
          (swap_rows ipos jpos (m_numSpeciesTot s) (FormulaMatrix s))
          (SpeciesUnknownType s) (PhaseID s) (SSPhase s) (spStatus s)
          (vcsUtil_sw 0%Z (IndEl s) ipos jpos)
          (vcsUtil_sw VCS_ELEM_TYPE_OTHER (m_elType s) ipos jpos)
          (vcsUtil_sw false (ElActive s) ipos jpos)
          (vcsUtil_sw EmptyString (ElName s) ipos jpos)
          (switch_phases ipos jpos (NPhase s) (VPhaseList s)).

(** ** vcs_elem_rearrange *)

(** The work arrays [aw], [sa], [sm], [ss]. *)
Record work : Type := mkWork { aw : buf; sa : buf; sm : buf; ss : buf }.

Definition bsw (x : buf) (i1 i2 : nat) : buf :=
  let t := x i1 in
  let x1 := bset x i1 (x i2) in
  bset x1 i2 t.

(** One pass of the first loop: [test] is decreased once per constraint and
    compared with the entry just copied. *)
Definition sentinel_step (s : VCS_SOLVE) (acc : Q * buf * bool) (i : nat)
    : Q * buf * bool :=
  let '(test, a, lindep) := acc in
  let test := test - 1.0 in
  let a := bset a i (rdQ (gai s) i) in
  (test, a, if Qeq_bool test (a i) then true else lindep).

Definition sentinel_pass (s : VCS_SOLVE) (test : Q) (a : buf) : Q * buf * bool :=
  fold_left (sentinel_step s) (seq 0 (m_numElemConstraints s)) (test, a, false).

Fixpoint sentinel_loop (fuel : nat) (s : VCS_SOLVE) (test : Q) (a : buf)
    : option (Q * buf) :=
  match fuel with
  | O => None
  | S fuel' =>
    let '(test', a', lindep) := sentinel_pass s test a in
    if lindep then sentinel_loop fuel' s test' a' else Some (test', a')
  end.

(** The search for the next constraint: the first active one from [jr] on
    whose key is not [test]; [m_numElemConstraints] when there is none. *)
Fixpoint find_k (s : VCS_SOLVE) (a : buf) (test : Q) (idx : list nat) : nat :=
  match idx with
  | [] => m_numElemConstraints s
  | ielem :: rest =>
    if nth ielem (ElActive s) false && Qneb (a ielem) test then ielem
    else find_k s a test rest
  end.

Definition fill_row (s : VCS_SOLVE) (k jr : nat) (m : buf) : buf :=
  fold_left
    (fun m j => bset m (j + jr * m_numComponents s) (FM s k j))
    (seq 0 (m_numComponents s)) m.

Definition dot_rows (s : VCS_SOLVE) (m : buf) (jr j : nat) : Q :=
  fold_left
    (fun acc i => acc + m (i + jr * m_numComponents s)%nat * m (i + j * m_numComponents s)%nat)
    (seq 0 (m_numComponents s)) 0.0.

Definition coeffs (s : VCS_SOLVE) (w : work) (jr jl : nat) : buf :=
  fold_left
    (fun c j => bset c j (dot_rows s (sm w) jr j / sa w j))
    (seq 0 jl) (ss w).

Definition orthogonalize (s : VCS_SOLVE) (c : buf) (jr jl : nat) (m : buf) : buf :=
  fold_left
    (fun m j =>
       fold_left
         (fun m l =>
            bset m (l + jr * m_numComponents s)
                 (m (l + jr * m_numComponents s)%nat
                  - c j * m (l + j * m_numComponents s)%nat))
         (seq 0 (m_numComponents s)) m)
    (seq 0 jl) m.

Definition norm2 (s : VCS_SOLVE) (m : buf) (jr : nat) : Q :=
  fold_left
    (fun acc ml => acc + SQUARE (m (ml + jr * m_numComponents s)%nat))
    (seq 0 (m_numComponents s)) 0.0.

(** The Gram-Schmidt trial of constraint [k] as row [jr]. *)
Definition trial (s : VCS_SOLVE) (k jr : nat) (test : Q) (w : work) : work :=
  let a := bset (aw w) k test in
  let jl := jr in
  let m := fill_row s k jr (sm w) in
  let w1 := mkWork a (sa w) m (ss w) in
  let w2 :=
    if Nat.ltb 0 jl then
      let c := coeffs s w1 jr jl in
      mkWork a (sa w) (orthogonalize s c jr jl m) c
    else w1 in
  mkWork (aw w2) (bset (sa w2) jr (norm2 s (sm w2) jr)) (sm w2) (ss w2).

(** The two nested [do ... while] loops; one unit of fuel per trial. *)
Fixpoint rearrange_loop (fuel : nat) (test : Q) (jr : nat) (w : work)
    (s : VCS_SOLVE) : option (result Z) :=
  match fuel with
  | O => None
  | S fuel' =>
    let k := find_k s (aw w) test
               (seq jr (m_numElemConstraints s - jr)) in
    if Nat.eqb k (m_numElemConstraints s) then Some (Exit (-1)%Z)
    else
      let w1 := trial s k jr test w in
      if Qltb (sa w1 jr) 1.0e-6 then rearrange_loop fuel' test jr w1 s
      else
        let s1 := if Nat.eqb jr k then s else vcs_switch_elem_pos jr k s in
        let w2 := if Nat.eqb jr k then w1
                  else mkWork (bsw (aw w1) jr k) (sa w1) (sm w1) (ss w1) in
        if Nat.ltb (S jr) (m_numComponents s)
        then rearrange_loop fuel' test (S jr) w2 s1
        else Some (Ok VCS_SUCCESS s1)
  end.

Definition vcs_elem_rearrange (fuel : nat) (w : work) (s : VCS_SOLVE)
    : option (result Z) :=
  match sentinel_loop fuel s (-1.0E10) (aw w) with
  | None => None
  | Some (test, a) =>
    rearrange_loop fuel test O (mkWork a (sa w) (sm w) (ss w)) s
  end.

End Solver.

(** ** Collaborators for running the routines on examples *)

(** Entry (row [i], column [j]) of a matrix stored by columns with leading
    dimension [idem], as [vcs_elcorr] fills [aa]. *)
Definition mat (c : buf) (idem i j : nat) : Q := c (i + j * idem)%nat.

(** The first row from [k] on with a nonzero entry in column [k]. *)
Fixpoint pivot_row (c : buf) (idem k : nat) (rows : list nat) : option nat :=
  match rows with
  | [] => None
  | i :: rest =>
    if Qneb (mat c idem i k) 0 then Some i else pivot_row c idem k rest
  end.

(** Row [i] minus the multiple of the pivot row that clears column [k]. *)
Definition gj_elim (idem n k : nat) (cb : buf * buf) (i : nat) : buf * buf :=
  if Nat.eqb i k then cb
  else
    let '(c, b) := cb in
    let f := mat c idem i k in
    (fold_left
       (fun c' j => bset c' (i + j * idem) (mat c idem i j - f * mat c idem k j))
       (seq 0 n) c,
     bset b i (b i - f * b k)).

(** One column of the elimination: pivot search, row exchange, scaling of
    the pivot row, elimination in the other rows. *)
Definition gj_step (idem n : nat) (acc : option (buf * buf)) (k : nat)
    : option (buf * buf) :=
  match acc with
  | None => None
  | Some (c, b) =>
    match pivot_row c idem k (seq k (n - k)) with
    | None => None
    | Some p =>
      let c1 := fold_left
                  (fun c' j =>
                     bset (bset c' (k + j * idem) (mat c idem p j))
                          (p + j * idem) (mat c idem k j))
                  (seq 0 n) c in
      let b1 := bsw b k p in
      let piv := mat c1 idem k k in
      let c2 := fold_left
                  (fun c' j => bset c' (k + j * idem) (mat c1 idem k j / piv))
                  (seq 0 n) c1 in
      let b2 := bset b1 k (b1 k / piv) in
      Some (fold_left (gj_elim idem n k) (seq 0 n) (c2, b2))
    end
  end.

(** Modelled from the spec: the generic dense linear-system solver
    [vcsUtil_mlequ] (square system, single right-hand side, nonzero status
    on singularity), whose text is not part of these files.  It solves
    [C X + B = 0] by Gauss-Jordan elimination, so that [X] is the correction
    direction for the discrepancy [B]; the status is 1 when no pivot is
    found. *)
Definition mlequ_model (c : buf) (idem n : nat) (b : buf) (m : nat)
    : Z * buf * buf :=
  match fold_left (gj_step idem n) (seq 0 n) (Some (c, b)) with
  | None => (1%Z, c, b)
  | Some (c', b') => (0%Z, c', fun i => Qred (- b' i))
  end.

(** Modelled from the spec: [vcs_tmoles] recomputes the phase totals, which
    are derived sums kept outside the members modelled in [VCS_SOLVE]; on
    this record it changes nothing. *)
Definition tmoles_model (s : VCS_SOLVE) : VCS_SOLVE := s.

(** The exchange of the species at positions [k1] and [k2]: their entries
    in every array indexed by species and their columns of the formula
    matrix. *)
Definition exchange_species (k1 k2 : nat) (s : VCS_SOLVE) : VCS_SOLVE :=
  mkVCS (m_numElemConstraints s) (m_numComponents s) (m_numSpeciesTot s)
        (m_numSpeciesRdc s) (NPhase s) (ga s) (gai s)
        (vcsUtil_sw 0 (soln s) k1 k2)
        (map (fun row => vcsUtil_sw 0 row k1 k2) (FormulaMatrix s))
        (vcsUtil_sw VCS_SPECIES_TYPE_MOLNUM (SpeciesUnknownType s) k1 k2)
        (vcsUtil_sw O (PhaseID s) k1 k2)
        (vcsUtil_sw false (SSPhase s) k1 k2)
        (vcsUtil_sw VCS_SPECIES_ACTIVE (spStatus s) k1 k2)
        (IndEl s) (m_elType s) (ElActive s) (ElName s) (VPhaseList s).

(** Modelled from the spec: [vcs_reinsert_deleted] reactivates a species
    that had been removed: the species is marked active and joins the
    active range.  The caller stores the mole number of the species in
    [soln[m_numSpeciesRdc - 1]] right after the call, so the species is
    taken to the end of the active range: when it is not there already it
    exchanges its position with the species that is. *)
Definition reinsert_model (kspec : nat) (s : VCS_SOLVE) : VCS_SOLVE :=
  exchange_species kspec (m_numSpeciesRdc s)
    (mkVCS (m_numElemConstraints s) (m_numComponents s) (m_numSpeciesTot s)
           (S (m_numSpeciesRdc s)) (NPhase s) (ga s) (gai s) (soln s)
           (FormulaMatrix s) (SpeciesUnknownType s) (PhaseID s) (SSPhase s)
           (upd kspec VCS_SPECIES_ACTIVE (spStatus s)) (IndEl s)
           (m_elType s) (ElActive s) (ElName s) (VPhaseList s)).

(** Modelled from the spec: the fixed minor-species cutoff constant
    [VCS_DELETE_MINORSPECIES_CUTOFF] of [vcs_defs.h], a header that is not
    part of these files; a small positive value for running examples. *)
Definition cutoff_value : Q := 1.0e-140.

(** Modelled from the spec: the failed-convergence status
    [VCS_FAILED_CONVERGENCE] of [vcs_defs.h], a value apart from the
    statuses 0 to 3 of [vcs_elcorr]. *)
Definition failed_value : Z := (-1)%Z.

(** Modelled from the spec: the success status [VCS_SUCCESS] of
    [vcs_defs.h]. *)
Definition success_value : Z := 0%Z.

(** [vcs_elcorr] with these collaborators and cleared work arrays. *)
Definition run_elcorr (s : VCS_SOLVE) : result Z :=
  vcs_elcorr cutoff_value failed_value mlequ_model tmoles_model reinsert_model
             (fun _ => 0) (fun _ => 0) s.

(** Cleared work arrays for [vcs_elem_rearrange]. *)
Definition zero_work : work :=
  mkWork (fun _ => 0) (fun _ => 0) (fun _ => 0) (fun _ => 0).

(** ** Definitions used by the statements *)

(** The species that are not interfacial voltages. *)
Definition nonvoltage_species (s : VCS_SOLVE) : list nat :=
  filter (fun k => negb (voltage s k)) (seq 0 (m_numSpeciesTot s)).

(** The abundance of constraint [i] as the specification words it: the sum,
    over the species that are not interfacial voltages, of coefficient
    times mole number. *)
Definition abundance_sum (s : VCS_SOLVE) (i : nat) : Q :=
  fold_left (fun acc k => acc + FM s i k * rdQ (soln s) k)
            (nonvoltage_species s) 0.

(** [ga] holds the abundances of the mole numbers in [soln]. *)
Definition consistent (s : VCS_SOLVE) : Prop :=
  forall j, (j < m_numElemConstraints s)%nat ->
            rdQ (ga s) j == abundance_sum s j.

(** The sum of a list of rationals. *)
Definition sumQ (l : list Q) : Q := fold_right Qplus 0 l.

(** The term that species [k] adds to constraint [j]. *)
Definition term (s : VCS_SOLVE) (j k : nat) : Q :=
  if voltage s k then 0 else FM s j k * rdQ (soln s) k.

(** The term that species [k] adds to constraint [j] in phase [p]. *)
Definition term_phase (s : VCS_SOLVE) (p j k : nat) : Q :=
  if voltage s k then 0
  else if Nat.eqb (nth k (PhaseID s) O) p then FM s j k * rdQ (soln s) k else 0.

(** The data that describe the constraints: targets, formula matrix, type
    tags, active flags and names. *)
Definition cdata (s : VCS_SOLVE)
    : list Q * list (list Q) * list elem_type * list bool * list string :=
  (gai s, FormulaMatrix s, m_elType s, ElActive s, ElName s).

(** What the first two stages of [vcs_elcorr] never write: the counts, the
    abundances, the species types and the size of [soln]. *)
Definition entry_shape (s : VCS_SOLVE)
    : nat * nat * nat * list Q * list species_type * nat :=
  (m_numElemConstraints s, m_numComponents s, m_numSpeciesTot s, ga s,
   SpeciesUnknownType s, length (soln s)).

(** Counts, species types and array sizes. *)
Definition dims (s : VCS_SOLVE) : nat * nat * nat * list species_type * nat * nat :=
  (m_numElemConstraints s, m_numComponents s, m_numSpeciesTot s,
   SpeciesUnknownType s, length (soln s), length (ga s)).

(** The middle component of a triple. *)
Definition mid {A B C : Type} (t : A * B * C) : B := snd (fst t).

(** The instance on which stage 3 of [vcs_elcorr] works. *)
Definition stage3_entry (cutoff : Q) (s : VCS_SOLVE) : VCS_SOLVE :=
  after_changed (stage2 cutoff (after_changed (stage1 s))).

(** The correction direction that [mlequ] returns in stage 3, and its
    status. *)
Definition stage3_solve
    (mlequ : buf -> nat -> nat -> buf -> nat -> Z * buf * buf)
    (cutoff : Q) (aa x : buf) (s : VCS_SOLVE) : Z * buf :=
  let s2 := stage3_entry cutoff s in
  let '(aa1, x1, _) := setup s2 aa x in
  let '(i, _, x2) :=
    mlequ aa1 (m_numElemConstraints s2) (m_numComponents s2) x1 1%nat in
  (i, x2).

(** The exchange of positions [i] and [j]. *)
Definition transp (i j p : nat) : nat :=
  if Nat.eqb p i then j else if Nat.eqb p j then i else p.

(** [pi] permutes the positions below [n] and fixes the others. *)
Definition permutes (n : nat) (pi : nat -> nat) : Prop :=
  exists pi', (forall p, pi' (pi p) = p) /\ (forall p, pi (pi' p) = p) /\
              (forall p, (n <= p)%nat -> pi p = p).

(** The constraint-indexed arrays cover the constraints, and every row of
    the formula matrix covers the species. *)
Record wf_elem (s : VCS_SOLVE) : Prop := mkWf {
  wf_ga : (m_numElemConstraints s <= length (ga s))%nat;
  wf_gai : (m_numElemConstraints s <= length (gai s))%nat;
  wf_IndEl : (m_numElemConstraints s <= length (IndEl s))%nat;
  wf_elType : (m_numElemConstraints s <= length (m_elType s))%nat;
  wf_ElActive : (m_numElemConstraints s <= length (ElActive s))%nat;
  wf_ElName : (m_numElemConstraints s <= length (ElName s))%nat;
  wf_FM : (m_numElemConstraints s <= length (FormulaMatrix s))%nat;
  wf_rows : forall r, (r < m_numElemConstraints s)%nat ->
            (m_numSpeciesTot s <= length (nth r (FormulaMatrix s) []))%nat
}.

(** [s'] holds at every position [p] the constraint data that [s] holds at
    position [pi p]. *)
Definition repositioned (pi : nat -> nat) (s s' : VCS_SOLVE) : Prop :=
  m_numElemConstraints s' = m_numElemConstraints s /\
  m_numComponents s' = m_numComponents s /\
  m_numSpeciesTot s' = m_numSpeciesTot s /\
  forall p,
    rdQ (gai s') p = rdQ (gai s) (pi p) /\
    elType s' p = elType s (pi p) /\
    nth p (ElActive s') false = nth (pi p) (ElActive s) false /\
    nth p (ElName s') EmptyString = nth (pi p) (ElName s) EmptyString /\
    forall k, (k < m_numSpeciesTot s)%nat -> FM s' p k = FM s (pi p) k.

(** What the two consecutive tests of [vcs_switch_elem_pos] make of a
    phase-map entry when [ipos] and [jpos] differ. *)
Definition collapse (ipos jpos : nat) (v : Z) : Z :=
  if Z.eqb v (Z.of_nat ipos) || Z.eqb v (Z.of_nat jpos)
  then Z.of_nat ipos else v.

(** The Gram-Schmidt trials of the rows [0 .. n-1] in their present order,
    each row [j] tried as row [j], from cleared work arrays. *)
Fixpoint chain (s : VCS_SOLVE) (n : nat) : work :=
  match n with
  | O => zero_work
  | S m => trial s m m 0 (chain s m)
  end.

(** The first [n] constraints pass the independence test of
    [vcs_elem_rearrange] one after the other: the squared norm that the
    trial leaves in [sa[j]] is not below 1e-6. *)
Definition accepted_prefix (s : VCS_SOLVE) (n : nat) : bool :=
  forallb (fun j => negb (Qltb (sa (chain s n) j) 1.0e-6)) (seq 0 n).

(** The first [n] constraints are active. *)
Definition active_prefix (s : VCS_SOLVE) (n : nat) : bool :=
  forallb (fun j => nth j (ElActive s) false) (seq 0 n).

(** Two sets of work arrays hold the same first [n] rows of [sm] (rows of
    length [nc]) and the same first [n] entries of [sa]. *)
Definition agree (nc n : nat) (w w' : work) : Prop :=
  (forall idx, (idx < n * nc)%nat -> sm w idx = sm w' idx) /\
  (forall j, (j < n)%nat -> sa w j = sa w' j).

(** The entries of [aw] that are not yet the key of a chosen constraint. *)
Definition marks_left (n : nat) (a : buf) (test : Q) : nat :=
  length (filter (fun i => Qneb (a i) test) (seq 0 n)).

(** The targets below the running value of [test]. *)
Definition targets_below (s : VCS_SOLVE) (test : Q) : nat :=
  length (filter (fun i => Qltb (rdQ (gai s) i) test)
                 (seq 0 (m_numElemConstraints s))).

(** ** Problem instances *)

(** The two-element, two-species problem of the end-to-end scenario. *)
Definition e2e : VCS_SOLVE :=
  mkVCS 2 2 2 2 2 [1;1] [2;3] [1;1] [[1;0];[0;1]]
   [VCS_SPECIES_TYPE_MOLNUM;VCS_SPECIES_TYPE_MOLNUM] [0;1]%nat [true;true]
   [VCS_SPECIES_ACTIVE;VCS_SPECIES_ACTIVE] [0;0]%Z
   [VCS_ELEM_TYPE_OTHER;VCS_ELEM_TYPE_OTHER]
   [true;true] ["A";"B"]%string [mkVolPhase 2 [0%Z;1%Z]; mkVolPhase 1 [1%Z]].

(** The end-to-end problem with the mole numbers already at the targets. *)
Definition e2e_compliant : VCS_SOLVE :=
  set_ga [2; 3] (set_soln [2; 3] e2e).

(** One constraint with target 1 met by a component (3 mol) and another
    species (2 mol), both with coefficient 1. *)
Definition overshoot : VCS_SOLVE :=
  mkVCS 1 1 2 2 1 [5] [1] [3; 2] [[1; 1]]
   [VCS_SPECIES_TYPE_MOLNUM; VCS_SPECIES_TYPE_MOLNUM] [0; 0]%nat [false; false]
   [VCS_SPECIES_ACTIVE; VCS_SPECIES_ACTIVE] [0]%Z [VCS_ELEM_TYPE_OTHER]
   [true] ["A"]%string [mkVolPhase 1 [0%Z]].

(** Two constraints on two components and two removed species (mole number
    0): rows [1, 1, 1, 0] and [1, 0, 0, 1], targets 1 and 3 (met, for
    instance, by the mole numbers 1, 0, 0, 2), current mole numbers
    2, 2, 0, 0. *)
Definition removed_species : VCS_SOLVE :=
  mkVCS 2 2 4 2 1 [4; 2] [1; 3] [2; 2; 0; 0] [[1; 1; 1; 0]; [1; 0; 0; 1]]
   [VCS_SPECIES_TYPE_MOLNUM; VCS_SPECIES_TYPE_MOLNUM;
    VCS_SPECIES_TYPE_MOLNUM; VCS_SPECIES_TYPE_MOLNUM]
   [0; 0; 0; 0]%nat [false; false; false; false]
   [VCS_SPECIES_ACTIVE; VCS_SPECIES_ACTIVE;
    VCS_SPECIES_ZEROEDMS; VCS_SPECIES_ZEROEDMS] [0; 0]%Z
   [VCS_ELEM_TYPE_OTHER; VCS_ELEM_TYPE_OTHER]
   [true; true] ["A"; "B"]%string [mkVolPhase 2 [0%Z; 1%Z]].

(** The problem [removed_species] with the two removed species in the
    other order: rows [1, 1, 0, 1] and [1, 0, 1, 0]. *)
Definition removed_last : VCS_SOLVE :=
  mkVCS 2 2 4 2 1 [4; 2] [1; 3] [2; 2; 0; 0] [[1; 1; 0; 1]; [1; 0; 1; 0]]
   [VCS_SPECIES_TYPE_MOLNUM; VCS_SPECIES_TYPE_MOLNUM;
    VCS_SPECIES_TYPE_MOLNUM; VCS_SPECIES_TYPE_MOLNUM]
   [0; 0; 0; 0]%nat [false; false; false; false]
   [VCS_SPECIES_ACTIVE; VCS_SPECIES_ACTIVE;
    VCS_SPECIES_ZEROEDMS; VCS_SPECIES_ZEROEDMS] [0; 0]%Z
   [VCS_ELEM_TYPE_OTHER; VCS_ELEM_TYPE_OTHER]
   [true; true] ["A"; "B"]%string [mkVolPhase 2 [0%Z; 1%Z]].

(** One constraint, one species with coefficient 1, target -1. *)
Definition negative_target : VCS_SOLVE :=
  mkVCS 1 1 1 1 1 [1] [-1] [1] [[1]]
   [VCS_SPECIES_TYPE_MOLNUM] [0]%nat [false]
   [VCS_SPECIES_ACTIVE] [0]%Z [VCS_ELEM_TYPE_OTHER]
   [true] ["A"]%string [mkVolPhase 1 [0%Z]].

(** A zero-target constraint over a species (coefficient 1, 1e-20 mol) and
    an interfacial voltage (coefficient -1, value 1e10). *)
Definition voltage_row : VCS_SOLVE :=
  mkVCS 1 1 2 2 1 [1e-20] [0] [1e-20; 1e10] [[1; -1]]
   [VCS_SPECIES_TYPE_MOLNUM; VCS_SPECIES_TYPE_INTERFACIALVOLTAGE] [0; 0]%nat
   [false; false]
   [VCS_SPECIES_ACTIVE; VCS_SPECIES_ACTIVE] [0]%Z [VCS_ELEM_TYPE_OTHER]
   [true] ["E"]%string [mkVolPhase 1 [0%Z]].

(** Two constraints, one component: the first row is small, not zero. *)
Definition small_row : VCS_SOLVE :=
  mkVCS 2 1 1 1 1 [0; 0] [1; 2] [0] [[0.0001]; [1]]
   [VCS_SPECIES_TYPE_MOLNUM] [0]%nat [false]
   [VCS_SPECIES_ACTIVE] [0; 0]%Z [VCS_ELEM_TYPE_OTHER; VCS_ELEM_TYPE_OTHER]
   [true; true] ["A"; "B"]%string [mkVolPhase 2 [0%Z; 1%Z]].

(** The scan of [vcs_elabcheck] over a list of species, from the initial
    values it has in [check_scan]. *)
Definition scan_over (cutoff : Q) (s : VCS_SOLVE) (i : nat) (l : list nat)
    : Q * bool * nat :=
  fold_left
    (fun (acc : Q * bool * nat) kspec =>
       let '(scale, multisign, numNonZero) := acc in
       let eval := FM s i kspec in
       let multisign := if Qltb eval 0 then true else multisign in
       if Qneb eval 0
       then (MAX scale (fabs (eval * rdQ (soln s) kspec)), multisign, S numNonZero)
       else (scale, multisign, numNonZero))
    l (cutoff, false, O).

(** The tolerance that [vcs_elabcheck] applies to constraint [i] in its
    zero-target or electron-charge branch. *)
Definition row_tolerance (cutoff : Q) (s : VCS_SOLVE) (i : nat) : Q :=
  if snd (fst (check_scan cutoff s i))
  then 1e-11 * fst (fst (check_scan cutoff s i))
  else cutoff.

(** Constraint [i] is within the tolerance that [vcs_elabcheck] grants it. *)
Definition within_tolerance (cutoff : Q) (s : VCS_SOLVE) (i : nat) : Prop :=
  discrepancy s i <= fabs (rdQ (gai s) i) * 1.0e-12 \/
  ((rdQ (gai s) i == 0 \/ elType s i = VCS_ELEM_TYPE_ELECTRONCHARGE) /\
   discrepancy s i <= row_tolerance cutoff s i).

(** Constraint [i] makes the assertion of [vcs_elabcheck] fail: a charge
    neutrality constraint with a nonzero target and a visible discrepancy. *)
Definition breaks_assertion (s : VCS_SOLVE) (i : nat) : Prop :=
  fabs (rdQ (gai s) i) * 1.0e-12 < discrepancy s i /\
  elType s i = VCS_ELEM_TYPE_CHARGENEUTRALITY /\
  ~ rdQ (gai s) i == 0.

(** The number of constraints that [vcs_elabcheck] looks at. *)
Definition check_scope (ibound : bool) (s : VCS_SOLVE) : nat :=
  if ibound then m_numElemConstraints s else m_numComponents s.

(** What the routines that reposition constraints never write: the mole
    numbers and the arrays and counts that describe the species and the
    phases. *)
Definition species_data (s : VCS_SOLVE)
    : list Q * list species_type * list nat * list bool * list species_status
      * nat * nat * nat :=
  (soln s, SpeciesUnknownType s, PhaseID s, SSPhase s, spStatus s,
   m_numSpeciesTot s, m_numSpeciesRdc s, NPhase s).

(** Every phase map covers the constraints of its phase. *)
Definition wf_phases (s : VCS_SOLVE) : Prop :=
  forall p, (nElemConstraints (nth p (VPhaseList s) (mkVolPhase O []))
             <= length (ElGlobalIndex (nth p (VPhaseList s) (mkVolPhase O []))))%nat.

(** Some charge-neutrality constraint has a target that is not zero. *)
Definition charged_target (s : VCS_SOLVE) : Prop :=
  exists i, elType s i = VCS_ELEM_TYPE_CHARGENEUTRALITY /\ ~ rdQ (gai s) i == 0.

(** [ga] has an entry for every constraint. *)
Definition ready (s : VCS_SOLVE) : Prop :=
  (m_numElemConstraints s <= length (ga s))%nat.

(** No mole number and no target is negative, and no species is outside
    the reduced problem. *)
Definition nonneg_problem (s : VCS_SOLVE) : Prop :=
  (forall k, 0 <= rdQ (soln s) k) /\
  (forall i, 0 <= rdQ (gai s) i) /\
  (m_numSpeciesTot s <= m_numSpeciesRdc s)%nat.

(** The mole number of species [k] in [v] holds no more of constraint [i]
    than the target allows, when [k] is not a voltage and its coefficient
    is positive. *)
Definition within_bound (s : VCS_SOLVE) (v : list Q) (i k : nat) : Prop :=
  voltage s k = false -> 0 < FM s i k ->
  rdQ v k <= rdQ (gai s) i / FM s i k.

(** [t] has the constraint data, the counts and the species types of [s]. *)
Definition same_frame (s t : VCS_SOLVE) : Prop :=
  cdata t = cdata s /\ entry_shape t = entry_shape s.

(** The problem [overshoot] with its constraint a charge-neutrality
    constraint. *)
Definition charged_overshoot : VCS_SOLVE :=
  mkVCS 1 1 2 2 1 [5] [1] [3; 2] [[1; 1]]
   [VCS_SPECIES_TYPE_MOLNUM; VCS_SPECIES_TYPE_MOLNUM] [0; 0]%nat [false; false]
   [VCS_SPECIES_ACTIVE; VCS_SPECIES_ACTIVE] [0]%Z
   [VCS_ELEM_TYPE_CHARGENEUTRALITY]
   [true] ["cn"]%string [mkVolPhase 1 [0%Z]].

(** Two [VCS_ELEM_TYPE_ABSPOS] constraints on two species, rows [1, 2] and
    [1, 0], targets 4 and 1, mole numbers 3 and 3. *)
Definition bounded_rows : VCS_SOLVE :=
  mkVCS 2 2 2 2 1 [9; 3] [4; 1] [3; 3] [[1; 2]; [1; 0]]
   [VCS_SPECIES_TYPE_MOLNUM; VCS_SPECIES_TYPE_MOLNUM] [0; 0]%nat [false; false]
   [VCS_SPECIES_ACTIVE; VCS_SPECIES_ACTIVE] [0; 0]%Z
   [VCS_ELEM_TYPE_ABSPOS; VCS_ELEM_TYPE_ABSPOS]
   [true; true] ["A"; "B"]%string [mkVolPhase 2 [0%Z; 1%Z]].

(** A charge-neutrality constraint (target 0) and an electron-charge
    constraint (target 7) on two species, rows [1, -1] and [1, 1], mole
    numbers 3 and 1. *)
Definition charge_rows : VCS_SOLVE :=
  mkVCS 2 2 2 2 1 [2; 4] [0; 7] [3; 1] [[1; -1]; [1; 1]]
   [VCS_SPECIES_TYPE_MOLNUM; VCS_SPECIES_TYPE_MOLNUM] [0; 0]%nat [false; false]
   [VCS_SPECIES_ACTIVE; VCS_SPECIES_ACTIVE] [0; 0]%Z
   [VCS_ELEM_TYPE_CHARGENEUTRALITY; VCS_ELEM_TYPE_ELECTRONCHARGE]
   [true; true] ["cn"; "E"]%string [mkVolPhase 2 [0%Z; 1%Z]].

(** Two active constraints with independent rows; the target of the first
    is -1e10 - 2. *)
Definition colliding_target : VCS_SOLVE :=
  mkVCS 2 2 2 2 1 [0; 0] [-1.0E10 - 2; 5] [0; 0] [[1; 0]; [0; 1]]
   [VCS_SPECIES_TYPE_MOLNUM; VCS_SPECIES_TYPE_MOLNUM] [0; 0]%nat [false; false]
   [VCS_SPECIES_ACTIVE; VCS_SPECIES_ACTIVE] [0; 0]%Z
   [VCS_ELEM_TYPE_OTHER; VCS_ELEM_TYPE_OTHER]
   [true; true] ["A"; "B"]%string [mkVolPhase 2 [0%Z; 1%Z]].

(** Constraint [i] can still be chosen: it is active and its entry of [aw]
    is not the key. *)
Definition selectable (s : VCS_SOLVE) (a : buf) (test : Q) (i : nat) : Prop :=
  nth i (ElActive s) false = true /\ ~ a i == test.

(** The product that stage 4 of [vcs_elcorr] forms for species [k] and
    component constraint [i]. *)
Definition stage4_dir (s : VCS_SOLVE) (k i : nat) : Q :=
  FM s i k * (rdQ (gai s) i - rdQ (ga s) i).

(** Every component constraint in which species [k] takes part is off its
    target by more than 1e-10 in this product, and all of them in the same
    direction. *)
Definition win_win (s : VCS_SOLVE) (k : nat) : Prop :=
  (forall i, (i < m_numComponents s)%nat ->
     FM s i k == 0 \/ 1.0E-10 < fabs (stage4_dir s k i)) /\
  ((forall i, (i < m_numComponents s)%nat ->
      ~ FM s i k == 0 -> 0 < stage4_dir s k i) \/
   (forall i, (i < m_numComponents s)%nat ->
      ~ FM s i k == 0 -> stage4_dir s k i < 0)).

(** The full step [x] would take a positive component below zero. *)
Definition overshoots (s : VCS_SOLVE) (x : buf) : Prop :=
  exists i, (i < m_numComponents s)%nat /\
            0 < rdQ (soln s) i /\ rdQ (soln s) i + x i < 0.

(** ** The routines in binary64 arithmetic *)

(** A second embedding of the routines, in which a C++ [double] is a
    binary64 number: every sum, product and quotient is rounded to nearest,
    a comparison with a NaN is false and [!=] with a NaN is true.  The
    definitions follow the source line by line as those of the first
    embedding do.  The statements that depend on the value of a sum, or on
    the side of a threshold on which a computed number falls, are made on
    this embedding. *)
Module Binary64.
Import PrimFloat.
#[local] Set Warnings "-inexact-float".
Local Open Scope float_scope.

(** The [!=] of two doubles. *)
Definition neb (x y : float) : bool := negb (x =? y).

(** The [>] of two doubles. *)
Definition gtb (x y : float) : bool := y <? x.

(** The [MAX] macro of [vcs_internal.h]. *)
Definition MAX (x y : float) : float := if gtb x y then x else y.

Definition fabs (x : float) : float := abs x.

(** The conversion of an [int] count to [double]. *)
Fixpoint of_int (n : nat) : float :=
  match n with
  | O => 0
  | S m => of_int m + 1
  end.

(** The [SQUARE] macro. *)
Definition SQUARE (x : float) : float := x * x.

Definition rdF (l : list float) (i : nat) : float := nth i l 0.

(** A raw work array. *)
Definition buf : Type := nat -> float.

Definition bset (b : buf) (i : nat) (v : float) : buf :=
  fun k => if Nat.eqb k i then v else b k.

Record VCS_SOLVE : Type := mkVCS {
  m_numElemConstraints : nat;
  m_numComponents : nat;
  m_numSpeciesTot : nat;
  m_numSpeciesRdc : nat;
  NPhase : nat;
  ga : list float;
  gai : list float;
  soln : list float;
  FormulaMatrix : list (list float);
  SpeciesUnknownType : list species_type;
  PhaseID : list nat;
  SSPhase : list bool;
  spStatus : list species_status;
  IndEl : list Z;
  m_elType : list elem_type;
  ElActive : list bool;
  ElName : list string;
  VPhaseList : list vcs_VolPhase
}.

Definition set_ga (v : list float) (s : VCS_SOLVE) : VCS_SOLVE :=
  mkVCS (m_numElemConstraints s) (m_numComponents s) (m_numSpeciesTot s)
        (m_numSpeciesRdc s) (NPhase s) v (gai s) (soln s) (FormulaMatrix s)
        (SpeciesUnknownType s) (PhaseID s) (SSPhase s) (spStatus s) (IndEl s)
        (m_elType s) (ElActive s) (ElName s) (VPhaseList s).

(** [FormulaMatrix[j][i]]: constraint [j], species [i]. *)
Definition FM (s : VCS_SOLVE) (j i : nat) : float :=
  rdF (nth j (FormulaMatrix s) []) i.

Definition voltage (s : VCS_SOLVE) (i : nat) : bool :=
  is_voltage (nth i (SpeciesUnknownType s) VCS_SPECIES_TYPE_MOLNUM).

(** *** vcs_elab *)

(** The inner loop of [vcs_elab]: [ga[j] += FormulaMatrix[j][i] * soln[i]]
    for every species [i] that is not an interfacial voltage. *)
Definition elab_add (s : VCS_SOLVE) (j : nat) (acc : float) (i : nat) : float :=
  if voltage s i then acc else acc + FM s j i * rdF (soln s) i.

Definition elab_row (s : VCS_SOLVE) (j : nat) : float :=
  fold_left (elab_add s j) (seq 0 (m_numSpeciesTot s)) 0.0.

Definition elab_loop (s : VCS_SOLVE) (g : list float) : list float :=
  fold_left (fun g j => upd j (elab_row s j) g)
            (seq 0 (m_numElemConstraints s)) g.

Definition vcs_elab (s : VCS_SOLVE) : VCS_SOLVE :=
  set_ga (elab_loop s (ga s)) s.

(** *** vcs_elabPhase *)

Definition elabPhase_add (s : VCS_SOLVE) (iphase j : nat) (acc : float) (i : nat)
    : float :=
  if voltage s i then acc
  else if Nat.eqb (nth i (PhaseID s) O) iphase
       then acc + FM s j i * rdF (soln s) i
       else acc.

Definition elabPhase_row (s : VCS_SOLVE) (iphase j : nat) : float :=
  fold_left (elabPhase_add s iphase j) (seq 0 (m_numSpeciesTot s)) 0.0.

Definition vcs_elabPhase (s : VCS_SOLVE) (iphase : nat)
    (elemAbundPhase : list float) : list float :=
  fold_left (fun g j => upd j (elabPhase_row s iphase j) g)
            (seq 0 (m_numElemConstraints s)) elemAbundPhase.

(** *** Outcomes of a member function *)

Inductive result (A : Type) : Type :=
  | Ok (a : A) (s : VCS_SOLVE)
  | Throw (proc : string)
  | Exit (code : Z).
Arguments Ok {A} a s.
Arguments Throw {A} proc.
Arguments Exit {A} code.

Definition set_soln (v : list float) (s : VCS_SOLVE) : VCS_SOLVE :=
  mkVCS (m_numElemConstraints s) (m_numComponents s) (m_numSpeciesTot s)
        (m_numSpeciesRdc s) (NPhase s) (ga s) (gai s) v (FormulaMatrix s)
        (SpeciesUnknownType s) (PhaseID s) (SSPhase s) (spStatus s) (IndEl s)
        (m_elType s) (ElActive s) (ElName s) (VPhaseList s).

Definition set_spStatus (v : list species_status) (s : VCS_SOLVE) : VCS_SOLVE :=
  mkVCS (m_numElemConstraints s) (m_numComponents s) (m_numSpeciesTot s)
        (m_numSpeciesRdc s) (NPhase s) (ga s) (gai s) (soln s) (FormulaMatrix s)
        (SpeciesUnknownType s) (PhaseID s) (SSPhase s) v (IndEl s)
        (m_elType s) (ElActive s) (ElName s) (VPhaseList s).

Definition elType (s : VCS_SOLVE) (i : nat) : elem_type :=
  nth i (m_elType s) VCS_ELEM_TYPE_OTHER.

Definition bind {A B : Type} (m : result A) (k : A -> VCS_SOLVE -> result B)
    : result B :=
  match m with
  | Ok a s => k a s
  | Throw p => Throw p
  | Exit c => Exit c
  end.

Section Corrector.

(** Constants of [vcs_defs.h] and collaborators of [VCS_SOLVE] that the
    routines use and whose text is elsewhere in the package. *)
Variable VCS_DELETE_MINORSPECIES_CUTOFF : float.
Variable VCS_FAILED_CONVERGENCE : Z.
(** [vcsUtil_mlequ c idem n b m]: status, and the overwritten [c] and [b]. *)
Variable vcsUtil_mlequ : buf -> nat -> nat -> buf -> nat -> Z * buf * buf.
Variable vcs_tmoles : VCS_SOLVE -> VCS_SOLVE.
Variable vcs_reinsert_deleted : nat -> VCS_SOLVE -> VCS_SOLVE.

(** *** vcs_elabcheck *)

(** The scan of row [i]: [(scale, multisign, numNonZero)]. *)
Definition check_scan (s : VCS_SOLVE) (i : nat) : float * bool * nat :=
  fold_left
    (fun (acc : float * bool * nat) kspec =>
       let '(scale, multisign, numNonZero) := acc in
       let eval := FM s i kspec in
       let multisign := if PrimFloat.ltb eval 0 then true else multisign in
       if neb eval 0
       then (MAX scale (fabs (eval * rdF (soln s) kspec)), multisign, S numNonZero)
       else (scale, multisign, numNonZero))
    (seq 0 (m_numSpeciesTot s))
    (VCS_DELETE_MINORSPECIES_CUTOFF, false, O).

Inductive check : Type := CkTrue | CkFalse | CkThrow.

Definition discrepancy (s : VCS_SOLVE) (i : nat) : float :=
  fabs (rdF (ga s) i - rdF (gai s) i).

Fixpoint elabcheck_loop (s : VCS_SOLVE) (idx : list nat) : check :=
  match idx with
  | [] => CkTrue
  | i :: rest =>
    if gtb (discrepancy s i) (fabs (rdF (gai s) i) * 1.0e-12) then
      if elem_type_eqb (elType s i) VCS_ELEM_TYPE_CHARGENEUTRALITY
         && negb (PrimFloat.eqb (rdF (gai s) i) 0)
      then CkThrow
      else if PrimFloat.eqb (rdF (gai s) i) 0
              || elem_type_eqb (elType s i) VCS_ELEM_TYPE_ELECTRONCHARGE
      then
        let '(scale, multisign, _) := check_scan s i in
        if multisign then
          if gtb (discrepancy s i) (1e-11 * scale) then CkFalse
          else elabcheck_loop s rest
        else
          if gtb (discrepancy s i) VCS_DELETE_MINORSPECIES_CUTOFF then CkFalse
          else elabcheck_loop s rest
      else CkFalse
    else elabcheck_loop s rest
  end.

Definition vcs_elabcheck (ibound : bool) (s : VCS_SOLVE) : result bool :=
  let top := if ibound then m_numElemConstraints s else m_numComponents s in
  match elabcheck_loop s (seq 0 top) with
  | CkTrue => Ok true s
  | CkFalse => Ok false s
  | CkThrow => Throw "vcs_elabcheck"
  end.

(** *** vcs_elcorr *)

(** Stage 1: rows with one sign. *)

Definition sign_scan (s : VCS_SOLVE) (i : nat) : bool * nat :=
  fold_left
    (fun (acc : bool * nat) kspec =>
       let '(multisign, numNonZero) := acc in
       if voltage s kspec then acc
       else
         let eval := FM s i kspec in
         (if PrimFloat.ltb eval 0 then true else multisign,
          if neb eval 0 then S numNonZero else numNonZero))
    (seq 0 (m_numSpeciesTot s)) (false, O).

Definition single_step (i : nat) (acc : VCS_SOLVE * bool) (kspec : nat)
    : VCS_SOLVE * bool :=
  let '(s, changed) := acc in
  if voltage s kspec then acc
  else
    let eval := FM s i kspec in
    if gtb eval 0
    then (set_soln (upd kspec (rdF (gai s) i / eval) (soln s)) s, true)
    else acc.

Definition comp_scan (s : VCS_SOLVE) (i : nat) : nat * Z :=
  fold_left
    (fun (acc : nat * Z) kspec =>
       let '(numCompNonZero, compID) := acc in
       if voltage s kspec then acc
       else if gtb (FM s i kspec) 0
            then (S numCompNonZero, Z.of_nat kspec)
            else acc)
    (seq 0 (m_numComponents s)) (O, (-1)%Z).

Definition diff_step (i compID : nat) (acc : float * VCS_SOLVE * bool) (kspec : nat)
    : float * VCS_SOLVE * bool :=
  let '(diff, s, _) := acc in
  let diff := if voltage s kspec then diff
              else diff - FM s i kspec * rdF (soln s) kspec in
  (diff,
   set_soln (upd compID (MAX 0.0 (diff / FM s i compID)) (soln s)) s,
   true).

Definition stage1_row (acc : VCS_SOLVE * bool) (i : nat) : VCS_SOLVE * bool :=
  let '(s, changed) := acc in
  let '(multisign, numNonZero) := sign_scan s i in
  if multisign then acc
  else if Nat.ltb numNonZero 2 then
    fold_left (single_step i) (seq 0 (m_numSpeciesTot s)) acc
  else
    let '(numCompNonZero, compID) := comp_scan s i in
    if Nat.eqb numCompNonZero 1 then
      let '(_, s', changed') :=
        fold_left (diff_step i (Z.to_nat compID))
                  (seq (m_numComponents s) (m_numSpeciesTot s - m_numComponents s))
                  (rdF (gai s) i, s, changed) in
      (s', changed')
    else acc.

Definition stage1 (s : VCS_SOLVE) : VCS_SOLVE * bool :=
  fold_left stage1_row (seq 0 (m_numElemConstraints s)) (s, false).

(** Stage 2: maximum bounds from the [VCS_ELEM_TYPE_ABSPOS] constraints. *)

Definition bound_step (i : nat) (acc : VCS_SOLVE * bool) (kspec : nat)
    : VCS_SOLVE * bool :=
  let '(s, changed) := acc in
  if voltage s kspec then acc
  else
    let atomComp := FM s i kspec in
    if gtb atomComp 0 then
      let maxPermissible := rdF (gai s) i / atomComp in
      if gtb (rdF (soln s) kspec) maxPermissible then
        let s1 := set_soln (upd kspec maxPermissible (soln s)) s in
        if PrimFloat.ltb (rdF (soln s1) kspec) VCS_DELETE_MINORSPECIES_CUTOFF then
          let s2 := set_soln (upd kspec 0.0 (soln s1)) s1 in
          (set_spStatus
             (upd kspec
                  (if nth kspec (SSPhase s2) false
                   then VCS_SPECIES_ZEROEDSS else VCS_SPECIES_ZEROEDMS)
                  (spStatus s2)) s2,
           true)
        else (s1, true)
      else acc
    else acc.

Definition stage2_row (acc : VCS_SOLVE * bool) (i : nat) : VCS_SOLVE * bool :=
  let '(s, _) := acc in
  if elem_type_eqb (elType s i) VCS_ELEM_TYPE_ABSPOS
  then fold_left (bound_step i) (seq 0 (m_numSpeciesTot s)) acc
  else acc.

Definition stage2 (s : VCS_SOLVE) : VCS_SOLVE * bool :=
  fold_left stage2_row (seq 0 (m_numElemConstraints s)) (s, false).

(** Stage 3: the linear problem of length [m_numComponents]. *)

Definition setup_row (s : VCS_SOLVE) (acc : buf * buf * Z) (i : nat)
    : buf * buf * Z :=
  let '(aa, x, retn) := acc in
  let xi := rdF (ga s) i - rdF (gai s) i in
  let x := bset x i xi in
  let retn := if gtb (fabs xi) 1.0E-13 then 1%Z else retn in
  let aa := fold_left
              (fun aa j => bset aa (j + i * m_numElemConstraints s) (FM s j i))
              (seq 0 (m_numComponents s)) aa in
  (aa, x, retn).

Definition setup (s : VCS_SOLVE) (aa x : buf) : buf * buf * Z :=
  fold_left (setup_row s) (seq 0 (m_numComponents s)) (aa, x, 0%Z).

Definition par_step (s : VCS_SOLVE) (x : buf) (par : float) (i : nat) : float :=
  if gtb (rdF (soln s) i) 0.0 then
    let xx := - x i / rdF (soln s) i in
    if PrimFloat.ltb par xx then xx else par
  else par.

Definition damping (s : VCS_SOLVE) (x : buf) : float :=
  let par := fold_left (par_step s x) (seq 0 (m_numComponents s)) 0.5 in
  let par := if gtb par 100.0 then 100.0 else par in
  1.0 / par.

(** One component of the step; [dx] is [par * x[i]] or [x[i]]. *)
Definition step_comp (dx : nat -> float) (s : VCS_SOLVE) (i : nat) : VCS_SOLVE :=
  let tmp := rdF (soln s) i + dx i in
  if gtb tmp 0.0 then set_soln (upd i tmp (soln s)) s
  else if nth i (SSPhase s) false
       then set_soln (upd i 0.0 (soln s)) s
       else set_soln (upd i (rdF (soln s) i * 0.0001) (soln s)) s.

Definition apply_step (s : VCS_SOLVE) (x : buf) (retn : Z) : VCS_SOLVE * Z :=
  let par := damping s x in
  if PrimFloat.ltb par 1.0 && gtb par 0.0 then
    let par := par * 0.9999 in
    (fold_left (step_comp (fun i => par * x i)) (seq 0 (m_numComponents s)) s,
     2%Z)
  else
    (fold_left (step_comp (fun i => x i)) (seq 0 (m_numComponents s)) s,
     retn).

(** Stage 4: a species whose adjustment helps every component constraint. *)

Fixpoint goodSpec_loop (s : VCS_SOLVE) (kspec : nat) (saveDir : float)
    (idx : list nat) : bool :=
  match idx with
  | [] => true
  | i :: rest =>
    let dir := FM s i kspec * (rdF (gai s) i - rdF (ga s) i) in
    if gtb (fabs dir) 1.0E-10 then
      if gtb dir 0.0 then
        if PrimFloat.ltb saveDir 0.0 then false else goodSpec_loop s kspec dir rest
      else
        if gtb saveDir 0.0 then false else goodSpec_loop s kspec dir rest
    else
      if neb (FM s i kspec) 0 then false
      else goodSpec_loop s kspec saveDir rest
  end.

Definition adhoc_delta (s : VCS_SOLVE) (kspec : nat) : float :=
  let '(xx, its) :=
    fold_left
      (fun (acc : float * nat) i =>
         let '(xx, its) := acc in
         if neb (FM s i kspec) 0.0
         then (xx + (rdF (gai s) i - rdF (ga s) i) / FM s i kspec, S its)
         else acc)
      (seq 0 (m_numComponents s)) (0.0, O) in
  if Nat.ltb 0 its then xx / of_int its else xx.

(** The result carries [true] when the loop left through [goto L_CLEANUP]. *)
Fixpoint adhoc_loop (s : VCS_SOLVE) (ks : list nat) : VCS_SOLVE * bool :=
  match ks with
  | [] => (s, false)
  | kspec :: rest =>
    if voltage s kspec then adhoc_loop s rest
    else if goodSpec_loop s kspec 0.0 (seq 0 (m_numComponents s)) then
      let xx := adhoc_delta s kspec in
      let s1 := set_soln (upd kspec (rdF (soln s) kspec + xx) (soln s)) s in
      let s2 := set_soln (upd kspec (MAX (rdF (soln s1) kspec) 1.0E-10) (soln s1)) s1 in
      if Nat.leb (m_numSpeciesRdc s2) kspec then
        let s3 := vcs_reinsert_deleted kspec s2 in
        let s4 := set_soln (upd (m_numSpeciesRdc s3 - 1) xx (soln s3)) s3 in
        (vcs_elab s4, true)
      else adhoc_loop (vcs_elab s2) rest
    else adhoc_loop s rest
  end.

(** Stages 5 and 6 share the floored update of one mole number. *)
Definition add_floor (kspec : nat) (delta : float) (s : VCS_SOLVE) : VCS_SOLVE :=
  let s1 := set_soln (upd kspec (rdF (soln s) kspec + delta) (soln s)) s in
  if PrimFloat.ltb (rdF (soln s1) kspec) 0.0
  then set_soln (upd kspec 0.0 (soln s1)) s1
  else s1.

Definition sub_floor (kspec : nat) (delta : float) (s : VCS_SOLVE) : VCS_SOLVE :=
  let s1 := set_soln (upd kspec (rdF (soln s) kspec - delta) (soln s)) s in
  if PrimFloat.ltb (rdF (soln s1) kspec) 0.0
  then set_soln (upd kspec 0.0 (soln s1)) s1
  else s1.

(** Stage 5: charge neutrality and zero-target [ABSPOS] constraints. *)
Fixpoint neutral_inner (s : VCS_SOLVE) (i : nat) (ks : list nat) : VCS_SOLVE :=
  match ks with
  | [] => s
  | kspec :: rest =>
    if gtb (rdF (ga s) i) 0.0 && PrimFloat.ltb (FM s i kspec) 0.0 then
      vcs_elab (sub_floor kspec (rdF (ga s) i / FM s i kspec) s)
    else if PrimFloat.ltb (rdF (ga s) i) 0.0 && gtb (FM s i kspec) 0.0 then
      vcs_elab (sub_floor kspec (rdF (ga s) i / FM s i kspec) s)
    else neutral_inner s i rest
  end.

Definition neutral_row (s : VCS_SOLVE) (i : nat) : VCS_SOLVE :=
  if elem_type_eqb (elType s i) VCS_ELEM_TYPE_CHARGENEUTRALITY
     || (elem_type_eqb (elType s i) VCS_ELEM_TYPE_ABSPOS
         && PrimFloat.eqb (rdF (gai s) i) 0.0)
  then neutral_inner s i (seq 0 (m_numSpeciesRdc s))
  else s.

Definition stage5 (s : VCS_SOLVE) : VCS_SOLVE :=
  fold_left neutral_row (seq 0 (m_numElemConstraints s)) s.

(** Stage 6: electron-charge constraints. *)
Definition useZeroed_scan (s : VCS_SOLVE) (i : nat) (dev : float) : bool :=
  fold_left
    (fun (useZeroed : bool) kspec =>
       if PrimFloat.ltb dev 0.0 then
         if PrimFloat.ltb (FM s i kspec) 0.0 && gtb (rdF (soln s) kspec) 0.0
         then false else useZeroed
       else
         if gtb (FM s i kspec) 0.0 && gtb (rdF (soln s) kspec) 0.0
         then false else useZeroed)
    (seq 0 (m_numSpeciesRdc s)) true.

Fixpoint electron_inner (s : VCS_SOLVE) (i : nat) (dev : float) (useZeroed : bool)
    (ks : list nat) : VCS_SOLVE :=
  match ks with
  | [] => s
  | kspec :: rest =>
    if gtb (rdF (soln s) kspec) 0.0 || useZeroed then
      if PrimFloat.ltb dev 0.0 && PrimFloat.ltb (FM s i kspec) 0.0 then
        vcs_elab (add_floor kspec (dev / FM s i kspec) s)
      else if gtb dev 0.0 && gtb (FM s i kspec) 0.0 then
        vcs_elab (add_floor kspec (dev / FM s i kspec) s)
      else electron_inner s i dev useZeroed rest
    else electron_inner s i dev useZeroed rest
  end.

Definition electron_row (s : VCS_SOLVE) (i : nat) : VCS_SOLVE :=
  let dev := rdF (gai s) i - rdF (ga s) i in
  if elem_type_eqb (elType s i) VCS_ELEM_TYPE_ELECTRONCHARGE
     && gtb (fabs dev) 1.0E-300
  then electron_inner s i dev (useZeroed_scan s i dev) (seq 0 (m_numSpeciesRdc s))
  else s.

Definition stage6 (s : VCS_SOLVE) : VCS_SOLVE :=
  fold_left electron_row (seq 0 (m_numElemConstraints s)) s.

(** [L_CLEANUP]. *)
Definition cleanup (retn : Z) (s : VCS_SOLVE) : result Z :=
  Ok retn (vcs_tmoles s).

Definition after_changed (r : VCS_SOLVE * bool) : VCS_SOLVE :=
  if snd r then vcs_elab (fst r) else fst r.

(** The part of [vcs_elcorr] after the general step. *)
Definition elcorr_tail (retn : Z) (s3 : VCS_SOLVE) : result Z :=
  let '(s4, jumped) :=
    if Z.leb 2 retn then adhoc_loop s3 (seq 0 (m_numSpeciesTot s3))
    else (s3, false) in
  if jumped then cleanup retn s4
  else
    bind (vcs_elabcheck false s4) (fun ok s4 =>
    if ok then cleanup 1%Z s4
    else
      let s5 := stage5 s4 in
      bind (vcs_elabcheck true s5) (fun ok s5 =>
      if ok then cleanup 1%Z s5
      else
        let s6 := stage6 s5 in
        bind (vcs_elabcheck true s6) (fun ok s6 =>
        if ok then cleanup 1%Z s6 else cleanup retn s6))).

Definition vcs_elcorr (aa x : buf) (s : VCS_SOLVE) : result Z :=
  let s1 := after_changed (stage1 s) in
  let s2 := after_changed (stage2 s1) in
  let '(aa, x, retn) := setup s2 aa x in
  let '(i, aa, x) :=
    vcsUtil_mlequ aa (m_numElemConstraints s2) (m_numComponents s2) x 1%nat in
  if Z.eqb i 1 then Ok VCS_FAILED_CONVERGENCE s2
  else
    let '(s3, retn) := apply_step s2 x retn in
    elcorr_tail retn (vcs_tmoles (vcs_elab s3)).

End Corrector.

(** *** vcs_switch_elem_pos *)

Definition fm_set (fm : list (list float)) (r c : nat) (v : float)
    : list (list float) :=
  upd r (upd c v (nth r fm [])) fm.

(** [SWAP(FormulaMatrix[ipos][j], FormulaMatrix[jpos][j], dtmp)]. *)
Definition swap_entry (ipos jpos : nat) (fm : list (list float)) (j : nat)
    : list (list float) :=
  let dtmp := rdF (nth jpos fm []) j in
  let fm1 := fm_set fm jpos j (rdF (nth ipos fm []) j) in
  fm_set fm1 ipos j dtmp.

Definition swap_rows (ipos jpos nspecies : nat) (fm : list (list float))
    : list (list float) :=
  fold_left (swap_entry ipos jpos) (seq 0 nspecies) fm.

Definition vcs_switch_elem_pos (ipos jpos : nat) (s : VCS_SOLVE) : VCS_SOLVE :=
  if Nat.eqb ipos jpos then s
  else
    mkVCS (m_numElemConstraints s) (m_numComponents s) (m_numSpeciesTot s)
          (m_numSpeciesRdc s) (NPhase s)
          (vcsUtil_sw 0 (ga s) ipos jpos)
          (vcsUtil_sw 0 (gai s) ipos jpos)
          (soln s)
          (swap_rows ipos jpos (m_numSpeciesTot s) (FormulaMatrix s))
          (SpeciesUnknownType s) (PhaseID s) (SSPhase s) (spStatus s)
          (vcsUtil_sw 0%Z (IndEl s) ipos jpos)
          (vcsUtil_sw VCS_ELEM_TYPE_OTHER (m_elType s) ipos jpos)
          (vcsUtil_sw false (ElActive s) ipos jpos)
          (vcsUtil_sw EmptyString (ElName s) ipos jpos)
          (switch_phases ipos jpos (NPhase s) (VPhaseList s)).

(** *** vcs_elem_rearrange *)

(** The work arrays [aw], [sa], [sm], [ss]. *)
Record work : Type := mkWork { aw : buf; sa : buf; sm : buf; ss : buf }.

Definition bsw (x : buf) (i1 i2 : nat) : buf :=
  let t := x i1 in
  let x1 := bset x i1 (x i2) in
  bset x1 i2 t.

(** One pass of the first loop: [test] is decreased once per constraint and
    compared with the entry just copied. *)
Definition sentinel_step (s : VCS_SOLVE) (acc : float * buf * bool) (i : nat)
    : float * buf * bool :=
  let '(test, a, lindep) := acc in
  let test := test - 1.0 in
  let a := bset a i (rdF (gai s) i) in
  (test, a, if test =? a i then true else lindep).

Definition sentinel_pass (s : VCS_SOLVE) (test : float) (a : buf)
    : float * buf * bool :=
  fold_left (sentinel_step s) (seq 0 (m_numElemConstraints s)) (test, a, false).

Fixpoint sentinel_loop (fuel : nat) (s : VCS_SOLVE) (test : float) (a : buf)
    : option (float * buf) :=
  match fuel with
  | O => None
  | S fuel' =>
    let '(test', a', lindep) := sentinel_pass s test a in
    if lindep then sentinel_loop fuel' s test' a' else Some (test', a')
  end.

(** The search for the next constraint: the first active one from [jr] on
    whose key is not [test]; [m_numElemConstraints] when there is none. *)
Fixpoint find_k (s : VCS_SOLVE) (a : buf) (test : float) (idx : list nat) : nat :=
  match idx with
  | [] => m_numElemConstraints s
  | ielem :: rest =>
    if nth ielem (ElActive s) false && neb (a ielem) test then ielem
    else find_k s a test rest
  end.

Definition fill_row (s : VCS_SOLVE) (k jr : nat) (m : buf) : buf :=
  fold_left
    (fun m j => bset m (j + jr * m_numComponents s) (FM s k j))
    (seq 0 (m_numComponents s)) m.

Definition dot_rows (s : VCS_SOLVE) (m : buf) (jr j : nat) : float :=
  fold_left
    (fun acc i => acc + m (i + jr * m_numComponents s)%nat * m (i + j * m_numComponents s)%nat)
    (seq 0 (m_numComponents s)) 0.0.

Definition coeffs (s : VCS_SOLVE) (w : work) (jr jl : nat) : buf :=
  fold_left
    (fun c j => bset c j (dot_rows s (sm w) jr j / sa w j))
    (seq 0 jl) (ss w).

Definition orthogonalize (s : VCS_SOLVE) (c : buf) (jr jl : nat) (m : buf) : buf :=
  fold_left
    (fun m j =>
       fold_left
         (fun m l =>
            bset m (l + jr * m_numComponents s)
                 (m (l + jr * m_numComponents s)%nat
                  - c j * m (l + j * m_numComponents s)%nat))
         (seq 0 (m_numComponents s)) m)
    (seq 0 jl) m.

Definition norm2 (s : VCS_SOLVE) (m : buf) (jr : nat) : float :=
  fold_left
    (fun acc ml => acc + SQUARE (m (ml + jr * m_numComponents s)%nat))
    (seq 0 (m_numComponents s)) 0.0.

(** The Gram-Schmidt trial of constraint [k] as row [jr]. *)
Definition trial (s : VCS_SOLVE) (k jr : nat) (test : float) (w : work) : work :=
  let a := bset (aw w) k test in
  let jl := jr in
  let m := fill_row s k jr (sm w) in
  let w1 := mkWork a (sa w) m (ss w) in
  let w2 :=
    if Nat.ltb 0 jl then
      let c := coeffs s w1 jr jl in
      mkWork a (sa w) (orthogonalize s c jr jl m) c
    else w1 in
  mkWork (aw w2) (bset (sa w2) jr (norm2 s (sm w2) jr)) (sm w2) (ss w2).

Section Solver.

(** The success status of [vcs_defs.h], a header that is not part of these
    files. *)
Variable VCS_SUCCESS : Z.

(** The two nested [do ... while] loops; one unit of fuel per trial. *)
Fixpoint rearrange_loop (fuel : nat) (test : float) (jr : nat) (w : work)
    (s : VCS_SOLVE) : option (result Z) :=
  match fuel with
  | O => None
  | S fuel' =>
    let k := find_k s (aw w) test
               (seq jr (m_numElemConstraints s - jr)) in
    if Nat.eqb k (m_numElemConstraints s) then Some (Exit (-1)%Z)
    else
      let w1 := trial s k jr test w in
      if sa w1 jr <? 1.0e-6 then rearrange_loop fuel' test jr w1 s
      else
        let s1 := if Nat.eqb jr k then s else vcs_switch_elem_pos jr k s in
        let w2 := if Nat.eqb jr k then w1
                  else mkWork (bsw (aw w1) jr k) (sa w1) (sm w1) (ss w1) in
        if Nat.ltb (S jr) (m_numComponents s)
        then rearrange_loop fuel' test (S jr) w2 s1
        else Some (Ok VCS_SUCCESS s1)
  end.

Definition vcs_elem_rearrange (fuel : nat) (w : work) (s : VCS_SOLVE)
    : option (result Z) :=
  match sentinel_loop fuel s (-1.0E10) (aw w) with
  | None => None
  | Some (test, a) =>
    rearrange_loop fuel test O (mkWork a (sa w) (sm w) (ss w)) s
  end.

End Solver.

(** *** Collaborators for running the routines on examples *)

(** Entry (row [i], column [j]) of a matrix stored by columns with leading
    dimension [idem], as [vcs_elcorr] fills [aa]. *)
Definition mat (c : buf) (idem i j : nat) : float := c (i + j * idem)%nat.

(** The first row from [k] on with a nonzero entry in column [k]. *)
Fixpoint pivot_row (c : buf) (idem k : nat) (rows : list nat) : option nat :=
  match rows with
  | [] => None
  | i :: rest =>
    if neb (mat c idem i k) 0 then Some i else pivot_row c idem k rest
  end.

(** Row [i] minus the multiple of the pivot row that clears column [k]. *)
Definition gj_elim (idem n k : nat) (cb : buf * buf) (i : nat) : buf * buf :=
  if Nat.eqb i k then cb
  else
    let '(c, b) := cb in
    let f := mat c idem i k in
    (fold_left
       (fun c' j => bset c' (i + j * idem) (mat c idem i j - f * mat c idem k j))
       (seq 0 n) c,
     bset b i (b i - f * b k)).

(** One column of the elimination: pivot search, row exchange, scaling of
    the pivot row, elimination in the other rows. *)
Definition gj_step (idem n : nat) (acc : option (buf * buf)) (k : nat)
    : option (buf * buf) :=
  match acc with
  | None => None
  | Some (c, b) =>
    match pivot_row c idem k (seq k (n - k)) with
    | None => None
    | Some p =>
      let c1 := fold_left
                  (fun c' j =>
                     bset (bset c' (k + j * idem) (mat c idem p j))
                          (p + j * idem) (mat c idem k j))
                  (seq 0 n) c in
      let b1 := bsw b k p in
      let piv := mat c1 idem k k in
      let c2 := fold_left
                  (fun c' j => bset c' (k + j * idem) (mat c1 idem k j / piv))
                  (seq 0 n) c1 in
      let b2 := bset b1 k (b1 k / piv) in
      Some (fold_left (gj_elim idem n k) (seq 0 n) (c2, b2))
    end
  end.

(** Modelled from the spec: the generic dense linear-system solver
    [vcsUtil_mlequ] (square system, single right-hand side, nonzero status
    on singularity), whose text is not part of these files.  It solves
    [C X + B = 0] by Gauss-Jordan elimination, so that [X] is the correction
    direction for the discrepancy [B]; the status is 1 when no pivot is
    found. *)
Definition mlequ_model (c : buf) (idem n : nat) (b : buf) (m : nat)
    : Z * buf * buf :=
  match fold_left (gj_step idem n) (seq 0 n) (Some (c, b)) with
  | None => (1%Z, c, b)
  | Some (c', b') => (0%Z, c', fun i => - b' i)
  end.

(** Modelled from the spec: [vcs_tmoles] recomputes the phase totals, which
    are derived sums kept outside the members modelled in [VCS_SOLVE]; on
    this record it changes nothing. *)
Definition tmoles_model (s : VCS_SOLVE) : VCS_SOLVE := s.

(** The exchange of the species at positions [k1] and [k2]: their entries
    in every array indexed by species and their columns of the formula
    matrix. *)
Definition exchange_species (k1 k2 : nat) (s : VCS_SOLVE) : VCS_SOLVE :=
  mkVCS (m_numElemConstraints s) (m_numComponents s) (m_numSpeciesTot s)
        (m_numSpeciesRdc s) (NPhase s) (ga s) (gai s)
        (vcsUtil_sw 0 (soln s) k1 k2)
        (map (fun row => vcsUtil_sw 0 row k1 k2) (FormulaMatrix s))
        (vcsUtil_sw VCS_SPECIES_TYPE_MOLNUM (SpeciesUnknownType s) k1 k2)
        (vcsUtil_sw O (PhaseID s) k1 k2)
        (vcsUtil_sw false (SSPhase s) k1 k2)
        (vcsUtil_sw VCS_SPECIES_ACTIVE (spStatus s) k1 k2)
        (IndEl s) (m_elType s) (ElActive s) (ElName s) (VPhaseList s).

(** Modelled from the spec: [vcs_reinsert_deleted] reactivates a species
    that had been removed: the species is marked active and joins the
    active range.  The caller stores the mole number of the species in
    [soln[m_numSpeciesRdc - 1]] right after the call, so the species is
    taken to the end of the active range: when it is not there already it
    exchanges its position with the species that is. *)
Definition reinsert_model (kspec : nat) (s : VCS_SOLVE) : VCS_SOLVE :=
  exchange_species kspec (m_numSpeciesRdc s)
    (mkVCS (m_numElemConstraints s) (m_numComponents s) (m_numSpeciesTot s)
           (S (m_numSpeciesRdc s)) (NPhase s) (ga s) (gai s) (soln s)
           (FormulaMatrix s) (SpeciesUnknownType s) (PhaseID s) (SSPhase s)
           (upd kspec VCS_SPECIES_ACTIVE (spStatus s)) (IndEl s)
           (m_elType s) (ElActive s) (ElName s) (VPhaseList s)).

(** Modelled from the spec: the fixed minor-species cutoff constant
    [VCS_DELETE_MINORSPECIES_CUTOFF] of [vcs_defs.h], a header that is not
    part of these files; a small positive value for running examples. *)
Definition cutoff_value : float := 1.0e-140.

(** [vcs_elcorr] with these collaborators and cleared work arrays. *)
Definition run_elcorr (s : VCS_SOLVE) : result Z :=
  vcs_elcorr cutoff_value failed_value mlequ_model tmoles_model reinsert_model
             (fun _ => 0) (fun _ => 0) s.

(** Cleared work arrays for [vcs_elem_rearrange]. *)
Definition zero_work : work :=
  mkWork (fun _ => 0) (fun _ => 0) (fun _ => 0) (fun _ => 0).

(** *** Definitions used by the statements *)

(** The rational number that a finite double stands for; 0 for an infinity
    and for a NaN. *)
Definition value (x : float) : Q :=
  match FloatOps.Prim2SF x with
  | SpecFloat.S754_finite sg m e =>
      let v := if (0 <=? e)%Z then inject_Z (Z.pos m * 2 ^ e)
               else Qdiv (inject_Z (Z.pos m)) (inject_Z (2 ^ (- e))) in
      if sg then Qopp v else v
  | _ => 0%Q
  end.

(** The double is a number: neither an infinity nor a NaN. *)
Definition finite (x : float) : bool :=
  match FloatOps.Prim2SF x with
  | SpecFloat.S754_finite _ _ _ | SpecFloat.S754_zero _ => true
  | _ => false
  end.

(** The sum [x + y] is a number and is not rounded. *)
Definition exact_add (x y : float) : bool :=
  finite (x + y) && Qeq_bool (value (x + y)) (Qplus (value x) (value y)).

(** The product [x * y] is a number and is not rounded. *)
Definition exact_mul (x y : float) : bool :=
  finite (x * y) && Qeq_bool (value (x * y)) (Qmult (value x) (value y)).

(** No product and no partial sum is rounded when the terms
    [FormulaMatrix[j][k] * soln[k]] of the species [k] of [l] for which
    [pick k] holds are added to [acc] one after the other. *)
Fixpoint exact_terms (s : VCS_SOLVE) (pick : nat -> bool) (j : nat)
    (l : list nat) (acc : float) : bool :=
  match l with
  | [] => true
  | k :: rest =>
    if pick k then
      exact_mul (FM s j k) (rdF (soln s) k)
      && exact_add acc (FM s j k * rdF (soln s) k)
      && exact_terms s pick j rest (acc + FM s j k * rdF (soln s) k)
    else exact_terms s pick j rest acc
  end.

(** Species [k] is counted by [vcs_elab]. *)
Definition counted (s : VCS_SOLVE) (k : nat) : bool := negb (voltage s k).

(** Species [k] is counted by [vcs_elabPhase] for phase [p]. *)
Definition counted_in (s : VCS_SOLVE) (p k : nat) : bool :=
  negb (voltage s k) && Nat.eqb (nth k (PhaseID s) O) p.

(** Nothing is rounded in the row [j] of [vcs_elab]. *)
Definition exact_row (s : VCS_SOLVE) (j : nat) : bool :=
  exact_terms s (counted s) j (seq 0 (m_numSpeciesTot s)) 0.0.

(** Nothing is rounded in the row [j] of [vcs_elabPhase] for phase [p]. *)
Definition exact_phase_row (s : VCS_SOLVE) (p j : nat) : bool :=
  exact_terms s (counted_in s p) j (seq 0 (m_numSpeciesTot s)) 0.0.

(** The species that are not interfacial voltages. *)
Definition nonvoltage_species (s : VCS_SOLVE) : list nat :=
  filter (fun k => negb (voltage s k)) (seq 0 (m_numSpeciesTot s)).

(** The abundance of constraint [i] as accumulated in binary64 arithmetic:
    the terms of the species that are not interfacial voltages, added one
    after the other in species order to 0.0. *)
Definition accumulated (s : VCS_SOLVE) (i : nat) : float :=
  fold_left (fun acc k => acc + FM s i k * rdF (soln s) k)
            (nonvoltage_species s) 0.0.

(** The sum, in exact arithmetic, of the numbers that the vectors returned
    by [vcs_elabPhase] for the phases [0 .. NPhase-1] hold for constraint
    [j]; [bufs p] is the array passed for phase [p]. *)
Definition sum_over_phases (s : VCS_SOLVE) (bufs : nat -> list float) (j : nat)
    : Q :=
  sumQ (map (fun p => value (rdF (vcs_elabPhase s p (bufs p)) j))
            (seq 0 (NPhase s))).

(** Every member but [ga] is the same in both instances. *)
Definition same_but_ga (s s' : VCS_SOLVE) : Prop :=
  m_numElemConstraints s' = m_numElemConstraints s /\
  m_numComponents s' = m_numComponents s /\
  m_numSpeciesTot s' = m_numSpeciesTot s /\
  m_numSpeciesRdc s' = m_numSpeciesRdc s /\
  NPhase s' = NPhase s /\
  gai s' = gai s /\
  soln s' = soln s /\
  FormulaMatrix s' = FormulaMatrix s /\
  SpeciesUnknownType s' = SpeciesUnknownType s /\
  PhaseID s' = PhaseID s /\
  SSPhase s' = SSPhase s /\
  spStatus s' = spStatus s /\
  IndEl s' = IndEl s /\
  m_elType s' = m_elType s /\
  ElActive s' = ElActive s /\
  ElName s' = ElName s /\
  VPhaseList s' = VPhaseList s.

(** The constraint-indexed arrays cover the constraints, and every row of
    the formula matrix covers the species. *)
Record wf_elem (s : VCS_SOLVE) : Prop := mkWf {
  wf_ga : (m_numElemConstraints s <= length (ga s))%nat;
  wf_gai : (m_numElemConstraints s <= length (gai s))%nat;
  wf_IndEl : (m_numElemConstraints s <= length (IndEl s))%nat;
  wf_elType : (m_numElemConstraints s <= length (m_elType s))%nat;
  wf_ElActive : (m_numElemConstraints s <= length (ElActive s))%nat;
  wf_ElName : (m_numElemConstraints s <= length (ElName s))%nat;
  wf_FM : (m_numElemConstraints s <= length (FormulaMatrix s))%nat;
  wf_rows : forall r, (r < m_numElemConstraints s)%nat ->
            (m_numSpeciesTot s <= length (nth r (FormulaMatrix s) []))%nat
}.

(** [s'] holds at every position [p] the constraint data that [s] holds at
    position [pi p]. *)
Definition repositioned (pi : nat -> nat) (s s' : VCS_SOLVE) : Prop :=
  m_numElemConstraints s' = m_numElemConstraints s /\
  m_numComponents s' = m_numComponents s /\
  m_numSpeciesTot s' = m_numSpeciesTot s /\
  forall p,
    rdF (gai s') p = rdF (gai s) (pi p) /\
    nth p (m_elType s') VCS_ELEM_TYPE_OTHER =
      nth (pi p) (m_elType s) VCS_ELEM_TYPE_OTHER /\
    nth p (ElActive s') false = nth (pi p) (ElActive s) false /\
    nth p (ElName s') EmptyString = nth (pi p) (ElName s) EmptyString /\
    forall k, (k < m_numSpeciesTot s)%nat -> FM s' p k = FM s (pi p) k.

(** The inner product of two rows over the first [nc] columns, accumulated
    from 0.0 in column order. *)
Definition dot (nc : nat) (u v : nat -> float) : float :=
  fold_left (fun acc i => acc + u i * v i) (seq 0 nc) 0.0.

(** The row [r] less its projections on the rows [qs], each given with its
    squared norm: the coefficients are all computed from [r] as it stands,
    then the projections are subtracted one after the other. *)
Definition residual (nc : nat) (qs : list ((nat -> float) * float))
    (r : nat -> float) : nat -> float :=
  let cs := map (fun qa => dot nc r (fst qa) / snd qa) qs in
  fold_left (fun r' cq => fun l => r' l - fst cq * fst (snd cq) l)
            (combine cs qs) r.

(** The rows that the Gram-Schmidt process makes of the first [n]
    constraint rows taken in their present order over the component
    columns, each with its squared norm. *)
Fixpoint gram (s : VCS_SOLVE) (n : nat) : list ((nat -> float) * float) :=
  match n with
  | O => []
  | S m =>
    let qs := gram s m in
    let q := residual (m_numComponents s) qs (fun l => FM s m l) in
    qs ++ [(q, dot (m_numComponents s) q q)]
  end.

(** The squared norm of what the Gram-Schmidt process leaves of row [j]
    after the rows before it. *)
Definition residual_norm2 (s : VCS_SOLVE) (j : nat) : float :=
  snd (nth j (gram s (S j)) (fun _ => 0, 0)).

(** Constraint [j] passes the independence test of [vcs_elem_rearrange]
    after the constraints before it: the squared norm is not below 1e-6. *)
Definition passes (s : VCS_SOLVE) (j : nat) : bool :=
  negb (residual_norm2 s j <? 1.0e-6).

(** The first [n] constraints pass the test one after the other in their
    present order. *)
Definition accepted_prefix (s : VCS_SOLVE) (n : nat) : bool :=
  forallb (passes s) (seq 0 n).

(** The first [n] constraints are active. *)
Definition active_prefix (s : VCS_SOLVE) (n : nat) : bool :=
  forallb (fun j => nth j (ElActive s) false) (seq 0 n).

(** The number of active constraints. *)
Definition count_active (s : VCS_SOLVE) : nat :=
  length (filter (fun j => nth j (ElActive s) false)
                 (seq 0 (m_numElemConstraints s))).

(** The Gram-Schmidt trials of the rows [0 .. n-1] in their present order,
    each row [j] tried as row [j], from cleared work arrays. *)
Fixpoint chain (s : VCS_SOLVE) (n : nat) : work :=
  match n with
  | O => zero_work
  | S m => trial s m m 0 (chain s m)
  end.

(** Two sets of work arrays hold the same first [n] rows of [sm] (rows of
    length [nc]) and the same first [n] entries of [sa]. *)
Definition agree (nc n : nat) (w w' : work) : Prop :=
  (forall idx, (idx < n * nc)%nat -> sm w idx = sm w' idx) /\
  (forall j, (j < n)%nat -> sa w j = sa w' j).

(** The entries of [aw] that are not yet the key of a chosen constraint. *)
Definition marks_left (n : nat) (a : buf) (test : float) : nat :=
  length (filter (fun i => neb (a i) test) (seq 0 n)).

(** The key with which the first loop of [vcs_elem_rearrange] ends. *)
Definition key (fuel : nat) (s : VCS_SOLVE) (a : buf) : option float :=
  option_map fst (sentinel_loop fuel s (-1.0E10) a).

(** The first [m_numComponents] constraint rows, taken over the component
    columns with the numbers that their doubles stand for, are linearly
    independent: no combination of them vanishes unless its coefficients
    do. *)
Definition independent_rows (s : VCS_SOLVE) : Prop :=
  forall c : nat -> Q,
    (forall k, (k < m_numComponents s)%nat ->
       Qeq (sumQ (map (fun i => Qmult (c i) (value (FM s i k)))
                      (seq 0 (m_numComponents s)))) 0%Q) ->
    forall i, (i < m_numComponents s)%nat -> Qeq (c i) 0%Q.

(** The sum over the first [n] constraints of the squared discrepancy,
    taken in exact arithmetic on the numbers that the doubles stand for. *)
Definition sumsq (s : VCS_SOLVE) (n : nat) : Q :=
  sumQ (map (fun i =>
               let d := Qminus (value (rdF (ga s) i)) (value (rdF (gai s) i)) in
               Qmult d d)
            (seq 0 n)).

(** The instance on which stage 3 of [vcs_elcorr] works. *)
Definition stage3_entry (cutoff : float) (s : VCS_SOLVE) : VCS_SOLVE :=
  after_changed (stage2 cutoff (after_changed (stage1 s))).

(** The correction direction that [mlequ] returns in stage 3, and its
    status. *)
Definition stage3_solve
    (mlequ : buf -> nat -> nat -> buf -> nat -> Z * buf * buf)
    (cutoff : float) (aa x : buf) (s : VCS_SOLVE) : Z * buf :=
  let s2 := stage3_entry cutoff s in
  let '(aa1, x1, _) := setup s2 aa x in
  let '(i, _, x2) :=
    mlequ aa1 (m_numElemConstraints s2) (m_numComponents s2) x1 1%nat in
  (i, x2).

(** The tolerance that [vcs_elabcheck] applies to constraint [i] in its
    zero-target or electron-charge branch. *)
Definition row_tolerance (cutoff : float) (s : VCS_SOLVE) (i : nat) : float :=
  if snd (fst (check_scan cutoff s i))
  then 1e-11 * fst (fst (check_scan cutoff s i))
  else cutoff.

(** [x] is not above [y]: [x > y] is false, as it is when [x <= y] and
    when one of the two is a NaN. *)
Definition not_above (x y : float) : bool := negb (gtb x y).

(** Constraint [i] is within the tolerance that [vcs_elabcheck] grants
    it. *)
Definition within_tolerance (cutoff : float) (s : VCS_SOLVE) (i : nat) : bool :=
  not_above (discrepancy s i) (fabs (rdF (gai s) i) * 1.0e-12)
  || ((rdF (gai s) i =? 0)
      || elem_type_eqb (elType s i) VCS_ELEM_TYPE_ELECTRONCHARGE)
     && not_above (discrepancy s i) (row_tolerance cutoff s i).

(** The number of constraints that [vcs_elabcheck] looks at. *)
Definition check_scope (ibound : bool) (s : VCS_SOLVE) : nat :=
  if ibound then m_numElemConstraints s else m_numComponents s.

(** Species [k] is the only species that is not a voltage and has a nonzero
    coefficient in constraint [i], and that coefficient is positive; the
    tests are those of the code. *)
Definition single_species (s : VCS_SOLVE) (i k : nat) : Prop :=
  (k < m_numSpeciesTot s)%nat /\ (k < length (soln s))%nat /\
  voltage s k = false /\ gtb (FM s i k) 0 = true /\
  forall j, (j < m_numSpeciesTot s)%nat -> j <> k -> voltage s j = false ->
            (FM s i j =? 0) = true.

(** The second instance has the targets, the formula matrix and the
    species types of the first, and as many mole numbers. *)
Definition same_rows (s t : VCS_SOLVE) : Prop :=
  gai t = gai s /\ FormulaMatrix t = FormulaMatrix s /\
  SpeciesUnknownType t = SpeciesUnknownType s /\
  length (soln t) = length (soln s).

(** *** Problem instances *)

(** The two-element, two-species problem of the end-to-end scenario. *)
Definition e2e : VCS_SOLVE :=
  mkVCS 2 2 2 2 2 [1;1] [2;3] [1;1] [[1;0];[0;1]]
   [VCS_SPECIES_TYPE_MOLNUM;VCS_SPECIES_TYPE_MOLNUM] [0;1]%nat [true;true]
   [VCS_SPECIES_ACTIVE;VCS_SPECIES_ACTIVE] [0;0]%Z
   [VCS_ELEM_TYPE_OTHER;VCS_ELEM_TYPE_OTHER]
   [true;true] ["A";"B"]%string [mkVolPhase 2 [0%Z;1%Z]; mkVolPhase 1 [1%Z]].

(** One charge constraint over three species in two phases: coefficients
    1, 1 and -1, mole numbers 1e20, 1 and 1e20; the first and the third
    species are in phase 0, the second in phase 1. *)
Definition large_moles : VCS_SOLVE :=
  mkVCS 1 1 3 3 2 [0] [1] [1e20; 1; 1e20] [[1; 1; -1]]
   [VCS_SPECIES_TYPE_MOLNUM; VCS_SPECIES_TYPE_MOLNUM; VCS_SPECIES_TYPE_MOLNUM]
   [0; 1; 0]%nat [false; true; false]
   [VCS_SPECIES_ACTIVE; VCS_SPECIES_ACTIVE; VCS_SPECIES_ACTIVE] [0]%Z
   [VCS_ELEM_TYPE_ELECTRONCHARGE]
   [true] ["E"]%string [mkVolPhase 1 [0%Z]; mkVolPhase 1 [0%Z]].

(** Two constraints, one component: the first row is small, not zero. *)
Definition small_row : VCS_SOLVE :=
  mkVCS 2 1 1 1 1 [0; 0] [1; 2] [0] [[0.0001]; [1]]
   [VCS_SPECIES_TYPE_MOLNUM] [0]%nat [false]
   [VCS_SPECIES_ACTIVE] [0; 0]%Z [VCS_ELEM_TYPE_OTHER; VCS_ELEM_TYPE_OTHER]
   [true; true] ["A"; "B"]%string [mkVolPhase 2 [0%Z; 1%Z]].

(** Two constraints, one component, no active constraint. *)
Definition inactive_rows : VCS_SOLVE :=
  mkVCS 2 1 1 1 1 [0; 0] [1; 2] [0] [[1]; [1]]
   [VCS_SPECIES_TYPE_MOLNUM] [0]%nat [false]
   [VCS_SPECIES_ACTIVE] [0; 0]%Z [VCS_ELEM_TYPE_OTHER; VCS_ELEM_TYPE_OTHER]
   [false; false] ["A"; "B"]%string [mkVolPhase 2 [0%Z; 1%Z]].

(** Two active constraints on two components, the second row twice the
    first: rows [1, 1] and [2, 2]. *)
Definition doubled_row : VCS_SOLVE :=
  mkVCS 2 2 2 2 1 [0; 0] [1; 2] [0; 0] [[1; 1]; [2; 2]]
   [VCS_SPECIES_TYPE_MOLNUM; VCS_SPECIES_TYPE_MOLNUM] [0; 0]%nat [false; false]
   [VCS_SPECIES_ACTIVE; VCS_SPECIES_ACTIVE] [0; 0]%Z
   [VCS_ELEM_TYPE_OTHER; VCS_ELEM_TYPE_OTHER]
   [true; true] ["A"; "B"]%string [mkVolPhase 2 [0%Z; 1%Z]].

(** Two active constraints on two components, the second row three times
    the first: rows [1e7, 1e13] and [3e7, 3e13]. *)
Definition tripled_row : VCS_SOLVE :=
  mkVCS 2 2 2 2 1 [0; 0] [1; 2] [0; 0] [[1e7; 1e13]; [3e7; 3e13]]
   [VCS_SPECIES_TYPE_MOLNUM; VCS_SPECIES_TYPE_MOLNUM] [0; 0]%nat [false; false]
   [VCS_SPECIES_ACTIVE; VCS_SPECIES_ACTIVE] [0; 0]%Z
   [VCS_ELEM_TYPE_OTHER; VCS_ELEM_TYPE_OTHER]
   [true; true] ["A"; "B"]%string [mkVolPhase 2 [0%Z; 1%Z]].

(** Two constraints on one species, with targets 1 and 2. *)
Definition two_rows : VCS_SOLVE :=
  mkVCS 2 1 1 1 1 [1.5; 1.5] [1; 2] [1.5] [[1]; [1]]
   [VCS_SPECIES_TYPE_MOLNUM] [0]%nat [false]
   [VCS_SPECIES_ACTIVE] [0; 0]%Z [VCS_ELEM_TYPE_OTHER; VCS_ELEM_TYPE_OTHER]
   [true; true] ["A"; "B"]%string [mkVolPhase 2 [0%Z; 1%Z]].

(** Two constraints on two components and a third species: rows [1, 1, 1]
    and [1, 2, 4], targets 1 and 3 (met by the mole numbers 0, 0.5 and
    0.5), mole numbers 0, 1 and 0. *)
Definition floored_step : VCS_SOLVE :=
  mkVCS 2 2 3 3 1 [1; 2] [1; 3] [0; 1; 0] [[1; 1; 1]; [1; 2; 4]]
   [VCS_SPECIES_TYPE_MOLNUM; VCS_SPECIES_TYPE_MOLNUM; VCS_SPECIES_TYPE_MOLNUM]
   [0; 0; 0]%nat [false; false; false]
   [VCS_SPECIES_ACTIVE; VCS_SPECIES_ACTIVE; VCS_SPECIES_ACTIVE] [0; 0]%Z
   [VCS_ELEM_TYPE_OTHER; VCS_ELEM_TYPE_OTHER]
   [true; true] ["A"; "B"]%string [mkVolPhase 2 [0%Z; 1%Z]].

(** One constraint on one species; the abundance is a NaN. *)
Definition nan_abundance : VCS_SOLVE :=
  mkVCS 1 1 1 1 1 [nan] [1] [1] [[1]]
   [VCS_SPECIES_TYPE_MOLNUM] [0]%nat [false]
   [VCS_SPECIES_ACTIVE] [0]%Z [VCS_ELEM_TYPE_OTHER]
   [true] ["A"]%string [mkVolPhase 1 [0%Z]].

(** One constraint met by a single species (coefficient 49), with a voltage
    unknown beside it; target 1. *)
Definition single_row : VCS_SOLVE :=
  mkVCS 1 1 3 3 1 [0] [1] [1; 5; 9] [[0; 49; -1]]
   [VCS_SPECIES_TYPE_MOLNUM; VCS_SPECIES_TYPE_MOLNUM;
    VCS_SPECIES_TYPE_INTERFACIALVOLTAGE] [0; 0; 0]%nat [false; false; false]
   [VCS_SPECIES_ACTIVE; VCS_SPECIES_ACTIVE; VCS_SPECIES_ACTIVE] [0]%Z
   [VCS_ELEM_TYPE_OTHER]
   [true] ["A"]%string [mkVolPhase 1 [0%Z]].

End Binary64.

(** The instance of the exact embedding that holds, entry by entry, the
    numbers that the doubles of a binary64 instance stand for. *)
Definition exact (s : Binary64.VCS_SOLVE) : VCS_SOLVE :=
  mkVCS (Binary64.m_numElemConstraints s) (Binary64.m_numComponents s)
        (Binary64.m_numSpeciesTot s) (Binary64.m_numSpeciesRdc s)
        (Binary64.NPhase s)
        (map Binary64.value (Binary64.ga s))
        (map Binary64.value (Binary64.gai s))
        (map Binary64.value (Binary64.soln s))
        (map (map Binary64.value) (Binary64.FormulaMatrix s))
        (Binary64.SpeciesUnknownType s) (Binary64.PhaseID s)
        (Binary64.SSPhase s) (Binary64.spStatus s) (Binary64.IndEl s)
        (Binary64.m_elType s) (Binary64.ElActive s) (Binary64.ElName s)
        (Binary64.VPhaseList s).

(** The abundance of constraint [i] as the specification words it, for the
    numbers that the doubles of a binary64 instance stand for: the sum, in
    exact arithmetic, over the species that are not interfacial voltages,
    of coefficient times mole number. *)
Definition exact_abundance (s : Binary64.VCS_SOLVE) (i : nat) : Q :=
  abundance_sum (exact s) i.

(** * Properties *)

(** ** Comparisons *)

Lemma Qltb_true (x y : Q) : Qltb x y = true <-> x < y.
Proof.
  unfold Qltb. rewrite negb_true_iff. split; intro H.
  - apply Qnot_le_lt. intro Hle. apply Qle_bool_iff in Hle. congruence.
  - destruct (Qle_bool y x) eqn:E; [|reflexivity].
    apply Qle_bool_iff in E. exfalso. apply (Qlt_not_le _ _ H E).
Qed.

Lemma Qltb_false (x y : Q) : Qltb x y = false <-> y <= x.
Proof.
  unfold Qltb. rewrite negb_false_iff. apply Qle_bool_iff.
Qed.

Lemma Qgtb_true (x y : Q) : Qgtb x y = true <-> y < x.
Proof. apply Qltb_true. Qed.

Lemma Qgtb_false (x y : Q) : Qgtb x y = false <-> x <= y.
Proof. apply Qltb_false. Qed.

Lemma Qneb_true (x y : Q) : Qneb x y = true <-> ~ x == y.
Proof.
  unfold Qneb. rewrite negb_true_iff. split; intro H.
  - intro E. apply Qeq_bool_iff in E. congruence.
  - destruct (Qeq_bool x y) eqn:E; [|reflexivity].
    apply Qeq_bool_iff in E. contradiction.
Qed.

Lemma Qneb_false (x y : Q) : Qneb x y = false <-> x == y.
Proof. unfold Qneb. rewrite negb_false_iff. apply Qeq_bool_iff. Qed.

(** ** Arrays *)

Lemma length_upd {A : Type} (i : nat) (v : A) (l : list A) :
  length (upd i v l) = length l.
Proof.
  revert i; induction l as [|x t IH]; intros [|i]; simpl; auto.
Qed.

Lemma nth_upd_eq {A : Type} (i : nat) (v d : A) (l : list A) :
  (i < length l)%nat -> nth i (upd i v l) d = v.
Proof.
  revert i; induction l as [|x t IH]; intros [|i] H; simpl in *; try lia; auto.
  apply IH; lia.
Qed.

Lemma nth_upd_ne {A : Type} (i j : nat) (v d : A) (l : list A) :
  i <> j -> nth j (upd i v l) d = nth j l d.
Proof.
  revert i j; induction l as [|x t IH]; intros [|i] [|j] H; simpl; auto; try lia.
Qed.

Lemma bset_eq (b : buf) (i : nat) (v : Q) : bset b i v i = v.
Proof. unfold bset. now rewrite Nat.eqb_refl. Qed.

Lemma bset_ne (b : buf) (i j : nat) (v : Q) : j <> i -> bset b i v j = b j.
Proof. unfold bset. intro H. apply Nat.eqb_neq in H. now rewrite H. Qed.

(** A loop that assigns [f j] to entry [j] for [j] in a range. *)
Lemma fill_nth (f : nat -> Q) (n a : nat) (g : list Q) (j : nat) :
  (a + n <= length g)%nat ->
  nth j (fold_left (fun g j => upd j (f j) g) (seq a n) g) 0 =
  if (a <=? j)%nat && (j <? a + n)%nat then f j else nth j g 0.
Proof.
  revert a g; induction n as [|n IH]; intros a g H; simpl.
  - destruct (a <=? j)%nat eqn:E1, (j <? a + 0)%nat eqn:E2; simpl; auto.
    apply Nat.leb_le in E1. apply Nat.ltb_lt in E2. lia.
  - rewrite IH by (rewrite length_upd; lia).
    destruct (Nat.eq_dec a j) as [->|Hne].
    + rewrite nth_upd_eq by lia.
      replace (S j <=? j)%nat with false by (symmetry; apply Nat.leb_gt; lia).
      rewrite Nat.leb_refl.
      replace (j <? j + S n)%nat with true by (symmetry; apply Nat.ltb_lt; lia).
      reflexivity.
    + rewrite nth_upd_ne by assumption.
      destruct (S a <=? j)%nat eqn:E1, (a <=? j)%nat eqn:E2,
               (j <? S a + n)%nat eqn:E3, (j <? a + S n)%nat eqn:E4;
        simpl; auto;
        repeat match goal with
        | H : (_ <=? _)%nat = true |- _ => apply Nat.leb_le in H
        | H : (_ <=? _)%nat = false |- _ => apply Nat.leb_gt in H
        | H : (_ <? _)%nat = true |- _ => apply Nat.ltb_lt in H
        | H : (_ <? _)%nat = false |- _ => apply Nat.ltb_ge in H
        end; lia.
Qed.

Lemma fill_length (f : nat -> Q) (l : list nat) (g : list Q) :
  length (fold_left (fun g j => upd j (f j) g) l g) = length g.
Proof.
  revert g; induction l as [|a l IH]; intro g; simpl; auto.
  rewrite IH. apply length_upd.
Qed.

(** ** The abundance sums *)

Lemma elab_row_filter (s : VCS_SOLVE) (j : nat) (l : list nat) (acc : Q) :
  fold_left (elab_add s j) l acc =
  fold_left (fun acc k => acc + FM s j k * rdQ (soln s) k)
            (filter (fun k => negb (voltage s k)) l) acc.
Proof.
  revert acc; induction l as [|k l IH]; intro acc; simpl; auto.
  unfold elab_add at 2. destruct (voltage s k); simpl; apply IH.
Qed.

Lemma elab_row_sum (s : VCS_SOLVE) (j : nat) : elab_row s j = abundance_sum s j.
Proof. apply elab_row_filter. Qed.

Lemma elab_ga_nth (s : VCS_SOLVE) (j : nat) :
  (m_numElemConstraints s <= length (ga s))%nat ->
  rdQ (ga (vcs_elab s)) j =
  if (j <? m_numElemConstraints s)%nat then elab_row s j else rdQ (ga s) j.
Proof.
  intro H. unfold vcs_elab, rdQ, elab_loop. simpl.
  rewrite fill_nth by (simpl; lia). simpl. reflexivity.
Qed.

(** ** Phase abundances add up to the total *)

Lemma sumQ_map_plus {A : Type} (f g : A -> Q) (l : list A) :
  sumQ (map (fun p => f p + g p) l) == sumQ (map f l) + sumQ (map g l).
Proof.
  induction l as [|a l IH]; simpl; [ring|]. rewrite IH. ring.
Qed.

Lemma sumQ_map_zero {A : Type} (l : list A) :
  sumQ (map (fun _ => 0) l) == 0.
Proof. induction l as [|a l IH]; simpl; [reflexivity|]. rewrite IH. ring. Qed.

Lemma sumQ_map_ext {A : Type} (f g : A -> Q) (l : list A) :
  (forall a, In a l -> f a == g a) -> sumQ (map f l) == sumQ (map g l).
Proof.
  induction l as [|a l IH]; intro H; simpl; [reflexivity|].
  rewrite (H a) by (left; reflexivity).
  rewrite IH by (intros b Hb; apply H; right; exact Hb). reflexivity.
Qed.

Lemma sumQ_indicator (v : Q) (pid a n : nat) :
  sumQ (map (fun p => if Nat.eqb pid p then v else 0) (seq a n)) ==
  if (a <=? pid)%nat && (pid <? a + n)%nat then v else 0.
Proof.
  revert a; induction n as [|n IH]; intro a; simpl.
  - destruct (a <=? pid)%nat eqn:E1, (pid <? a + 0)%nat eqn:E2; simpl;
      try reflexivity.
    apply Nat.leb_le in E1. apply Nat.ltb_lt in E2. lia.
  - rewrite IH.
    destruct (Nat.eqb pid a) eqn:E0;
    destruct (S a <=? pid)%nat eqn:E1, (a <=? pid)%nat eqn:E2,
             (pid <? S a + n)%nat eqn:E3, (pid <? a + S n)%nat eqn:E4;
      simpl; try ring;
      repeat match goal with
      | H : Nat.eqb _ _ = true |- _ => apply Nat.eqb_eq in H
      | H : Nat.eqb _ _ = false |- _ => apply Nat.eqb_neq in H
      | H : (_ <=? _)%nat = true |- _ => apply Nat.leb_le in H
      | H : (_ <=? _)%nat = false |- _ => apply Nat.leb_gt in H
      | H : (_ <? _)%nat = true |- _ => apply Nat.ltb_lt in H
      | H : (_ <? _)%nat = false |- _ => apply Nat.ltb_ge in H
      end; lia.
Qed.

Lemma elab_fold_sum (s : VCS_SOLVE) (j : nat) (l : list nat) (acc : Q) :
  fold_left (elab_add s j) l acc == acc + sumQ (map (term s j) l).
Proof.
  revert acc; induction l as [|k l IH]; intro acc; simpl; [ring|].
  rewrite IH. unfold elab_add, term. destruct (voltage s k); ring.
Qed.

Lemma term_phase_total (s : VCS_SOLVE) (j k : nat) :
  (nth k (PhaseID s) O < NPhase s)%nat ->
  sumQ (map (fun p => term_phase s p j k) (seq 0 (NPhase s))) == term s j k.
Proof.
  intro H. unfold term_phase, term. destruct (voltage s k).
  - apply sumQ_map_zero.
  - rewrite sumQ_indicator. simpl.
    apply Nat.ltb_lt in H. rewrite H. reflexivity.
Qed.

Lemma phase_rows_total (s : VCS_SOLVE) (j : nat) (l : list nat) :
  (forall k, In k l -> (nth k (PhaseID s) O < NPhase s)%nat) ->
  sumQ (map (fun p => sumQ (map (term_phase s p j) l)) (seq 0 (NPhase s))) ==
  sumQ (map (term s j) l).
Proof.
  induction l as [|k l IH]; intro H; simpl.
  - apply sumQ_map_zero.
  - rewrite sumQ_map_plus.
    rewrite term_phase_total by (apply H; left; reflexivity).
    rewrite IH by (intros k' Hk'; apply H; right; exact Hk'). reflexivity.
Qed.

(** ** The status returned by vcs_elcorr *)

Lemma setup_retn (s : VCS_SOLVE) (l : list nat) (acc : buf * buf * Z) :
  (snd acc = 0 \/ snd acc = 1)%Z ->
  (snd (fold_left (setup_row s) l acc) = 0 \/
   snd (fold_left (setup_row s) l acc) = 1)%Z.
Proof.
  revert acc; induction l as [|i l IH]; intros acc H; simpl; [exact H|].
  apply IH. destruct acc as [[aa x] retn]. unfold setup_row.
  simpl in *. destruct (Qgtb _ _); simpl; auto.
Qed.

Lemma apply_step_retn (s : VCS_SOLVE) (x : buf) (retn : Z) :
  snd (apply_step s x retn) = 2%Z \/ snd (apply_step s x retn) = retn.
Proof.
  unfold apply_step. destruct (_ && _); simpl; auto.
Qed.

Section Status.
Variable cutoff : Q.
Variable failed : Z.
Variable mlequ : buf -> nat -> nat -> buf -> nat -> Z * buf * buf.
Variable tmoles : VCS_SOLVE -> VCS_SOLVE.
Variable reinsert : nat -> VCS_SOLVE -> VCS_SOLVE.

Lemma elcorr_tail_retn (retn r : Z) (s s' : VCS_SOLVE) :
  elcorr_tail cutoff tmoles reinsert retn s = Ok r s' -> r = 1%Z \/ r = retn.
Proof.
  unfold elcorr_tail, cleanup, bind.
  destruct (if (2 <=? retn)%Z then _ else _) as [s4 jumped].
  destruct jumped; [intro H; inversion H; auto|].
  destruct (vcs_elabcheck cutoff false s4) as [[|] s4'| |]; try discriminate;
    [intro H; inversion H; auto|].
  destruct (vcs_elabcheck cutoff true (stage5 s4')) as [[|] s5| |];
    try discriminate; [intro H; inversion H; auto|].
  destruct (vcs_elabcheck cutoff true (stage6 s5)) as [[|] s6| |];
    try discriminate; intro H; inversion H; auto.
Qed.

Lemma elcorr_status_range (aa x : buf) (s s' : VCS_SOLVE) (r : Z) :
  vcs_elcorr cutoff failed mlequ tmoles reinsert aa x s = Ok r s' ->
  r = failed \/ r = 0%Z \/ r = 1%Z \/ r = 2%Z.
Proof.
  unfold vcs_elcorr.
  pose proof (setup_retn (after_changed (stage2 cutoff (after_changed (stage1 s))))
                (seq 0 (m_numComponents
                          (after_changed (stage2 cutoff (after_changed (stage1 s))))))
                (aa, x, 0%Z) (or_introl eq_refl)) as Hret.
  unfold setup.
  destruct (fold_left _ _ (aa, x, 0%Z)) as [[aa1 x1] retn]. simpl in Hret.
  destruct (mlequ _ _ _ _ _) as [[i aa2] x2].
  destruct (i =? 1)%Z.
  - intro H; inversion H; auto.
  - pose proof (apply_step_retn
                  (after_changed (stage2 cutoff (after_changed (stage1 s)))) x2 retn)
      as Hst.
    destruct (apply_step _ x2 retn) as [s3 retn']. simpl in Hst.
    intro H. apply elcorr_tail_retn in H. lia.
Qed.

End Status.

Lemma elcorr_singular (cutoff : Q) (failed : Z)
    (mlequ : buf -> nat -> nat -> buf -> nat -> Z * buf * buf)
    (tmoles : VCS_SOLVE -> VCS_SOLVE) (reinsert : nat -> VCS_SOLVE -> VCS_SOLVE)
    (aa x : buf) (s : VCS_SOLVE) :
  fst (stage3_solve mlequ cutoff aa x s) = 1%Z ->
  vcs_elcorr cutoff failed mlequ tmoles reinsert aa x s =
  Ok failed (stage3_entry cutoff s).
Proof.
  unfold stage3_solve, vcs_elcorr, stage3_entry.
  destruct (setup _ aa x) as [[aa1 x1] retn].
  destruct (mlequ _ _ _ _ _) as [[i aa2] x2]. simpl.
  intros ->. reflexivity.
Qed.

(** C1: the status of [vcs_elcorr] against its documented values.  When
    the solve of stage 3 reports a singular matrix the routine returns the
    failed-convergence value.  Otherwise it returns 0, 1 or 2 and nothing
    else, so the documented status 3 is never produced; on [overshoot] it
    returns 1 although the component was set to zero and the abundance
    check still fails on the final state; on [e2e_compliant], whose
    abundances are at their targets on entry, it returns 1, not 0. *)
Theorem elcorr_status_contract_broken :
  (forall cutoff failed mlequ tmoles reinsert aa x s,
      fst (stage3_solve mlequ cutoff aa x s) = 1%Z ->
      vcs_elcorr cutoff failed mlequ tmoles reinsert aa x s =
      Ok failed (stage3_entry cutoff s)) /\
  (forall cutoff failed mlequ tmoles reinsert aa x s r s',
      vcs_elcorr cutoff failed mlequ tmoles reinsert aa x s = Ok r s' ->
      r = failed \/ r = 0%Z \/ r = 1%Z \/ r = 2%Z) /\
  match run_elcorr overshoot with
  | Ok r s' =>
      r = 1%Z /\ rdQ (soln s') 0 == 0 /\ rdQ (ga s') 0 == 2 /\
      rdQ (gai s') 0 == 1 /\
      vcs_elabcheck cutoff_value false s' = Ok false s' /\
      vcs_elabcheck cutoff_value true s' = Ok false s'
  | _ => False
  end /\
  vcs_elabcheck cutoff_value true e2e_compliant = Ok true e2e_compliant /\
  match run_elcorr e2e_compliant with
  | Ok r s' => r = 1%Z /\ soln s' = soln e2e_compliant
  | _ => False
  end.
Proof.
  split; [|split; [|split; [|split]]].
  - intros. apply elcorr_singular. assumption.
  - intros. eapply elcorr_status_range; eassumption.
  - vm_compute. repeat split; reflexivity.
  - vm_compute. reflexivity.
  - vm_compute. repeat split; reflexivity.
Qed.

(** ** The phase maps under vcs_switch_elem_pos *)

Lemma switch_index_length (i j e : nat) (g : list Z) :
  length (switch_index i j g e) = length g.
Proof.
  unfold switch_index.
  destruct (Z.eqb (nth e g 0%Z) (Z.of_nat i));
    destruct (Z.eqb _ (Z.of_nat j)); now rewrite ?length_upd.
Qed.

Lemma switch_index_spec (i j e : nat) (g : list Z) (p : nat) :
  i <> j -> (e < length g)%nat ->
  nth p (switch_index i j g e) 0%Z =
  if Nat.eqb p e then collapse i j (nth e g 0%Z) else nth p g 0%Z.
Proof.
  intros Hne He. unfold switch_index, collapse.
  destruct (Z.eqb (nth e g 0%Z) (Z.of_nat i)) eqn:E1.
  - rewrite nth_upd_eq by assumption. rewrite Z.eqb_refl. cbn [orb].
    destruct (Nat.eqb p e) eqn:Ep.
    + apply Nat.eqb_eq in Ep. subst p.
      apply nth_upd_eq. rewrite length_upd. assumption.
    + apply Nat.eqb_neq in Ep. rewrite !nth_upd_ne by auto. reflexivity.
  - cbn [orb]. destruct (Z.eqb (nth e g 0%Z) (Z.of_nat j)) eqn:E2.
    + destruct (Nat.eqb p e) eqn:Ep.
      * apply Nat.eqb_eq in Ep. subst p. apply nth_upd_eq. assumption.
      * apply Nat.eqb_neq in Ep. apply nth_upd_ne. auto.
    + destruct (Nat.eqb p e) eqn:Ep; [|reflexivity].
      apply Nat.eqb_eq in Ep. subst p. reflexivity.
Qed.

Lemma switch_index_fold (i j : nat) (n a : nat) (g : list Z) (p : nat) :
  i <> j -> (a + n <= length g)%nat ->
  nth p (fold_left (switch_index i j) (seq a n) g) 0%Z =
  if (a <=? p)%nat && (p <? a + n)%nat
  then collapse i j (nth p g 0%Z) else nth p g 0%Z.
Proof.
  intro Hne. revert a g; induction n as [|n IH]; intros a g Hlen; simpl.
  - destruct (a <=? p)%nat eqn:E1, (p <? a + 0)%nat eqn:E2; simpl; auto.
    apply Nat.leb_le in E1. apply Nat.ltb_lt in E2. lia.
  - rewrite IH by (rewrite switch_index_length; lia).
    rewrite switch_index_spec by (auto; lia).
    destruct (Nat.eq_dec p a) as [->|Hp].
    + replace (S a <=? a)%nat with false by (symmetry; apply Nat.leb_gt; lia).
      rewrite Nat.leb_refl, Nat.eqb_refl.
      replace (a <? a + S n)%nat with true by (symmetry; apply Nat.ltb_lt; lia).
      reflexivity.
    + replace (Nat.eqb p a) with false by (symmetry; apply Nat.eqb_neq; lia).
      replace ((S a <=? p)%nat && (p <? S a + n)%nat)
        with ((a <=? p)%nat && (p <? a + S n)%nat); [reflexivity|].
      destruct (S a <=? p)%nat eqn:E1, (a <=? p)%nat eqn:E2,
               (p <? S a + n)%nat eqn:E3, (p <? a + S n)%nat eqn:E4;
        try reflexivity;
        repeat match goal with
        | H : (_ <=? _)%nat = true |- _ => apply Nat.leb_le in H
        | H : (_ <=? _)%nat = false |- _ => apply Nat.leb_gt in H
        | H : (_ <? _)%nat = true |- _ => apply Nat.ltb_lt in H
        | H : (_ <? _)%nat = false |- _ => apply Nat.ltb_ge in H
        end; lia.
Qed.

(** C2: what [vcs_switch_elem_pos] does to the phase maps.  With equal
    positions the instance is returned as it is.  With different positions
    the two tests of the loop run one after the other, so in every phase
    map an entry that held [ipos] or [jpos] holds [ipos] afterwards: the
    entries that held [ipos] are not moved to [jpos].  On [e2e], exchanging
    positions 0 and 1 exchanges the constraint-indexed arrays but turns the
    phase maps [0, 1] and [1] into [0, 0] and [0]. *)
Theorem switch_elem_pos_phase_map :
  (forall i s, vcs_switch_elem_pos i i s = s) /\
  (forall ipos jpos volPhase e,
      ipos <> jpos ->
      (nElemConstraints volPhase <= length (ElGlobalIndex volPhase))%nat ->
      (e < nElemConstraints volPhase)%nat ->
      nth e (ElGlobalIndex (switch_phase ipos jpos volPhase)) 0%Z =
      collapse ipos jpos (nth e (ElGlobalIndex volPhase) 0%Z)) /\
  map ElGlobalIndex (VPhaseList e2e) = [[0; 1]; [1]]%Z /\
  map ElGlobalIndex (VPhaseList (vcs_switch_elem_pos 0 1 e2e)) = [[0; 0]; [0]]%Z /\
  gai (vcs_switch_elem_pos 0 1 e2e) = [3; 2] /\
  FormulaMatrix (vcs_switch_elem_pos 0 1 e2e) = [[0; 1]; [1; 0]] /\
  ElName (vcs_switch_elem_pos 0 1 e2e) = ["B"; "A"]%string.
Proof.
  split; [|split].
  - intros i s. unfold vcs_switch_elem_pos. now rewrite Nat.eqb_refl.
  - intros ipos jpos volPhase e Hne Hlen He. unfold switch_phase. simpl.
    rewrite switch_index_fold by (auto; simpl; lia). simpl.
    apply Nat.ltb_lt in He. now rewrite He.
  - vm_compute. repeat split; reflexivity.
Qed.

(** ** The scan of vcs_elabcheck *)

Lemma elabcheck_row_rule (cutoff : Q) (s : VCS_SOLVE) (i : nat) (rest : list nat) :
  Qgtb (discrepancy s i) (fabs (rdQ (gai s) i) * 1.0e-12) = true ->
  elem_type_eqb (elType s i) VCS_ELEM_TYPE_CHARGENEUTRALITY
    && negb (Qeq_bool (rdQ (gai s) i) 0) = false ->
  Qeq_bool (rdQ (gai s) i) 0
    || elem_type_eqb (elType s i) VCS_ELEM_TYPE_ELECTRONCHARGE = true ->
  elabcheck_loop cutoff s (i :: rest) =
  if snd (fst (check_scan cutoff s i)) then
    if Qgtb (discrepancy s i) (1e-11 * fst (fst (check_scan cutoff s i)))
    then CkFalse else elabcheck_loop cutoff s rest
  else
    if Qgtb (discrepancy s i) cutoff
    then CkFalse else elabcheck_loop cutoff s rest.
Proof.
  intros H1 H2 H3. simpl. rewrite H1, H2, H3.
  destruct (check_scan cutoff s i) as [[scale ms] nz]. reflexivity.
Qed.

(** C3: for a constraint that reaches the zero-target or electron-charge
    branch, [vcs_elabcheck] passes a multisign row exactly when the
    discrepancy is at most 1e-11 times the scale and a single-sign row
    exactly when it is at most the cutoff; but the scan that classifies the
    row runs over every species, interfacial voltages included.  On
    [voltage_row] the only negative coefficient of the zero-target row
    belongs to an interfacial voltage: the scan takes the row as multisign,
    with scale 1e10, and the check accepts the discrepancy 1e-20; among the
    other species the row has one sign, and the discrepancy is above the
    cutoff. *)
Theorem elabcheck_scans_voltage_species :
  (forall cutoff s i rest,
      Qgtb (discrepancy s i) (fabs (rdQ (gai s) i) * 1.0e-12) = true ->
      elem_type_eqb (elType s i) VCS_ELEM_TYPE_CHARGENEUTRALITY
        && negb (Qeq_bool (rdQ (gai s) i) 0) = false ->
      Qeq_bool (rdQ (gai s) i) 0
        || elem_type_eqb (elType s i) VCS_ELEM_TYPE_ELECTRONCHARGE = true ->
      elabcheck_loop cutoff s (i :: rest) =
      if snd (fst (check_scan cutoff s i)) then
        if Qgtb (discrepancy s i) (1e-11 * fst (fst (check_scan cutoff s i)))
        then CkFalse else elabcheck_loop cutoff s rest
      else
        if Qgtb (discrepancy s i) cutoff
        then CkFalse else elabcheck_loop cutoff s rest) /\
  check_scan cutoff_value voltage_row 0 = (1e10, true, 2%nat) /\
  sign_scan voltage_row 0 = (false, 1%nat) /\
  cutoff_value < discrepancy voltage_row 0 /\
  discrepancy voltage_row 0 <= 1e-11 * 1e10 /\
  vcs_elabcheck cutoff_value true voltage_row = Ok true voltage_row.
Proof.
  split; [intros; apply elabcheck_row_rule; assumption|].
  split; [vm_compute; reflexivity|].
  split; [vm_compute; reflexivity|].
  split; [vm_compute; reflexivity|].
  split; [apply Qle_bool_iff; vm_compute; reflexivity|].
  vm_compute; reflexivity.
Qed.

(** ** Mole numbers after vcs_elcorr *)

(** C4: two inputs with nonnegative mole numbers on which [vcs_elcorr]
    ends with a negative one.  On [removed_species], whose targets are
    nonnegative and attainable, stage 3 takes the damped step, stage 4
    finds the removed species 2 good with the delta -2.0000000001, floors
    [soln[2]] at 1e-10, reinserts the species and then stores the delta
    itself in [soln[m_numSpeciesRdc - 1]], which is species 2.  On
    [negative_target] the first stage sets the only mole number to target
    over coefficient, -1, without a floor, and the routine ends with
    -0.0001. *)
Theorem elcorr_negative_mole_number :
  (forall k, (k < 4)%nat -> 0 <= rdQ (soln removed_species) k) /\
  consistent removed_species /\
  match run_elcorr removed_species with
  | Ok r s' =>
      r = 2%Z /\ m_numSpeciesRdc s' = 3%nat /\
      rdQ (soln s') 2 == - 2.0000000001 /\ rdQ (soln s') 2 < 0
  | _ => False
  end /\
  0 <= rdQ (soln negative_target) 0 /\
  rdQ (soln (fst (stage1 negative_target))) 0 == -1 /\
  match run_elcorr negative_target with
  | Ok r s' => r = 0%Z /\ rdQ (soln s') 0 == -0.0001 /\ rdQ (soln s') 0 < 0
  | _ => False
  end.
Proof.
  split; [|split; [|split; [|split; [|split]]]].
  - intros k Hk. apply Qle_bool_iff.
    destruct k as [|[|[|[|k]]]]; try (vm_compute; reflexivity). lia.
  - intros j Hj. simpl in Hj.
    destruct j as [|[|j]]; [vm_compute; reflexivity | vm_compute; reflexivity | lia].
  - vm_compute. repeat split; reflexivity.
  - apply Qle_bool_iff; vm_compute; reflexivity.
  - vm_compute; reflexivity.
  - vm_compute. repeat split; reflexivity.
Qed.

(** ** What vcs_elcorr and vcs_elabcheck leave alone *)

Lemma fold_cdata {B X : Type} (proj : B -> VCS_SOLVE) (f : B -> X -> B) :
  (forall b x, cdata (proj (f b x)) = cdata (proj b)) ->
  forall l b, cdata (proj (fold_left f l b)) = cdata (proj b).
Proof.
  intros H l; induction l as [|x l IH]; intro b; simpl; [reflexivity|].
  rewrite IH. apply H.
Qed.

Lemma cdata_elab (s : VCS_SOLVE) : cdata (vcs_elab s) = cdata s.
Proof. reflexivity. Qed.

Lemma cdata_single_step (i : nat) (acc : VCS_SOLVE * bool) (k : nat) :
  cdata (fst (single_step i acc k)) = cdata (fst acc).
Proof.
  destruct acc as [s c]. unfold single_step.
  destruct (voltage s k); [reflexivity|].
  destruct (Qgtb _ _); reflexivity.
Qed.

Lemma cdata_diff_step (i c : nat) (acc : Q * VCS_SOLVE * bool) (k : nat) :
  cdata (mid (diff_step i c acc k)) = cdata (mid acc).
Proof. destruct acc as [[d s] ch]. reflexivity. Qed.

Lemma cdata_stage1_row (acc : VCS_SOLVE * bool) (i : nat) :
  cdata (fst (stage1_row acc i)) = cdata (fst acc).
Proof.
  destruct acc as [s c]. unfold stage1_row.
  destruct (sign_scan s i) as [ms nz]. destruct ms; [reflexivity|].
  destruct (nz <? 2)%nat.
  - apply (fold_cdata fst). intros; apply cdata_single_step.
  - destruct (comp_scan s i) as [n cid]. destruct (n =? 1)%nat; [|reflexivity].
    pose proof (fold_cdata mid (diff_step i (Z.to_nat cid))
                  (cdata_diff_step i (Z.to_nat cid))
                  (seq (m_numComponents s) (m_numSpeciesTot s - m_numComponents s))
                  (rdQ (gai s) i, s, c)) as H.
    destruct (fold_left _ _ _) as [[d s'] c']. exact H.
Qed.

Lemma cdata_stage1 (s : VCS_SOLVE) : cdata (fst (stage1 s)) = cdata s.
Proof.
  unfold stage1. apply (fold_cdata fst). intros; apply cdata_stage1_row.
Qed.

Lemma cdata_after_changed (r : VCS_SOLVE * bool) :
  cdata (after_changed r) = cdata (fst r).
Proof. unfold after_changed. destruct (snd r); reflexivity. Qed.

Lemma cdata_step_comp (dx : nat -> Q) (s : VCS_SOLVE) (i : nat) :
  cdata (step_comp dx s i) = cdata s.
Proof.
  unfold step_comp. destruct (Qgtb _ _); [reflexivity|].
  destruct (nth i (SSPhase s) false); reflexivity.
Qed.

Lemma cdata_apply_step (s : VCS_SOLVE) (x : buf) (retn : Z) :
  cdata (fst (apply_step s x retn)) = cdata s.
Proof.
  unfold apply_step. destruct (_ && _); simpl;
    apply (fold_cdata (fun s => s)); intros; apply cdata_step_comp.
Qed.

Lemma cdata_sub_floor (k : nat) (d : Q) (s : VCS_SOLVE) :
  cdata (sub_floor k d s) = cdata s.
Proof. unfold sub_floor. destruct (Qltb _ _); reflexivity. Qed.

Lemma cdata_add_floor (k : nat) (d : Q) (s : VCS_SOLVE) :
  cdata (add_floor k d s) = cdata s.
Proof. unfold add_floor. destruct (Qltb _ _); reflexivity. Qed.

Lemma cdata_neutral_inner (i : nat) (ks : list nat) (s : VCS_SOLVE) :
  cdata (neutral_inner s i ks) = cdata s.
Proof.
  induction ks as [|k ks IH]; simpl; [reflexivity|].
  destruct (_ && _); [rewrite cdata_elab; apply cdata_sub_floor|].
  destruct (_ && _); [rewrite cdata_elab; apply cdata_sub_floor|].
  exact IH.
Qed.

Lemma cdata_stage5 (s : VCS_SOLVE) : cdata (stage5 s) = cdata s.
Proof.
  unfold stage5. apply (fold_cdata (fun s => s)). intros b i.
  unfold neutral_row. destruct (_ || _); [apply cdata_neutral_inner|reflexivity].
Qed.

Lemma cdata_electron_inner (i : nat) (dev : Q) (uz : bool) (ks : list nat)
    (s : VCS_SOLVE) :
  cdata (electron_inner s i dev uz ks) = cdata s.
Proof.
  induction ks as [|k ks IH]; simpl; [reflexivity|].
  destruct (_ || _); [|exact IH].
  destruct (_ && _); [rewrite cdata_elab; apply cdata_add_floor|].
  destruct (_ && _); [rewrite cdata_elab; apply cdata_add_floor|].
  exact IH.
Qed.

Lemma cdata_stage6 (s : VCS_SOLVE) : cdata (stage6 s) = cdata s.
Proof.
  unfold stage6. apply (fold_cdata (fun s => s)). intros b i.
  unfold electron_row. destruct (_ && _); [apply cdata_electron_inner|reflexivity].
Qed.

Lemma elabcheck_state (cutoff : Q) (ib b : bool) (s s' : VCS_SOLVE) :
  vcs_elabcheck cutoff ib s = Ok b s' -> s' = s.
Proof.
  unfold vcs_elabcheck. destruct (elabcheck_loop _ _ _); intro H;
    inversion H; reflexivity.
Qed.

Section Frame.
Variable cutoff : Q.
Variable failed : Z.
Variable mlequ : buf -> nat -> nat -> buf -> nat -> Z * buf * buf.
Variable tmoles : VCS_SOLVE -> VCS_SOLVE.
Variable reinsert : nat -> VCS_SOLVE -> VCS_SOLVE.
Hypothesis tmoles_frame : forall s, cdata (tmoles s) = cdata s.

Lemma cdata_bound_step (i : nat) (acc : VCS_SOLVE * bool) (k : nat) :
  cdata (fst (bound_step cutoff i acc k)) = cdata (fst acc).
Proof.
  destruct acc as [s c]. unfold bound_step.
  destruct (voltage s k); [reflexivity|].
  destruct (Qgtb _ _); [|reflexivity].
  destruct (Qgtb _ _); [|reflexivity].
  destruct (Qltb _ _); reflexivity.
Qed.

Lemma cdata_stage2 (s : VCS_SOLVE) : cdata (fst (stage2 cutoff s)) = cdata s.
Proof.
  unfold stage2. apply (fold_cdata fst). intros [b c] i. unfold stage2_row.
  destruct (elem_type_eqb _ _); [|reflexivity].
  apply (fold_cdata fst). intros; apply cdata_bound_step.
Qed.

(** Stage 4 writes mole numbers only, until it reinserts a removed
    species [k]: then it leaves with the constraint data that
    [vcs_reinsert_deleted] returns. *)
Lemma cdata_adhoc_loop (ks : list nat) (s : VCS_SOLVE) :
  (snd (adhoc_loop reinsert s ks) = false ->
   cdata (fst (adhoc_loop reinsert s ks)) = cdata s) /\
  (snd (adhoc_loop reinsert s ks) = true ->
   exists k t, (m_numSpeciesRdc t <= k)%nat /\ cdata t = cdata s /\
               cdata (fst (adhoc_loop reinsert s ks)) = cdata (reinsert k t)).
Proof.
  revert s; induction ks as [|k ks IH]; intro s; simpl.
  - split; [reflexivity | discriminate].
  - destruct (voltage s k); [apply IH|].
    destruct (goodSpec_loop _ _ _ _); [|apply IH].
    match goal with |- context [Nat.leb ?a ?b] => destruct (Nat.leb a b) eqn:E end.
    + simpl. split; [discriminate|]. intros _.
      apply Nat.leb_le in E.
      match goal with |- context [reinsert k ?t] => exists k, t end.
      split; [exact E|]. split; reflexivity.
    + match goal with |- context [adhoc_loop reinsert ?t ks] =>
        exact (IH t) end.
Qed.

Lemma cdata_elcorr_tail (retn r : Z) (s s' : VCS_SOLVE) :
  elcorr_tail cutoff tmoles reinsert retn s = Ok r s' ->
  cdata s' = cdata s \/
  exists k t, (m_numSpeciesRdc t <= k)%nat /\ cdata t = cdata s /\
              cdata s' = cdata (reinsert k t).
Proof.
  unfold elcorr_tail, cleanup, bind.
  assert (Hj : (snd (if (2 <=? retn)%Z
                     then adhoc_loop reinsert s (seq 0 (m_numSpeciesTot s))
                     else (s, false)) = false ->
                cdata (fst (if (2 <=? retn)%Z
                            then adhoc_loop reinsert s (seq 0 (m_numSpeciesTot s))
                            else (s, false))) = cdata s) /\
               (snd (if (2 <=? retn)%Z
                     then adhoc_loop reinsert s (seq 0 (m_numSpeciesTot s))
                     else (s, false)) = true ->
                exists k t, (m_numSpeciesRdc t <= k)%nat /\ cdata t = cdata s /\
                  cdata (fst (if (2 <=? retn)%Z
                              then adhoc_loop reinsert s (seq 0 (m_numSpeciesTot s))
                              else (s, false))) = cdata (reinsert k t))).
  { destruct (2 <=? retn)%Z; [apply cdata_adhoc_loop|].
    split; [reflexivity | discriminate]. }
  destruct (if (2 <=? retn)%Z then _ else _) as [s4 jumped]. simpl in Hj.
  destruct Hj as [Hn Hy].
  destruct jumped.
  { intro H; inversion H. right.
    destruct (Hy eq_refl) as (k & t & K1 & K2 & K3).
    exists k, t. rewrite tmoles_frame. auto. }
  specialize (Hn eq_refl).
  destruct (vcs_elabcheck cutoff false s4) as [b1 s4'| |] eqn:E1; try discriminate.
  apply elabcheck_state in E1. subst s4'.
  destruct b1.
  { intro H; inversion H. left. rewrite tmoles_frame. exact Hn. }
  destruct (vcs_elabcheck cutoff true (stage5 s4)) as [b2 s5| |] eqn:E2;
    try discriminate.
  apply elabcheck_state in E2. subst s5.
  destruct b2.
  { intro H; inversion H. left. rewrite tmoles_frame, cdata_stage5. exact Hn. }
  destruct (vcs_elabcheck cutoff true (stage6 (stage5 s4))) as [b3 s6| |] eqn:E3;
    try discriminate.
  apply elabcheck_state in E3. subst s6.
  destruct b3; intro H; inversion H; left;
    rewrite tmoles_frame, cdata_stage6, cdata_stage5; exact Hn.
Qed.

Lemma cdata_elcorr (aa x : buf) (r : Z) (s s' : VCS_SOLVE) :
  vcs_elcorr cutoff failed mlequ tmoles reinsert aa x s = Ok r s' ->
  cdata s' = cdata s \/
  exists k t, (m_numSpeciesRdc t <= k)%nat /\ cdata t = cdata s /\
              cdata s' = cdata (reinsert k t).
Proof.
  unfold vcs_elcorr.
  assert (H2 : cdata (after_changed (stage2 cutoff (after_changed (stage1 s))))
               = cdata s).
  { rewrite cdata_after_changed, cdata_stage2, cdata_after_changed.
    apply cdata_stage1. }
  destruct (setup _ aa x) as [[aa1 x1] retn].
  destruct (mlequ _ _ _ _ _) as [[i aa2] x2].
  destruct (i =? 1)%Z.
  - intro H; inversion H; subst. left. exact H2.
  - pose proof (cdata_apply_step
                  (after_changed (stage2 cutoff (after_changed (stage1 s)))) x2 retn)
      as H3.
    destruct (apply_step _ x2 retn) as [s3 retn']. simpl in H3.
    intro H. apply cdata_elcorr_tail in H.
    assert (H4 : cdata (tmoles (vcs_elab s3)) = cdata s)
      by (rewrite tmoles_frame, cdata_elab, H3; exact H2).
    destruct H as [H|(k & t & K1 & K2 & K3)].
    + left. rewrite H. exact H4.
    + right. exists k, t. rewrite K2. auto.
Qed.

End Frame.

(** ** vcs_switch_elem_pos exchanges two positions *)

Lemma transp_same (i p : nat) : transp i i p = p.
Proof.
  unfold transp. destruct (Nat.eqb p i) eqn:E; [|reflexivity].
  apply Nat.eqb_eq in E. auto.
Qed.

Lemma transp_invol (i j p : nat) : transp i j (transp i j p) = p.
Proof.
  unfold transp.
  destruct (Nat.eqb p i) eqn:E1.
  - apply Nat.eqb_eq in E1. subst p.
    destruct (Nat.eqb j i) eqn:E2.
    + apply Nat.eqb_eq in E2. auto.
    + now rewrite Nat.eqb_refl.
  - destruct (Nat.eqb p j) eqn:E2.
    + apply Nat.eqb_eq in E2. subst p. now rewrite Nat.eqb_refl.
    + now rewrite E1, E2.
Qed.

Lemma transp_fix (n i j p : nat) :
  (i < n)%nat -> (j < n)%nat -> (n <= p)%nat -> transp i j p = p.
Proof.
  intros Hi Hj Hp. unfold transp.
  replace (Nat.eqb p i) with false by (symmetry; apply Nat.eqb_neq; lia).
  replace (Nat.eqb p j) with false by (symmetry; apply Nat.eqb_neq; lia).
  reflexivity.
Qed.

Lemma permutes_transp (n i j : nat) :
  (i < n)%nat -> (j < n)%nat -> permutes n (transp i j).
Proof.
  intros Hi Hj. exists (transp i j). repeat split.
  - apply transp_invol.
  - apply transp_invol.
  - intros p Hp. eapply transp_fix; eassumption.
Qed.

Lemma permutes_comp (n : nat) (f g : nat -> nat) :
  permutes n f -> permutes n g -> permutes n (fun p => f (g p)).
Proof.
  intros (f' & Hf1 & Hf2 & Hf3) (g' & Hg1 & Hg2 & Hg3).
  exists (fun p => g' (f' p)). repeat split.
  - intro p. rewrite Hf1. apply Hg1.
  - intro p. rewrite Hg2. apply Hf2.
  - intros p Hp. rewrite Hg3 by assumption. apply Hf3. assumption.
Qed.

Lemma length_sw {A : Type} (d : A) (x : list A) (i j : nat) :
  length (vcsUtil_sw d x i j) = length x.
Proof. unfold vcsUtil_sw. now rewrite !length_upd. Qed.

Lemma nth_sw {A : Type} (d : A) (x : list A) (i j p : nat) :
  (i < length x)%nat -> (j < length x)%nat ->
  nth p (vcsUtil_sw d x i j) d = nth (transp i j p) x d.
Proof.
  intros Hi Hj. unfold vcsUtil_sw, transp.
  destruct (Nat.eqb p i) eqn:E1.
  - apply Nat.eqb_eq in E1. subst p.
    destruct (Nat.eq_dec j i) as [->|Hne].
    + rewrite nth_upd_eq by (rewrite length_upd; lia). reflexivity.
    + rewrite nth_upd_ne by assumption. apply nth_upd_eq. lia.
  - apply Nat.eqb_neq in E1.
    destruct (Nat.eqb p j) eqn:E2.
    + apply Nat.eqb_eq in E2. subst p.
      apply nth_upd_eq. rewrite length_upd. lia.
    + apply Nat.eqb_neq in E2.
      rewrite !nth_upd_ne by auto. reflexivity.
Qed.

Lemma length_fm_set (fm : list (list Q)) (r c : nat) (v : Q) :
  length (fm_set fm r c v) = length fm.
Proof. unfold fm_set. apply length_upd. Qed.

Lemma nth_fm_set (fm : list (list Q)) (r c p : nat) (v : Q) :
  (r < length fm)%nat ->
  nth p (fm_set fm r c v) [] =
  if Nat.eqb p r then upd c v (nth r fm []) else nth p fm [].
Proof.
  intro Hr. unfold fm_set. destruct (Nat.eqb p r) eqn:E.
  - apply Nat.eqb_eq in E. subst p. apply nth_upd_eq. assumption.
  - apply Nat.eqb_neq in E. apply nth_upd_ne. auto.
Qed.

Lemma rdQ_upd (l : list Q) (c k : nat) (v : Q) :
  (c < length l)%nat ->
  rdQ (upd c v l) k = if Nat.eqb k c then v else rdQ l k.
Proof.
  intro H. unfold rdQ. destruct (Nat.eqb k c) eqn:E.
  - apply Nat.eqb_eq in E. subst k. apply nth_upd_eq. assumption.
  - apply Nat.eqb_neq in E. apply nth_upd_ne. auto.
Qed.

Lemma swap_entry_length (i j c : nat) (fm : list (list Q)) :
  length (swap_entry i j fm c) = length fm.
Proof. unfold swap_entry. now rewrite !length_fm_set. Qed.

Lemma swap_entry_row_length (i j c r : nat) (fm : list (list Q)) :
  (i < length fm)%nat -> (j < length fm)%nat ->
  length (nth r (swap_entry i j fm c) []) = length (nth r fm []).
Proof.
  intros Hi Hj. unfold swap_entry.
  rewrite nth_fm_set by (rewrite length_fm_set; lia).
  destruct (Nat.eqb r i) eqn:E1.
  - apply Nat.eqb_eq in E1. subst r. rewrite length_upd.
    rewrite nth_fm_set by lia.
    destruct (Nat.eqb i j) eqn:E2; [|reflexivity].
    apply Nat.eqb_eq in E2. subst j. apply length_upd.
  - rewrite nth_fm_set by lia.
    destruct (Nat.eqb r j) eqn:E2; [|reflexivity].
    apply Nat.eqb_eq in E2. subst j. apply length_upd.
Qed.

Lemma swap_entry_spec (i j c : nat) (fm : list (list Q)) (p k : nat) :
  i <> j -> (i < length fm)%nat -> (j < length fm)%nat ->
  (c < length (nth i fm []))%nat -> (c < length (nth j fm []))%nat ->
  rdQ (nth p (swap_entry i j fm c) []) k =
  if Nat.eqb k c then rdQ (nth (transp i j p) fm []) k else rdQ (nth p fm []) k.
Proof.
  intros Hne Hi Hj Hci Hcj. unfold swap_entry, transp.
  rewrite nth_fm_set by (rewrite length_fm_set; lia).
  destruct (Nat.eqb p i) eqn:E1.
  - apply Nat.eqb_eq in E1. subst p.
    rewrite (nth_fm_set fm j c i) by lia.
    replace (Nat.eqb i j) with false by (symmetry; apply Nat.eqb_neq; lia).
    rewrite rdQ_upd by assumption.
    destruct (Nat.eqb k c) eqn:E; [|reflexivity].
    apply Nat.eqb_eq in E. subst k. reflexivity.
  - rewrite nth_fm_set by lia.
    destruct (Nat.eqb p j) eqn:E2.
    + rewrite rdQ_upd by assumption.
      apply Nat.eqb_eq in E2. subst p.
      destruct (Nat.eqb k c) eqn:E; [|reflexivity].
      apply Nat.eqb_eq in E. subst k. reflexivity.
    + destruct (Nat.eqb k c); reflexivity.
Qed.

Lemma swap_rows_seq (i j : nat) (n a : nat) (fm : list (list Q)) :
  i <> j -> (i < length fm)%nat -> (j < length fm)%nat ->
  (a + n <= length (nth i fm []))%nat -> (a + n <= length (nth j fm []))%nat ->
  let fm' := fold_left (swap_entry i j) (seq a n) fm in
  length fm' = length fm /\
  (forall r, length (nth r fm' []) = length (nth r fm [])) /\
  (forall p k, rdQ (nth p fm' []) k =
     if (a <=? k)%nat && (k <? a + n)%nat
     then rdQ (nth (transp i j p) fm []) k else rdQ (nth p fm []) k).
Proof.
  intros Hne. revert a fm; induction n as [|n IH]; intros a fm Hi Hj Hli Hlj; simpl.
  - repeat split; auto. intros p k.
    destruct (a <=? k)%nat eqn:E1, (k <? a + 0)%nat eqn:E2; simpl; auto.
    apply Nat.leb_le in E1. apply Nat.ltb_lt in E2. lia.
  - specialize (IH (S a) (swap_entry i j fm a)).
    rewrite swap_entry_length, !swap_entry_row_length in IH by assumption.
    destruct IH as (L1 & L2 & L3); try lia.
    repeat split.
    + exact L1.
    + intro r. rewrite L2. apply swap_entry_row_length; assumption.
    + intros p k. rewrite L3.
      rewrite !swap_entry_spec by (auto; lia).
      rewrite transp_invol.
      destruct (Nat.eqb k a) eqn:E0;
      destruct (S a <=? k)%nat eqn:E1, (a <=? k)%nat eqn:E2,
               (k <? S a + n)%nat eqn:E3, (k <? a + S n)%nat eqn:E4;
        simpl; auto;
        repeat match goal with
        | H : Nat.eqb _ _ = true |- _ => apply Nat.eqb_eq in H
        | H : Nat.eqb _ _ = false |- _ => apply Nat.eqb_neq in H
        | H : (_ <=? _)%nat = true |- _ => apply Nat.leb_le in H
        | H : (_ <=? _)%nat = false |- _ => apply Nat.leb_gt in H
        | H : (_ <? _)%nat = true |- _ => apply Nat.ltb_lt in H
        | H : (_ <? _)%nat = false |- _ => apply Nat.ltb_ge in H
        end; lia.
Qed.

Lemma switch_counts (i j : nat) (s : VCS_SOLVE) :
  m_numElemConstraints (vcs_switch_elem_pos i j s) = m_numElemConstraints s /\
  m_numComponents (vcs_switch_elem_pos i j s) = m_numComponents s /\
  m_numSpeciesTot (vcs_switch_elem_pos i j s) = m_numSpeciesTot s.
Proof.
  unfold vcs_switch_elem_pos. destruct (Nat.eqb i j); simpl; auto.
Qed.

Lemma switch_wf (i j : nat) (s : VCS_SOLVE) :
  (i < m_numElemConstraints s)%nat -> (j < m_numElemConstraints s)%nat ->
  wf_elem s -> wf_elem (vcs_switch_elem_pos i j s).
Proof.
  intros Hi Hj W. unfold vcs_switch_elem_pos.
  destruct (Nat.eqb i j) eqn:E; [exact W|].
  apply Nat.eqb_neq in E. destruct W.
  pose proof (wf_rows0 i Hi) as Ri. pose proof (wf_rows0 j Hj) as Rj.
  destruct (swap_rows_seq i j (m_numSpeciesTot s) 0 (FormulaMatrix s))
    as (L1 & L2 & _); try assumption; try lia.
  constructor; simpl; rewrite ?length_sw; try assumption.
  - unfold swap_rows. rewrite L1. assumption.
  - intros r Hr. unfold swap_rows. rewrite L2. apply wf_rows0. assumption.
Qed.

Lemma switch_repositioned (i j : nat) (s : VCS_SOLVE) :
  (i < m_numElemConstraints s)%nat -> (j < m_numElemConstraints s)%nat ->
  wf_elem s -> repositioned (transp i j) s (vcs_switch_elem_pos i j s).
Proof.
  intros Hi Hj W. unfold vcs_switch_elem_pos.
  destruct (Nat.eqb i j) eqn:E.
  - apply Nat.eqb_eq in E. subst j. unfold repositioned.
    repeat split; try rewrite transp_same; auto.
  - apply Nat.eqb_neq in E. destruct W.
    pose proof (wf_rows0 i Hi) as Ri. pose proof (wf_rows0 j Hj) as Rj.
    destruct (swap_rows_seq i j (m_numSpeciesTot s) 0 (FormulaMatrix s))
      as (_ & _ & L3); try assumption; try lia.
    unfold repositioned, rdQ, elType, FM. simpl.
    repeat split; try (apply nth_sw; lia).
    intros k Hk. unfold swap_rows. rewrite L3. simpl.
    apply Nat.ltb_lt in Hk. rewrite Hk. reflexivity.
Qed.

Lemma repositioned_trans (f g : nat -> nat) (s s1 s2 : VCS_SOLVE) :
  repositioned f s s1 -> repositioned g s1 s2 ->
  repositioned (fun p => f (g p)) s s2.
Proof.
  intros (A1 & A2 & A3 & A4) (B1 & B2 & B3 & B4).
  unfold repositioned. repeat split; try congruence; intros;
    destruct (B4 p) as (C1 & C2 & C3 & C4 & C5);
    destruct (A4 (g p)) as (D1 & D2 & D3 & D4 & D5); try congruence.
  rewrite C5 by congruence. apply D5. assumption.
Qed.

(** ** The search of vcs_elem_rearrange *)

Lemma find_k_range (s : VCS_SOLVE) (a : buf) (test : Q) (jr n : nat) :
  let k := find_k s a test (seq jr n) in
  k = m_numElemConstraints s \/
  ((jr <= k < jr + n)%nat /\ nth k (ElActive s) false = true /\
   ~ a k == test).
Proof.
  revert jr; induction n as [|n IH]; intro jr; simpl; [left; reflexivity|].
  destruct (nth jr (ElActive s) false && Qneb (a jr) test) eqn:E.
  - right. apply andb_true_iff in E. destruct E as [E1 E2].
    apply Qneb_true in E2. repeat split; auto; lia.
  - destruct (IH (S jr)) as [H|(H1 & H2 & H3)]; [left; exact H|].
    right. repeat split; auto; lia.
Qed.

Section Rearranged.
Variable success : Z.

Lemma rearrange_loop_repositioned (fuel : nat) :
  forall (test : Q) (jr : nat) (w : work) (s : VCS_SOLVE) (r : Z) (s' : VCS_SOLVE),
  wf_elem s ->
  rearrange_loop success fuel test jr w s = Some (Ok r s') ->
  r = success /\ wf_elem s' /\
  exists pi, permutes (m_numElemConstraints s) pi /\ repositioned pi s s' /\
             (forall p, (p < jr)%nat -> pi p = p).
Proof.
  induction fuel as [|fuel IH]; intros test jr w s r s' W; simpl; [discriminate|].
  pose proof (find_k_range s (aw w) test jr (m_numElemConstraints s - jr)) as Hk.
  simpl in Hk.
  set (k := find_k s (aw w) test (seq jr (m_numElemConstraints s - jr))) in *.
  destruct (Nat.eqb k (m_numElemConstraints s)) eqn:Ek; [discriminate|].
  apply Nat.eqb_neq in Ek.
  destruct Hk as [Hk|(Hk & _)]; [contradiction|].
  destruct (Qltb _ _).
  { intro H. apply IH in H; assumption. }
  assert (Hjr : (jr < m_numElemConstraints s)%nat) by lia.
  assert (Hkk : (k < m_numElemConstraints s)%nat) by lia.
  assert (Hs1 : wf_elem (if Nat.eqb jr k then s else vcs_switch_elem_pos jr k s) /\
                repositioned (transp jr k) s
                  (if Nat.eqb jr k then s else vcs_switch_elem_pos jr k s)).
  { destruct (Nat.eqb jr k) eqn:E.
    - apply Nat.eqb_eq in E. split; [exact W|].
      rewrite <- E. unfold repositioned. repeat split; rewrite ?transp_same; auto.
    - split; [apply switch_wf | apply switch_repositioned]; assumption. }
  destruct Hs1 as [W1 R1].
  set (s1 := if Nat.eqb jr k then s else vcs_switch_elem_pos jr k s) in *.
  assert (Hfix : forall p, (p < jr)%nat -> transp jr k p = p).
  { intros p Hp. unfold transp.
    replace (Nat.eqb p jr) with false by (symmetry; apply Nat.eqb_neq; lia).
    replace (Nat.eqb p k) with false by (symmetry; apply Nat.eqb_neq; lia).
    reflexivity. }
  destruct (Nat.ltb (S jr) (m_numComponents s)).
  - intro H. apply IH in H; [|exact W1].
    destruct H as (Hr & W' & pi & P1 & P2 & P3).
    split; [exact Hr|]. split; [exact W'|].
    exists (fun p => transp jr k (pi p)). split; [|split].
    + apply permutes_comp; [apply permutes_transp; assumption|].
      destruct R1 as (E1 & _). rewrite <- E1. exact P1.
    + eapply repositioned_trans; eassumption.
    + intros p Hp. rewrite P3 by lia. apply Hfix. assumption.
  - intro H. inversion H; subst. split; [reflexivity|]. split; [exact W1|].
    exists (transp jr k). split; [|split].
    + apply permutes_transp; assumption.
    + exact R1.
    + exact Hfix.
Qed.

Lemma rearrange_repositioned (fuel : nat) (w : work) (s : VCS_SOLVE)
    (r : Z) (s' : VCS_SOLVE) :
  wf_elem s ->
  vcs_elem_rearrange success fuel w s = Some (Ok r s') ->
  r = success /\ wf_elem s' /\
  exists pi, permutes (m_numElemConstraints s) pi /\ repositioned pi s s'.
Proof.
  intros W. unfold vcs_elem_rearrange.
  destruct (sentinel_loop fuel s _ _) as [[test a]|]; [|discriminate].
  intro H. apply rearrange_loop_repositioned in H; [|exact W].
  destruct H as (Hr & W' & pi & P1 & P2 & _).
  split; [exact Hr|]. split; [exact W'|]. exists pi. auto.
Qed.

End Rearranged.

(** ** Constraint data are only ever repositioned *)

(** C9, as amended: provided [vcs_tmoles] leaves the constraint data
    alone, [vcs_elcorr] returns with the target abundances, the formula
    matrix, the type tags, the active flags and the names as they were,
    unless its stage 4 reinserts a removed species: then it returns with
    what [vcs_reinsert_deleted] made of them.  [vcs_elabcheck] returns the
    instance unchanged; [vcs_elab] writes none of the five;
    [vcs_switch_elem_pos] exchanges the entries of positions [i] and [j] of
    those arrays; and when [vcs_elem_rearrange] returns, those arrays hold
    the same entries as before under a permutation of the constraint
    positions. *)
Theorem constraint_data_only_repositioned
    (cutoff : Q) (failed success : Z)
    (mlequ : buf -> nat -> nat -> buf -> nat -> Z * buf * buf)
    (tmoles : VCS_SOLVE -> VCS_SOLVE)
    (reinsert : nat -> VCS_SOLVE -> VCS_SOLVE) :
  (forall s, cdata (tmoles s) = cdata s) ->
  (forall aa x s r s',
      vcs_elcorr cutoff failed mlequ tmoles reinsert aa x s = Ok r s' ->
      cdata s' = cdata s \/
      exists k t, (m_numSpeciesRdc t <= k)%nat /\ cdata t = cdata s /\
                  cdata s' = cdata (reinsert k t)) /\
  (forall ibound s b s', vcs_elabcheck cutoff ibound s = Ok b s' -> s' = s) /\
  (forall s, cdata (vcs_elab s) = cdata s) /\
  (forall i j s,
      (i < m_numElemConstraints s)%nat -> (j < m_numElemConstraints s)%nat ->
      wf_elem s ->
      permutes (m_numElemConstraints s) (transp i j) /\
      repositioned (transp i j) s (vcs_switch_elem_pos i j s)) /\
  (forall fuel w s r s',
      wf_elem s ->
      vcs_elem_rearrange success fuel w s = Some (Ok r s') ->
      exists pi, permutes (m_numElemConstraints s) pi /\ repositioned pi s s').
Proof.
  intros Htm. split; [|split; [|split; [|split]]].
  - intros aa x s r s' H.
    apply (cdata_elcorr cutoff failed mlequ tmoles reinsert Htm) in H. exact H.
  - intros ib s b s' H. eapply elabcheck_state; eassumption.
  - intro s. apply cdata_elab.
  - intros i j s Hi Hj W. split.
    + apply permutes_transp; assumption.
    + apply switch_repositioned; assumption.
  - intros fuel w s r s' W H.
    apply rearrange_repositioned in H; [|exact W].
    destruct H as (_ & _ & pi & P1 & P2). exists pi. auto.
Qed.

Lemma e2e_wf : wf_elem e2e.
Proof.
  constructor; simpl; try lia.
  intros r Hr. destruct r as [|[|r]]; simpl; lia.
Qed.

Lemma small_row_wf : wf_elem small_row.
Proof.
  constructor; simpl; try lia.
  intros r Hr. destruct r as [|[|r]]; simpl; lia.
Qed.

Lemma constraint_data_only_repositioned_witness :
  (exists r s', run_elcorr removed_last = Ok r s' /\
     (cdata s' = cdata removed_last \/
      exists k t, (m_numSpeciesRdc t <= k)%nat /\ cdata t = cdata removed_last /\
                  cdata s' = cdata (reinsert_model k t))) /\
  repositioned (transp 0 1) e2e (vcs_switch_elem_pos 0 1 e2e) /\
  (exists r s' pi,
     vcs_elem_rearrange success_value 3 zero_work small_row = Some (Ok r s') /\
     permutes 2 pi /\ repositioned pi small_row s').
Proof.
  destruct (constraint_data_only_repositioned cutoff_value failed_value
              success_value mlequ_model tmoles_model reinsert_model
              (fun s => eq_refl)) as (H1 & _ & _ & H3 & H4).
  split; [|split].
  - unfold run_elcorr.
    destruct (vcs_elcorr cutoff_value failed_value mlequ_model tmoles_model
                reinsert_model (fun _ => 0) (fun _ => 0) removed_last)
      as [r s'| |] eqn:E.
    + exists r, s'. split; [reflexivity|]. exact (H1 _ _ _ _ _ E).
    + vm_compute in E. discriminate.
    + vm_compute in E. discriminate.
  - apply H3; [simpl; lia | simpl; lia | exact e2e_wf].
  - destruct (vcs_elem_rearrange success_value 3 zero_work small_row)
      as [[r s'| |]|] eqn:E.
    + destruct (H4 _ _ _ _ _ small_row_wf E) as (pi & P1 & P2).
      exists r, s', pi. auto.
    + vm_compute in E. discriminate.
    + vm_compute in E. discriminate.
    + vm_compute in E. discriminate.
Defined.

(** The claim C9 as stated fails on [removed_last] once
    [vcs_reinsert_deleted] moves the species it reinserts: stage 4 of
    [vcs_elcorr] reinserts the removed species 3, which takes the place of
    species 2 at the end of the active range, and the formula matrix
    returns with the columns of the two species exchanged. *)
Lemma elcorr_reinsertion_moves_columns :
  FormulaMatrix removed_last = [[1; 1; 0; 1]; [1; 0; 1; 0]] /\
  match run_elcorr removed_last with
  | Ok r s' => FormulaMatrix s' = [[1; 1; 1; 0]; [1; 0; 0; 1]]
  | _ => False
  end.
Proof. split; [reflexivity|]. vm_compute. reflexivity. Qed.

(** ** The Gram-Schmidt trial depends on the rows before it only *)

Lemma fold_left_rel {A A' X : Type} (R : A -> A' -> Prop)
    (f : A -> X -> A) (f' : A' -> X -> A') (l : list X) :
  (forall a a' x, In x l -> R a a' -> R (f a x) (f' a' x)) ->
  forall a a', R a a' -> R (fold_left f l a) (fold_left f' l a').
Proof.
  induction l as [|x l IH]; intros H a a' Ha; simpl; [exact Ha|].
  apply IH.
  - intros b b' y Hy. apply H. right. exact Hy.
  - apply H; [left; reflexivity | exact Ha].
Qed.

Lemma bfill (f : nat -> Q) (off n a : nat) (m : buf) (idx : nat) :
  fold_left (fun m j => bset m (j + off) (f j)) (seq a n) m idx =
  if (a + off <=? idx)%nat && (idx <? a + n + off)%nat
  then f (idx - off)%nat else m idx.
Proof.
  revert a m; induction n as [|n IH]; intros a m; simpl.
  - destruct (a + off <=? idx)%nat eqn:E1, (idx <? a + 0 + off)%nat eqn:E2;
      simpl; auto.
    apply Nat.leb_le in E1. apply Nat.ltb_lt in E2. lia.
  - rewrite IH. unfold bset.
    destruct (Nat.eqb idx (a + off)) eqn:E0;
    destruct (S a + off <=? idx)%nat eqn:E1, (a + off <=? idx)%nat eqn:E2,
             (idx <? S a + n + off)%nat eqn:E3, (idx <? a + S n + off)%nat eqn:E4;
      simpl; auto;
      repeat match goal with
      | H : Nat.eqb _ _ = true |- _ => apply Nat.eqb_eq in H
      | H : Nat.eqb _ _ = false |- _ => apply Nat.eqb_neq in H
      | H : (_ <=? _)%nat = true |- _ => apply Nat.leb_le in H
      | H : (_ <=? _)%nat = false |- _ => apply Nat.leb_gt in H
      | H : (_ <? _)%nat = true |- _ => apply Nat.ltb_lt in H
      | H : (_ <? _)%nat = false |- _ => apply Nat.ltb_ge in H
      end; try lia.
    subst idx. f_equal. lia.
Qed.

Lemma fill_row_spec (s : VCS_SOLVE) (k jr : nat) (m : buf) (idx : nat) :
  fill_row s k jr m idx =
  if (jr * m_numComponents s <=? idx)%nat
     && (idx <? m_numComponents s + jr * m_numComponents s)%nat
  then FM s k (idx - jr * m_numComponents s) else m idx.
Proof.
  unfold fill_row.
  rewrite (bfill (FM s k) (jr * m_numComponents s) (m_numComponents s) 0 m idx).
  reflexivity.
Qed.

Lemma trial_sm (s : VCS_SOLVE) (k jr : nat) (test : Q) (w : work) :
  sm (trial s k jr test w) =
  if Nat.ltb 0 jr
  then orthogonalize s
         (coeffs s (mkWork (bset (aw w) k test) (sa w)
                           (fill_row s k jr (sm w)) (ss w)) jr jr)
         jr jr (fill_row s k jr (sm w))
  else fill_row s k jr (sm w).
Proof. unfold trial. destruct (Nat.ltb 0 jr); reflexivity. Qed.

Lemma trial_sa (s : VCS_SOLVE) (k jr : nat) (test : Q) (w : work) (j : nat) :
  sa (trial s k jr test w) j =
  if Nat.eqb j jr then norm2 s (sm (trial s k jr test w)) jr else sa w j.
Proof. unfold trial. destruct (Nat.ltb 0 jr); reflexivity. Qed.

Lemma trial_aw (s : VCS_SOLVE) (k jr : nat) (test : Q) (w : work) :
  aw (trial s k jr test w) = bset (aw w) k test.
Proof. unfold trial. destruct (Nat.ltb 0 jr); reflexivity. Qed.

Section TrialAgree.
Variables s s' : VCS_SOLVE.
Variables k k' jr : nat.
Hypothesis same_nc : m_numComponents s' = m_numComponents s.
Hypothesis same_row : forall j, (j < m_numComponents s)%nat -> FM s' k' j = FM s k j.

Lemma fill_row_agree (m m' : buf) :
  (forall idx, (idx < jr * (m_numComponents s))%nat -> m idx = m' idx) ->
  forall idx, (idx < S jr * (m_numComponents s))%nat ->
    fill_row s k jr m idx = fill_row s' k' jr m' idx.
Proof.
  intros H idx Hidx. rewrite !fill_row_spec. rewrite same_nc.
  destruct (jr * (m_numComponents s) <=? idx)%nat eqn:E1, (idx <? (m_numComponents s) + jr * (m_numComponents s))%nat eqn:E2; simpl.
  - apply Nat.leb_le in E1. apply Nat.ltb_lt in E2.
    symmetry. apply same_row. lia.
  - apply Nat.ltb_ge in E2. simpl in Hidx. lia.
  - apply Nat.leb_gt in E1. apply H. exact E1.
  - apply Nat.leb_gt in E1. apply H. exact E1.
Qed.

Lemma dot_rows_agree (m m' : buf) (j : nat) :
  (forall idx, (idx < S jr * (m_numComponents s))%nat -> m idx = m' idx) ->
  (j < jr)%nat ->
  dot_rows s m jr j = dot_rows s' m' jr j.
Proof.
  intros H Hj. unfold dot_rows. rewrite same_nc.
  apply (fold_left_rel eq); [|reflexivity].
  intros a a' i Hi ->. apply in_seq in Hi.
  rewrite !H; [reflexivity| |]; simpl; nia.
Qed.

Lemma coeffs_spec (t : VCS_SOLVE) (w : work) (jl j : nat) :
  coeffs t w jr jl j =
  if (j <? jl)%nat then dot_rows t (sm w) jr j / sa w j else ss w j.
Proof.
  unfold coeffs.
  pose proof (bfill (fun j => dot_rows t (sm w) jr j / sa w j) 0 jl 0 (ss w) j) as H.
  simpl in H. rewrite Nat.add_0_r, Nat.sub_0_r in H.
  rewrite <- H.
  assert (E : forall i,
             fold_left (fun c j => bset c j (dot_rows t (sm w) jr j / sa w j))
                       (seq 0 jl) (ss w) i =
             fold_left (fun m j => bset m (j + 0) (dot_rows t (sm w) jr j / sa w j))
                       (seq 0 jl) (ss w) i).
  { apply (fold_left_rel (fun a a' : buf => forall i, a i = a' i));
      [|reflexivity].
    intros a a' x _ Ha i. rewrite Nat.add_0_r. unfold bset.
    destruct (Nat.eqb i x); [reflexivity | apply Ha]. }
  apply E.
Qed.

Lemma orthogonalize_agree (c c' m m' : buf) (jl : nat) :
  (jl <= jr)%nat ->
  (forall j, (j < jl)%nat -> c j = c' j) ->
  (forall idx, (idx < S jr * (m_numComponents s))%nat -> m idx = m' idx) ->
  forall idx, (idx < S jr * (m_numComponents s))%nat ->
    orthogonalize s c jr jl m idx = orthogonalize s' c' jr jl m' idx.
Proof.
  intros Hjl Hc Hm. unfold orthogonalize. rewrite same_nc.
  apply (fold_left_rel
           (fun a a' : buf => forall idx, (idx < S jr * (m_numComponents s))%nat -> a idx = a' idx));
    [|exact Hm].
  intros a a' j Hj Ha. apply in_seq in Hj.
  apply (fold_left_rel
           (fun a a' : buf => forall idx, (idx < S jr * (m_numComponents s))%nat -> a idx = a' idx));
    [|exact Ha].
  intros b b' l Hl Hb idx Hidx. apply in_seq in Hl.
  unfold bset. destruct (Nat.eqb idx (l + jr * (m_numComponents s))); [|apply Hb; exact Hidx].
  rewrite Hc by lia. rewrite !Hb; [reflexivity| |]; simpl; nia.
Qed.

Lemma norm2_agree (m m' : buf) :
  (forall idx, (idx < S jr * (m_numComponents s))%nat -> m idx = m' idx) ->
  norm2 s m jr = norm2 s' m' jr.
Proof.
  intro H. unfold norm2. rewrite same_nc.
  apply (fold_left_rel eq); [|reflexivity].
  intros a a' i Hi ->. apply in_seq in Hi.
  rewrite H; [reflexivity|]. simpl; nia.
Qed.

Lemma trial_agree (test test' : Q) (w w' : work) :
  agree (m_numComponents s) jr w w' ->
  agree (m_numComponents s) (S jr) (trial s k jr test w) (trial s' k' jr test' w').
Proof.
  intros [Hsm Hsa].
  pose proof (fill_row_agree (sm w) (sm w') Hsm) as Hfill.
  assert (Hm : forall idx, (idx < S jr * (m_numComponents s))%nat ->
               sm (trial s k jr test w) idx = sm (trial s' k' jr test' w') idx).
  { rewrite !trial_sm. destruct (Nat.ltb 0 jr); [|exact Hfill].
    apply orthogonalize_agree; [lia| |exact Hfill].
    intros j Hj. rewrite !coeffs_spec. simpl.
    pose proof Hj as Hj'. apply Nat.ltb_lt in Hj'. rewrite Hj'.
    rewrite (dot_rows_agree _ _ j Hfill Hj). rewrite Hsa by assumption.
    reflexivity. }
  split; [exact Hm|].
  intros j Hj. rewrite !trial_sa.
  destruct (Nat.eqb j jr) eqn:E.
  - apply norm2_agree. exact Hm.
  - apply Nat.eqb_neq in E. apply Hsa. lia.
Qed.

End TrialAgree.

Lemma agree_trans (nc n : nat) (w1 w2 w3 : work) :
  agree nc n w1 w2 -> agree nc n w2 w3 -> agree nc n w1 w3.
Proof.
  intros [A1 A2] [B1 B2]. split; intros; [rewrite A1, B1 | rewrite A2, B2]; auto.
Qed.

Lemma chain_sa_stable (s : VCS_SOLVE) (n j : nat) :
  (j < n)%nat -> sa (chain s n) j = sa (chain s (S j)) j.
Proof.
  induction n as [|n IH]; intro H; [lia|].
  destruct (Nat.eq_dec j n) as [->|Hne]; [reflexivity|].
  rewrite <- IH by lia.
  change (chain s (S n)) with (trial s n n 0 (chain s n)). rewrite trial_sa.
  replace (Nat.eqb j n) with false by (symmetry; apply Nat.eqb_neq; lia).
  reflexivity.
Qed.

Lemma accepted_prefix_nth (s : VCS_SOLVE) (n j : nat) :
  accepted_prefix s n = true -> (j < n)%nat ->
  Qltb (sa (chain s (S j)) j) 1.0e-6 = false.
Proof.
  unfold accepted_prefix. rewrite forallb_forall. intros H Hj.
  specialize (H j). rewrite in_seq in H.
  rewrite <- (chain_sa_stable s n j Hj).
  apply negb_true_iff. apply H. lia.
Qed.

Lemma active_prefix_nth (s : VCS_SOLVE) (n j : nat) :
  active_prefix s n = true -> (j < n)%nat -> nth j (ElActive s) false = true.
Proof.
  unfold active_prefix. rewrite forallb_forall. intros H Hj.
  apply H. apply in_seq. lia.
Qed.

(** ** The first loop of vcs_elem_rearrange *)

Lemma sentinel_fold_clear (s : VCS_SOLVE) (t0 : Q) (n i0 : nat) (test : Q) (a : buf) :
  (forall j, (i0 <= j < i0 + n)%nat -> t0 < rdQ (gai s) j) ->
  test <= t0 ->
  exists test' a',
    fold_left (sentinel_step s) (seq i0 n) (test, a, false) = (test', a', false) /\
    test' <= t0 /\
    (forall j, a' j = if (i0 <=? j)%nat && (j <? i0 + n)%nat
                      then rdQ (gai s) j else a j).
Proof.
  revert i0 test a; induction n as [|n IH]; intros i0 test a Hg Ht; simpl.
  - exists test, a. repeat split; auto. intro j.
    destruct (i0 <=? j)%nat eqn:E1, (j <? i0 + 0)%nat eqn:E2; simpl; auto.
    apply Nat.leb_le in E1. apply Nat.ltb_lt in E2. lia.
  - rewrite bset_eq.
    assert (Hlt : test - 1.0 < rdQ (gai s) i0).
    { specialize (Hg i0). assert (t0 < rdQ (gai s) i0) by (apply Hg; lia). lra. }
    destruct (Qeq_bool (test - 1.0) (rdQ (gai s) i0)) eqn:E.
    { apply Qeq_bool_iff in E. rewrite E in Hlt. exfalso.
      apply (Qlt_irrefl _ Hlt). }
    destruct (IH (S i0) (test - 1.0) (bset a i0 (rdQ (gai s) i0)))
      as (test' & a' & H1 & H2 & H3).
    + intros j Hj. apply Hg. lia.
    + lra.
    + exists test', a'. split; [exact H1|]. split; [exact H2|].
      intro j. rewrite H3. unfold bset.
      destruct (Nat.eqb j i0) eqn:E0;
      destruct (S i0 <=? j)%nat eqn:E1, (i0 <=? j)%nat eqn:E2,
               (j <? S i0 + n)%nat eqn:E3, (j <? i0 + S n)%nat eqn:E4;
        simpl; auto;
        repeat match goal with
        | H : Nat.eqb _ _ = true |- _ => apply Nat.eqb_eq in H
        | H : Nat.eqb _ _ = false |- _ => apply Nat.eqb_neq in H
        | H : (_ <=? _)%nat = true |- _ => apply Nat.leb_le in H
        | H : (_ <=? _)%nat = false |- _ => apply Nat.leb_gt in H
        | H : (_ <? _)%nat = true |- _ => apply Nat.ltb_lt in H
        | H : (_ <? _)%nat = false |- _ => apply Nat.ltb_ge in H
        end; try lia.
      subst j. reflexivity.
Qed.

Lemma sentinel_loop_clear (fuel : nat) (s : VCS_SOLVE) (a : buf) :
  (forall j, (j < m_numElemConstraints s)%nat -> -1.0E10 < rdQ (gai s) j) ->
  exists test a',
    sentinel_loop (S fuel) s (-1.0E10) a = Some (test, a') /\
    test <= -1.0E10 /\
    (forall j, (j < m_numElemConstraints s)%nat -> a' j = rdQ (gai s) j).
Proof.
  intro Hg.
  destruct (sentinel_fold_clear s (-1.0E10) (m_numElemConstraints s) 0 (-1.0E10) a)
    as (test & a' & H1 & H2 & H3).
  - intros j Hj. apply Hg. lia.
  - apply Qle_refl.
  - exists test, a'. simpl. unfold sentinel_pass. rewrite H1.
    split; [reflexivity|]. split; [exact H2|].
    intros j Hj. rewrite H3. simpl.
    apply Nat.ltb_lt in Hj. now rewrite Hj.
Qed.

(** ** No exchange when the first rows are accepted as they stand *)

Lemma rearrange_loop_S (success : Z) (fuel : nat) (test : Q) (jr : nat)
    (w : work) (s : VCS_SOLVE) :
  rearrange_loop success (S fuel) test jr w s =
  let k := find_k s (aw w) test (seq jr (m_numElemConstraints s - jr)) in
  if Nat.eqb k (m_numElemConstraints s) then Some (Exit (-1)%Z)
  else
    let w1 := trial s k jr test w in
    if Qltb (sa w1 jr) 1.0e-6 then rearrange_loop success fuel test jr w1 s
    else
      let s1 := if Nat.eqb jr k then s else vcs_switch_elem_pos jr k s in
      let w2 := if Nat.eqb jr k then w1
                else mkWork (bsw (aw w1) jr k) (sa w1) (sm w1) (ss w1) in
      if Nat.ltb (S jr) (m_numComponents s)
      then rearrange_loop success fuel test (S jr) w2 s1
      else Some (Ok success s1).
Proof. reflexivity. Qed.

Lemma find_k_head (s : VCS_SOLVE) (a : buf) (test : Q) (jr : nat) :
  (jr < m_numElemConstraints s)%nat ->
  nth jr (ElActive s) false = true -> ~ a jr == test ->
  find_k s a test (seq jr (m_numElemConstraints s - jr)) = jr.
Proof.
  intros Hjr Hact Hne.
  replace (m_numElemConstraints s - jr)%nat
    with (S (m_numElemConstraints s - S jr)) by lia.
  simpl. rewrite Hact. apply Qneb_true in Hne. rewrite Hne. reflexivity.
Qed.

Section NoSwap.
Variable success : Z.
Variable s : VCS_SOLVE.
Variable test : Q.
Hypothesis comps_le : (m_numComponents s <= m_numElemConstraints s)%nat.
Hypothesis act : active_prefix s (m_numComponents s) = true.
Hypothesis acc : accepted_prefix s (m_numComponents s) = true.

Lemma no_swap_step (jr fuel : nat) (w : work) :
  (jr < m_numComponents s)%nat ->
  agree (m_numComponents s) jr w (chain s jr) ->
  ~ aw w jr == test ->
  agree (m_numComponents s) (S jr) (trial s jr jr test w) (chain s (S jr)) /\
  rearrange_loop success (S fuel) test jr w s =
    (if Nat.ltb (S jr) (m_numComponents s)
     then rearrange_loop success fuel test (S jr) (trial s jr jr test w) s
     else Some (Ok success s)).
Proof.
  intros Hjr Hag Haw.
  pose proof (trial_agree s s jr jr jr eq_refl (fun j _ => eq_refl)
                test 0 w (chain s jr) Hag) as Hag'.
  change (trial s jr jr 0 (chain s jr)) with (chain s (S jr)) in Hag'.
  split; [exact Hag'|].
  rewrite rearrange_loop_S.
  rewrite find_k_head;
    [|lia|apply (active_prefix_nth s _ jr act); lia|exact Haw].
  cbv zeta.
  replace (Nat.eqb jr (m_numElemConstraints s)) with false
    by (symmetry; apply Nat.eqb_neq; lia).
  destruct Hag' as [_ Hsa]. rewrite (Hsa jr) by lia.
  rewrite (accepted_prefix_nth s _ jr acc) by lia.
  rewrite Nat.eqb_refl. reflexivity.
Qed.

Lemma no_swap_loop (n : nat) :
  forall (jr fuel : nat) (w : work),
  (jr + S n = m_numComponents s)%nat -> (S n <= fuel)%nat ->
  agree (m_numComponents s) jr w (chain s jr) ->
  (forall j, (jr <= j < m_numComponents s)%nat -> ~ aw w j == test) ->
  rearrange_loop success fuel test jr w s = Some (Ok success s).
Proof.
  induction n as [|n IH]; intros jr fuel w Hjr Hfuel Hag Haw;
    (destruct fuel as [|fuel]; [lia|]);
    destruct (no_swap_step jr fuel w) as [Hag' ->]; auto; try lia;
    try (apply Haw; lia).
  - replace (Nat.ltb (S jr) (m_numComponents s)) with false
      by (symmetry; apply Nat.ltb_ge; lia).
    reflexivity.
  - replace (Nat.ltb (S jr) (m_numComponents s)) with true
      by (symmetry; apply Nat.ltb_lt; lia).
    apply IH; try lia.
    + exact Hag'.
    + intros j Hj. rewrite trial_aw. rewrite bset_ne by lia. apply Haw. lia.
Qed.

End NoSwap.

(** ** Accepted rows stay accepted *)

Lemma fold_left_inv {A X : Type} (P : A -> Prop) (f : A -> X -> A) (l : list X) :
  (forall a x, In x l -> P a -> P (f a x)) ->
  forall a, P a -> P (fold_left f l a).
Proof.
  induction l as [|x l IH]; intros H a Ha; simpl; [exact Ha|].
  apply IH.
  - intros b y Hy. apply H. right. exact Hy.
  - apply H; [left; reflexivity | exact Ha].
Qed.

Lemma orthogonalize_outside (s : VCS_SOLVE) (c : buf) (jr jl : nat) (m : buf)
    (idx : nat) :
  (idx < jr * m_numComponents s)%nat ->
  orthogonalize s c jr jl m idx = m idx.
Proof.
  intro H. unfold orthogonalize.
  apply (fold_left_inv (fun a : buf => a idx = m idx)); [|reflexivity].
  intros a j _ Ha.
  apply (fold_left_inv (fun a : buf => a idx = m idx)); [|exact Ha].
  intros b l _ Hb. rewrite bset_ne by lia. exact Hb.
Qed.

Lemma trial_keeps (s : VCS_SOLVE) (k jr : nat) (test : Q) (w : work) :
  agree (m_numComponents s) jr (trial s k jr test w) w.
Proof.
  split.
  - intros idx Hidx. rewrite trial_sm.
    assert (Hf : fill_row s k jr (sm w) idx = sm w idx).
    { rewrite fill_row_spec.
      replace (jr * m_numComponents s <=? idx)%nat with false
        by (symmetry; apply Nat.leb_gt; lia).
      reflexivity. }
    destruct (Nat.ltb 0 jr); [|exact Hf].
    rewrite orthogonalize_outside by assumption. exact Hf.
  - intros j Hj. rewrite trial_sa.
    replace (Nat.eqb j jr) with false by (symmetry; apply Nat.eqb_neq; lia).
    reflexivity.
Qed.

Lemma chain_agree_rows (s s' : VCS_SOLVE) (n : nat) :
  m_numComponents s' = m_numComponents s ->
  (forall i j, (i < n)%nat -> (j < m_numComponents s)%nat ->
               FM s' i j = FM s i j) ->
  agree (m_numComponents s) n (chain s n) (chain s' n).
Proof.
  intros Hnc. induction n as [|n IH]; intro H.
  - split; intros; lia.
  - change (chain s (S n)) with (trial s n n 0 (chain s n)).
    change (chain s' (S n)) with (trial s' n n 0 (chain s' n)).
    apply trial_agree; auto.
Qed.

Lemma accepted_prefix_intro (s : VCS_SOLVE) (n : nat) :
  (forall j, (j < n)%nat -> Qltb (sa (chain s n) j) 1.0e-6 = false) ->
  accepted_prefix s n = true.
Proof.
  intro H. unfold accepted_prefix. apply forallb_forall.
  intros j Hj. apply in_seq in Hj. rewrite H by lia. reflexivity.
Qed.

Lemma accepted_prefix_elim (s : VCS_SOLVE) (n j : nat) :
  accepted_prefix s n = true -> (j < n)%nat ->
  Qltb (sa (chain s n) j) 1.0e-6 = false.
Proof.
  intros H Hj. rewrite (chain_sa_stable s n j Hj).
  eapply accepted_prefix_nth; eassumption.
Qed.

Lemma active_prefix_intro (s : VCS_SOLVE) (n : nat) :
  (forall j, (j < n)%nat -> nth j (ElActive s) false = true) ->
  active_prefix s n = true.
Proof.
  intro H. unfold active_prefix. apply forallb_forall.
  intros j Hj. apply in_seq in Hj. apply H. lia.
Qed.

Lemma accepted_prefix_needs_component (s : VCS_SOLVE) :
  m_numComponents s = 0%nat -> accepted_prefix s 1 = false.
Proof.
  intro H. unfold accepted_prefix.
  change (seq 0 1) with [0%nat]. unfold forallb.
  change (chain s 1) with (trial s 0 0 0 zero_work).
  rewrite trial_sa. rewrite Nat.eqb_refl.
  unfold norm2. rewrite H. reflexivity.
Qed.

Section Accepts.
Variable success : Z.

Lemma accept_step (s : VCS_SOLVE) (test : Q) (jr k : nat) (w : work) :
  wf_elem s ->
  (m_numComponents s <= m_numSpeciesTot s)%nat ->
  (jr <= k < m_numElemConstraints s)%nat ->
  nth k (ElActive s) false = true ->
  agree (m_numComponents s) jr w (chain s jr) ->
  accepted_prefix s jr = true -> active_prefix s jr = true ->
  Qltb (sa (trial s k jr test w) jr) 1.0e-6 = false ->
  let s1 := if Nat.eqb jr k then s else vcs_switch_elem_pos jr k s in
  let w1 := trial s k jr test w in
  let w2 := if Nat.eqb jr k then w1
            else mkWork (bsw (aw w1) jr k) (sa w1) (sm w1) (ss w1) in
  wf_elem s1 /\
  m_numElemConstraints s1 = m_numElemConstraints s /\
  m_numComponents s1 = m_numComponents s /\
  m_numSpeciesTot s1 = m_numSpeciesTot s /\
  agree (m_numComponents s1) (S jr) w2 (chain s1 (S jr)) /\
  accepted_prefix s1 (S jr) = true /\ active_prefix s1 (S jr) = true.
Proof.
  intros W Hcs Hk Hka Hag Hacc Hact Hok s1 w1 w2.
  assert (Hs1 : wf_elem s1 /\ repositioned (transp jr k) s s1).
  { unfold s1. destruct (Nat.eqb jr k) eqn:E.
    - apply Nat.eqb_eq in E. split; [exact W|].
      rewrite <- E. unfold repositioned. repeat split; rewrite ?transp_same; auto.
    - split; [apply switch_wf | apply switch_repositioned]; auto; lia. }
  destruct Hs1 as [W1 (HE & Hnc & HS & Hpos)].
  assert (Hfix : forall p, (p < jr)%nat -> transp jr k p = p).
  { intros p Hp. unfold transp.
    replace (Nat.eqb p jr) with false by (symmetry; apply Nat.eqb_neq; lia).
    replace (Nat.eqb p k) with false by (symmetry; apply Nat.eqb_neq; lia).
    reflexivity. }
  assert (Hjrk : transp jr k jr = k) by (unfold transp; now rewrite Nat.eqb_refl).
  assert (HFM : forall i j, (i < jr)%nat -> (j < m_numComponents s)%nat ->
                            FM s1 i j = FM s i j).
  { intros i j Hi Hj. destruct (Hpos i) as (_ & _ & _ & _ & HF).
    rewrite HF by lia. now rewrite Hfix. }
  assert (HFMk : forall j, (j < m_numComponents s)%nat -> FM s1 jr j = FM s k j).
  { intros j Hj. destruct (Hpos jr) as (_ & _ & _ & _ & HF).
    rewrite HF by lia. now rewrite Hjrk. }
  pose proof (chain_agree_rows s s1 jr Hnc HFM) as Hch.
  pose proof (trial_agree s s1 k jr jr Hnc HFMk test 0 w (chain s1 jr)
                (agree_trans _ _ _ _ _ Hag Hch)) as Hag1.
  change (trial s1 jr jr 0 (chain s1 jr)) with (chain s1 (S jr)) in Hag1.
  fold w1 in Hag1.
  split; [exact W1|]. split; [exact HE|]. split; [exact Hnc|].
  split; [exact HS|]. split; [|split].
  - rewrite Hnc. unfold w2. destruct (Nat.eqb jr k); exact Hag1.
  - apply accepted_prefix_intro. intros j Hj.
    destruct Hag1 as [_ Hsa]. rewrite <- Hsa by assumption.
    destruct (Nat.eq_dec j jr) as [->|Hne]; [exact Hok|].
    unfold w1. rewrite trial_sa.
    replace (Nat.eqb j jr) with false by (symmetry; apply Nat.eqb_neq; lia).
    destruct Hag as [_ Hsa0]. rewrite Hsa0 by lia.
    apply accepted_prefix_elim; [exact Hacc | lia].
  - apply active_prefix_intro. intros j Hj.
    destruct (Hpos j) as (_ & _ & HA & _). rewrite HA.
    destruct (Nat.eq_dec j jr) as [->|Hne].
    + rewrite Hjrk. exact Hka.
    + rewrite Hfix by lia. apply (active_prefix_nth s jr); [exact Hact | lia].
Qed.

Lemma rearrange_loop_accepts (fuel : nat) :
  forall (test : Q) (jr : nat) (w : work) (s : VCS_SOLVE) (r : result Z),
  wf_elem s ->
  (m_numComponents s <= m_numSpeciesTot s)%nat ->
  (jr < Nat.max 1 (m_numComponents s))%nat ->
  agree (m_numComponents s) jr w (chain s jr) ->
  accepted_prefix s jr = true -> active_prefix s jr = true ->
  rearrange_loop success fuel test jr w s = Some r ->
  r = Exit (-1)%Z \/
  exists s', r = Ok success s' /\
             (Nat.max 1 (m_numComponents s) <= m_numElemConstraints s)%nat /\
             m_numComponents s' = m_numComponents s /\
             accepted_prefix s' (Nat.max 1 (m_numComponents s)) = true /\
             active_prefix s' (Nat.max 1 (m_numComponents s)) = true.
Proof.
  induction fuel as [|fuel IH]; intros test jr w s r W Hcs Hjr Hag Hacc Hact;
    [discriminate|].
  rewrite rearrange_loop_S. cbv zeta.
  pose proof (find_k_range s (aw w) test jr (m_numElemConstraints s - jr)) as Hk.
  cbv zeta in Hk.
  set (k := find_k s (aw w) test (seq jr (m_numElemConstraints s - jr))) in *.
  destruct (Nat.eqb k (m_numElemConstraints s)) eqn:Ek.
  { intro H. inversion H. left. reflexivity. }
  apply Nat.eqb_neq in Ek.
  destruct Hk as [Hk|(Hk & Hka & _)]; [contradiction|].
  destruct (Qltb (sa (trial s k jr test w) jr) 1.0e-6) eqn:Eacc.
  { apply IH; auto.
    eapply agree_trans; [apply trial_keeps | exact Hag]. }
  destruct (accept_step s test jr k w W Hcs)
    as (W1 & HE & Hnc & HS & Hag1 & Hacc1 & Hact1); auto; try lia.
  destruct (Nat.ltb (S jr) (m_numComponents s)) eqn:Enext.
  - apply Nat.ltb_lt in Enext. intro H.
    assert (Hcs1 : (m_numComponents
                      (if Nat.eqb jr k then s else vcs_switch_elem_pos jr k s)
                    <= m_numSpeciesTot
                      (if Nat.eqb jr k then s else vcs_switch_elem_pos jr k s))%nat)
      by (rewrite Hnc, HS; exact Hcs).
    assert (Hjr1 : (S jr < Nat.max 1 (m_numComponents
                      (if Nat.eqb jr k then s else vcs_switch_elem_pos jr k s)))%nat)
      by (rewrite Hnc; lia).
    destruct (IH _ _ _ _ _ W1 Hcs1 Hjr1 Hag1 Hacc1 Hact1 H)
      as [Hr|(s' & H1 & H0 & H2 & H3 & H4)]; [left; exact Hr|].
    right. exists s'. rewrite Hnc, HE in *. auto.
  - apply Nat.ltb_ge in Enext. intro H. inversion H. right.
    eexists. split; [reflexivity|].
    replace (Nat.max 1 (m_numComponents s)) with (S jr) by lia.
    split; [lia|]. auto.
Qed.

End Accepts.

(** ** Both loops of vcs_elem_rearrange terminate *)

Lemma count_flip (f g : nat -> bool) (k : nat) (l : list nat) :
  NoDup l -> In k l ->
  (forall i, i <> k -> g i = f i) -> f k = true -> g k = false ->
  length (filter f l) = S (length (filter g l)).
Proof.
  intros Hnd Hin Hext Hf Hg. induction l as [|x l IH]; [contradiction|].
  inversion Hnd as [|? ? Hx Hnd']; subst. simpl.
  destruct Hin as [->|Hin].
  - rewrite Hf, Hg. simpl. f_equal. f_equal.
    apply filter_ext_in. intros a Ha. symmetry. apply Hext.
    intro E. subst a. contradiction.
  - assert (x <> k) by (intro E; subst x; contradiction).
    rewrite (Hext x) by assumption.
    destruct (f x); simpl; rewrite IH; auto.
Qed.

Lemma count_mono (f g : nat -> bool) (l : list nat) :
  (forall i, In i l -> g i = true -> f i = true) ->
  (length (filter g l) <= length (filter f l))%nat.
Proof.
  induction l as [|x l IH]; intro H; simpl; [lia|].
  assert (IH' : (length (filter g l) <= length (filter f l))%nat)
    by (apply IH; intros i Hi; apply H; right; exact Hi).
  destruct (g x) eqn:Eg.
  - rewrite (H x) by (auto; left; reflexivity). simpl. lia.
  - destruct (f x); simpl; lia.
Qed.

Lemma count_lt (f g : nat -> bool) (k : nat) (l : list nat) :
  In k l ->
  (forall i, In i l -> g i = true -> f i = true) -> f k = true -> g k = false ->
  (length (filter g l) < length (filter f l))%nat.
Proof.
  intros Hin Hmono Hf Hg. induction l as [|x l IH]; [contradiction|]. simpl.
  destruct Hin as [->|Hin].
  - rewrite Hf, Hg. simpl.
    assert ((length (filter g l) <= length (filter f l))%nat)
      by (apply count_mono; intros i Hi; apply Hmono; right; exact Hi).
    lia.
  - assert (IH' : (length (filter g l) < length (filter f l))%nat)
      by (apply IH; auto; intros i Hi; apply Hmono; right; exact Hi).
    destruct (g x) eqn:Eg.
    + rewrite (Hmono x) by (auto; left; reflexivity). simpl. lia.
    + destruct (f x); simpl; lia.
Qed.

Lemma filter_length_le {A : Type} (f : A -> bool) (l : list A) :
  (length (filter f l) <= length l)%nat.
Proof. induction l as [|x l IH]; simpl; [lia|]. destruct (f x); simpl; lia. Qed.

Lemma Qneb_refl (x : Q) : Qneb x x = false.
Proof. apply Qneb_false. reflexivity. Qed.

Lemma marks_left_bset (n k : nat) (a : buf) (test : Q) :
  (k < n)%nat -> ~ a k == test ->
  marks_left n a test = S (marks_left n (bset a k test) test).
Proof.
  intros Hk Hne. unfold marks_left.
  apply (count_flip _ _ k).
  - apply seq_NoDup.
  - apply in_seq. lia.
  - intros i Hi. rewrite bset_ne by assumption. reflexivity.
  - apply Qneb_true. exact Hne.
  - rewrite bset_eq. apply Qneb_refl.
Qed.

Lemma marks_left_bsw (n jr k : nat) (a : buf) (test : Q) :
  (jr < n)%nat -> (k < n)%nat -> jr <> k -> a k == test ->
  marks_left n (bsw a jr k) test = marks_left n a test.
Proof.
  intros Hjr Hk Hne Hak. unfold marks_left, bsw.
  assert (Hk0 : Qneb (a k) test = false) by (apply Qneb_false; exact Hak).
  destruct (Qneb (a jr) test) eqn:Ejr.
  - rewrite (count_flip (fun i => Qneb (a i) test)
               (fun i => if Nat.eqb i jr then false else Qneb (a i) test) jr);
      [|apply seq_NoDup|apply in_seq; lia| | |].
    + apply (count_flip _ _ k).
      * apply seq_NoDup.
      * apply in_seq. lia.
      * intros i Hi. unfold bset.
        replace (Nat.eqb i k) with false by (symmetry; apply Nat.eqb_neq; lia).
        destruct (Nat.eqb i jr); [symmetry; exact Hk0 | reflexivity].
      * unfold bset. rewrite Nat.eqb_refl. exact Ejr.
      * replace (Nat.eqb k jr) with false by (symmetry; apply Nat.eqb_neq; lia).
        exact Hk0.
    + intros i Hi.
      replace (Nat.eqb i jr) with false by (symmetry; apply Nat.eqb_neq; lia).
      reflexivity.
    + exact Ejr.
    + now rewrite Nat.eqb_refl.
  - f_equal. apply filter_ext_in. intros i _. unfold bset.
    destruct (Nat.eqb i k) eqn:E1.
    + apply Nat.eqb_eq in E1. subst i. rewrite Ejr, Hk0. reflexivity.
    + destruct (Nat.eqb i jr) eqn:E2; [|reflexivity].
      apply Nat.eqb_eq in E2. subst i. rewrite Ejr, Hk0. reflexivity.
Qed.

Lemma sentinel_fold_hit (s : VCS_SOLVE) (n i0 : nat) (test : Q) (a : buf)
    (lindep : bool) :
  (i0 + n <= m_numElemConstraints s)%nat ->
  exists test' a' lindep',
    fold_left (sentinel_step s) (seq i0 n) (test, a, lindep) = (test', a', lindep') /\
    test' <= test /\
    (lindep' = true ->
     lindep = true \/
     exists i, (i < m_numElemConstraints s)%nat /\
               test' <= rdQ (gai s) i /\ rdQ (gai s) i < test).
Proof.
  revert i0 test a lindep; induction n as [|n IH]; intros i0 test a lindep Hn; simpl.
  - exists test, a, lindep. split; [reflexivity|]. split; [apply Qle_refl|auto].
  - rewrite bset_eq.
    destruct (IH (S i0) (test - 1.0) (bset a i0 (rdQ (gai s) i0))
                (if Qeq_bool (test - 1.0) (rdQ (gai s) i0) then true else lindep))
      as (test' & a' & l' & H1 & H2 & H3); [lia|].
    exists test', a', l'. split; [exact H1|]. split; [lra|].
    intro Hl. destruct (H3 Hl) as [Hhit|(i & Hi & Ha & Hb)].
    + destruct (Qeq_bool (test - 1.0) (rdQ (gai s) i0)) eqn:E; [|left; exact Hhit].
      apply Qeq_bool_iff in E. right. exists i0.
      split; [lia|]. split; [rewrite <- E; exact H2 | rewrite <- E; lra].
    + right. exists i. split; [exact Hi|]. split; [exact Ha | lra].
Qed.

Lemma sentinel_loop_total (s : VCS_SOLVE) (fuel : nat) :
  forall (test : Q) (a : buf),
  (targets_below s test < fuel)%nat ->
  sentinel_loop fuel s test a <> None.
Proof.
  induction fuel as [|fuel IH]; intros test a Hf; [lia|]. simpl.
  unfold sentinel_pass.
  destruct (sentinel_fold_hit s (m_numElemConstraints s) 0 test a false)
    as (test' & a' & l' & H1 & H2 & H3); [lia|].
  rewrite H1. destruct l'; [|discriminate].
  destruct (H3 eq_refl) as [Hc|(i & Hi & Ha & Hb)]; [discriminate|].
  apply IH.
  assert ((targets_below s test' < targets_below s test)%nat); [|lia].
  unfold targets_below. apply (count_lt _ _ i).
  - apply in_seq. lia.
  - intros j _ Hj. apply Qltb_true in Hj. apply Qltb_true. lra.
  - apply Qltb_true. exact Hb.
  - apply Qltb_false. exact Ha.
Qed.

Lemma rearrange_loop_total (success : Z) (fuel : nat) :
  forall (test : Q) (jr : nat) (w : work) (s : VCS_SOLVE),
  (marks_left (m_numElemConstraints s) (aw w) test < fuel)%nat ->
  rearrange_loop success fuel test jr w s <> None.
Proof.
  induction fuel as [|fuel IH]; intros test jr w s Hf; [lia|].
  rewrite rearrange_loop_S. cbv zeta.
  pose proof (find_k_range s (aw w) test jr (m_numElemConstraints s - jr)) as Hk.
  cbv zeta in Hk.
  set (k := find_k s (aw w) test (seq jr (m_numElemConstraints s - jr))) in *.
  destruct (Nat.eqb k (m_numElemConstraints s)) eqn:Ek; [discriminate|].
  apply Nat.eqb_neq in Ek.
  destruct Hk as [Hk|(Hk & _ & Hne)]; [contradiction|].
  assert (Hm : marks_left (m_numElemConstraints s) (aw w) test =
               S (marks_left (m_numElemConstraints s)
                             (aw (trial s k jr test w)) test)).
  { rewrite trial_aw. apply marks_left_bset; [lia | exact Hne]. }
  destruct (Qltb _ _).
  { apply IH. lia. }
  destruct (Nat.ltb (S jr) (m_numComponents s)); [|discriminate].
  apply IH.
  destruct (Nat.eqb jr k) eqn:E; [lia|].
  apply Nat.eqb_neq in E.
  destruct (switch_counts jr k s) as (-> & _).
  cbn [aw]. rewrite marks_left_bsw; try lia.
  rewrite trial_aw, bset_eq. reflexivity.
Qed.

Lemma rearrange_total (success : Z) (fuel : nat) (w : work) (s : VCS_SOLVE) :
  (m_numElemConstraints s < fuel)%nat ->
  vcs_elem_rearrange success fuel w s <> None.
Proof.
  intro Hf. unfold vcs_elem_rearrange.
  destruct (sentinel_loop fuel s (-1.0E10) (aw w)) as [[test a]|] eqn:E.
  - apply rearrange_loop_total. simpl.
    pose proof (filter_length_le (fun i => Qneb (a i) test)
                  (seq 0 (m_numElemConstraints s))) as H.
    rewrite length_seq in H. unfold marks_left. lia.
  - exfalso. revert E. apply sentinel_loop_total.
    pose proof (filter_length_le (fun i => Qltb (rdQ (gai s) i) (-1.0E10))
                  (seq 0 (m_numElemConstraints s))) as H.
    rewrite length_seq in H. unfold targets_below. lia.
Qed.

(** ** Abort or success of vcs_elem_rearrange *)

Lemma permutes_below (n : nat) (pi : nat -> nat) (p : nat) :
  permutes n pi -> (p < n)%nat -> (pi p < n)%nat.
Proof.
  intros (pi' & H1 & H2 & H3) Hp.
  destruct (Nat.lt_ge_cases (pi p) n) as [H|H]; [exact H|].
  pose proof (H3 (pi p) H) as Hfix.
  pose proof (H1 (pi p)) as Ha. rewrite Hfix, H1 in Ha. lia.
Qed.

Lemma rearrange_outcome (success : Z) (fuel : nat) (w : work) (s : VCS_SOLVE) :
  wf_elem s ->
  (m_numComponents s <= m_numSpeciesTot s)%nat ->
  (m_numElemConstraints s < fuel)%nat ->
  vcs_elem_rearrange success fuel w s = Some (Exit (-1)%Z) \/
  exists s',
    vcs_elem_rearrange success fuel w s = Some (Ok success s') /\
    (1 <= m_numComponents s <= m_numElemConstraints s)%nat /\
    m_numComponents s' = m_numComponents s /\
    accepted_prefix s' (m_numComponents s) = true /\
    active_prefix s' (m_numComponents s) = true.
Proof.
  intros W Hcs Hf.
  pose proof (rearrange_total success fuel w s Hf) as Htot.
  unfold vcs_elem_rearrange in *.
  destruct (sentinel_loop fuel s (-1.0E10) (aw w)) as [[test a]|];
    [|contradiction].
  destruct (rearrange_loop success fuel test 0 _ s) as [r|] eqn:E;
    [|contradiction].
  apply rearrange_loop_accepts in E; auto; try lia.
  - destruct E as [->|(s' & -> & H0 & H1 & H2 & H3)]; [left; reflexivity|].
    right. exists s'. split; [reflexivity|].
    destruct (m_numComponents s) as [|c] eqn:Ec.
    + exfalso. change (Nat.max 1 0) with 1%nat in H2.
      rewrite accepted_prefix_needs_component in H2 by exact H1.
      discriminate.
    + replace (Nat.max 1 (S c)) with (S c) in * by lia.
      repeat split; auto; lia.
  - split; intros; simpl in *; lia.
Qed.

(** ** The first two stages of vcs_elcorr *)

Lemma fold_keeps {T B X : Type} (pr : VCS_SOLVE -> T) (proj : B -> VCS_SOLVE)
    (f : B -> X -> B) :
  (forall b x, pr (proj (f b x)) = pr (proj b)) ->
  forall l b, pr (proj (fold_left f l b)) = pr (proj b).
Proof.
  intros H l; induction l as [|x l IH]; intro b; simpl; [reflexivity|].
  rewrite IH. apply H.
Qed.

Lemma fold_unflagged {X : Type}
    (f : VCS_SOLVE * bool -> X -> VCS_SOLVE * bool) :
  (forall acc x, snd (f acc x) = false -> f acc x = acc) ->
  forall l acc, snd (fold_left f l acc) = false -> fold_left f l acc = acc.
Proof.
  intros H l; induction l as [|x l IH]; intros acc Hf; simpl in *; [reflexivity|].
  pose proof (IH _ Hf) as E. rewrite E in *. apply H. exact Hf.
Qed.

Lemma shape_single_step (i : nat) (acc : VCS_SOLVE * bool) (k : nat) :
  entry_shape (fst (single_step i acc k)) = entry_shape (fst acc).
Proof.
  destruct acc as [s c]. unfold single_step.
  destruct (voltage s k); [reflexivity|].
  destruct (Qgtb _ _); [|reflexivity].
  unfold entry_shape. simpl. now rewrite length_upd.
Qed.

Lemma shape_diff_step (i c : nat) (acc : Q * VCS_SOLVE * bool) (k : nat) :
  entry_shape (mid (diff_step i c acc k)) = entry_shape (mid acc).
Proof.
  destruct acc as [[d s] ch]. unfold entry_shape, mid, diff_step. simpl.
  now rewrite length_upd.
Qed.

Lemma diff_fold_flag (i c : nat) (l : list nat) (acc : Q * VCS_SOLVE * bool) :
  l <> [] -> snd (fold_left (diff_step i c) l acc) = true.
Proof.
  revert acc; induction l as [|k l IH]; intros acc H; [contradiction|]. simpl.
  destruct l as [|k' l'].
  - destruct acc as [[d s] ch]. reflexivity.
  - apply IH. discriminate.
Qed.

Lemma shape_stage1_row (acc : VCS_SOLVE * bool) (i : nat) :
  entry_shape (fst (stage1_row acc i)) = entry_shape (fst acc).
Proof.
  destruct acc as [s c]. unfold stage1_row.
  destruct (sign_scan s i) as [ms nz]. destruct ms; [reflexivity|].
  destruct (nz <? 2)%nat.
  - apply (fold_keeps entry_shape fst). intros; apply shape_single_step.
  - destruct (comp_scan s i) as [n cid]. destruct (n =? 1)%nat; [|reflexivity].
    pose proof (fold_keeps entry_shape mid (diff_step i (Z.to_nat cid))
                  (shape_diff_step i (Z.to_nat cid))
                  (seq (m_numComponents s) (m_numSpeciesTot s - m_numComponents s))
                  (rdQ (gai s) i, s, c)) as H.
    destruct (fold_left _ _ _) as [[d s'] c']. exact H.
Qed.

Lemma unflagged_single_step (i : nat) (acc : VCS_SOLVE * bool) (k : nat) :
  snd (single_step i acc k) = false -> single_step i acc k = acc.
Proof.
  destruct acc as [s c]. unfold single_step.
  destruct (voltage s k); [reflexivity|].
  destruct (Qgtb _ _); [discriminate|reflexivity].
Qed.

Lemma unflagged_stage1_row (acc : VCS_SOLVE * bool) (i : nat) :
  snd (stage1_row acc i) = false -> stage1_row acc i = acc.
Proof.
  destruct acc as [s c]. unfold stage1_row.
  destruct (sign_scan s i) as [ms nz]. destruct ms; [reflexivity|].
  destruct (nz <? 2)%nat.
  - apply fold_unflagged. apply unflagged_single_step.
  - destruct (comp_scan s i) as [n cid]. destruct (n =? 1)%nat; [|reflexivity].
    destruct (seq (m_numComponents s) (m_numSpeciesTot s - m_numComponents s))
      as [|k l] eqn:El; [reflexivity|].
    pose proof (diff_fold_flag i (Z.to_nat cid) (k :: l)
                  (rdQ (gai s) i, s, c)) as H.
    destruct (fold_left _ _ _) as [[d s'] c']. simpl in *.
    intro Hc. rewrite H in Hc by discriminate. discriminate.
Qed.

Lemma shape_stage1 (s : VCS_SOLVE) :
  entry_shape (fst (stage1 s)) = entry_shape s.
Proof.
  unfold stage1. apply (fold_keeps entry_shape fst). intros; apply shape_stage1_row.
Qed.

Lemma unflagged_stage1 (s : VCS_SOLVE) :
  snd (stage1 s) = false -> fst (stage1 s) = s.
Proof.
  intro H. unfold stage1 in *.
  rewrite (fold_unflagged stage1_row unflagged_stage1_row _ _ H). reflexivity.
Qed.

Section Stage2.
Variable cutoff : Q.

Lemma shape_bound_step (i : nat) (acc : VCS_SOLVE * bool) (k : nat) :
  entry_shape (fst (bound_step cutoff i acc k)) = entry_shape (fst acc).
Proof.
  destruct acc as [s c]. unfold bound_step.
  destruct (voltage s k); [reflexivity|].
  destruct (Qgtb _ _); [|reflexivity].
  destruct (Qgtb _ _); [|reflexivity].
  destruct (Qltb _ _); unfold entry_shape; simpl; now rewrite ?length_upd.
Qed.

Lemma unflagged_bound_step (i : nat) (acc : VCS_SOLVE * bool) (k : nat) :
  snd (bound_step cutoff i acc k) = false -> bound_step cutoff i acc k = acc.
Proof.
  destruct acc as [s c]. unfold bound_step.
  destruct (voltage s k); [reflexivity|].
  destruct (Qgtb _ _); [|reflexivity].
  destruct (Qgtb _ _); [|reflexivity].
  destruct (Qltb _ _); discriminate.
Qed.

Lemma shape_stage2 (s : VCS_SOLVE) :
  entry_shape (fst (stage2 cutoff s)) = entry_shape s.
Proof.
  unfold stage2. apply (fold_keeps entry_shape fst). intros [b c] i.
  unfold stage2_row. destruct (elem_type_eqb _ _); [|reflexivity].
  apply (fold_keeps entry_shape fst). intros; apply shape_bound_step.
Qed.

Lemma unflagged_stage2 (s : VCS_SOLVE) :
  snd (stage2 cutoff s) = false -> fst (stage2 cutoff s) = s.
Proof.
  intro H. unfold stage2 in *.
  rewrite (fold_unflagged (stage2_row cutoff)) with (acc := (s, false));
    [reflexivity| |exact H].
  intros [b c] i. unfold stage2_row.
  destruct (elem_type_eqb _ _); [|reflexivity].
  apply fold_unflagged. apply unflagged_bound_step.
Qed.

End Stage2.

Lemma dims_elab (s : VCS_SOLVE) : dims (vcs_elab s) = dims s.
Proof.
  unfold dims, vcs_elab, elab_loop. simpl. now rewrite fill_length.
Qed.

Lemma consistent_elab (s : VCS_SOLVE) :
  (m_numElemConstraints s <= length (ga s))%nat -> consistent (vcs_elab s).
Proof.
  intros H j Hj. change (m_numElemConstraints (vcs_elab s)) with
    (m_numElemConstraints s) in Hj.
  rewrite elab_ga_nth by assumption.
  apply Nat.ltb_lt in Hj. rewrite Hj. rewrite elab_row_sum. reflexivity.
Qed.

Lemma after_changed_ok (r : VCS_SOLVE * bool) (s : VCS_SOLVE) :
  entry_shape (fst r) = entry_shape s ->
  (snd r = false -> fst r = s) ->
  (m_numElemConstraints s <= length (ga s))%nat ->
  consistent s ->
  consistent (after_changed r) /\ dims (after_changed r) = dims s.
Proof.
  intros Hshape Hun Hlen Hcons. unfold after_changed.
  destruct (snd r) eqn:E.
  - unfold entry_shape in Hshape. inversion Hshape as [[H1 H2 H3 H4 H5 H6]].
    split.
    + apply consistent_elab. rewrite H1, H4. exact Hlen.
    + rewrite dims_elab. unfold dims. rewrite H1, H2, H3, H4, H5, H6. reflexivity.
  - rewrite (Hun eq_refl). auto.
Qed.

Lemma stage3_entry_ok (cutoff : Q) (s : VCS_SOLVE) :
  (m_numElemConstraints s <= length (ga s))%nat ->
  consistent s ->
  consistent (stage3_entry cutoff s) /\
  dims (stage3_entry cutoff s) = dims s /\
  cdata (stage3_entry cutoff s) = cdata s.
Proof.
  intros Hlen Hcons. unfold stage3_entry.
  destruct (after_changed_ok (stage1 s) s (shape_stage1 s) (unflagged_stage1 s)
              Hlen Hcons) as [C1 D1].
  assert (Hlen1 : (m_numElemConstraints (after_changed (stage1 s))
                   <= length (ga (after_changed (stage1 s))))%nat).
  { unfold dims in D1. inversion D1 as [[H1 H2 H3 H4 H5 H6]].
    rewrite H1, H6. exact Hlen. }
  destruct (after_changed_ok (stage2 cutoff (after_changed (stage1 s)))
              (after_changed (stage1 s))
              (shape_stage2 cutoff _) (unflagged_stage2 cutoff _) Hlen1 C1)
    as [C2 D2].
  split; [exact C2|]. split; [congruence|].
  rewrite cdata_after_changed, cdata_stage2, cdata_after_changed.
  apply cdata_stage1.
Qed.

(** * Further properties of the routines *)

(** ** What vcs_elabcheck accepts *)

Lemma elem_type_eqb_eq (a b : elem_type) : elem_type_eqb a b = true <-> a = b.
Proof. destruct a, b; simpl; split; intro H; try reflexivity; discriminate. Qed.

Lemma elabcheck_loop_cons (cutoff : Q) (s : VCS_SOLVE) (i : nat) (rest : list nat) :
  elabcheck_loop cutoff s (i :: rest) =
  if Qgtb (discrepancy s i) (fabs (rdQ (gai s) i) * 1.0e-12) then
    if elem_type_eqb (elType s i) VCS_ELEM_TYPE_CHARGENEUTRALITY
       && negb (Qeq_bool (rdQ (gai s) i) 0)
    then CkThrow
    else if Qeq_bool (rdQ (gai s) i) 0
            || elem_type_eqb (elType s i) VCS_ELEM_TYPE_ELECTRONCHARGE
    then
      if Qgtb (discrepancy s i) (row_tolerance cutoff s i) then CkFalse
      else elabcheck_loop cutoff s rest
    else CkFalse
  else elabcheck_loop cutoff s rest.
Proof.
  simpl. unfold row_tolerance.
  destruct (check_scan cutoff s i) as [[scale ms] nz]. simpl.
  destruct ms; reflexivity.
Qed.

Lemma within_tolerance_dec (cutoff : Q) (s : VCS_SOLVE) (i : nat) (rest : list nat) :
  (within_tolerance cutoff s i /\
   elabcheck_loop cutoff s (i :: rest) = elabcheck_loop cutoff s rest) \/
  (~ within_tolerance cutoff s i /\ breaks_assertion s i /\
   elabcheck_loop cutoff s (i :: rest) = CkThrow) \/
  (~ within_tolerance cutoff s i /\ ~ breaks_assertion s i /\
   elabcheck_loop cutoff s (i :: rest) = CkFalse).
Proof.
  rewrite elabcheck_loop_cons. unfold within_tolerance, breaks_assertion.
  destruct (Qgtb (discrepancy s i) (fabs (rdQ (gai s) i) * 1.0e-12)) eqn:E1.
  2:{ apply Qgtb_false in E1. left. auto. }
  apply Qgtb_true in E1.
  destruct (elem_type_eqb (elType s i) VCS_ELEM_TYPE_CHARGENEUTRALITY) eqn:E2;
    destruct (Qeq_bool (rdQ (gai s) i) 0) eqn:E3; simpl.
  - (* charge neutrality, zero target *)
    apply Qeq_bool_iff in E3.
    destruct (Qgtb (discrepancy s i) (row_tolerance cutoff s i)) eqn:E4.
    + apply Qgtb_true in E4. right. right. repeat split; auto.
      * intros [H|[_ H]]; [apply (Qlt_not_le _ _ E1 H) | apply (Qlt_not_le _ _ E4 H)].
      * intros (_ & _ & H). contradiction.
    + apply Qgtb_false in E4. left. auto.
  - (* charge neutrality, nonzero target *)
    apply elem_type_eqb_eq in E2.
    assert (Hne : ~ rdQ (gai s) i == 0)
      by (intro H; apply Qeq_bool_iff in H; congruence).
    right. left. repeat split; auto.
    intros [H|[[H|H] _]];
      [apply (Qlt_not_le _ _ E1 H) | contradiction | congruence].
  - (* another type, zero target *)
    apply Qeq_bool_iff in E3.
    destruct (Qgtb (discrepancy s i) (row_tolerance cutoff s i)) eqn:E4.
    + apply Qgtb_true in E4. right. right. repeat split; auto.
      * intros [H|[_ H]]; [apply (Qlt_not_le _ _ E1 H) | apply (Qlt_not_le _ _ E4 H)].
      * intros (_ & _ & H). contradiction.
    + apply Qgtb_false in E4. left. auto.
  - (* another type, nonzero target *)
    assert (Hne : ~ rdQ (gai s) i == 0)
      by (intro H; apply Qeq_bool_iff in H; congruence).
    assert (Hcn : elType s i <> VCS_ELEM_TYPE_CHARGENEUTRALITY)
      by (intro H; apply elem_type_eqb_eq in H; congruence).
    destruct (elem_type_eqb (elType s i) VCS_ELEM_TYPE_ELECTRONCHARGE) eqn:E5.
    + apply elem_type_eqb_eq in E5.
      destruct (Qgtb (discrepancy s i) (row_tolerance cutoff s i)) eqn:E4.
      * apply Qgtb_true in E4. right. right. repeat split; auto.
        -- intros [H|[_ H]];
             [apply (Qlt_not_le _ _ E1 H) | apply (Qlt_not_le _ _ E4 H)].
        -- intros (_ & H & _). contradiction.
      * apply Qgtb_false in E4. left. auto.
    + assert (Hel : elType s i <> VCS_ELEM_TYPE_ELECTRONCHARGE)
        by (intro H; apply elem_type_eqb_eq in H; congruence).
      right. right. repeat split; auto.
      * intros [H|[[H|H] _]];
          [apply (Qlt_not_le _ _ E1 H) | contradiction | contradiction].
      * intros (_ & H & _). contradiction.
Qed.

Lemma elabcheck_loop_true (cutoff : Q) (s : VCS_SOLVE) (l : list nat) :
  elabcheck_loop cutoff s l = CkTrue <->
  forall i, In i l -> within_tolerance cutoff s i.
Proof.
  induction l as [|i l IH].
  - simpl. split; [intros _ k []|reflexivity].
  - destruct (within_tolerance_dec cutoff s i l)
      as [[Hw E]|[(Hw & _ & E)|(Hw & _ & E)]]; rewrite E.
    + rewrite IH. split.
      * intros H k [<-|Hk]; auto.
      * intros H k Hk. apply H. right. exact Hk.
    + split; [discriminate|]. intro H. exfalso. apply Hw. apply H. left. reflexivity.
    + split; [discriminate|]. intro H. exfalso. apply Hw. apply H. left. reflexivity.
Qed.

Lemma elabcheck_loop_throw (cutoff : Q) (s : VCS_SOLVE) (l : list nat) :
  elabcheck_loop cutoff s l = CkThrow <->
  exists l1 i l2, l = l1 ++ i :: l2 /\
                  (forall j, In j l1 -> within_tolerance cutoff s j) /\
                  breaks_assertion s i.
Proof.
  induction l as [|i l IH].
  - simpl. split; [discriminate|].
    intros (l1 & k & l2 & H & _). destruct l1; discriminate.
  - destruct (within_tolerance_dec cutoff s i l)
      as [[Hw E]|[(Hw & Hb & E)|(Hw & Hb & E)]]; rewrite E.
    + rewrite IH. split.
      * intros (l1 & k & l2 & -> & H1 & H2).
        exists (i :: l1), k, l2. split; [reflexivity|]. split; [|exact H2].
        intros j [<-|Hj]; auto.
      * intros (l1 & k & l2 & H & H1 & H2).
        destruct l1 as [|a l1]; simpl in H; injection H as <- ->.
        -- exfalso. destruct H2 as (H2 & H3 & H4).
           destruct Hw as [Hw|[[Hw|Hw] _]];
             [apply (Qlt_not_le _ _ H2 Hw) | contradiction | congruence].
        -- exists l1, k, l2. split; [reflexivity|]. split; [|exact H2].
           intros j Hj. apply H1. right. exact Hj.
    + split; [|reflexivity]. intros _.
      exists [], i, l. split; [reflexivity|]. split; [intros j []|exact Hb].
    + split; [discriminate|].
      intros (l1 & k & l2 & H & H1 & H2).
      destruct l1 as [|a l1]; simpl in H; injection H as <- ->.
      * contradiction.
      * exfalso. apply Hw. apply H1. left. reflexivity.
Qed.

Lemma seq_split (l1 l2 : list nat) (i : nat) :
  forall a n, seq a n = l1 ++ i :: l2 ->
  i = (a + length l1)%nat /\ l1 = seq a (length l1) /\ (length l1 < n)%nat.
Proof.
  induction l1 as [|x l1 IH]; intros a n H; destruct n as [|n]; simpl in H;
    try discriminate.
  - injection H as <- _. simpl. repeat split; lia.
  - injection H as <- H. destruct (IH _ _ H) as (H1 & H2 & H3).
    simpl. repeat split; [lia | f_equal; exact H2 | lia].
Qed.


(** X3: when the components are among the constraints, a check of all
    constraints that returns TRUE makes the check of the component
    constraints return TRUE too. *)
Theorem elabcheck_full_covers_components (cutoff : Q) (s : VCS_SOLVE) :
  (m_numComponents s <= m_numElemConstraints s)%nat ->
  vcs_elabcheck cutoff true s = Ok true s ->
  vcs_elabcheck cutoff false s = Ok true s.
Proof.
  intros Hle H.
  unfold vcs_elabcheck in *.
  destruct (elabcheck_loop cutoff s (seq 0 (m_numElemConstraints s))) eqn:E;
    try discriminate.
  assert (Ht : elabcheck_loop cutoff s (seq 0 (m_numComponents s)) = CkTrue).
  { apply elabcheck_loop_true. intros i Hi.
    apply (proj1 (elabcheck_loop_true cutoff s _) E).
    apply in_seq. apply in_seq in Hi. lia. }
  rewrite Ht. reflexivity.
Qed.

Lemma elabcheck_full_covers_components_witness :
  vcs_elabcheck cutoff_value false e2e_compliant = Ok true e2e_compliant.
Proof.
  apply elabcheck_full_covers_components.
  - simpl; lia.
  - vm_compute; reflexivity.
Defined.

(** ** The scan of a row in vcs_elabcheck *)

Lemma MAX_cases (x y : Q) : (MAX x y = x /\ y <= x) \/ (MAX x y = y /\ x <= y).
Proof.
  unfold MAX. destruct (Qgtb x y) eqn:E.
  - apply Qgtb_true in E. left. split; [reflexivity|]. apply Qlt_le_weak. exact E.
  - apply Qgtb_false in E. right. auto.
Qed.

Lemma scan_over_snoc (cutoff : Q) (s : VCS_SOLVE) (i : nat) (l : list nat) (k : nat) :
  scan_over cutoff s i (l ++ [k]) =
  let '(scale, multisign, numNonZero) := scan_over cutoff s i l in
  let eval := FM s i k in
  let multisign := if Qltb eval 0 then true else multisign in
  if Qneb eval 0
  then (MAX scale (fabs (eval * rdQ (soln s) k)), multisign, S numNonZero)
  else (scale, multisign, numNonZero).
Proof. unfold scan_over. rewrite fold_left_app. reflexivity. Qed.

Lemma scan_over_spec (cutoff : Q) (s : VCS_SOLVE) (i : nat) (l : list nat) :
  let scale := fst (fst (scan_over cutoff s i l)) in
  let multisign := snd (fst (scan_over cutoff s i l)) in
  let numNonZero := snd (scan_over cutoff s i l) in
  cutoff <= scale /\
  (forall k, In k l -> ~ FM s i k == 0 ->
             fabs (FM s i k * rdQ (soln s) k) <= scale) /\
  (scale = cutoff \/
   exists k, In k l /\ ~ FM s i k == 0 /\
             scale = fabs (FM s i k * rdQ (soln s) k)) /\
  (multisign = true <-> exists k, In k l /\ FM s i k < 0) /\
  numNonZero = length (filter (fun k => Qneb (FM s i k) 0) l).
Proof.
  induction l as [|k l IH] using rev_ind.
  - simpl. repeat split; try (intros k []); auto.
    + apply Qle_refl.
    + discriminate.
    + intros (k & [] & _).
  - rewrite scan_over_snoc.
    destruct (scan_over cutoff s i l) as [[scale ms] nz]. simpl in IH.
    destruct IH as (H1 & H2 & H3 & H4 & H5).
    rewrite filter_app, length_app.
    assert (Hms : (if Qltb (FM s i k) 0 then true else ms) = true <->
                  exists k0, In k0 (l ++ [k]) /\ FM s i k0 < 0).
    { destruct (Qltb (FM s i k) 0) eqn:E.
      - apply Qltb_true in E. split; [|reflexivity]. intros _.
        exists k. split; [apply in_or_app; right; left; reflexivity | exact E].
      - apply Qltb_false in E. rewrite H4. split.
        + intros (k0 & Hk0 & Hlt). exists k0. split; [|exact Hlt].
          apply in_or_app. left. exact Hk0.
        + intros (k0 & Hk0 & Hlt). apply in_app_or in Hk0.
          destruct Hk0 as [Hk0|[<-|[]]].
          * exists k0. auto.
          * exfalso. apply (Qlt_not_le _ _ Hlt E). }
    cbn [filter].
    destruct (Qneb (FM s i k) 0) eqn:Enz; cbv zeta; cbn [fst snd length].
    + apply Qneb_true in Enz.
      destruct (MAX_cases scale (fabs (FM s i k * rdQ (soln s) k)))
        as [[-> Hle]|[-> Hle]].
      * split; [exact H1|]. split; [|split; [|split; [exact Hms | lia]]].
        -- intros k0 Hk0 Hne. apply in_app_or in Hk0.
           destruct Hk0 as [Hk0|[<-|[]]]; [apply H2; assumption | exact Hle].
        -- destruct H3 as [H3|(k0 & Hk0 & Hne & H3)]; [left; exact H3|].
           right. exists k0. split; [apply in_or_app; left; exact Hk0 | auto].
      * split; [apply (Qle_trans _ _ _ H1 Hle)|].
        split; [|split; [|split; [exact Hms | lia]]].
        -- intros k0 Hk0 Hne. apply in_app_or in Hk0.
           destruct Hk0 as [Hk0|[<-|[]]]; [|apply Qle_refl].
           apply (Qle_trans _ scale); [apply H2; assumption | exact Hle].
        -- right. exists k. split; [apply in_or_app; right; left; reflexivity|].
           auto.
    + apply Qneb_false in Enz.
      split; [exact H1|]. split; [|split; [|split; [exact Hms | lia]]].
      * intros k0 Hk0 Hne. apply in_app_or in Hk0.
        destruct Hk0 as [Hk0|[<-|[]]]; [apply H2; assumption | contradiction].
      * destruct H3 as [H3|(k0 & Hk0 & Hne & H3)]; [left; exact H3|].
        right. exists k0. split; [apply in_or_app; left; exact Hk0 | auto].
Qed.


(** ** What vcs_elabPhase and vcs_elab read and overwrite *)

Lemma fold_left_ext_in {A B : Type} (f g : A -> B -> A) (l : list B) (a : A) :
  (forall a b, In b l -> f a b = g a b) -> fold_left f l a = fold_left g l a.
Proof.
  revert a; induction l as [|b l IH]; intros a H; simpl; [reflexivity|].
  rewrite (H a b) by (left; reflexivity).
  apply IH. intros a' b' Hb'. apply H. right. exact Hb'.
Qed.

Lemma elabPhase_add_soln (s : VCS_SOLVE) (v : list Q) (iphase j : nat) (acc : Q)
    (k : nat) :
  (voltage s k = false -> nth k (PhaseID s) O = iphase ->
   rdQ v k = rdQ (soln s) k) ->
  elabPhase_add (set_soln v s) iphase j acc k = elabPhase_add s iphase j acc k.
Proof.
  intro H. unfold elabPhase_add.
  change (voltage (set_soln v s) k) with (voltage s k).
  change (PhaseID (set_soln v s)) with (PhaseID s).
  change (FM (set_soln v s) j k) with (FM s j k).
  change (soln (set_soln v s)) with v.
  destruct (voltage s k) eqn:Ev; [reflexivity|].
  destruct (Nat.eqb (nth k (PhaseID s) O) iphase) eqn:Ep; [|reflexivity].
  apply Nat.eqb_eq in Ep. rewrite (H eq_refl Ep). reflexivity.
Qed.

(** X5: [vcs_elabPhase] reads, of the mole numbers, only those of the
    species of the phase asked for that are not interfacial voltages: with
    any other mole-number vector that agrees on these species it fills the
    array passed with the same values. *)
Theorem elabPhase_reads_phase_species (s : VCS_SOLVE) (iphase : nat)
    (v b : list Q) :
  (forall k, (k < m_numSpeciesTot s)%nat -> voltage s k = false ->
             nth k (PhaseID s) O = iphase -> rdQ v k = rdQ (soln s) k) ->
  vcs_elabPhase (set_soln v s) iphase b = vcs_elabPhase s iphase b.
Proof.
  intro H. unfold vcs_elabPhase.
  change (m_numElemConstraints (set_soln v s)) with (m_numElemConstraints s).
  apply fold_left_ext_in. intros g j _. f_equal.
  unfold elabPhase_row.
  change (m_numSpeciesTot (set_soln v s)) with (m_numSpeciesTot s).
  apply fold_left_ext_in. intros acc k Hk.
  apply elabPhase_add_soln. apply H. apply in_seq in Hk. lia.
Qed.

Lemma elabPhase_reads_phase_species_witness :
  vcs_elabPhase (set_soln [7; rdQ (soln e2e) 1] e2e) 1 [0; 0] =
  vcs_elabPhase e2e 1 [0; 0].
Proof.
  apply (elabPhase_reads_phase_species e2e 1 [7; rdQ (soln e2e) 1] [0; 0]).
  intros k Hk Hv Hp.
  destruct k as [|[|k]]; [discriminate Hp | reflexivity | simpl in Hk; lia].
Defined.

Lemma elabPhase_row_empty (s : VCS_SOLVE) (iphase j : nat) (l : list nat) (acc : Q) :
  (forall k, In k l -> voltage s k = true \/ nth k (PhaseID s) O <> iphase) ->
  fold_left (elabPhase_add s iphase j) l acc = acc.
Proof.
  revert acc; induction l as [|k l IH]; intros acc H; simpl; [reflexivity|].
  rewrite IH by (intros k' Hk'; apply H; right; exact Hk').
  unfold elabPhase_add.
  destruct (H k (or_introl eq_refl)) as [Hv|Hp].
  - rewrite Hv. reflexivity.
  - apply Nat.eqb_neq in Hp. rewrite Hp. destruct (voltage s k); reflexivity.
Qed.

(** X6: for a phase that holds no species other than interfacial voltages
    (in particular for a phase number that no species carries)
    [vcs_elabPhase] sets the entry of every constraint to zero, whatever the
    array held, and leaves the entries past the constraints alone. *)
Theorem elabPhase_empty_phase (s : VCS_SOLVE) (iphase : nat) (b : list Q) :
  (m_numElemConstraints s <= length b)%nat ->
  (forall k, (k < m_numSpeciesTot s)%nat ->
             voltage s k = true \/ nth k (PhaseID s) O <> iphase) ->
  forall j, rdQ (vcs_elabPhase s iphase b) j =
            if (j <? m_numElemConstraints s)%nat then 0 else rdQ b j.
Proof.
  intros Hb H j. unfold vcs_elabPhase, rdQ.
  rewrite fill_nth by (simpl; lia). simpl.
  destruct (j <? m_numElemConstraints s)%nat; [|reflexivity].
  unfold elabPhase_row. apply elabPhase_row_empty.
  intros k Hk. apply H. apply in_seq in Hk. lia.
Qed.

Lemma elabPhase_empty_phase_witness :
  rdQ (vcs_elabPhase e2e 5 [3; 4; 9]) 1 = 0 /\
  rdQ (vcs_elabPhase e2e 5 [3; 4; 9]) 2 = 9.
Proof.
  assert (H : forall j, rdQ (vcs_elabPhase e2e 5 [3; 4; 9]) j =
                        if (j <? m_numElemConstraints e2e)%nat
                        then 0 else rdQ [3; 4; 9] j).
  { apply (elabPhase_empty_phase e2e 5 [3; 4; 9]).
    - simpl. lia.
    - intros k Hk. right.
      destruct k as [|[|k]]; simpl; try discriminate. simpl in Hk. lia. }
  split; [exact (H 1%nat) | exact (H 2%nat)].
Defined.

Lemma nth_upd {A : Type} (i j : nat) (v d : A) (l : list A) :
  nth j (upd i v l) d =
  if Nat.eqb i j && (j <? length l)%nat then v else nth j l d.
Proof.
  destruct (Nat.eq_dec i j) as [->|Hne].
  - rewrite Nat.eqb_refl. simpl. destruct (j <? length l)%nat eqn:E.
    + apply Nat.ltb_lt in E. apply nth_upd_eq. exact E.
    + apply Nat.ltb_ge in E. rewrite !nth_overflow; auto.
      rewrite length_upd. exact E.
  - rewrite nth_upd_ne by assumption.
    apply Nat.eqb_neq in Hne. rewrite Hne. reflexivity.
Qed.

(** The loop of [fill_nth] on an array of any size: entries past the end
    are not written. *)
Lemma fill_nth_any (f : nat -> Q) (n a : nat) (g : list Q) (j : nat) :
  nth j (fold_left (fun g j => upd j (f j) g) (seq a n) g) 0 =
  if (a <=? j)%nat && (j <? a + n)%nat && (j <? length g)%nat
  then f j else nth j g 0.
Proof.
  revert a g; induction n as [|n IH]; intros a g; simpl.
  - destruct (a <=? j)%nat eqn:E1, (j <? a + 0)%nat eqn:E2; simpl; auto.
    apply Nat.leb_le in E1. apply Nat.ltb_lt in E2. lia.
  - rewrite IH, length_upd, nth_upd.
    destruct (Nat.eqb a j) eqn:E0, (j <? length g)%nat eqn:E5,
             (S a <=? j)%nat eqn:E1, (a <=? j)%nat eqn:E2,
             (j <? S a + n)%nat eqn:E3, (j <? a + S n)%nat eqn:E4;
      simpl; auto;
      repeat match goal with
      | H : Nat.eqb _ _ = true |- _ => apply Nat.eqb_eq in H
      | H : Nat.eqb _ _ = false |- _ => apply Nat.eqb_neq in H
      | H : (_ <=? _)%nat = true |- _ => apply Nat.leb_le in H
      | H : (_ <=? _)%nat = false |- _ => apply Nat.leb_gt in H
      | H : (_ <? _)%nat = true |- _ => apply Nat.ltb_lt in H
      | H : (_ <? _)%nat = false |- _ => apply Nat.ltb_ge in H
      end; try lia.
  subst a. reflexivity.
Qed.

Lemma elab_loop_overwrites (s : VCS_SOLVE) (g g' : list Q) :
  length g' = length g ->
  (forall j, (m_numElemConstraints s <= j)%nat -> nth j g' 0 = nth j g 0) ->
  elab_loop s g' = elab_loop s g.
Proof.
  intros Hlen Hrest. unfold elab_loop.
  apply (nth_ext _ _ 0 0).
  - rewrite !fill_length. exact Hlen.
  - intros j _. rewrite !fill_nth_any, Hlen. simpl.
    destruct (j <? m_numElemConstraints s)%nat eqn:E; simpl.
    + destruct (j <? length g)%nat eqn:E'; [reflexivity|].
      apply Nat.ltb_ge in E'. rewrite !nth_overflow; auto. lia.
    + apply Hrest. apply Nat.ltb_ge in E. exact E.
Qed.

(** X7: [vcs_elab] overwrites the abundances of the constraints without
    reading them: started from any other contents of [ga] of the same size
    that agree past the constraints it leaves the same instance, and run a
    second time it changes nothing. *)
Theorem vcs_elab_overwrites (s : VCS_SOLVE) :
  (forall g, length g = length (ga s) ->
     (forall j, (m_numElemConstraints s <= j)%nat -> nth j g 0 = nth j (ga s) 0) ->
     vcs_elab (set_ga g s) = vcs_elab s) /\
  vcs_elab (vcs_elab s) = vcs_elab s.
Proof.
  assert (H : forall g, length g = length (ga s) ->
     (forall j, (m_numElemConstraints s <= j)%nat -> nth j g 0 = nth j (ga s) 0) ->
     vcs_elab (set_ga g s) = vcs_elab s).
  { intros g Hlen Hrest. unfold vcs_elab.
    change (elab_loop (set_ga g s) (ga (set_ga g s))) with (elab_loop s g).
    rewrite (elab_loop_overwrites s (ga s) g Hlen Hrest). reflexivity. }
  split; [exact H|].
  change (vcs_elab (vcs_elab s)) with (vcs_elab (set_ga (elab_loop s (ga s)) s)).
  apply H.
  - apply fill_length.
  - intros j Hj. unfold elab_loop. rewrite fill_nth_any.
    replace (j <? 0 + m_numElemConstraints s)%nat with false
      by (symmetry; apply Nat.ltb_ge; lia).
    rewrite andb_false_r. reflexivity.
Qed.

(** ** Exchanging two positions twice *)

Lemma sw_sw {A : Type} (d : A) (x : list A) (i j : nat) :
  (i < length x)%nat -> (j < length x)%nat ->
  vcsUtil_sw d (vcsUtil_sw d x i j) i j = x.
Proof.
  intros Hi Hj. apply (nth_ext _ _ d d).
  - rewrite !length_sw. reflexivity.
  - intros p _. rewrite nth_sw by (rewrite length_sw; assumption).
    rewrite nth_sw by assumption. rewrite transp_invol. reflexivity.
Qed.

Lemma swap_rows_twice (i j n : nat) (fm : list (list Q)) :
  i <> j -> (i < length fm)%nat -> (j < length fm)%nat ->
  (n <= length (nth i fm []))%nat -> (n <= length (nth j fm []))%nat ->
  swap_rows i j n (swap_rows i j n fm) = fm.
Proof.
  intros Hne Hi Hj Ri Rj.
  destruct (swap_rows_seq i j n 0 fm) as (L1 & L2 & L3); try assumption.
  fold (swap_rows i j n fm) in L1, L2, L3.
  destruct (swap_rows_seq i j n 0 (swap_rows i j n fm)) as (M1 & M2 & M3);
    try assumption; rewrite ?L1, ?L2; try assumption.
  fold (swap_rows i j n (swap_rows i j n fm)) in M1, M2, M3.
  apply (nth_ext _ _ [] []).
  - rewrite M1, L1. reflexivity.
  - intros r _. apply (nth_ext _ _ 0 0).
    + rewrite M2, L2. reflexivity.
    + intros k _.
      change (rdQ (nth r (swap_rows i j n (swap_rows i j n fm)) []) k =
              rdQ (nth r fm []) k).
      rewrite M3. destruct ((0 <=? k)%nat && (k <? 0 + n)%nat) eqn:E.
      * rewrite L3, E, transp_invol. reflexivity.
      * rewrite L3, E. reflexivity.
Qed.

Lemma switch_species (i j : nat) (s : VCS_SOLVE) :
  species_data (vcs_switch_elem_pos i j s) = species_data s.
Proof.
  unfold vcs_switch_elem_pos. destruct (Nat.eqb i j); reflexivity.
Qed.

(** X8: on a well-formed instance, exchanging two constraint positions a
    second time restores every constraint-indexed array ([ga], [gai],
    [IndEl], [m_elType], [ElActive], [ElName]) and the formula matrix; the
    mole numbers and the species arrays are never touched. *)
Theorem switch_twice_restores (i j : nat) (s : VCS_SOLVE) :
  wf_elem s ->
  (i < m_numElemConstraints s)%nat -> (j < m_numElemConstraints s)%nat ->
  let s2 := vcs_switch_elem_pos i j (vcs_switch_elem_pos i j s) in
  ga s2 = ga s /\ gai s2 = gai s /\ FormulaMatrix s2 = FormulaMatrix s /\
  IndEl s2 = IndEl s /\ m_elType s2 = m_elType s /\
  ElActive s2 = ElActive s /\ ElName s2 = ElName s /\
  species_data s2 = species_data s.
Proof.
  intros W Hi Hj. cbv zeta.
  assert (Hsp : species_data (vcs_switch_elem_pos i j (vcs_switch_elem_pos i j s))
                = species_data s) by (rewrite !switch_species; reflexivity).
  unfold vcs_switch_elem_pos in *.
  destruct (Nat.eqb i j) eqn:E; [repeat split; reflexivity|].
  apply Nat.eqb_neq in E. destruct W.
  cbn [ga gai FormulaMatrix IndEl m_elType ElActive ElName m_numSpeciesTot].
  split; [apply sw_sw; lia|]. split; [apply sw_sw; lia|].
  split; [apply swap_rows_twice; auto; try lia|].
  split; [apply sw_sw; lia|]. split; [apply sw_sw; lia|].
  split; [apply sw_sw; lia|]. split; [apply sw_sw; lia|].
  exact Hsp.
Qed.

Lemma switch_twice_restores_witness :
  gai (vcs_switch_elem_pos 0 1 (vcs_switch_elem_pos 0 1 e2e)) = gai e2e /\
  FormulaMatrix (vcs_switch_elem_pos 0 1 (vcs_switch_elem_pos 0 1 e2e))
    = FormulaMatrix e2e.
Proof.
  destruct (switch_twice_restores 0 1 e2e) as (_ & H2 & H3 & _).
  - exact e2e_wf.
  - simpl; lia.
  - simpl; lia.
  - split; [exact H2 | exact H3].
Defined.

Lemma collapse_idem (i j : nat) (v : Z) :
  collapse i j (collapse i j v) = collapse i j v.
Proof.
  unfold collapse.
  destruct (Z.eqb v (Z.of_nat i) || Z.eqb v (Z.of_nat j)) eqn:E.
  - rewrite Z.eqb_refl. reflexivity.
  - rewrite E. reflexivity.
Qed.

Lemma switch_index_fold_length (i j : nat) (l : list nat) (g : list Z) :
  length (fold_left (switch_index i j) l g) = length g.
Proof.
  revert g; induction l as [|e l IH]; intro g; simpl; [reflexivity|].
  rewrite IH. apply switch_index_length.
Qed.

Lemma switch_phase_idem (i j : nat) (v : vcs_VolPhase) :
  i <> j -> (nElemConstraints v <= length (ElGlobalIndex v))%nat ->
  switch_phase i j (switch_phase i j v) = switch_phase i j v.
Proof.
  intros Hne Hlen. unfold switch_phase. cbn [nElemConstraints ElGlobalIndex].
  f_equal. apply (nth_ext _ _ 0%Z 0%Z).
  - rewrite !switch_index_fold_length. reflexivity.
  - intros e _.
    rewrite switch_index_fold
      by (auto; rewrite switch_index_fold_length; simpl; lia).
    destruct ((0 <=? e)%nat && (e <? 0 + nElemConstraints v)%nat) eqn:E;
      [|reflexivity].
    rewrite switch_index_fold by (auto; simpl; lia).
    rewrite E. apply collapse_idem.
Qed.

Lemma switch_phases_length (i j : nat) (l0 : list nat) (l : list vcs_VolPhase) :
  length (fold_left
            (fun l iph => upd iph (switch_phase i j (nth iph l (mkVolPhase O []))) l)
            l0 l) = length l.
Proof.
  revert l; induction l0 as [|a l0 IH]; intro l; simpl; [reflexivity|].
  rewrite IH. apply length_upd.
Qed.

Lemma switch_phases_seq (i j n a : nat) (l : list vcs_VolPhase) (p : nat) :
  nth p (fold_left
           (fun l iph => upd iph (switch_phase i j (nth iph l (mkVolPhase O []))) l)
           (seq a n) l) (mkVolPhase O []) =
  if (a <=? p)%nat && (p <? a + n)%nat
  then switch_phase i j (nth p l (mkVolPhase O []))
  else nth p l (mkVolPhase O []).
Proof.
  revert a l; induction n as [|n IH]; intros a l; simpl.
  - replace ((a <=? p)%nat && (p <? a + 0)%nat) with false; [reflexivity|].
    symmetry. apply andb_false_iff.
    destruct (Nat.le_gt_cases a p);
      [right; apply Nat.ltb_ge; lia | left; apply Nat.leb_gt; lia].
  - rewrite IH, nth_upd.
    destruct (Nat.eq_dec a p) as [->|Hne].
    + rewrite Nat.eqb_refl.
      replace (S p <=? p)%nat with false by (symmetry; apply Nat.leb_gt; lia).
      rewrite Nat.leb_refl.
      replace (p <? p + S n)%nat with true by (symmetry; apply Nat.ltb_lt; lia).
      cbn [andb]. destruct (p <? length l)%nat eqn:E; [reflexivity|].
      apply Nat.ltb_ge in E. rewrite (nth_overflow l _ E). reflexivity.
    + replace (Nat.eqb a p) with false by (symmetry; apply Nat.eqb_neq; lia).
      cbn [andb].
      replace ((S a <=? p)%nat && (p <? S a + n)%nat)
        with ((a <=? p)%nat && (p <? a + S n)%nat); [reflexivity|].
      destruct (S a <=? p)%nat eqn:E1, (a <=? p)%nat eqn:E2,
               (p <? S a + n)%nat eqn:E3, (p <? a + S n)%nat eqn:E4;
        try reflexivity;
        repeat match goal with
        | H : (_ <=? _)%nat = true |- _ => apply Nat.leb_le in H
        | H : (_ <=? _)%nat = false |- _ => apply Nat.leb_gt in H
        | H : (_ <? _)%nat = true |- _ => apply Nat.ltb_lt in H
        | H : (_ <? _)%nat = false |- _ => apply Nat.ltb_ge in H
        end; lia.
Qed.

(** X9: the phase maps are not restored by a second exchange: when every
    phase map covers the constraints of its phase, the second call of
    [vcs_switch_elem_pos] with the same positions leaves every phase map as
    the first call left it, and an entry below [nElemConstraints] of a phase
    below [NPhase] that held [jpos] before the two calls holds [ipos] after
    them. *)
Theorem switch_twice_phase_maps (i j : nat) (s : VCS_SOLVE) :
  wf_phases s ->
  let s1 := vcs_switch_elem_pos i j s in
  let s2 := vcs_switch_elem_pos i j s1 in
  VPhaseList s2 = VPhaseList s1 /\
  forall p e,
    (p < NPhase s)%nat ->
    (e < nElemConstraints (nth p (VPhaseList s) (mkVolPhase O [])))%nat ->
    nth e (ElGlobalIndex (nth p (VPhaseList s) (mkVolPhase O []))) 0%Z = Z.of_nat j ->
    nth e (ElGlobalIndex (nth p (VPhaseList s2) (mkVolPhase O []))) 0%Z = Z.of_nat i.
Proof.
  intros W. cbv zeta.
  assert (H1 : VPhaseList (vcs_switch_elem_pos i j (vcs_switch_elem_pos i j s))
               = VPhaseList (vcs_switch_elem_pos i j s)).
  { unfold vcs_switch_elem_pos.
    destruct (Nat.eqb i j) eqn:E; [reflexivity|].
    apply Nat.eqb_neq in E. cbn [VPhaseList NPhase]. unfold switch_phases.
    apply (nth_ext _ _ (mkVolPhase O []) (mkVolPhase O [])).
    - rewrite !switch_phases_length. reflexivity.
    - intros p _. rewrite switch_phases_seq.
      destruct ((0 <=? p)%nat && (p <? 0 + NPhase s)%nat) eqn:Ep; [|reflexivity].
      rewrite switch_phases_seq, Ep.
      apply switch_phase_idem; [exact E | apply W]. }
  split; [exact H1|].
  intros p e Hp He Hv. rewrite H1.
  unfold vcs_switch_elem_pos.
  destruct (Nat.eqb i j) eqn:E.
  - apply Nat.eqb_eq in E. subst j. exact Hv.
  - apply Nat.eqb_neq in E. cbn [VPhaseList]. unfold switch_phases.
    rewrite switch_phases_seq.
    replace ((0 <=? p)%nat && (p <? 0 + NPhase s)%nat) with true
      by (symmetry; apply andb_true_iff; split;
          [apply Nat.leb_le; lia | apply Nat.ltb_lt; lia]).
    unfold switch_phase. cbn [ElGlobalIndex].
    rewrite switch_index_fold by (auto; simpl; apply W).
    replace ((0 <=? e)%nat &&
             (e <? 0 + nElemConstraints (nth p (VPhaseList s) (mkVolPhase O [])))%nat)
      with true
      by (symmetry; apply andb_true_iff; split;
          [apply Nat.leb_le; lia | apply Nat.ltb_lt; simpl; lia]).
    rewrite Hv. unfold collapse. rewrite Z.eqb_refl, orb_true_r. reflexivity.
Qed.

Lemma switch_twice_phase_maps_witness :
  VPhaseList (vcs_switch_elem_pos 0 1 (vcs_switch_elem_pos 0 1 e2e))
    = VPhaseList (vcs_switch_elem_pos 0 1 e2e) /\
  nth 1 (ElGlobalIndex
           (nth 0 (VPhaseList (vcs_switch_elem_pos 0 1 (vcs_switch_elem_pos 0 1 e2e)))
                (mkVolPhase O []))) 0%Z = 0%Z.
Proof.
  assert (W : wf_phases e2e).
  { intro p. destruct p as [|[|[|p]]]; simpl; lia. }
  destruct (switch_twice_phase_maps 0 1 e2e W) as (H1 & H2).
  split; [exact H1|].
  apply (H2 0%nat 1%nat); [simpl; lia | simpl; lia | reflexivity].
Defined.

(** ** Abundances under repositioning *)

Lemma abundance_sum_row (s s' : VCS_SOLVE) (p q : nat) :
  species_data s' = species_data s ->
  (forall k, (k < m_numSpeciesTot s)%nat -> FM s' p k = FM s q k) ->
  abundance_sum s' p = abundance_sum s q.
Proof.
  intros Hsp Hrow. unfold species_data in Hsp.
  injection Hsp as E1 E2 E3 E4 E5 E6 E7 E8.
  unfold abundance_sum, nonvoltage_species, voltage. rewrite E1, E2, E6.
  apply fold_left_ext_in. intros acc k Hk.
  apply filter_In in Hk. destruct Hk as [Hk _]. apply in_seq in Hk.
  rewrite Hrow by lia. reflexivity.
Qed.

Lemma switch_consistent (i j : nat) (s : VCS_SOLVE) :
  wf_elem s ->
  (i < m_numElemConstraints s)%nat -> (j < m_numElemConstraints s)%nat ->
  consistent s -> consistent (vcs_switch_elem_pos i j s).
Proof.
  intros W Hi Hj C p Hp.
  destruct (switch_repositioned i j s Hi Hj W) as (E1 & _ & _ & R).
  rewrite E1 in Hp.
  rewrite (abundance_sum_row s (vcs_switch_elem_pos i j s) p (transp i j p)
             (switch_species i j s) (fun k Hk => proj2 (proj2 (proj2 (proj2 (R p)))) k Hk)).
  assert (Hga : rdQ (ga (vcs_switch_elem_pos i j s)) p = rdQ (ga s) (transp i j p)).
  { unfold vcs_switch_elem_pos. destruct (Nat.eqb i j) eqn:E.
    - apply Nat.eqb_eq in E. subst j. rewrite transp_same. reflexivity.
    - cbn [ga]. unfold rdQ. destruct W. apply nth_sw; lia. }
  rewrite Hga. apply C.
  destruct (permutes_transp (m_numElemConstraints s) i j Hi Hj) as (pi' & P1 & P2 & P3).
  destruct (Nat.lt_ge_cases (transp i j p) (m_numElemConstraints s)) as [H|H];
    [exact H|].
  pose proof (P3 _ H) as F. rewrite transp_invol in F. lia.
Qed.

(** X10: exchanging two constraint positions keeps the abundances in step
    with the mole numbers: if [ga] holds, for every constraint, the sum
    that [vcs_elab] would compute, it still does after
    [vcs_switch_elem_pos], without a call of [vcs_elab]. *)
Theorem switch_keeps_abundances (i j : nat) (s : VCS_SOLVE) :
  wf_elem s ->
  (i < m_numElemConstraints s)%nat -> (j < m_numElemConstraints s)%nat ->
  consistent s ->
  forall p, (p < m_numElemConstraints s)%nat ->
    rdQ (ga (vcs_switch_elem_pos i j s)) p ==
    rdQ (ga (vcs_elab (vcs_switch_elem_pos i j s))) p.
Proof.
  intros W Hi Hj C p Hp.
  pose proof (switch_wf i j s Hi Hj W) as W'.
  pose proof (switch_consistent i j s W Hi Hj C) as C'.
  destruct (switch_counts i j s) as (E1 & _).
  rewrite elab_ga_nth by (destruct W'; assumption).
  rewrite E1. apply Nat.ltb_lt in Hp. rewrite Hp.
  rewrite elab_row_sum. apply C'. rewrite E1. apply Nat.ltb_lt. exact Hp.
Qed.

Lemma switch_keeps_abundances_witness :
  rdQ (ga (vcs_switch_elem_pos 0 1 (vcs_elab e2e))) 0 ==
  rdQ (ga (vcs_elab (vcs_switch_elem_pos 0 1 (vcs_elab e2e)))) 0.
Proof.
  apply (switch_keeps_abundances 0 1 (vcs_elab e2e)).
  - constructor; simpl; try lia.
    intros r Hr. destruct r as [|[|r]]; simpl; lia.
  - simpl; lia.
  - simpl; lia.
  - apply consistent_elab. simpl; lia.
  - simpl; lia.
Defined.

Section RearrangedFrame.
Variable success : Z.
Variable P : VCS_SOLVE -> Prop.
Hypothesis P_switch : forall i j t,
  wf_elem t -> (i < m_numElemConstraints t)%nat -> (j < m_numElemConstraints t)%nat ->
  P t -> P (vcs_switch_elem_pos i j t).

Lemma rearrange_loop_inv (fuel : nat) :
  forall (test : Q) (jr : nat) (w : work) (s : VCS_SOLVE) (r : Z) (s' : VCS_SOLVE),
  wf_elem s -> P s ->
  rearrange_loop success fuel test jr w s = Some (Ok r s') -> P s'.
Proof.
  induction fuel as [|fuel IH]; intros test jr w s r s' W HP; simpl; [discriminate|].
  pose proof (find_k_range s (aw w) test jr (m_numElemConstraints s - jr)) as Hk.
  simpl in Hk.
  set (k := find_k s (aw w) test (seq jr (m_numElemConstraints s - jr))) in *.
  destruct (Nat.eqb k (m_numElemConstraints s)) eqn:Ek; [discriminate|].
  apply Nat.eqb_neq in Ek.
  destruct Hk as [Hk|(Hk & _)]; [contradiction|].
  destruct (Qltb _ _).
  { intro H. apply IH in H; assumption. }
  assert (Hs1 : wf_elem (if Nat.eqb jr k then s else vcs_switch_elem_pos jr k s) /\
                P (if Nat.eqb jr k then s else vcs_switch_elem_pos jr k s)).
  { destruct (Nat.eqb jr k) eqn:E; [split; assumption|].
    split; [apply switch_wf | apply P_switch]; auto; lia. }
  destruct Hs1 as [W1 P1].
  destruct (Nat.ltb (S jr) (m_numComponents s)).
  - intro H. apply IH in H; assumption.
  - intro H. inversion H; subst. exact P1.
Qed.

Lemma rearrange_inv (fuel : nat) (w : work) (s : VCS_SOLVE) (r : Z) (s' : VCS_SOLVE) :
  wf_elem s -> P s ->
  vcs_elem_rearrange success fuel w s = Some (Ok r s') -> P s'.
Proof.
  intros W HP. unfold vcs_elem_rearrange.
  destruct (sentinel_loop fuel s _ _) as [[test a]|]; [|discriminate].
  apply rearrange_loop_inv; assumption.
Qed.

End RearrangedFrame.

(** X11: a successful [vcs_elem_rearrange] changes neither the mole numbers
    nor the species arrays and counts, and it keeps the abundances in step
    with the mole numbers: if [ga] held the sums that [vcs_elab] computes,
    it holds them for the rearranged constraints too. *)
Theorem rearrange_keeps_species_and_abundances
    (success : Z) (fuel : nat) (w : work) (s : VCS_SOLVE) (r : Z) (s' : VCS_SOLVE) :
  wf_elem s ->
  vcs_elem_rearrange success fuel w s = Some (Ok r s') ->
  species_data s' = species_data s /\ (consistent s -> consistent s').
Proof.
  intros W H. split.
  - apply (rearrange_inv success (fun t => species_data t = species_data s)
             (fun i j t _ _ _ Ht => eq_trans (switch_species i j t) Ht)
             fuel w s r s' W eq_refl H).
  - intro C.
    apply (rearrange_inv success consistent
             (fun i j t Wt Hi Hj Ct => switch_consistent i j t Wt Hi Hj Ct)
             fuel w s r s' W C H).
Qed.

Lemma rearrange_keeps_species_and_abundances_witness :
  species_data (vcs_switch_elem_pos 0 1 small_row) = species_data small_row /\
  consistent (vcs_switch_elem_pos 0 1 small_row).
Proof.
  assert (H : vcs_elem_rearrange success_value 3 zero_work small_row
              = Some (Ok success_value (vcs_switch_elem_pos 0 1 small_row)))
    by (vm_compute; reflexivity).
  destruct (rearrange_keeps_species_and_abundances success_value 3 zero_work
              small_row success_value (vcs_switch_elem_pos 0 1 small_row)
              small_row_wf H) as (H1 & H2).
  split; [exact H1|]. apply H2.
  intros j Hj. simpl in Hj.
  destruct j as [|[|j]]; [vm_compute; reflexivity | vm_compute; reflexivity | lia].
Defined.

(** ** Running vcs_elem_rearrange again *)

Lemma rearrange_success_shape (success : Z) (fuel : nat) (w : work)
    (s : VCS_SOLVE) (r : Z) (s' : VCS_SOLVE) :
  wf_elem s ->
  (m_numComponents s <= m_numSpeciesTot s)%nat ->
  vcs_elem_rearrange success fuel w s = Some (Ok r s') ->
  (1 <= m_numComponents s <= m_numElemConstraints s)%nat /\
  m_numComponents s' = m_numComponents s /\
  accepted_prefix s' (m_numComponents s) = true /\
  active_prefix s' (m_numComponents s) = true.
Proof.
  intros W Hcs. unfold vcs_elem_rearrange.
  destruct (sentinel_loop fuel s (-1.0E10) (aw w)) as [[test a]|];
    [|discriminate].
  intro E. apply rearrange_loop_accepts in E; auto; try lia.
  - destruct E as [E|(s'' & E & H0 & H1 & H2 & H3)]; [discriminate|].
    injection E as _ <-.
    destruct (m_numComponents s) as [|c] eqn:Ec.
    + exfalso. change (Nat.max 1 0) with 1%nat in H2.
      rewrite accepted_prefix_needs_component in H2 by exact H1.
      discriminate.
    + replace (Nat.max 1 (S c)) with (S c) in * by lia.
      repeat split; auto; lia.
  - split; intros; simpl in *; lia.
Qed.

(** X12: [vcs_elem_rearrange] settles after one run.  When the targets lie
    above -1e10 and a run returns [VCS_SUCCESS], a further run on the
    instance returned, with any work arrays and at least [m_numComponents]
    units of fuel, returns [VCS_SUCCESS] again and makes no exchange. *)
Theorem rearrange_twice
    (success : Z) (fuel fuel2 : nat) (w w2 : work)
    (s : VCS_SOLVE) (r : Z) (s' : VCS_SOLVE) :
  wf_elem s ->
  (m_numComponents s <= m_numSpeciesTot s)%nat ->
  (forall j, (j < m_numElemConstraints s)%nat -> -1.0E10 < rdQ (gai s) j) ->
  (m_numComponents s <= fuel2)%nat ->
  vcs_elem_rearrange success fuel w s = Some (Ok r s') ->
  vcs_elem_rearrange success fuel2 w2 s' = Some (Ok success s').
Proof.
  intros W Hcs Hg Hfuel H.
  destruct (rearrange_success_shape success fuel w s r s' W Hcs H)
    as (Hc & Ec & Hacc & Hact).
  destruct (rearrange_repositioned success fuel w s r s' W H)
    as (_ & W' & pi & Pp & Rp).
  destruct Rp as (EE & _ & _ & Rp).
  assert (Hg' : forall j, (j < m_numElemConstraints s')%nat ->
                          -1.0E10 < rdQ (gai s') j).
  { intros j Hj. destruct (Rp j) as (-> & _).
    apply Hg. apply permutes_below; [exact Pp | lia]. }
  rewrite <- Ec in Hacc, Hact.
  unfold vcs_elem_rearrange.
  destruct fuel2 as [|fuel2]; [lia|].
  destruct (sentinel_loop_clear fuel2 s' (aw w2) Hg') as (test & a' & E & Ht & Ha).
  rewrite E.
  assert (Hle : (m_numComponents s' <= m_numElemConstraints s')%nat) by lia.
  apply (no_swap_loop success s' test Hle Hact Hacc (m_numComponents s' - 1));
    try lia.
  - split; intros; simpl in *; lia.
  - intros j Hj. simpl. rewrite Ha by lia.
    intro Heq. assert (Hlt : -1.0E10 < rdQ (gai s') j) by (apply Hg'; lia).
    rewrite Heq in Hlt. apply (Qlt_not_le _ _ Hlt Ht).
Qed.

Lemma rearrange_twice_witness :
  vcs_elem_rearrange success_value 1 zero_work (vcs_switch_elem_pos 0 1 small_row)
  = Some (Ok success_value (vcs_switch_elem_pos 0 1 small_row)).
Proof.
  apply (rearrange_twice success_value 3 1 zero_work zero_work small_row
           success_value (vcs_switch_elem_pos 0 1 small_row)).
  - exact small_row_wf.
  - simpl; lia.
  - intros j Hj. simpl in Hj.
    destruct j as [|[|j]]; [vm_compute; reflexivity | vm_compute; reflexivity | lia].
  - simpl; lia.
  - vm_compute; reflexivity.
Defined.

(** ** How vcs_elcorr can end *)

Lemma elabcheck_outcome (cutoff : Q) (ib : bool) (s : VCS_SOLVE) :
  (exists b, vcs_elabcheck cutoff ib s = Ok b s) \/
  (vcs_elabcheck cutoff ib s = Throw "vcs_elabcheck" /\ charged_target s).
Proof.
  unfold vcs_elabcheck.
  destruct (elabcheck_loop cutoff s _) eqn:E.
  - left. exists true. reflexivity.
  - left. exists false. reflexivity.
  - right. split; [reflexivity|].
    apply elabcheck_loop_throw in E.
    destruct E as (l1 & i & l2 & _ & _ & (_ & H1 & H2)).
    exists i. split; assumption.
Qed.

Lemma charged_cdata (s s' : VCS_SOLVE) :
  cdata s' = cdata s -> charged_target s' -> charged_target s.
Proof.
  unfold cdata. intros H (i & H1 & H2).
  injection H as E1 E2 E3 E4 E5.
  exists i. unfold elType in *. rewrite <- E3, <- E1. split; assumption.
Qed.

Section Outcome.
Variable cutoff : Q.
Variable failed : Z.
Variable mlequ : buf -> nat -> nat -> buf -> nat -> Z * buf * buf.
Variable tmoles : VCS_SOLVE -> VCS_SOLVE.
Variable reinsert : nat -> VCS_SOLVE -> VCS_SOLVE.
Hypothesis tmoles_frame : forall s, cdata (tmoles s) = cdata s.

Lemma elcorr_tail_outcome (retn : Z) (s : VCS_SOLVE) :
  match elcorr_tail cutoff tmoles reinsert retn s with
  | Ok _ _ => True
  | Throw p => p = "vcs_elabcheck"%string /\ charged_target s
  | Exit _ => False
  end.
Proof.
  unfold elcorr_tail, cleanup, bind.
  assert (Hj : snd (if (2 <=? retn)%Z
                      then adhoc_loop reinsert s (seq 0 (m_numSpeciesTot s))
                      else (s, false)) = false ->
               cdata (fst (if (2 <=? retn)%Z
                           then adhoc_loop reinsert s (seq 0 (m_numSpeciesTot s))
                           else (s, false))) = cdata s).
  { destruct (2 <=? retn)%Z; [apply cdata_adhoc_loop | reflexivity]. }
  destruct (if (2 <=? retn)%Z then _ else _) as [s4 jumped]. simpl in Hj.
  destruct jumped; [exact I|]. specialize (Hj eq_refl).
  destruct (elabcheck_outcome cutoff false s4) as [[b1 ->]|[-> Hc]].
  2:{ split; [reflexivity|]. apply (charged_cdata s s4 Hj Hc). }
  destruct b1; [exact I|].
  destruct (elabcheck_outcome cutoff true (stage5 s4)) as [[b2 ->]|[-> Hc]].
  2:{ split; [reflexivity|]. apply (charged_cdata s s4 Hj).
      apply (charged_cdata s4 (stage5 s4) (cdata_stage5 s4) Hc). }
  destruct b2; [exact I|].
  destruct (elabcheck_outcome cutoff true (stage6 (stage5 s4)))
    as [[b3 ->]|[-> Hc]].
  2:{ split; [reflexivity|]. apply (charged_cdata s s4 Hj).
      apply (charged_cdata s4 (stage5 s4) (cdata_stage5 s4)).
      apply (charged_cdata _ _ (cdata_stage6 (stage5 s4)) Hc). }
  destruct b3; exact I.
Qed.

Lemma elcorr_outcome (aa x : buf) (s : VCS_SOLVE) :
  match vcs_elcorr cutoff failed mlequ tmoles reinsert aa x s with
  | Ok _ _ => True
  | Throw p => p = "vcs_elabcheck"%string /\ charged_target s
  | Exit _ => False
  end.
Proof.
  unfold vcs_elcorr.
  assert (H2 : cdata (after_changed (stage2 cutoff (after_changed (stage1 s))))
               = cdata s).
  { rewrite cdata_after_changed, cdata_stage2, cdata_after_changed.
    apply cdata_stage1. }
  destruct (setup _ aa x) as [[aa1 x1] retn].
  destruct (mlequ _ _ _ _ _) as [[i aa2] x2].
  destruct (i =? 1)%Z; [exact I|].
  pose proof (cdata_apply_step
                (after_changed (stage2 cutoff (after_changed (stage1 s)))) x2 retn)
    as H3.
  destruct (apply_step _ x2 retn) as [s3 retn']. simpl in H3.
  pose proof (elcorr_tail_outcome retn' (tmoles (vcs_elab s3))) as Ht.
  destruct (elcorr_tail cutoff tmoles reinsert retn' (tmoles (vcs_elab s3)));
    [exact I | | exact Ht].
  destruct Ht as [Hp Hc]. split; [exact Hp|].
  apply (charged_cdata s _ H2). apply (charged_cdata _ s3 H3).
  apply (charged_cdata s3 (tmoles (vcs_elab s3))); [|exact Hc].
  rewrite tmoles_frame. apply cdata_elab.
Qed.

End Outcome.

(** X13: provided [vcs_tmoles] leaves the constraint data alone, a call of
    [vcs_elcorr] whose collaborators return either returns a status or
    throws from the assertion of [vcs_elabcheck]; the latter needs, among
    the constraints that the call was given, a charge-neutrality constraint
    whose target is not zero: the checks are made on instances that hold
    the constraint data of entry, the path that reinserts a removed
    species making no check.  So when every charge-neutrality target is
    zero [vcs_elcorr] returns. *)
Theorem elcorr_returns_or_asserts
    (cutoff : Q) (failed : Z)
    (mlequ : buf -> nat -> nat -> buf -> nat -> Z * buf * buf)
    (tmoles : VCS_SOLVE -> VCS_SOLVE)
    (reinsert : nat -> VCS_SOLVE -> VCS_SOLVE) (aa x : buf) (s : VCS_SOLVE) :
  (forall s, cdata (tmoles s) = cdata s) ->
  ((exists r s', vcs_elcorr cutoff failed mlequ tmoles reinsert aa x s = Ok r s') \/
   (vcs_elcorr cutoff failed mlequ tmoles reinsert aa x s = Throw "vcs_elabcheck" /\
    charged_target s)) /\
  ((forall i, elType s i = VCS_ELEM_TYPE_CHARGENEUTRALITY -> rdQ (gai s) i == 0) ->
   exists r s', vcs_elcorr cutoff failed mlequ tmoles reinsert aa x s = Ok r s').
Proof.
  intros Ht.
  pose proof (elcorr_outcome cutoff failed mlequ tmoles reinsert Ht aa x s) as H.
  destruct (vcs_elcorr cutoff failed mlequ tmoles reinsert aa x s) as [r s'|p|c].
  - split; [left|intros _]; exists r, s'; reflexivity.
  - destruct H as [-> Hc]. split; [right; split; [reflexivity | exact Hc]|].
    intro Hz. exfalso. destruct Hc as (i & H1 & H2). apply H2. apply Hz. exact H1.
  - contradiction.
Qed.

Lemma elcorr_returns_or_asserts_witness :
  (exists r s', run_elcorr charge_rows = Ok r s') /\
  (run_elcorr charged_overshoot = Throw "vcs_elabcheck" /\
   charged_target charged_overshoot).
Proof.
  split.
  - apply (elcorr_returns_or_asserts cutoff_value failed_value mlequ_model
             tmoles_model reinsert_model zero_work.(aw) zero_work.(aw) charge_rows).
    + intro s. reflexivity.
    + intros i Hi.
      destruct i as [|[|i]]; [reflexivity | discriminate Hi |].
      unfold elType in Hi. simpl in Hi. destruct i; discriminate Hi.
  - destruct (elcorr_returns_or_asserts cutoff_value failed_value mlequ_model
                tmoles_model reinsert_model zero_work.(aw) zero_work.(aw)
                charged_overshoot (fun s => eq_refl)) as [[(r & s' & H)|H] _].
    + vm_compute in H. discriminate H.
    + exact H.
Defined.

(** ** The abundances that vcs_elcorr returns *)

Lemma ready_elab (s : VCS_SOLVE) : ready s -> ready (vcs_elab s).
Proof.
  unfold ready, vcs_elab, elab_loop. simpl. rewrite fill_length. auto.
Qed.

Lemma good_elab (s : VCS_SOLVE) :
  ready s -> ready (vcs_elab s) /\ consistent (vcs_elab s).
Proof.
  intro H. split; [apply ready_elab; exact H | apply consistent_elab; exact H].
Qed.

Lemma ready_shape (s t : VCS_SOLVE) :
  entry_shape t = entry_shape s -> ready s -> ready t.
Proof.
  unfold entry_shape, ready. intro H. injection H as E1 _ _ E4 _ _.
  rewrite E1, E4. auto.
Qed.

Lemma ready_after_changed (r : VCS_SOLVE * bool) :
  ready (fst r) -> ready (after_changed r).
Proof.
  unfold after_changed. destruct (snd r); [apply ready_elab | auto].
Qed.

Lemma ready_stage3_entry (cutoff : Q) (s : VCS_SOLVE) :
  ready s -> ready (stage3_entry cutoff s).
Proof.
  intro H. unfold stage3_entry.
  apply ready_after_changed. apply (ready_shape _ _ (shape_stage2 cutoff _)).
  apply ready_after_changed. apply (ready_shape _ _ (shape_stage1 s)). exact H.
Qed.

Lemma ready_step_comp (dx : nat -> Q) (s : VCS_SOLVE) (i : nat) :
  ready s -> ready (step_comp dx s i).
Proof.
  unfold step_comp. destruct (Qgtb _ _); [auto|].
  destruct (nth i (SSPhase s) false); auto.
Qed.

Lemma ready_apply_step (s : VCS_SOLVE) (x : buf) (retn : Z) :
  ready s -> ready (fst (apply_step s x retn)).
Proof.
  intro H. unfold apply_step. destruct (_ && _); simpl;
    apply (fold_left_inv ready); auto; intros; apply ready_step_comp; assumption.
Qed.

Lemma ready_sub_floor (k : nat) (d : Q) (s : VCS_SOLVE) :
  ready s -> ready (sub_floor k d s).
Proof. unfold sub_floor. destruct (Qltb _ _); auto. Qed.

Lemma ready_add_floor (k : nat) (d : Q) (s : VCS_SOLVE) :
  ready s -> ready (add_floor k d s).
Proof. unfold add_floor. destruct (Qltb _ _); auto. Qed.

Lemma good_neutral_inner (i : nat) (ks : list nat) (s : VCS_SOLVE) :
  ready s /\ consistent s ->
  ready (neutral_inner s i ks) /\ consistent (neutral_inner s i ks).
Proof.
  intros [R C]. induction ks as [|k ks IH]; simpl; [auto|].
  destruct (_ && _); [apply good_elab, ready_sub_floor, R|].
  destruct (_ && _); [apply good_elab, ready_sub_floor, R|].
  exact IH.
Qed.

Lemma good_stage5 (s : VCS_SOLVE) :
  ready s /\ consistent s -> ready (stage5 s) /\ consistent (stage5 s).
Proof.
  intro G. unfold stage5.
  apply (fold_left_inv (fun t => ready t /\ consistent t)); [|exact G].
  intros t i _ H. unfold neutral_row.
  destruct (_ || _); [apply good_neutral_inner; exact H | exact H].
Qed.

Lemma good_electron_inner (i : nat) (dev : Q) (uz : bool) (ks : list nat)
    (s : VCS_SOLVE) :
  ready s /\ consistent s ->
  ready (electron_inner s i dev uz ks) /\ consistent (electron_inner s i dev uz ks).
Proof.
  intros [R C]. induction ks as [|k ks IH]; simpl; [auto|].
  destruct (_ || _); [|exact IH].
  destruct (_ && _); [apply good_elab, ready_add_floor, R|].
  destruct (_ && _); [apply good_elab, ready_add_floor, R|].
  exact IH.
Qed.

Lemma good_stage6 (s : VCS_SOLVE) :
  ready s /\ consistent s -> ready (stage6 s) /\ consistent (stage6 s).
Proof.
  intro G. unfold stage6.
  apply (fold_left_inv (fun t => ready t /\ consistent t)); [|exact G].
  intros t i _ H. unfold electron_row.
  destruct (_ && _); [apply good_electron_inner; exact H | exact H].
Qed.

Section Current.
Variable cutoff : Q.
Variable failed : Z.
Variable mlequ : buf -> nat -> nat -> buf -> nat -> Z * buf * buf.
Variable tmoles : VCS_SOLVE -> VCS_SOLVE.
Variable reinsert : nat -> VCS_SOLVE -> VCS_SOLVE.
Hypothesis tmoles_good : forall s,
  ready s /\ consistent s -> ready (tmoles s) /\ consistent (tmoles s).
Hypothesis reinsert_ready : forall k s, ready s -> ready (reinsert k s).

Lemma good_adhoc_loop (ks : list nat) (s : VCS_SOLVE) :
  ready s /\ consistent s ->
  ready (fst (adhoc_loop reinsert s ks)) /\
  consistent (fst (adhoc_loop reinsert s ks)).
Proof.
  revert s; induction ks as [|k ks IH]; intros s H; simpl; [exact H|].
  destruct (voltage s k); [apply IH; exact H|].
  destruct (goodSpec_loop _ _ _ _); [|apply IH; exact H].
  match goal with |- context [Nat.leb ?a ?b] => destruct (Nat.leb a b) end.
  - simpl. apply good_elab.
    match goal with |- ready (set_soln _ ?t) => change (ready t) end.
    apply reinsert_ready. apply H.
  - apply IH. apply good_elab. apply H.
Qed.

Lemma good_elcorr_tail (retn r : Z) (s s' : VCS_SOLVE) :
  ready s /\ consistent s ->
  elcorr_tail cutoff tmoles reinsert retn s = Ok r s' ->
  ready s' /\ consistent s'.
Proof.
  intro G. unfold elcorr_tail, cleanup, bind.
  assert (Hj : ready (fst (if (2 <=? retn)%Z
                           then adhoc_loop reinsert s (seq 0 (m_numSpeciesTot s))
                           else (s, false))) /\
               consistent (fst (if (2 <=? retn)%Z
                           then adhoc_loop reinsert s (seq 0 (m_numSpeciesTot s))
                           else (s, false)))).
  { destruct (2 <=? retn)%Z; [apply good_adhoc_loop; exact G | exact G]. }
  destruct (if (2 <=? retn)%Z then _ else _) as [s4 jumped]. simpl in Hj.
  destruct jumped.
  { intro H; inversion H; subst. apply tmoles_good. exact Hj. }
  destruct (vcs_elabcheck cutoff false s4) as [b1 s4'| |] eqn:E1; try discriminate.
  apply elabcheck_state in E1. subst s4'.
  destruct b1.
  { intro H; inversion H; subst. apply tmoles_good. exact Hj. }
  destruct (vcs_elabcheck cutoff true (stage5 s4)) as [b2 s5| |] eqn:E2;
    try discriminate.
  apply elabcheck_state in E2. subst s5.
  destruct b2.
  { intro H; inversion H; subst. apply tmoles_good, good_stage5. exact Hj. }
  destruct (vcs_elabcheck cutoff true (stage6 (stage5 s4))) as [b3 s6| |] eqn:E3;
    try discriminate.
  apply elabcheck_state in E3. subst s6.
  destruct b3; intro H; inversion H; subst;
    apply tmoles_good, good_stage6, good_stage5; exact Hj.
Qed.

Lemma good_elcorr (aa x : buf) (r : Z) (s s' : VCS_SOLVE) :
  ready s -> r <> failed \/ consistent s ->
  vcs_elcorr cutoff failed mlequ tmoles reinsert aa x s = Ok r s' ->
  ready s' /\ consistent s'.
Proof.
  intros R Hc. unfold vcs_elcorr.
  pose proof (ready_stage3_entry cutoff s R) as R2.
  unfold stage3_entry in R2.
  destruct (setup _ aa x) as [[aa1 x1] retn].
  destruct (mlequ _ _ _ _ _) as [[i aa2] x2].
  destruct (i =? 1)%Z.
  - intro H; inversion H; subst. split; [exact R2|].
    destruct Hc as [Hc|Hc]; [congruence|].
    apply (stage3_entry_ok cutoff s R Hc).
  - pose proof (ready_apply_step
                  (after_changed (stage2 cutoff (after_changed (stage1 s)))) x2 retn R2)
      as R3.
    destruct (apply_step _ x2 retn) as [s3 retn']. simpl in R3.
    apply good_elcorr_tail. apply tmoles_good. apply good_elab. exact R3.
Qed.

End Current.



(** ** Mole numbers that stay nonnegative *)

Lemma nonneg_upd (l : list Q) (k : nat) (v : Q) :
  (forall j, j <> k -> 0 <= rdQ l j) -> ((k < length l)%nat -> 0 <= v) ->
  ((length l <= k)%nat -> 0 <= rdQ l k) ->
  forall j, 0 <= rdQ (upd k v l) j.
Proof.
  intros H Hv Ho j. unfold rdQ. rewrite nth_upd.
  destruct (Nat.eqb k j) eqn:E; simpl.
  - apply Nat.eqb_eq in E. subst j.
    destruct (k <? length l)%nat eqn:E'.
    + apply Hv. apply Nat.ltb_lt. exact E'.
    + apply Ho. apply Nat.ltb_ge. exact E'.
  - apply H. apply Nat.eqb_neq in E. auto.
Qed.

Lemma nonneg_set (l : list Q) (k : nat) (v : Q) :
  (forall j, 0 <= rdQ l j) -> 0 <= v -> forall j, 0 <= rdQ (upd k v l) j.
Proof. intros H Hv. apply nonneg_upd; auto. Qed.

(** Two writes to the same entry: only the second counts. *)
Lemma nonneg_set2 (l : list Q) (k : nat) (v' v : Q) :
  (forall j, 0 <= rdQ l j) -> 0 <= v ->
  forall j, 0 <= rdQ (upd k v (upd k v' l)) j.
Proof.
  intros H Hv. apply nonneg_upd.
  - intros j Hj. unfold rdQ. rewrite nth_upd_ne by auto. apply H.
  - intros _. exact Hv.
  - rewrite length_upd. intro Hk. unfold rdQ.
    rewrite nth_overflow by (rewrite length_upd; exact Hk). apply Qle_refl.
Qed.

Lemma zero_le_decimal_zero : 0 <= 0.0.
Proof. apply Qle_bool_iff. reflexivity. Qed.

Lemma decimal_zero_le (x : Q) : 0.0 <= x -> 0 <= x.
Proof. intro H. apply (Qle_trans _ 0.0); [apply zero_le_decimal_zero | exact H]. Qed.

Lemma nonneg_div (a b : Q) : 0 <= a -> 0 < b -> 0 <= a / b.
Proof.
  intros Ha Hb. apply Qle_shift_div_l; [exact Hb|].
  setoid_replace (0 * b) with 0 by ring. exact Ha.
Qed.

Lemma nonneg_floor (l : list Q) (k : nat) (v : Q) :
  (forall j, 0 <= rdQ l j) ->
  forall j, 0 <= rdQ (if Qltb (rdQ (upd k v l) k) 0.0
                      then upd k 0.0 (upd k v l) else upd k v l) j.
Proof.
  intros H. destruct (Qltb _ _) eqn:E.
  - apply nonneg_set2; [exact H | apply zero_le_decimal_zero].
  - apply Qltb_false in E. apply decimal_zero_le in E.
    intro j. destruct (Nat.eq_dec k j) as [<-|Hne]; [exact E|].
    unfold rdQ. rewrite nth_upd_ne by exact Hne. apply H.
Qed.

Lemma nonneg_set_soln (v : list Q) (s : VCS_SOLVE) :
  nonneg_problem s -> (forall j, 0 <= rdQ v j) -> nonneg_problem (set_soln v s).
Proof. intros (_ & H2 & H3) Hv. split; [exact Hv|]. split; assumption. Qed.

Lemma nonneg_set_soln2 (v v' : list Q) (s : VCS_SOLVE) :
  nonneg_problem s -> (forall j, 0 <= rdQ v j) ->
  nonneg_problem (set_soln v (set_soln v' s)).
Proof. intros (_ & H2 & H3) Hv. split; [exact Hv|]. split; assumption. Qed.

Lemma nonneg_vcs_elab (s : VCS_SOLVE) : nonneg_problem s -> nonneg_problem (vcs_elab s).
Proof. intro H. exact H. Qed.

Lemma nonneg_single_step (i : nat) (acc : VCS_SOLVE * bool) (k : nat) :
  nonneg_problem (fst acc) -> nonneg_problem (fst (single_step i acc k)).
Proof.
  destruct acc as [s c]. simpl. intro H. unfold single_step.
  destruct (voltage s k); [exact H|].
  destruct (Qgtb (FM s i k) 0) eqn:E; [|exact H].
  apply Qgtb_true in E. simpl. apply nonneg_set_soln; [exact H|].
  apply nonneg_set; [apply H|]. apply nonneg_div; [apply H | exact E].
Qed.

Lemma nonneg_MAX_zero (x : Q) : 0 <= MAX 0.0 x.
Proof.
  destruct (MAX_cases 0.0 x) as [[-> _]|[-> H]];
    [apply zero_le_decimal_zero | apply decimal_zero_le; exact H].
Qed.

Lemma nonneg_diff_step (i c : nat) (acc : Q * VCS_SOLVE * bool) (k : nat) :
  nonneg_problem (mid acc) -> nonneg_problem (mid (diff_step i c acc k)).
Proof.
  destruct acc as [[d s] ch]. unfold mid. simpl. intro H.
  apply nonneg_set_soln; [exact H|].
  apply nonneg_set; [apply H | apply nonneg_MAX_zero].
Qed.

Lemma nonneg_stage1_row (acc : VCS_SOLVE * bool) (i : nat) :
  nonneg_problem (fst acc) -> nonneg_problem (fst (stage1_row acc i)).
Proof.
  destruct acc as [s c]. simpl. intro H. unfold stage1_row.
  destruct (sign_scan s i) as [ms nz]. destruct ms; [exact H|].
  destruct (nz <? 2)%nat.
  - apply (fold_left_inv (fun a => nonneg_problem (fst a))); [|exact H].
    intros a x _. apply nonneg_single_step.
  - destruct (comp_scan s i) as [n cid]. destruct (n =? 1)%nat; [|exact H].
    pose proof (fold_left_inv (fun a => nonneg_problem (mid a))
                  (diff_step i (Z.to_nat cid))
                  (seq (m_numComponents s) (m_numSpeciesTot s - m_numComponents s))
                  (fun a x _ => nonneg_diff_step i (Z.to_nat cid) a x)
                  (rdQ (gai s) i, s, c) H) as H'.
    destruct (fold_left _ _ _) as [[d s'] c']. exact H'.
Qed.

Lemma nonneg_stage1 (s : VCS_SOLVE) :
  nonneg_problem s -> nonneg_problem (fst (stage1 s)).
Proof.
  intro H. unfold stage1.
  apply (fold_left_inv (fun a => nonneg_problem (fst a))); [|exact H].
  intros a x _. apply nonneg_stage1_row.
Qed.

Lemma nonneg_after_changed (r : VCS_SOLVE * bool) :
  nonneg_problem (fst r) -> nonneg_problem (after_changed r).
Proof. unfold after_changed. destruct (snd r); auto. Qed.

Lemma nonneg_bound_step (cutoff : Q) (i : nat) (acc : VCS_SOLVE * bool) (k : nat) :
  nonneg_problem (fst acc) -> nonneg_problem (fst (bound_step cutoff i acc k)).
Proof.
  destruct acc as [s c]. simpl. intro H. unfold bound_step.
  destruct (voltage s k); [exact H|].
  destruct (Qgtb (FM s i k) 0) eqn:E; [|exact H].
  apply Qgtb_true in E.
  destruct (Qgtb _ _); [|exact H].
  destruct (Qltb _ _); simpl.
  - split; [|split; apply H]. simpl.
    apply nonneg_set2; [apply H | apply zero_le_decimal_zero].
  - apply nonneg_set_soln; [exact H|].
    apply nonneg_set; [apply H|]. apply nonneg_div; [apply H | exact E].
Qed.

Lemma nonneg_stage2 (cutoff : Q) (s : VCS_SOLVE) :
  nonneg_problem s -> nonneg_problem (fst (stage2 cutoff s)).
Proof.
  intro H. unfold stage2.
  apply (fold_left_inv (fun a => nonneg_problem (fst a))); [|exact H].
  intros [t c] i _ Ht. unfold stage2_row.
  destruct (elem_type_eqb _ _); [|exact Ht].
  apply (fold_left_inv (fun a => nonneg_problem (fst a))); [|exact Ht].
  intros a x _. apply nonneg_bound_step.
Qed.

Lemma nonneg_step_comp (dx : nat -> Q) (s : VCS_SOLVE) (i : nat) :
  nonneg_problem s -> nonneg_problem (step_comp dx s i).
Proof.
  intro H. unfold step_comp.
  destruct (Qgtb _ _) eqn:E.
  - apply Qgtb_true in E. apply nonneg_set_soln; [exact H|].
    apply nonneg_set; [apply H|].
    apply decimal_zero_le. apply Qlt_le_weak. exact E.
  - destruct (nth i (SSPhase s) false); apply nonneg_set_soln; try exact H;
      (apply nonneg_set; [apply H|]).
    + apply zero_le_decimal_zero.
    + apply Qmult_le_0_compat; [apply H|]. apply Qle_bool_iff. reflexivity.
Qed.

Lemma nonneg_apply_step (s : VCS_SOLVE) (x : buf) (retn : Z) :
  nonneg_problem s -> nonneg_problem (fst (apply_step s x retn)).
Proof.
  intro H. unfold apply_step. destruct (_ && _); simpl;
    apply (fold_left_inv nonneg_problem); auto; intros;
    apply nonneg_step_comp; assumption.
Qed.

Lemma nonneg_sub_floor (k : nat) (d : Q) (s : VCS_SOLVE) :
  nonneg_problem s -> nonneg_problem (sub_floor k d s).
Proof.
  intro H. unfold sub_floor. cbv zeta.
  pose proof (nonneg_floor (soln s) k (rdQ (soln s) k - d) (proj1 H)) as F.
  change (soln (set_soln (upd k (rdQ (soln s) k - d) (soln s)) s))
    with (upd k (rdQ (soln s) k - d) (soln s)).
  destruct (Qltb _ _);
    [apply nonneg_set_soln2 | apply nonneg_set_soln]; assumption.
Qed.

Lemma nonneg_add_floor (k : nat) (d : Q) (s : VCS_SOLVE) :
  nonneg_problem s -> nonneg_problem (add_floor k d s).
Proof.
  intro H. unfold add_floor. cbv zeta.
  pose proof (nonneg_floor (soln s) k (rdQ (soln s) k + d) (proj1 H)) as F.
  change (soln (set_soln (upd k (rdQ (soln s) k + d) (soln s)) s))
    with (upd k (rdQ (soln s) k + d) (soln s)).
  destruct (Qltb _ _);
    [apply nonneg_set_soln2 | apply nonneg_set_soln]; assumption.
Qed.

Lemma nonneg_neutral_inner (i : nat) (ks : list nat) (s : VCS_SOLVE) :
  nonneg_problem s -> nonneg_problem (neutral_inner s i ks).
Proof.
  intro H. induction ks as [|k ks IH]; simpl; [exact H|].
  destruct (_ && _); [apply nonneg_vcs_elab, nonneg_sub_floor, H|].
  destruct (_ && _); [apply nonneg_vcs_elab, nonneg_sub_floor, H|].
  exact IH.
Qed.

Lemma nonneg_stage5 (s : VCS_SOLVE) :
  nonneg_problem s -> nonneg_problem (stage5 s).
Proof.
  intro H. unfold stage5. apply (fold_left_inv nonneg_problem); [|exact H].
  intros t i _ Ht. unfold neutral_row.
  destruct (_ || _); [apply nonneg_neutral_inner; exact Ht | exact Ht].
Qed.

Lemma nonneg_electron_inner (i : nat) (dev : Q) (uz : bool) (ks : list nat)
    (s : VCS_SOLVE) :
  nonneg_problem s -> nonneg_problem (electron_inner s i dev uz ks).
Proof.
  intro H. induction ks as [|k ks IH]; simpl; [exact H|].
  destruct (_ || _); [|exact IH].
  destruct (_ && _); [apply nonneg_vcs_elab, nonneg_add_floor, H|].
  destruct (_ && _); [apply nonneg_vcs_elab, nonneg_add_floor, H|].
  exact IH.
Qed.

Lemma nonneg_stage6 (s : VCS_SOLVE) :
  nonneg_problem s -> nonneg_problem (stage6 s).
Proof.
  intro H. unfold stage6. apply (fold_left_inv nonneg_problem); [|exact H].
  intros t i _ Ht. unfold electron_row.
  destruct (_ && _); [apply nonneg_electron_inner; exact Ht | exact Ht].
Qed.

Lemma nonneg_MAX_floor (x : Q) : 0 <= MAX x 1.0E-10.
Proof.
  assert (H : 0 <= 1.0E-10) by (apply Qle_bool_iff; reflexivity).
  destruct (MAX_cases x 1.0E-10) as [[-> H']|[-> _]];
    [apply (Qle_trans _ _ _ H H') | exact H].
Qed.

Section Nonnegative.
Variable cutoff : Q.
Variable failed : Z.
Variable mlequ : buf -> nat -> nat -> buf -> nat -> Z * buf * buf.
Variable tmoles : VCS_SOLVE -> VCS_SOLVE.
Variable reinsert : nat -> VCS_SOLVE -> VCS_SOLVE.
Hypothesis tmoles_nonneg : forall s, nonneg_problem s -> nonneg_problem (tmoles s).

(** With every species inside the reduced problem the reinsertion branch
    of stage 4 is never taken. *)
Lemma nonneg_adhoc_loop (ks : list nat) (s : VCS_SOLVE) :
  nonneg_problem s ->
  (forall k, In k ks -> (k < m_numSpeciesTot s)%nat) ->
  nonneg_problem (fst (adhoc_loop reinsert s ks)) /\
  snd (adhoc_loop reinsert s ks) = false.
Proof.
  revert s; induction ks as [|k ks IH]; intros s H Hks; simpl; [auto|].
  assert (Hks' : forall k', In k' ks -> (k' < m_numSpeciesTot s)%nat)
    by (intros k' Hk'; apply Hks; right; exact Hk').
  destruct (voltage s k); [apply IH; assumption|].
  destruct (goodSpec_loop _ _ _ _); [|apply IH; assumption].
  cbn [m_numSpeciesRdc set_soln].
  replace (Nat.leb (m_numSpeciesRdc s) k) with false.
  - apply IH; [|exact Hks'].
    apply nonneg_vcs_elab. apply nonneg_set_soln2; [exact H|].
    apply nonneg_set2; [apply H | apply nonneg_MAX_floor].
  - symmetry. apply Nat.leb_gt.
    assert (k < m_numSpeciesTot s)%nat by (apply Hks; left; reflexivity).
    destruct H as (_ & _ & H). lia.
Qed.

Lemma nonneg_elcorr_tail (retn r : Z) (s s' : VCS_SOLVE) :
  nonneg_problem s ->
  elcorr_tail cutoff tmoles reinsert retn s = Ok r s' ->
  nonneg_problem s'.
Proof.
  intro G. unfold elcorr_tail, cleanup, bind.
  assert (Hj : nonneg_problem
                 (fst (if (2 <=? retn)%Z
                       then adhoc_loop reinsert s (seq 0 (m_numSpeciesTot s))
                       else (s, false)))).
  { destruct (2 <=? retn)%Z; [|exact G].
    apply nonneg_adhoc_loop; [exact G|].
    intros k Hk. apply in_seq in Hk. lia. }
  destruct (if (2 <=? retn)%Z then _ else _) as [s4 jumped]. simpl in Hj.
  destruct jumped.
  { intro H; inversion H; subst. apply tmoles_nonneg. exact Hj. }
  destruct (vcs_elabcheck cutoff false s4) as [b1 s4'| |] eqn:E1; try discriminate.
  apply elabcheck_state in E1. subst s4'.
  destruct b1.
  { intro H; inversion H; subst. apply tmoles_nonneg. exact Hj. }
  destruct (vcs_elabcheck cutoff true (stage5 s4)) as [b2 s5| |] eqn:E2;
    try discriminate.
  apply elabcheck_state in E2. subst s5.
  destruct b2.
  { intro H; inversion H; subst. apply tmoles_nonneg, nonneg_stage5. exact Hj. }
  destruct (vcs_elabcheck cutoff true (stage6 (stage5 s4))) as [b3 s6| |] eqn:E3;
    try discriminate.
  apply elabcheck_state in E3. subst s6.
  destruct b3; intro H; inversion H; subst;
    apply tmoles_nonneg, nonneg_stage6, nonneg_stage5; exact Hj.
Qed.

Lemma nonneg_elcorr (aa x : buf) (r : Z) (s s' : VCS_SOLVE) :
  nonneg_problem s ->
  vcs_elcorr cutoff failed mlequ tmoles reinsert aa x s = Ok r s' ->
  nonneg_problem s'.
Proof.
  intros G. unfold vcs_elcorr.
  assert (G2 : nonneg_problem
                 (after_changed (stage2 cutoff (after_changed (stage1 s))))).
  { apply nonneg_after_changed, nonneg_stage2, nonneg_after_changed,
      nonneg_stage1, G. }
  destruct (setup _ aa x) as [[aa1 x1] retn].
  destruct (mlequ _ _ _ _ _) as [[i aa2] x2].
  destruct (i =? 1)%Z.
  - intro H; inversion H; subst. exact G2.
  - pose proof (nonneg_apply_step
                  (after_changed (stage2 cutoff (after_changed (stage1 s)))) x2 retn G2)
      as G3.
    destruct (apply_step _ x2 retn) as [s3 retn']. simpl in G3.
    apply nonneg_elcorr_tail. apply tmoles_nonneg. apply nonneg_vcs_elab. exact G3.
Qed.

End Nonnegative.

(** X15: when no mole number and no target is negative on entry and no
    species is outside the reduced problem ([m_numSpeciesTot] does not
    exceed [m_numSpeciesRdc], so that stage 4 never reinserts a species),
    and [vcs_tmoles] keeps this, then [vcs_elcorr] returns no negative mole
    number, whatever the solve of stage 3 delivers. *)
Theorem elcorr_keeps_nonnegative
    (cutoff : Q) (failed : Z)
    (mlequ : buf -> nat -> nat -> buf -> nat -> Z * buf * buf)
    (tmoles : VCS_SOLVE -> VCS_SOLVE)
    (reinsert : nat -> VCS_SOLVE -> VCS_SOLVE)
    (aa x : buf) (r : Z) (s s' : VCS_SOLVE) :
  (forall s, nonneg_problem s -> nonneg_problem (tmoles s)) ->
  nonneg_problem s ->
  vcs_elcorr cutoff failed mlequ tmoles reinsert aa x s = Ok r s' ->
  forall k, 0 <= rdQ (soln s') k.
Proof.
  intros Ht G H.
  apply (nonneg_elcorr cutoff failed mlequ tmoles reinsert Ht aa x r s s' G H).
Qed.

Lemma elcorr_keeps_nonnegative_witness :
  match run_elcorr overshoot with
  | Ok r s' => 0 <= rdQ (soln s') 0 /\ 0 <= rdQ (soln s') 1
  | _ => False
  end.
Proof.
  destruct (run_elcorr overshoot) as [r s'| |] eqn:E;
    [|vm_compute in E; discriminate E|vm_compute in E; discriminate E].
  assert (H : forall k, 0 <= rdQ (soln s') k).
  { apply (elcorr_keeps_nonnegative cutoff_value failed_value mlequ_model
             tmoles_model reinsert_model (fun _ => 0) (fun _ => 0) r overshoot s').
    - intros s H. exact H.
    - split; [|split].
      + intro k. destruct k as [|[|k]];
          [apply Qle_bool_iff; reflexivity | apply Qle_bool_iff; reflexivity |].
        unfold rdQ. simpl. destruct k; apply Qle_refl.
      + intro i. destruct i as [|i]; [apply Qle_bool_iff; reflexivity|].
        unfold rdQ. simpl. destruct i; apply Qle_refl.
      + simpl. lia.
    - exact E. }
  split; apply H.
Defined.

(** ** The bounds that stage 2 of vcs_elcorr enforces *)

Lemma same_frame_facts (s t : VCS_SOLVE) :
  same_frame s t ->
  (forall i k, FM t i k = FM s i k) /\
  (forall i, rdQ (gai t) i = rdQ (gai s) i) /\
  (forall i, elType t i = elType s i) /\
  (forall k, voltage t k = voltage s k) /\
  m_numSpeciesTot t = m_numSpeciesTot s /\
  m_numElemConstraints t = m_numElemConstraints s.
Proof.
  unfold same_frame, cdata, entry_shape. intros [H1 H2].
  injection H1 as E1 E2 E3 E4 E5. injection H2 as F1 F2 F3 F4 F5 F6.
  unfold FM, elType, voltage. rewrite E1, E2, E3, F5, F3, F1.
  repeat split; reflexivity.
Qed.

Lemma same_frame_refl (s : VCS_SOLVE) : same_frame s s.
Proof. split; reflexivity. Qed.

Lemma same_frame_bound_step (cutoff : Q) (s : VCS_SOLVE) (i : nat)
    (acc : VCS_SOLVE * bool) (k : nat) :
  same_frame s (fst acc) -> same_frame s (fst (bound_step cutoff i acc k)).
Proof.
  intros [H1 H2]. split.
  - rewrite cdata_bound_step. exact H1.
  - rewrite shape_bound_step. exact H2.
Qed.

Lemma rdQ_upd_any (l : list Q) (k j : nat) (v : Q) :
  rdQ (upd k v l) j =
  if Nat.eqb k j && (j <? length l)%nat then v else rdQ l j.
Proof. unfold rdQ. apply nth_upd. Qed.

(** One pass of the innermost statement of stage 2 on species [k]. *)
Lemma bound_step_soln (cutoff : Q) (i : nat) (t : VCS_SOLVE) (c : bool) (k : nat) :
  0 <= rdQ (gai t) i ->
  let t' := fst (bound_step cutoff i (t, c) k) in
  (forall j, rdQ (soln t') j <= rdQ (soln t) j) /\
  within_bound t (soln t') i k.
Proof.
  intros Hg. cbv zeta. unfold bound_step, within_bound.
  destruct (voltage t k) eqn:Ev.
  { simpl. split; [intro j; apply Qle_refl | discriminate]. }
  destruct (Qgtb (FM t i k) 0) eqn:Ea.
  2:{ apply Qgtb_false in Ea. simpl. split; [intro j; apply Qle_refl|].
      intros _ Hpos. exfalso. apply (Qlt_not_le _ _ Hpos Ea). }
  apply Qgtb_true in Ea.
  pose proof (nonneg_div _ _ Hg Ea) as Hmax.
  destruct (Qgtb (rdQ (soln t) k) (rdQ (gai t) i / FM t i k)) eqn:Eb.
  2:{ apply Qgtb_false in Eb. simpl. split; [intro j; apply Qle_refl|].
      intros _ _. exact Eb. }
  apply Qgtb_true in Eb.
  assert (Hk : (k < length (soln t))%nat).
  { destruct (Nat.lt_ge_cases k (length (soln t))) as [H|H]; [exact H|].
    exfalso. assert (Hz : rdQ (soln t) k = 0) by (apply nth_overflow; exact H).
    rewrite Hz in Eb. apply (Qlt_not_le _ _ Eb Hmax). }
  assert (Hk' : (k <? length (soln t))%nat = true) by (apply Nat.ltb_lt; exact Hk).
  destruct (Qltb _ cutoff); simpl.
  - split.
    + intro j. rewrite !rdQ_upd_any, !length_upd.
      destruct (Nat.eqb k j && (j <? length (soln t))%nat) eqn:E;
        [|apply Qle_refl].
      apply andb_true_iff in E. destruct E as [E _].
      apply Nat.eqb_eq in E. subst j.
      apply (Qle_trans _ (rdQ (gai t) i / FM t i k)).
      * apply (Qle_trans _ 0); [apply Qle_bool_iff; reflexivity | exact Hmax].
      * apply Qlt_le_weak. exact Eb.
    + intros _ _. rewrite rdQ_upd_any, length_upd, Nat.eqb_refl, Hk'. simpl.
      apply (Qle_trans _ 0); [apply Qle_bool_iff; reflexivity | exact Hmax].
  - split.
    + intro j. rewrite rdQ_upd_any.
      destruct (Nat.eqb k j && (j <? length (soln t))%nat) eqn:E;
        [|apply Qle_refl].
      apply andb_true_iff in E. destruct E as [E _].
      apply Nat.eqb_eq in E. subst j. apply Qlt_le_weak. exact Eb.
    + intros _ _. rewrite rdQ_upd_any, Nat.eqb_refl, Hk'. simpl. apply Qle_refl.
Qed.

Lemma within_bound_lower (s : VCS_SOLVE) (v v' : list Q) (i k : nat) :
  rdQ v' k <= rdQ v k -> within_bound s v i k -> within_bound s v' i k.
Proof.
  unfold within_bound. intros H B Hv Hp.
  apply (Qle_trans _ _ _ H). apply B; assumption.
Qed.

Lemma within_bound_frame (s t : VCS_SOLVE) (v : list Q) (i k : nat) :
  same_frame s t -> within_bound t v i k -> within_bound s v i k.
Proof.
  intros F B. destruct (same_frame_facts s t F) as (F1 & F2 & _ & F4 & _).
  unfold within_bound in *. rewrite <- F1, <- F2, <- F4. exact B.
Qed.

Lemma bound_row (cutoff : Q) (s : VCS_SOLVE) (i : nat) (l : list nat) :
  0 <= rdQ (gai s) i ->
  forall acc, same_frame s (fst acc) ->
  let acc' := fold_left (bound_step cutoff i) l acc in
  same_frame s (fst acc') /\
  (forall j, rdQ (soln (fst acc')) j <= rdQ (soln (fst acc)) j) /\
  (forall k, In k l -> within_bound s (soln (fst acc')) i k).
Proof.
  intro Hg. induction l as [|k l IH]; intros acc F; simpl.
  - split; [exact F|]. split; [intro j; apply Qle_refl | intros k []].
  - destruct acc as [t c].
    destruct (same_frame_facts s t F) as (_ & F2 & _).
    assert (Hg' : 0 <= rdQ (gai t) i) by (rewrite F2; exact Hg).
    destruct (bound_step_soln cutoff i t c k Hg') as [M B].
    pose proof (same_frame_bound_step cutoff s i (t, c) k F) as F'.
    destruct (IH (bound_step cutoff i (t, c) k) F') as (G1 & G2 & G3).
    split; [exact G1|]. split.
    + intro j. apply (Qle_trans _ _ _ (G2 j)). apply M.
    + intros k' [<-|Hk']; [|apply G3; exact Hk'].
      apply (within_bound_lower s _ _ i k (G2 k)).
      apply (within_bound_frame s t _ i k F). exact B.
Qed.

Lemma bound_rows (cutoff : Q) (s : VCS_SOLVE) (l : list nat) :
  (forall i, elType s i = VCS_ELEM_TYPE_ABSPOS -> 0 <= rdQ (gai s) i) ->
  forall (done : nat -> Prop) acc,
  same_frame s (fst acc) ->
  (forall i k, done i -> (k < m_numSpeciesTot s)%nat ->
               elType s i = VCS_ELEM_TYPE_ABSPOS ->
               within_bound s (soln (fst acc)) i k) ->
  let acc' := fold_left (stage2_row cutoff) l acc in
  same_frame s (fst acc') /\
  (forall j, rdQ (soln (fst acc')) j <= rdQ (soln (fst acc)) j) /\
  (forall i k, done i \/ In i l -> (k < m_numSpeciesTot s)%nat ->
               elType s i = VCS_ELEM_TYPE_ABSPOS ->
               within_bound s (soln (fst acc')) i k).
Proof.
  intro Hg. induction l as [|i l IH]; intros done acc F B; simpl.
  - split; [exact F|]. split; [intro j; apply Qle_refl|].
    intros i k [H|[]]. apply B. exact H.
  - destruct acc as [t c].
    destruct (same_frame_facts s t F) as (_ & _ & F3 & _ & F5 & _).
    assert (R : same_frame s (fst (stage2_row cutoff (t, c) i)) /\
                (forall j, rdQ (soln (fst (stage2_row cutoff (t, c) i))) j
                           <= rdQ (soln t) j) /\
                (elType s i = VCS_ELEM_TYPE_ABSPOS ->
                 forall k, (k < m_numSpeciesTot s)%nat ->
                   within_bound s (soln (fst (stage2_row cutoff (t, c) i))) i k)).
    { unfold stage2_row.
      destruct (elem_type_eqb (elType t i) VCS_ELEM_TYPE_ABSPOS) eqn:E.
      - apply elem_type_eqb_eq in E. rewrite F3 in E.
        destruct (bound_row cutoff s i (seq 0 (m_numSpeciesTot t)) (Hg i E) (t, c) F)
          as (G1 & G2 & G3).
        split; [exact G1|]. split; [exact G2|].
        intros _ k Hk. apply G3. apply in_seq. rewrite F5. lia.
      - split; [exact F|]. split; [intro j; apply Qle_refl|].
        intro Habs. exfalso. rewrite <- F3 in Habs.
        apply elem_type_eqb_eq in Habs. congruence. }
    destruct R as (R1 & R2 & R3).
    destruct (IH (fun i' => done i' \/ i' = i) (stage2_row cutoff (t, c) i) R1)
      as (G1 & G2 & G3).
    + intros i' k [Hd | ->] Hk Habs.
      * apply (within_bound_lower s _ _ i' k (R2 k)). apply B; assumption.
      * apply R3; assumption.
    + split; [exact G1|]. split.
      * intro j. apply (Qle_trans _ _ _ (G2 j)). apply R2.
      * intros i' k [Hd|[<-|Hin]] Hk Habs; apply G3; auto.
Qed.



(** ** Comparisons with the literal 0.0 *)

Lemma pos_decimal (x : Q) : 0.0 < x <-> 0 < x.
Proof.
  assert (E : 0.0 == 0) by reflexivity. rewrite E. reflexivity.
Qed.

Lemma neg_decimal (x : Q) : x < 0.0 <-> x < 0.
Proof.
  assert (E : 0.0 == 0) by reflexivity. rewrite E. reflexivity.
Qed.

(** ** The key that marks chosen constraints *)

Lemma inject_succ (n : nat) :
  inject_Z (Z.of_nat (S n)) == inject_Z (Z.of_nat n) + 1.
Proof.
  rewrite Nat2Z.inj_succ. unfold Z.succ. rewrite inject_Z_plus. reflexivity.
Qed.

Lemma sentinel_fold_spec (s : VCS_SOLVE) (n : nat) :
  forall (i0 : nat) (t : Q) (a : buf) (ld : bool),
  let r := fold_left (sentinel_step s) (seq i0 n) (t, a, ld) in
  fst (fst r) == t - inject_Z (Z.of_nat n) /\
  (forall i, snd (fst r) i =
             if (i0 <=? i)%nat && (i <? i0 + n)%nat then rdQ (gai s) i else a i) /\
  (snd r = true <->
   ld = true \/
   exists j, (j < n)%nat /\
             rdQ (gai s) (i0 + j) == t - inject_Z (Z.of_nat (S j))).
Proof.
  induction n as [|n IH]; intros i0 t a ld; cbv zeta.
  - simpl. split; [unfold inject_Z; ring|]. split.
    + intro i.
      replace ((i0 <=? i)%nat && (i <? i0 + 0)%nat) with false; [reflexivity|].
      symmetry. apply andb_false_iff.
      destruct (Nat.le_gt_cases i0 i);
        [right; apply Nat.ltb_ge; lia | left; apply Nat.leb_gt; lia].
    + split; [auto|]. intros [H|(j & Hj & _)]; [exact H | lia].
  - cbn [seq fold_left].
    assert (Es : sentinel_step s (t, a, ld) i0 =
                 (t - 1.0, bset a i0 (rdQ (gai s) i0),
                  if Qeq_bool (t - 1.0) (rdQ (gai s) i0) then true else ld)).
    { unfold sentinel_step. rewrite bset_eq. reflexivity. }
    rewrite Es.
    destruct (IH (S i0) (t - 1.0) (bset a i0 (rdQ (gai s) i0))
                 (if Qeq_bool (t - 1.0) (rdQ (gai s) i0) then true else ld))
      as (H1 & H2 & H3).
    assert (E1 : 1.0 == 1) by reflexivity.
    split; [|split].
    + rewrite H1, inject_succ, E1. ring.
    + intro i. rewrite H2. unfold bset.
      destruct (Nat.eqb i i0) eqn:E0;
      destruct (S i0 <=? i)%nat eqn:Ea, (i0 <=? i)%nat eqn:Eb,
               (i <? S i0 + n)%nat eqn:Ec, (i <? i0 + S n)%nat eqn:Ed;
        simpl; auto;
        repeat match goal with
        | H : Nat.eqb _ _ = true |- _ => apply Nat.eqb_eq in H
        | H : Nat.eqb _ _ = false |- _ => apply Nat.eqb_neq in H
        | H : (_ <=? _)%nat = true |- _ => apply Nat.leb_le in H
        | H : (_ <=? _)%nat = false |- _ => apply Nat.leb_gt in H
        | H : (_ <? _)%nat = true |- _ => apply Nat.ltb_lt in H
        | H : (_ <? _)%nat = false |- _ => apply Nat.ltb_ge in H
        end; try lia.
      subst i. reflexivity.
    + rewrite H3. split.
      * intros [H|(j & Hj & H)].
        -- destruct (Qeq_bool (t - 1.0) (rdQ (gai s) i0)) eqn:Eq; [|left; exact H].
           right. exists 0%nat. split; [lia|].
           apply Qeq_bool_iff in Eq. rewrite Nat.add_0_r, <- Eq, E1.
           unfold inject_Z. simpl. ring.
        -- right. exists (S j). split; [lia|].
           replace (i0 + S j)%nat with (S i0 + j)%nat by lia.
           rewrite H, (inject_succ (S j)), E1. ring.
      * intros [H|(j & Hj & H)].
        -- left. rewrite H. destruct (Qeq_bool _ _); reflexivity.
        -- destruct j as [|j].
           ++ left. replace (Qeq_bool (t - 1.0) (rdQ (gai s) i0)) with true;
                [reflexivity|].
              symmetry. apply Qeq_bool_iff. rewrite Nat.add_0_r in H.
              rewrite H, E1. unfold inject_Z. simpl. ring.
           ++ right. exists j. split; [lia|].
              replace (S i0 + j)%nat with (i0 + S j)%nat by lia.
              rewrite H, (inject_succ (S j)), E1. ring.
Qed.

Lemma sentinel_loop_spec (s : VCS_SOLVE) (fuel : nat) :
  forall (t : Q) (a : buf) (test : Q) (a' : buf),
  sentinel_loop fuel s t a = Some (test, a') ->
  (forall i, a' i = if (i <? m_numElemConstraints s)%nat
                    then rdQ (gai s) i else a i) /\
  (forall i, (i < m_numElemConstraints s)%nat ->
     ~ rdQ (gai s) i ==
       test + inject_Z (Z.of_nat (m_numElemConstraints s - 1 - i))).
Proof.
  induction fuel as [|fuel IH]; intros t a test a'; simpl; [discriminate|].
  unfold sentinel_pass.
  destruct (sentinel_fold_spec s (m_numElemConstraints s) 0 t a false)
    as (H1 & H2 & H3).
  destruct (fold_left (sentinel_step s) (seq 0 (m_numElemConstraints s)) (t, a, false))
    as [[t1 a1] ld]. cbn [fst snd Nat.leb andb Nat.add] in H1, H2, H3.
  destruct ld.
  - intro H. destruct (IH _ _ _ _ H) as [G1 G2]. split; [|exact G2].
    intro i. rewrite G1, H2. destruct (i <? m_numElemConstraints s)%nat; reflexivity.
  - intro H. injection H as <- <-. split; [exact H2|].
    intros i Hi E. assert (Hf : false = true); [|discriminate Hf].
    apply H3. right. exists i. split; [exact Hi|].
    assert (Hz : inject_Z (Z.of_nat (m_numElemConstraints s)) ==
                 inject_Z (Z.of_nat (S i)) +
                 inject_Z (Z.of_nat (m_numElemConstraints s - 1 - i))).
    { rewrite <- inject_Z_plus.
      replace (Z.of_nat (S i) + Z.of_nat (m_numElemConstraints s - 1 - i))%Z
        with (Z.of_nat (m_numElemConstraints s)) by lia.
      reflexivity. }
    change (0 + i)%nat with i. apply (Qeq_trans _ _ _ E).
    rewrite H1, Hz.
    generalize (inject_Z (Z.of_nat (S i))),
               (inject_Z (Z.of_nat (m_numElemConstraints s - 1 - i))).
    intros u v. ring.
Qed.

(** X21: the key with which [vcs_elem_rearrange] marks chosen constraints.
    The first loop copies the targets into [aw] and lowers [test] by one
    per constraint, comparing each value with the target at its own
    position only.  So on leaving the loop target [i] differs from the
    value [test] had at position [i], which is [test + (ne - 1 - i)], and
    only the last target is known to differ from [test] itself.  When the
    first pass meets no equal value, the loop ends after it with
    [test = -1e10 - ne], and a constraint whose target has this value is
    taken for chosen from the start: the search never returns it. *)
Theorem sentinel_key (fuel : nat) (s : VCS_SOLVE) (a : buf) :
  (forall test a',
     sentinel_loop fuel s (-1.0E10) a = Some (test, a') ->
     (forall i, a' i = if (i <? m_numElemConstraints s)%nat
                       then rdQ (gai s) i else a i) /\
     (forall i, (i < m_numElemConstraints s)%nat ->
        ~ rdQ (gai s) i ==
          test + inject_Z (Z.of_nat (m_numElemConstraints s - 1 - i)))) /\
  ((forall i, (i < m_numElemConstraints s)%nat ->
      ~ rdQ (gai s) i == -1.0E10 - inject_Z (Z.of_nat (S i))) ->
   exists test a',
     sentinel_loop (S fuel) s (-1.0E10) a = Some (test, a') /\
     test == -1.0E10 - inject_Z (Z.of_nat (m_numElemConstraints s)) /\
     forall j, (j < m_numElemConstraints s)%nat ->
       rdQ (gai s) j == -1.0E10 - inject_Z (Z.of_nat (m_numElemConstraints s)) ->
       forall jr n, find_k s a' test (seq jr n) <> j).
Proof.
  split; [intros test a'; apply sentinel_loop_spec|].
  intro Hno. simpl. unfold sentinel_pass.
  destruct (sentinel_fold_spec s (m_numElemConstraints s) 0 (-1.0E10) a false)
    as (H1 & H2 & H3).
  destruct (fold_left (sentinel_step s) (seq 0 (m_numElemConstraints s))
              (-1.0E10, a, false)) as [[t1 a1] ld].
  cbn [fst snd Nat.leb andb Nat.add] in H1, H2, H3.
  destruct ld.
  - exfalso. destruct (proj1 H3 eq_refl) as [H|(j & Hj & H)]; [discriminate|].
    apply (Hno j Hj). exact H.
  - exists t1, a1. split; [reflexivity|]. split; [exact H1|].
    intros j Hj Hg jr n Hk.
    destruct (find_k_range s a1 t1 jr n) as [E|(_ & _ & Hne)].
    + rewrite Hk in E. lia.
    + rewrite Hk in Hne. apply Hne. rewrite H2.
      replace (j <? m_numElemConstraints s)%nat with true
        by (symmetry; apply Nat.ltb_lt; exact Hj).
      rewrite Hg, H1. reflexivity.
Qed.

(** Every accepted constraint uses up one entry of [aw] that is not the
    key. *)
Lemma rearrange_loop_needs_marks (success : Z) (fuel : nat) :
  forall (test : Q) (jr : nat) (w : work) (s : VCS_SOLVE) (r : Z) (s' : VCS_SOLVE),
  rearrange_loop success fuel test jr w s = Some (Ok r s') ->
  (Nat.max 1 (m_numComponents s) - jr
   <= marks_left (m_numElemConstraints s) (aw w) test)%nat.
Proof.
  induction fuel as [|fuel IH]; intros test jr w s r s'; [discriminate|].
  rewrite rearrange_loop_S. cbv zeta.
  pose proof (find_k_range s (aw w) test jr (m_numElemConstraints s - jr)) as Hk.
  cbv zeta in Hk.
  set (k := find_k s (aw w) test (seq jr (m_numElemConstraints s - jr))) in *.
  destruct (Nat.eqb k (m_numElemConstraints s)) eqn:Ek; [discriminate|].
  apply Nat.eqb_neq in Ek.
  destruct Hk as [Hk|(Hk & _ & Hne)]; [contradiction|].
  assert (Hm : marks_left (m_numElemConstraints s) (aw w) test =
               S (marks_left (m_numElemConstraints s)
                             (aw (trial s k jr test w)) test)).
  { rewrite trial_aw. apply marks_left_bset; [lia | exact Hne]. }
  destruct (Qltb _ _).
  { intro H. apply IH in H. lia. }
  destruct (Nat.ltb (S jr) (m_numComponents s)) eqn:Ec.
  - intro H. apply IH in H. revert H.
    destruct (Nat.eqb jr k) eqn:E; [lia|].
    apply Nat.eqb_neq in E.
    destruct (switch_counts jr k s) as (-> & -> & _).
    cbn [aw]. rewrite marks_left_bsw; try lia.
    rewrite trial_aw, bset_eq. reflexivity.
  - intros _. apply Nat.ltb_ge in Ec. lia.
Qed.

(** X22: a target equal to the key makes [vcs_elem_rearrange] give up.
    When every constraint is needed ([m_numComponents] is not below
    [m_numElemConstraints]), the first pass of the key loop meets no equal
    value, and some target equals the key [-1e10 - ne] that the loop then
    settles on, the routine leaves through [exit(-1)], whatever the rows
    are. *)
Theorem rearrange_gives_up_on_key_target
    (success : Z) (fuel : nat) (w : work) (s : VCS_SOLVE) :
  wf_elem s ->
  (m_numComponents s <= m_numSpeciesTot s)%nat ->
  (m_numElemConstraints s <= m_numComponents s)%nat ->
  (m_numElemConstraints s < fuel)%nat ->
  (forall i, (i < m_numElemConstraints s)%nat ->
     ~ rdQ (gai s) i == -1.0E10 - inject_Z (Z.of_nat (S i))) ->
  (exists j, (j < m_numElemConstraints s)%nat /\
     rdQ (gai s) j == -1.0E10 - inject_Z (Z.of_nat (m_numElemConstraints s))) ->
  vcs_elem_rearrange success fuel w s = Some (Exit (-1)%Z).
Proof.
  intros W Hcs Hec Hf Hno (j & Hj & Hg).
  destruct (rearrange_outcome success fuel w s W Hcs Hf)
    as [H|(s' & H & _)]; [exact H|].
  exfalso. revert H. unfold vcs_elem_rearrange.
  destruct fuel as [|fuel]; [lia|].
  destruct (sentinel_fold_spec s (m_numElemConstraints s) 0 (-1.0E10) (aw w) false)
    as (H1 & H2 & H3).
  cbn [sentinel_loop]. unfold sentinel_pass.
  destruct (fold_left (sentinel_step s) (seq 0 (m_numElemConstraints s))
              (-1.0E10, aw w, false)) as [[t1 a1] ld].
  cbn [fst snd Nat.leb andb Nat.add] in H1, H2, H3.
  destruct ld.
  { exfalso. destruct (proj1 H3 eq_refl) as [H|(i & Hi & H)]; [discriminate|].
    apply (Hno i Hi). exact H. }
  intro H. apply rearrange_loop_needs_marks in H. cbn [aw] in H.
  assert (Hlt : (marks_left (m_numElemConstraints s) a1 t1
                 < m_numElemConstraints s)%nat).
  { unfold marks_left.
    pose proof (count_lt (fun _ => true) (fun i => Qneb (a1 i) t1) j
                  (seq 0 (m_numElemConstraints s))) as Hc.
    assert (Hall : length (filter (fun _ : nat => true)
                                  (seq 0 (m_numElemConstraints s)))
                   = m_numElemConstraints s).
    { rewrite forallb_filter_id; [apply length_seq|].
      apply forallb_forall. reflexivity. }
    rewrite Hall in Hc. apply Hc; auto.
    - apply in_seq. lia.
    - apply Qneb_false. rewrite H2.
      replace (j <? m_numElemConstraints s)%nat with true
        by (symmetry; apply Nat.ltb_lt; exact Hj).
      rewrite Hg, H1. reflexivity. }
  lia.
Qed.

Lemma rearrange_gives_up_on_key_target_witness :
  vcs_elem_rearrange success_value 3 zero_work colliding_target = Some (Exit (-1)%Z).
Proof.
  apply rearrange_gives_up_on_key_target.
  - constructor; simpl; try lia.
    intros r Hr. destruct r as [|[|r]]; simpl; lia.
  - simpl; lia.
  - simpl; lia.
  - simpl; lia.
  - intros i Hi E. simpl in Hi.
    destruct i as [|[|i]]; [| |lia];
      apply Qeq_bool_iff in E; vm_compute in E; discriminate E.
  - exists 0%nat. split; [simpl; lia|].
    apply Qeq_bool_iff. vm_compute. reflexivity.
Defined.

(** ** The search for the next constraint *)

(** X23: the search of [vcs_elem_rearrange] returns the first constraint
    from [jr] on that is active and whose entry of [aw] is not the key, and
    it returns [m_numElemConstraints] when there is none. *)
Theorem find_k_first (s : VCS_SOLVE) (a : buf) (test : Q) (jr n : nat) :
  let k := find_k s a test (seq jr n) in
  ((jr <= k < jr + n)%nat /\ selectable s a test k /\
   forall i, (jr <= i < k)%nat -> ~ selectable s a test i) \/
  (k = m_numElemConstraints s /\
   forall i, (jr <= i < jr + n)%nat -> ~ selectable s a test i).
Proof.
  cbv zeta. revert jr; induction n as [|n IH]; intro jr; simpl.
  - right. split; [reflexivity|]. intros i Hi. lia.
  - destruct (nth jr (ElActive s) false && Qneb (a jr) test) eqn:E.
    + left. apply andb_true_iff in E. destruct E as [E1 E2].
      apply Qneb_true in E2.
      split; [lia|]. split; [split; assumption|]. intros i Hi. lia.
    + assert (Hjr : ~ selectable s a test jr).
      { intros [H1 H2]. apply Qneb_true in H2. rewrite H1, H2 in E. discriminate. }
      destruct (IH (S jr)) as [(H1 & H2 & H3)|(H1 & H2)].
      * left. split; [lia|]. split; [exact H2|].
        intros i Hi. destruct (Nat.eq_dec i jr) as [->|Hne]; [exact Hjr|].
        apply H3. lia.
      * right. split; [exact H1|].
        intros i Hi. destruct (Nat.eq_dec i jr) as [->|Hne]; [exact Hjr|].
        apply H2. lia.
Qed.

(** ** The species that stage 4 of vcs_elcorr adjusts *)

Lemma goodSpec_loop_cons (s : VCS_SOLVE) (k : nat) (saveDir : Q) (i : nat)
    (rest : list nat) :
  goodSpec_loop s k saveDir (i :: rest) =
  if Qgtb (fabs (stage4_dir s k i)) 1.0E-10 then
    if Qgtb (stage4_dir s k i) 0.0 then
      if Qltb saveDir 0.0 then false
      else goodSpec_loop s k (stage4_dir s k i) rest
    else
      if Qgtb saveDir 0.0 then false
      else goodSpec_loop s k (stage4_dir s k i) rest
  else
    if Qneb (FM s i k) 0 then false
    else goodSpec_loop s k saveDir rest.
Proof. reflexivity. Qed.

Lemma significant_nonzero (s : VCS_SOLVE) (k i : nat) :
  1.0E-10 < fabs (stage4_dir s k i) -> ~ FM s i k == 0.
Proof.
  intros H E. unfold stage4_dir, fabs in H. rewrite E in H.
  setoid_replace (0 * (rdQ (gai s) i - rdQ (ga s) i)) with 0 in H by ring.
  revert H. apply Qle_not_lt. apply Qle_bool_iff. reflexivity.
Qed.

Lemma goodSpec_loop_iff (s : VCS_SOLVE) (k : nat) (l : list nat) :
  forall saveDir,
  goodSpec_loop s k saveDir l = true <->
  (forall i, In i l -> FM s i k == 0 \/ 1.0E-10 < fabs (stage4_dir s k i)) /\
  ((0 <= saveDir /\
    forall i, In i l -> ~ FM s i k == 0 -> 0 < stage4_dir s k i) \/
   (saveDir <= 0 /\
    forall i, In i l -> ~ FM s i k == 0 -> stage4_dir s k i < 0)).
Proof.
  induction l as [|i l IH]; intro sd.
  - simpl. split; [|reflexivity]. intros _. split; [intros i []|].
    destruct (Qlt_le_dec sd 0) as [H|H].
    + right. split; [apply Qlt_le_weak; exact H | intros i []].
    + left. split; [exact H | intros i []].
  - rewrite goodSpec_loop_cons.
    destruct (Qgtb (fabs (stage4_dir s k i)) 1.0E-10) eqn:Esig.
    + apply Qgtb_true in Esig.
      pose proof (significant_nonzero s k i Esig) as Hnz.
      destruct (Qgtb (stage4_dir s k i) 0.0) eqn:Epos.
      * apply Qgtb_true, pos_decimal in Epos.
        destruct (Qltb sd 0.0) eqn:Esd.
        -- apply Qltb_true, neg_decimal in Esd. split; [discriminate|].
           intros (_ & [[H _]|[_ H]]).
           ++ exfalso. apply (Qlt_not_le _ _ Esd H).
           ++ exfalso. apply (Qlt_irrefl 0).
              apply (Qlt_trans _ _ _ Epos). apply H; [left; reflexivity | exact Hnz].
        -- apply Qltb_false in Esd. apply decimal_zero_le in Esd.
           rewrite IH. split.
           ++ intros (H1 & [[_ H2]|[H2 _]]).
              ** split.
                 --- intros j [<-|Hj]; [right; exact Esig | apply H1; exact Hj].
                 --- left. split; [exact Esd|].
                     intros j [<-|Hj] Hn; [exact Epos | apply H2; assumption].
              ** exfalso. apply (Qlt_not_le _ _ Epos H2).
           ++ intros (H1 & [[_ H2]|[_ H2]]).
              ** split; [intros j Hj; apply H1; right; exact Hj|].
                 left. split; [apply Qlt_le_weak; exact Epos|].
                 intros j Hj Hn. apply H2; [right; exact Hj | exact Hn].
              ** exfalso. apply (Qlt_irrefl 0).
                 apply (Qlt_trans _ _ _ Epos).
                 apply H2; [left; reflexivity | exact Hnz].
      * apply Qgtb_false in Epos.
        assert (Eneg : stage4_dir s k i < 0).
        { assert (H0 : stage4_dir s k i <= 0)
            by (apply (Qle_trans _ _ _ Epos); apply Qle_bool_iff; reflexivity).
          destruct (Qlt_le_dec (stage4_dir s k i) 0) as [H|H]; [exact H|].
          exfalso. assert (Ez : stage4_dir s k i == 0) by (apply Qle_antisym; assumption).
          unfold fabs in Esig. rewrite Ez in Esig.
          revert Esig. apply Qle_not_lt. apply Qle_bool_iff. reflexivity. }
        destruct (Qgtb sd 0.0) eqn:Esd.
        -- apply Qgtb_true, pos_decimal in Esd. split; [discriminate|].
           intros (_ & [[_ H]|[H _]]).
           ++ exfalso. apply (Qlt_irrefl 0).
              apply (Qlt_trans _ (stage4_dir s k i));
                [apply H; [left; reflexivity | exact Hnz] | exact Eneg].
           ++ exfalso. apply (Qlt_not_le _ _ Esd H).
        -- apply Qgtb_false in Esd.
           assert (Esd' : sd <= 0)
             by (apply (Qle_trans _ _ _ Esd); apply Qle_bool_iff; reflexivity).
           rewrite IH. split.
           ++ intros (H1 & [[H2 _]|[_ H2]]).
              ** exfalso. apply (Qlt_not_le _ _ Eneg H2).
              ** split.
                 --- intros j [<-|Hj]; [right; exact Esig | apply H1; exact Hj].
                 --- right. split; [exact Esd'|].
                     intros j [<-|Hj] Hn; [exact Eneg | apply H2; assumption].
           ++ intros (H1 & [[_ H2]|[_ H2]]).
              ** exfalso. apply (Qlt_irrefl 0).
                 apply (Qlt_trans _ (stage4_dir s k i));
                   [apply H2; [left; reflexivity | exact Hnz] | exact Eneg].
              ** split; [intros j Hj; apply H1; right; exact Hj|].
                 right. split; [apply Qlt_le_weak; exact Eneg|].
                 intros j Hj Hn. apply H2; [right; exact Hj | exact Hn].
    + apply Qgtb_false in Esig.
      destruct (Qneb (FM s i k) 0) eqn:Enz.
      * apply Qneb_true in Enz. split; [discriminate|].
        intros (H & _). exfalso.
        destruct (H i (or_introl eq_refl)) as [H0|H0];
          [contradiction | apply (Qlt_not_le _ _ H0 Esig)].
      * apply Qneb_false in Enz. rewrite IH. split.
        -- intros (H1 & H2). split.
           ++ intros j [<-|Hj]; [left; exact Enz | apply H1; exact Hj].
           ++ destruct H2 as [[H2 H3]|[H2 H3]]; [left|right];
                (split; [exact H2|]);
                intros j [<-|Hj] Hn; try contradiction; apply H3; assumption.
        -- intros (H1 & H2). split; [intros j Hj; apply H1; right; exact Hj|].
           destruct H2 as [[H2 H3]|[H2 H3]]; [left|right];
             (split; [exact H2|]); intros j Hj Hn; apply H3; auto; right; exact Hj.
Qed.


(** ** The damping of stage 3 of vcs_elcorr *)

Lemma ratio_above_one (a b : Q) : 0 < b -> (1 < - a / b <-> b + a < 0).
Proof.
  intro Hb. split; intro H.
  - assert (H1 : 1 * b < - a / b * b) by (apply Qmult_lt_compat_r; assumption).
    assert (E : - a / b * b == - a) by (field; lra).
    rewrite E in H1. lra.
  - apply Qlt_shift_div_l; [exact Hb | lra].
Qed.

Lemma par_fold_above_one (s : VCS_SOLVE) (x : buf) (l : list nat) :
  forall par, 0.5 <= par ->
  0.5 <= fold_left (par_step s x) l par /\
  (1 < fold_left (par_step s x) l par <->
   1 < par \/ exists i, In i l /\ 0 < rdQ (soln s) i /\ rdQ (soln s) i + x i < 0).
Proof.
  induction l as [|i l IH]; intros par Hlo; simpl.
  - split; [exact Hlo|]. split; [auto|]. intros [H|(i & [] & _)]. exact H.
  - assert (Hstep : 0.5 <= par_step s x par i /\
                    (1 < par_step s x par i <->
                     1 < par \/ (0 < rdQ (soln s) i /\ rdQ (soln s) i + x i < 0))).
    { unfold par_step. destruct (Qgtb (rdQ (soln s) i) 0.0) eqn:Es.
      - apply Qgtb_true in Es. assert (Hs : 0 < rdQ (soln s) i) by lra.
        pose proof (ratio_above_one (x i) (rdQ (soln s) i) Hs) as R.
        destruct (Qltb par (- x i / rdQ (soln s) i)) eqn:E.
        + apply Qltb_true in E. split; [lra|]. split.
          * intro H. right. split; [exact Hs | apply R; exact H].
          * intros [H|[_ H]]; [lra | apply R; exact H].
        + apply Qltb_false in E. split; [exact Hlo|]. split.
          * intro H. left. exact H.
          * intros [H|[_ H]]; [exact H|]. apply R in H. lra.
      - apply Qgtb_false in Es. split; [exact Hlo|]. split.
        + intro H. left. exact H.
        + intros [H|[H _]]; [exact H | lra]. }
    destruct Hstep as [S1 S2].
    destruct (IH (par_step s x par i) S1) as [G1 G2].
    split; [exact G1|]. rewrite G2, S2. split.
    + intros [[H|H]|(j & Hj & H)].
      * left. exact H.
      * right. exists i. split; [left; reflexivity | exact H].
      * right. exists j. split; [right; exact Hj | exact H].
    + intros [H|(j & [<-|Hj] & H)].
      * left. left. exact H.
      * left. right. exact H.
      * right. exists j. split; assumption.
Qed.

Lemma damped_iff_overshoots (s : VCS_SOLVE) (x : buf) :
  Qltb (damping s x) 1.0 && Qgtb (damping s x) 0.0 = true <-> overshoots s x.
Proof.
  unfold damping.
  destruct (par_fold_above_one s x (seq 0 (m_numComponents s)) 0.5) as [Hlo Hgt];
    [lra|].
  set (par := fold_left (par_step s x) (seq 0 (m_numComponents s)) 0.5) in *.
  assert (Hover : 1 < par <-> overshoots s x).
  { rewrite Hgt. unfold overshoots. split.
    - intros [H|(i & Hi & H)]; [lra|].
      exists i. split; [apply in_seq in Hi; lia | exact H].
    - intros (i & Hi & H). right. exists i. split; [apply in_seq; lia | exact H]. }
  rewrite <- Hover. rewrite andb_true_iff, Qltb_true, Qgtb_true.
  destruct (Qgtb par 100.0) eqn:Ec.
  - apply Qgtb_true in Ec. split; [intros _; lra|]. intros _.
    split; [apply Qlt_shift_div_r; lra | apply Qlt_shift_div_l; lra].
  - apply Qgtb_false in Ec. split.
    + intros [H _].
      destruct (Qlt_le_dec 1 par) as [Hp|Hp]; [exact Hp|]. exfalso.
      assert (H1 : 1.0 <= 1.0 / par) by (apply Qle_shift_div_l; lra).
      lra.
    + intro H. split.
      * apply Qlt_shift_div_r; lra.
      * apply Qlt_shift_div_l; lra.
Qed.

(** X25: the status that stage 3 of [vcs_elcorr] hands on.  The step is
    damped, and the status set to 2, exactly when the full step would take
    a component with a positive mole number below zero; otherwise the
    status of the set-up loop is kept. *)
Theorem stage3_status (s : VCS_SOLVE) (x2 : buf) (retn : Z) :
  (overshoots s x2 -> snd (apply_step s x2 retn) = 2%Z) /\
  (~ overshoots s x2 -> snd (apply_step s x2 retn) = retn).
Proof.
  split.
  - intro Ho. unfold apply_step.
    replace (Qltb (damping s x2) 1.0 && Qgtb (damping s x2) 0.0) with true
      by (symmetry; apply damped_iff_overshoots; exact Ho).
    reflexivity.
  - intro Ho. unfold apply_step.
    destruct (Qltb (damping s x2) 1.0 && Qgtb (damping s x2) 0.0) eqn:E;
      [|reflexivity].
    exfalso. apply Ho. apply damped_iff_overshoots. exact E.
Qed.

(** * The routines in binary64 arithmetic *)

Import PrimFloat.

(** ** Sums that are not rounded *)

Lemma value_zero : Binary64.value 0%float = 0.
Proof. reflexivity. Qed.

Lemma exact_add_value (x y : float) :
  Binary64.exact_add x y = true ->
  Binary64.value (PrimFloat.add x y) == Binary64.value x + Binary64.value y.
Proof.
  unfold Binary64.exact_add. intro H. apply andb_true_iff in H.
  apply Qeq_bool_iff. apply H.
Qed.

Lemma exact_mul_value (x y : float) :
  Binary64.exact_mul x y = true ->
  Binary64.value (PrimFloat.mul x y) == Binary64.value x * Binary64.value y.
Proof.
  unfold Binary64.exact_mul. intro H. apply andb_true_iff in H.
  apply Qeq_bool_iff. apply H.
Qed.

Lemma exact_terms_sum (s : Binary64.VCS_SOLVE) (pick : nat -> bool) (j : nat)
    (l : list nat) (acc : float) :
  Binary64.exact_terms s pick j l acc = true ->
  Binary64.value
    (fold_left
       (fun a k => if pick k
                   then PrimFloat.add a
                          (PrimFloat.mul (Binary64.FM s j k)
                                         (Binary64.rdF (Binary64.soln s) k))
                   else a)
       l acc) ==
  Binary64.value acc +
  sumQ (map (fun k => if pick k
                      then Binary64.value (Binary64.FM s j k)
                           * Binary64.value (Binary64.rdF (Binary64.soln s) k)
                      else 0) l).
Proof.
  revert acc; induction l as [|k l IH]; intros acc H; simpl; [ring|].
  simpl in H. destruct (pick k).
  - apply andb_true_iff in H. destruct H as [H H3].
    apply andb_true_iff in H. destruct H as [H1 H2].
    rewrite (IH _ H3).
    rewrite (exact_add_value _ _ H2), (exact_mul_value _ _ H1). ring.
  - rewrite (IH _ H). ring.
Qed.

Lemma exact_FM (s : Binary64.VCS_SOLVE) (j k : nat) :
  FM (exact s) j k = Binary64.value (Binary64.FM s j k).
Proof.
  unfold FM, Binary64.FM, rdQ, Binary64.rdF, exact. cbn [FormulaMatrix].
  change (@nil Q) with (map Binary64.value []).
  rewrite (map_nth (map Binary64.value) (Binary64.FormulaMatrix s) [] j).
  exact (map_nth Binary64.value (nth j (Binary64.FormulaMatrix s) []) 0%float k).
Qed.

Lemma exact_soln (s : Binary64.VCS_SOLVE) (k : nat) :
  rdQ (soln (exact s)) k = Binary64.value (Binary64.rdF (Binary64.soln s) k).
Proof.
  unfold rdQ, Binary64.rdF, exact. cbn [soln].
  exact (map_nth Binary64.value (Binary64.soln s) 0%float k).
Qed.

(** A row of [vcs_elab] in which nothing is rounded holds the exact sum. *)
Lemma elab_row_exact (s : Binary64.VCS_SOLVE) (j : nat) :
  Binary64.exact_row s j = true ->
  Binary64.value (Binary64.elab_row s j) == exact_abundance s j.
Proof.
  intro H. unfold exact_abundance. rewrite <- elab_row_sum.
  unfold elab_row. rewrite elab_fold_sum.
  unfold Binary64.elab_row, Binary64.exact_row in *.
  rewrite (fold_left_ext_in (Binary64.elab_add s j)
             (fun a k => if Binary64.counted s k
                         then PrimFloat.add a
                                (PrimFloat.mul (Binary64.FM s j k)
                                   (Binary64.rdF (Binary64.soln s) k))
                         else a)).
  - rewrite (exact_terms_sum s (Binary64.counted s) j _ _ H). rewrite value_zero.
    apply Qplus_comp; [reflexivity|].
    apply sumQ_map_ext. intros k _. unfold term, Binary64.counted.
    rewrite exact_FM, exact_soln.
    change (voltage (exact s) k) with (Binary64.voltage s k).
    destruct (Binary64.voltage s k); reflexivity.
  - intros a k _. unfold Binary64.elab_add, Binary64.counted.
    destruct (Binary64.voltage s k); reflexivity.
Qed.

(** A row of [vcs_elabPhase] in which nothing is rounded holds the exact
    sum of the terms of the species of the phase. *)
Lemma elabPhase_row_exact (s : Binary64.VCS_SOLVE) (p j : nat) :
  Binary64.exact_phase_row s p j = true ->
  Binary64.value (Binary64.elabPhase_row s p j) ==
  sumQ (map (term_phase (exact s) p j) (seq 0 (Binary64.m_numSpeciesTot s))).
Proof.
  intro H. unfold Binary64.elabPhase_row, Binary64.exact_phase_row in *.
  rewrite (fold_left_ext_in (Binary64.elabPhase_add s p j)
             (fun a k => if Binary64.counted_in s p k
                         then PrimFloat.add a
                                (PrimFloat.mul (Binary64.FM s j k)
                                   (Binary64.rdF (Binary64.soln s) k))
                         else a)).
  - rewrite (exact_terms_sum s (Binary64.counted_in s p) j _ _ H).
    rewrite value_zero. rewrite Qplus_0_l.
    apply sumQ_map_ext. intros k _. unfold term_phase, Binary64.counted_in.
    rewrite exact_FM, exact_soln.
    change (voltage (exact s) k) with (Binary64.voltage s k).
    change (PhaseID (exact s)) with (Binary64.PhaseID s).
    destruct (Binary64.voltage s k); [reflexivity|].
    destruct (Nat.eqb (nth k (Binary64.PhaseID s) O) p); reflexivity.
  - intros a k _. unfold Binary64.elabPhase_add, Binary64.counted_in.
    destruct (Binary64.voltage s k); [reflexivity|].
    destruct (Nat.eqb (nth k (Binary64.PhaseID s) O) p); reflexivity.
Qed.

(** The exact sums of the phases add up to the exact sum. *)
Lemma exact_phase_sums (s : Binary64.VCS_SOLVE) (j : nat) :
  (forall k, (k < Binary64.m_numSpeciesTot s)%nat ->
             (nth k (Binary64.PhaseID s) O < Binary64.NPhase s)%nat) ->
  sumQ (map (fun p => sumQ (map (term_phase (exact s) p j)
                                (seq 0 (Binary64.m_numSpeciesTot s))))
            (seq 0 (Binary64.NPhase s))) ==
  exact_abundance s j.
Proof.
  intro Hp. unfold exact_abundance. rewrite <- elab_row_sum.
  unfold elab_row. rewrite elab_fold_sum. rewrite Qplus_0_l.
  apply (phase_rows_total (exact s) j (seq 0 (Binary64.m_numSpeciesTot s))).
  intros k Hk. apply in_seq in Hk. apply Hp. lia.
Qed.

Import Binary64.
Set Warnings "-inexact-float".
Open Scope float_scope.

(** ** Arrays of doubles *)

Lemma b64_bset_eq (b : buf) (i : nat) (v : float) : bset b i v i = v.
Proof. unfold bset. now rewrite Nat.eqb_refl. Qed.

Lemma b64_bset_ne (b : buf) (i j : nat) (v : float) : j <> i -> bset b i v j = b j.
Proof. unfold bset. intro H. apply Nat.eqb_neq in H. now rewrite H. Qed.

(** A loop that assigns [f j] to entry [j] for [j] in a range. *)
Lemma b64_fill_nth (f : nat -> float) (n a : nat) (g : list float) (j : nat) :
  (a + n <= length g)%nat ->
  rdF (fold_left (fun g j => upd j (f j) g) (seq a n) g) j =
  if (a <=? j)%nat && (j <? a + n)%nat then f j else rdF g j.
Proof.
  unfold rdF. revert a g; induction n as [|n IH]; intros a g H; simpl.
  - destruct (a <=? j)%nat eqn:E1, (j <? a + 0)%nat eqn:E2; simpl; auto.
    apply Nat.leb_le in E1. apply Nat.ltb_lt in E2. lia.
  - rewrite IH by (rewrite length_upd; lia).
    destruct (Nat.eq_dec a j) as [->|Hne].
    + rewrite nth_upd_eq by lia.
      replace (S j <=? j)%nat with false by (symmetry; apply Nat.leb_gt; lia).
      rewrite Nat.leb_refl.
      replace (j <? j + S n)%nat with true by (symmetry; apply Nat.ltb_lt; lia).
      reflexivity.
    + rewrite nth_upd_ne by assumption.
      destruct (S a <=? j)%nat eqn:E1, (a <=? j)%nat eqn:E2,
               (j <? S a + n)%nat eqn:E3, (j <? a + S n)%nat eqn:E4;
        simpl; auto;
        repeat match goal with
        | H : (_ <=? _)%nat = true |- _ => apply Nat.leb_le in H
        | H : (_ <=? _)%nat = false |- _ => apply Nat.leb_gt in H
        | H : (_ <? _)%nat = true |- _ => apply Nat.ltb_lt in H
        | H : (_ <? _)%nat = false |- _ => apply Nat.ltb_ge in H
        end; lia.
Qed.

Lemma b64_fill_length (f : nat -> float) (l : list nat) (g : list float) :
  length (fold_left (fun g j => upd j (f j) g) l g) = length g.
Proof.
  revert g; induction l as [|a l IH]; intro g; simpl; auto.
  rewrite IH. apply length_upd.
Qed.

(** ** What vcs_elab and vcs_elabPhase compute *)

Lemma b64_elab_row_filter (s : VCS_SOLVE) (j : nat) (l : list nat) (acc : float) :
  fold_left (elab_add s j) l acc =
  fold_left (fun acc k => acc + FM s j k * rdF (soln s) k)
            (filter (fun k => negb (voltage s k)) l) acc.
Proof.
  revert acc; induction l as [|k l IH]; intro acc; simpl; auto.
  unfold elab_add at 2. destruct (voltage s k); simpl; apply IH.
Qed.

Lemma b64_elab_ga_nth (s : VCS_SOLVE) (j : nat) :
  (m_numElemConstraints s <= length (ga s))%nat ->
  rdF (ga (vcs_elab s)) j =
  if (j <? m_numElemConstraints s)%nat then elab_row s j else rdF (ga s) j.
Proof.
  intro H. unfold vcs_elab, elab_loop. simpl.
  rewrite b64_fill_nth by (simpl; lia). simpl. reflexivity.
Qed.

Lemma b64_elabPhase_nth (s : VCS_SOLVE) (p j : nat) (b : list float) :
  (m_numElemConstraints s <= length b)%nat ->
  (j < m_numElemConstraints s)%nat ->
  rdF (vcs_elabPhase s p b) j = elabPhase_row s p j.
Proof.
  intros Hb Hj. unfold vcs_elabPhase.
  rewrite b64_fill_nth by (simpl; lia). simpl.
  apply Nat.ltb_lt in Hj. now rewrite Hj.
Qed.

(** C5, as amended: [vcs_elab] stores in [ga[i]], for every constraint [i],
    what the additions of the terms [FormulaMatrix[i][k] * soln[k]] of the
    species that are not interfacial voltages give in binary64 arithmetic
    when they are made one after the other, in species order, from 0.0; a
    voltage species contributes nothing whatever its coefficient.  Each
    product and each partial sum is rounded: the number stored is the sum
    of the terms when none of them is.  Every other member, and the entries
    of [ga] past the constraints, stay as they were. *)
Theorem vcs_elab_accumulates (s : VCS_SOLVE) :
  (m_numElemConstraints s <= length (ga s))%nat ->
  (forall i, (i < m_numElemConstraints s)%nat ->
     rdF (ga (vcs_elab s)) i = accumulated s i /\
     (exact_row s i = true ->
      Qeq (value (rdF (ga (vcs_elab s)) i)) (exact_abundance s i))) /\
  (forall i, (m_numElemConstraints s <= i)%nat ->
     rdF (ga (vcs_elab s)) i = rdF (ga s) i) /\
  length (ga (vcs_elab s)) = length (ga s) /\
  same_but_ga s (vcs_elab s).
Proof.
  intro H. repeat split.
  - rewrite b64_elab_ga_nth by assumption.
    apply Nat.ltb_lt in H0. rewrite H0. apply b64_elab_row_filter.
  - intro Hex. rewrite b64_elab_ga_nth by assumption.
    apply Nat.ltb_lt in H0. rewrite H0. apply elab_row_exact. exact Hex.
  - intros i Hi. rewrite b64_elab_ga_nth by assumption.
    apply Nat.ltb_ge in Hi. now rewrite Hi.
  - unfold vcs_elab, elab_loop. simpl. apply b64_fill_length.
Qed.

Lemma vcs_elab_accumulates_witness :
  rdF (ga (vcs_elab e2e)) 1 = accumulated e2e 1 /\
  Qeq (value (rdF (ga (vcs_elab e2e)) 1)) (exact_abundance e2e 1) /\
  same_but_ga e2e (vcs_elab e2e).
Proof.
  pose proof (vcs_elab_accumulates e2e) as H.
  destruct H as (H1 & _ & _ & H4); [simpl; lia|].
  destruct (H1 1%nat) as [Ha Hb]; [simpl; lia|].
  split; [exact Ha|]. split; [apply Hb; reflexivity | exact H4].
Defined.

(** The claim C5 as stated fails on [large_moles]: the terms of its
    constraint are 1e20, 1 and -1e20, whose sum is 1, and [vcs_elab] stores
    0, because the partial sum 1e20 + 1 is rounded to 1e20. *)
Lemma elab_rounds_the_sum :
  Qeq (exact_abundance large_moles 0) 1%Q /\
  rdF (ga (vcs_elab large_moles)) 0 = 0.
Proof. split; vm_compute; reflexivity. Qed.

(** C10, as amended: when every species has its phase among the [NPhase]
    phases, the numbers that [vcs_elabPhase] computes for the phases add
    up, for a constraint, to the number that [vcs_elab] computes for it,
    provided that no product and no partial sum is rounded in the row of
    [vcs_elab] and in the rows of [vcs_elabPhase]. *)
Theorem elabPhase_sum_is_elab_unrounded
    (s : VCS_SOLVE) (bufs : nat -> list float) :
  (m_numElemConstraints s <= length (ga s))%nat ->
  (forall p, (p < NPhase s)%nat -> (m_numElemConstraints s <= length (bufs p))%nat) ->
  (forall k, (k < m_numSpeciesTot s)%nat -> (nth k (PhaseID s) O < NPhase s)%nat) ->
  forall j, (j < m_numElemConstraints s)%nat ->
    exact_row s j = true ->
    (forall p, (p < NPhase s)%nat -> exact_phase_row s p j = true) ->
    Qeq (sum_over_phases s bufs j) (value (rdF (ga (vcs_elab s)) j)).
Proof.
  intros Hga Hb Hp j Hj He Hep.
  rewrite b64_elab_ga_nth by assumption.
  pose proof Hj as Hj'. apply Nat.ltb_lt in Hj'. rewrite Hj'.
  rewrite (elab_row_exact s j He).
  rewrite <- (exact_phase_sums s j Hp).
  unfold sum_over_phases. apply sumQ_map_ext.
  intros p Hin. apply in_seq in Hin.
  rewrite b64_elabPhase_nth by (try apply Hb; lia).
  apply elabPhase_row_exact. apply Hep. lia.
Qed.

Lemma elabPhase_sum_is_elab_unrounded_witness :
  Qeq (sum_over_phases e2e (fun _ => [0; 0]) 1) (value (rdF (ga (vcs_elab e2e)) 1)).
Proof.
  apply (elabPhase_sum_is_elab_unrounded e2e (fun _ => [0; 0])).
  - simpl; lia.
  - intros p _. simpl; lia.
  - intros k Hk. simpl in Hk.
    destruct k as [|[|k]]; simpl; lia.
  - simpl; lia.
  - reflexivity.
  - intros p Hp. simpl in Hp.
    destruct p as [|[|p]]; [reflexivity | reflexivity | lia].
Defined.

(** The claim C10 as stated fails on [large_moles], where every species is
    in one of the two phases: the vectors of the phases hold 0 (1e20 less
    1e20) and 1, which add up to 1, and [vcs_elab] stores 0. *)
Lemma phase_sums_miss_rounded_total :
  (forall k, (k < m_numSpeciesTot large_moles)%nat ->
             (nth k (PhaseID large_moles) O < NPhase large_moles)%nat) /\
  vcs_elabPhase large_moles 0 [0] = [0] /\
  vcs_elabPhase large_moles 1 [0] = [1] /\
  Qeq (sum_over_phases large_moles (fun _ => [0]) 0) 1%Q /\
  rdF (ga (vcs_elab large_moles)) 0 = 0.
Proof.
  split; [|repeat split; vm_compute; reflexivity].
  intros k Hk. simpl in Hk. destruct k as [|[|[|k]]]; simpl; lia.
Qed.

(** ** vcs_switch_elem_pos exchanges two positions *)

Lemma b64_length_fm_set (fm : list (list float)) (r c : nat) (v : float) :
  length (fm_set fm r c v) = length fm.
Proof. unfold fm_set. apply length_upd. Qed.

Lemma b64_nth_fm_set (fm : list (list float)) (r c p : nat) (v : float) :
  (r < length fm)%nat ->
  nth p (fm_set fm r c v) [] =
  if Nat.eqb p r then upd c v (nth r fm []) else nth p fm [].
Proof.
  intro Hr. unfold fm_set. destruct (Nat.eqb p r) eqn:E.
  - apply Nat.eqb_eq in E. subst p. apply nth_upd_eq. assumption.
  - apply Nat.eqb_neq in E. apply nth_upd_ne. auto.
Qed.

Lemma b64_rdF_upd (l : list float) (c k : nat) (v : float) :
  (c < length l)%nat ->
  rdF (upd c v l) k = if Nat.eqb k c then v else rdF l k.
Proof.
  intro H. unfold rdF. destruct (Nat.eqb k c) eqn:E.
  - apply Nat.eqb_eq in E. subst k. apply nth_upd_eq. assumption.
  - apply Nat.eqb_neq in E. apply nth_upd_ne. auto.
Qed.

Lemma b64_swap_entry_length (i j c : nat) (fm : list (list float)) :
  length (swap_entry i j fm c) = length fm.
Proof. unfold swap_entry. now rewrite !b64_length_fm_set. Qed.

Lemma b64_swap_entry_row_length (i j c r : nat) (fm : list (list float)) :
  (i < length fm)%nat -> (j < length fm)%nat ->
  length (nth r (swap_entry i j fm c) []) = length (nth r fm []).
Proof.
  intros Hi Hj. unfold swap_entry.
  rewrite b64_nth_fm_set by (rewrite b64_length_fm_set; lia).
  destruct (Nat.eqb r i) eqn:E1.
  - apply Nat.eqb_eq in E1. subst r. rewrite length_upd.
    rewrite b64_nth_fm_set by lia.
    destruct (Nat.eqb i j) eqn:E2; [|reflexivity].
    apply Nat.eqb_eq in E2. subst j. apply length_upd.
  - rewrite b64_nth_fm_set by lia.
    destruct (Nat.eqb r j) eqn:E2; [|reflexivity].
    apply Nat.eqb_eq in E2. subst j. apply length_upd.
Qed.

Lemma b64_swap_entry_spec (i j c : nat) (fm : list (list float)) (p k : nat) :
  i <> j -> (i < length fm)%nat -> (j < length fm)%nat ->
  (c < length (nth i fm []))%nat -> (c < length (nth j fm []))%nat ->
  rdF (nth p (swap_entry i j fm c) []) k =
  if Nat.eqb k c then rdF (nth (transp i j p) fm []) k else rdF (nth p fm []) k.
Proof.
  intros Hne Hi Hj Hci Hcj. unfold swap_entry, transp.
  rewrite b64_nth_fm_set by (rewrite b64_length_fm_set; lia).
  destruct (Nat.eqb p i) eqn:E1.
  - apply Nat.eqb_eq in E1. subst p.
    rewrite (b64_nth_fm_set fm j c i) by lia.
    replace (Nat.eqb i j) with false by (symmetry; apply Nat.eqb_neq; lia).
    rewrite b64_rdF_upd by assumption.
    destruct (Nat.eqb k c) eqn:E; [|reflexivity].
    apply Nat.eqb_eq in E. subst k. reflexivity.
  - rewrite b64_nth_fm_set by lia.
    destruct (Nat.eqb p j) eqn:E2.
    + rewrite b64_rdF_upd by assumption.
      apply Nat.eqb_eq in E2. subst p.
      destruct (Nat.eqb k c) eqn:E; [|reflexivity].
      apply Nat.eqb_eq in E. subst k. reflexivity.
    + destruct (Nat.eqb k c); reflexivity.
Qed.

Lemma b64_swap_rows_seq (i j : nat) (n a : nat) (fm : list (list float)) :
  i <> j -> (i < length fm)%nat -> (j < length fm)%nat ->
  (a + n <= length (nth i fm []))%nat -> (a + n <= length (nth j fm []))%nat ->
  let fm' := fold_left (swap_entry i j) (seq a n) fm in
  length fm' = length fm /\
  (forall r, length (nth r fm' []) = length (nth r fm [])) /\
  (forall p k, rdF (nth p fm' []) k =
     if (a <=? k)%nat && (k <? a + n)%nat
     then rdF (nth (transp i j p) fm []) k else rdF (nth p fm []) k).
Proof.
  intros Hne. revert a fm; induction n as [|n IH]; intros a fm Hi Hj Hli Hlj; simpl.
  - repeat split; auto. intros p k.
    destruct (a <=? k)%nat eqn:E1, (k <? a + 0)%nat eqn:E2; simpl; auto.
    apply Nat.leb_le in E1. apply Nat.ltb_lt in E2. lia.
  - specialize (IH (S a) (swap_entry i j fm a)).
    rewrite b64_swap_entry_length, !b64_swap_entry_row_length in IH by assumption.
    destruct IH as (L1 & L2 & L3); try lia.
    repeat split.
    + exact L1.
    + intro r. rewrite L2. apply b64_swap_entry_row_length; assumption.
    + intros p k. rewrite L3.
      rewrite !b64_swap_entry_spec by (auto; lia).
      rewrite transp_invol.
      destruct (Nat.eqb k a) eqn:E0;
      destruct (S a <=? k)%nat eqn:E1, (a <=? k)%nat eqn:E2,
               (k <? S a + n)%nat eqn:E3, (k <? a + S n)%nat eqn:E4;
        simpl; auto;
        repeat match goal with
        | H : Nat.eqb _ _ = true |- _ => apply Nat.eqb_eq in H
        | H : Nat.eqb _ _ = false |- _ => apply Nat.eqb_neq in H
        | H : (_ <=? _)%nat = true |- _ => apply Nat.leb_le in H
        | H : (_ <=? _)%nat = false |- _ => apply Nat.leb_gt in H
        | H : (_ <? _)%nat = true |- _ => apply Nat.ltb_lt in H
        | H : (_ <? _)%nat = false |- _ => apply Nat.ltb_ge in H
        end; lia.
Qed.

Lemma b64_switch_counts (i j : nat) (s : VCS_SOLVE) :
  m_numElemConstraints (vcs_switch_elem_pos i j s) = m_numElemConstraints s /\
  m_numComponents (vcs_switch_elem_pos i j s) = m_numComponents s /\
  m_numSpeciesTot (vcs_switch_elem_pos i j s) = m_numSpeciesTot s.
Proof.
  unfold vcs_switch_elem_pos. destruct (Nat.eqb i j); simpl; auto.
Qed.

Lemma b64_switch_wf (i j : nat) (s : VCS_SOLVE) :
  (i < m_numElemConstraints s)%nat -> (j < m_numElemConstraints s)%nat ->
  wf_elem s -> wf_elem (vcs_switch_elem_pos i j s).
Proof.
  intros Hi Hj W. unfold vcs_switch_elem_pos.
  destruct (Nat.eqb i j) eqn:E; [exact W|].
  apply Nat.eqb_neq in E. destruct W.
  pose proof (wf_rows0 i Hi) as Ri. pose proof (wf_rows0 j Hj) as Rj.
  destruct (b64_swap_rows_seq i j (m_numSpeciesTot s) 0 (FormulaMatrix s))
    as (L1 & L2 & _); try assumption; try lia.
  constructor; simpl; rewrite ?length_sw; try assumption.
  - unfold swap_rows. rewrite L1. assumption.
  - intros r Hr. unfold swap_rows. rewrite L2. apply wf_rows0. assumption.
Qed.

Lemma b64_switch_repositioned (i j : nat) (s : VCS_SOLVE) :
  (i < m_numElemConstraints s)%nat -> (j < m_numElemConstraints s)%nat ->
  wf_elem s -> repositioned (transp i j) s (vcs_switch_elem_pos i j s).
Proof.
  intros Hi Hj W. unfold vcs_switch_elem_pos.
  destruct (Nat.eqb i j) eqn:E.
  - apply Nat.eqb_eq in E. subst j. unfold repositioned.
    repeat split; try rewrite transp_same; auto.
  - apply Nat.eqb_neq in E. destruct W.
    pose proof (wf_rows0 i Hi) as Ri. pose proof (wf_rows0 j Hj) as Rj.
    destruct (b64_swap_rows_seq i j (m_numSpeciesTot s) 0 (FormulaMatrix s))
      as (_ & _ & L3); try assumption; try lia.
    unfold repositioned, rdF, FM. simpl.
    repeat split; try (apply nth_sw; lia).
    intros k Hk. unfold swap_rows. rewrite L3. simpl.
    apply Nat.ltb_lt in Hk. rewrite Hk. reflexivity.
Qed.

Lemma b64_repositioned_trans (f g : nat -> nat) (s s1 s2 : VCS_SOLVE) :
  repositioned f s s1 -> repositioned g s1 s2 ->
  repositioned (fun p => f (g p)) s s2.
Proof.
  intros (A1 & A2 & A3 & A4) (B1 & B2 & B3 & B4).
  unfold repositioned. repeat split; try congruence; intros;
    destruct (B4 p) as (C1 & C2 & C3 & C4 & C5);
    destruct (A4 (g p)) as (D1 & D2 & D3 & D4 & D5); try congruence.
  rewrite C5 by congruence. apply D5. assumption.
Qed.

(** ** The search of vcs_elem_rearrange *)

Lemma b64_find_k_range (s : VCS_SOLVE) (a : buf) (test : float) (jr n : nat) :
  let k := find_k s a test (seq jr n) in
  k = m_numElemConstraints s \/
  ((jr <= k < jr + n)%nat /\ nth k (ElActive s) false = true /\
   neb (a k) test = true).
Proof.
  revert jr; induction n as [|n IH]; intro jr; simpl; [left; reflexivity|].
  destruct (nth jr (ElActive s) false && neb (a jr) test) eqn:E.
  - right. apply andb_true_iff in E. destruct E as [E1 E2].
    repeat split; auto; lia.
  - destruct (IH (S jr)) as [H|(H1 & H2 & H3)]; [left; exact H|].
    right. repeat split; auto; lia.
Qed.

Section Rearranged.
Variable success : Z.

Lemma b64_rearrange_loop_repositioned (fuel : nat) :
  forall (test : float) (jr : nat) (w : work) (s : VCS_SOLVE) (r : Z) (s' : VCS_SOLVE),
  wf_elem s ->
  rearrange_loop success fuel test jr w s = Some (Ok r s') ->
  r = success /\ wf_elem s' /\
  exists pi, permutes (m_numElemConstraints s) pi /\ repositioned pi s s' /\
             (forall p, (p < jr)%nat -> pi p = p).
Proof.
  induction fuel as [|fuel IH]; intros test jr w s r s' W; simpl; [discriminate|].
  pose proof (b64_find_k_range s (aw w) test jr (m_numElemConstraints s - jr)) as Hk.
  simpl in Hk.
  set (k := find_k s (aw w) test (seq jr (m_numElemConstraints s - jr))) in *.
  destruct (Nat.eqb k (m_numElemConstraints s)) eqn:Ek; [discriminate|].
  apply Nat.eqb_neq in Ek.
  destruct Hk as [Hk|(Hk & _)]; [contradiction|].
  destruct (PrimFloat.ltb _ _).
  { intro H. apply IH in H; assumption. }
  assert (Hjr : (jr < m_numElemConstraints s)%nat) by lia.
  assert (Hkk : (k < m_numElemConstraints s)%nat) by lia.
  assert (Hs1 : wf_elem (if Nat.eqb jr k then s else vcs_switch_elem_pos jr k s) /\
                repositioned (transp jr k) s
                  (if Nat.eqb jr k then s else vcs_switch_elem_pos jr k s)).
  { destruct (Nat.eqb jr k) eqn:E.
    - apply Nat.eqb_eq in E. split; [exact W|].
      rewrite <- E. unfold repositioned. repeat split; rewrite ?transp_same; auto.
    - split; [apply b64_switch_wf | apply b64_switch_repositioned]; assumption. }
  destruct Hs1 as [W1 R1].
  set (s1 := if Nat.eqb jr k then s else vcs_switch_elem_pos jr k s) in *.
  assert (Hfix : forall p, (p < jr)%nat -> transp jr k p = p).
  { intros p Hp. unfold transp.
    replace (Nat.eqb p jr) with false by (symmetry; apply Nat.eqb_neq; lia).
    replace (Nat.eqb p k) with false by (symmetry; apply Nat.eqb_neq; lia).
    reflexivity. }
  destruct (Nat.ltb (S jr) (m_numComponents s)).
  - intro H. apply IH in H; [|exact W1].
    destruct H as (Hr & W' & pi & P1 & P2 & P3).
    split; [exact Hr|]. split; [exact W'|].
    exists (fun p => transp jr k (pi p)). split; [|split].
    + apply permutes_comp; [apply permutes_transp; assumption|].
      destruct R1 as (E1 & _). rewrite <- E1. exact P1.
    + eapply b64_repositioned_trans; eassumption.
    + intros p Hp. rewrite P3 by lia. apply Hfix. assumption.
  - intro H. inversion H; subst. split; [reflexivity|]. split; [exact W1|].
    exists (transp jr k). split; [|split].
    + apply permutes_transp; assumption.
    + exact R1.
    + exact Hfix.
Qed.

Lemma b64_rearrange_repositioned (fuel : nat) (w : work) (s : VCS_SOLVE)
    (r : Z) (s' : VCS_SOLVE) :
  wf_elem s ->
  vcs_elem_rearrange success fuel w s = Some (Ok r s') ->
  r = success /\ wf_elem s' /\
  exists pi, permutes (m_numElemConstraints s) pi /\ repositioned pi s s'.
Proof.
  intros W. unfold vcs_elem_rearrange.
  destruct (sentinel_loop fuel s _ _) as [[test a]|]; [|discriminate].
  intro H. apply b64_rearrange_loop_repositioned in H; [|exact W].
  destruct H as (Hr & W' & pi & P1 & P2 & _).
  split; [exact Hr|]. split; [exact W'|]. exists pi. auto.
Qed.

End Rearranged.

(** ** The Gram-Schmidt trial depends on the rows before it only *)

Lemma b64_bfill (f : nat -> float) (off n a : nat) (m : buf) (idx : nat) :
  fold_left (fun m j => bset m (j + off) (f j)) (seq a n) m idx =
  if (a + off <=? idx)%nat && (idx <? a + n + off)%nat
  then f (idx - off)%nat else m idx.
Proof.
  revert a m; induction n as [|n IH]; intros a m; simpl.
  - destruct (a + off <=? idx)%nat eqn:E1, (idx <? a + 0 + off)%nat eqn:E2;
      simpl; auto.
    apply Nat.leb_le in E1. apply Nat.ltb_lt in E2. lia.
  - rewrite IH. unfold bset.
    destruct (Nat.eqb idx (a + off)) eqn:E0;
    destruct (S a + off <=? idx)%nat eqn:E1, (a + off <=? idx)%nat eqn:E2,
             (idx <? S a + n + off)%nat eqn:E3, (idx <? a + S n + off)%nat eqn:E4;
      simpl; auto;
      repeat match goal with
      | H : Nat.eqb _ _ = true |- _ => apply Nat.eqb_eq in H
      | H : Nat.eqb _ _ = false |- _ => apply Nat.eqb_neq in H
      | H : (_ <=? _)%nat = true |- _ => apply Nat.leb_le in H
      | H : (_ <=? _)%nat = false |- _ => apply Nat.leb_gt in H
      | H : (_ <? _)%nat = true |- _ => apply Nat.ltb_lt in H
      | H : (_ <? _)%nat = false |- _ => apply Nat.ltb_ge in H
      end; try lia.
    subst idx. f_equal. lia.
Qed.

Lemma b64_fill_row_spec (s : VCS_SOLVE) (k jr : nat) (m : buf) (idx : nat) :
  fill_row s k jr m idx =
  if (jr * m_numComponents s <=? idx)%nat
     && (idx <? m_numComponents s + jr * m_numComponents s)%nat
  then FM s k (idx - jr * m_numComponents s) else m idx.
Proof.
  unfold fill_row.
  rewrite (b64_bfill (FM s k) (jr * m_numComponents s) (m_numComponents s) 0 m idx).
  reflexivity.
Qed.

Lemma b64_trial_sm (s : VCS_SOLVE) (k jr : nat) (test : float) (w : work) :
  sm (trial s k jr test w) =
  if Nat.ltb 0 jr
  then orthogonalize s
         (coeffs s (mkWork (bset (aw w) k test) (sa w)
                           (fill_row s k jr (sm w)) (ss w)) jr jr)
         jr jr (fill_row s k jr (sm w))
  else fill_row s k jr (sm w).
Proof. unfold trial. destruct (Nat.ltb 0 jr); reflexivity. Qed.

Lemma b64_trial_sa (s : VCS_SOLVE) (k jr : nat) (test : float) (w : work) (j : nat) :
  sa (trial s k jr test w) j =
  if Nat.eqb j jr then norm2 s (sm (trial s k jr test w)) jr else sa w j.
Proof. unfold trial. destruct (Nat.ltb 0 jr); reflexivity. Qed.

Lemma b64_trial_aw (s : VCS_SOLVE) (k jr : nat) (test : float) (w : work) :
  aw (trial s k jr test w) = bset (aw w) k test.
Proof. unfold trial. destruct (Nat.ltb 0 jr); reflexivity. Qed.

Section TrialAgree.
Variables s s' : VCS_SOLVE.
Variables k k' jr : nat.
Hypothesis same_nc : m_numComponents s' = m_numComponents s.
Hypothesis same_row : forall j, (j < m_numComponents s)%nat -> FM s' k' j = FM s k j.

Lemma b64_fill_row_agree (m m' : buf) :
  (forall idx, (idx < jr * (m_numComponents s))%nat -> m idx = m' idx) ->
  forall idx, (idx < S jr * (m_numComponents s))%nat ->
    fill_row s k jr m idx = fill_row s' k' jr m' idx.
Proof.
  intros H idx Hidx. rewrite !b64_fill_row_spec. rewrite same_nc.
  destruct (jr * (m_numComponents s) <=? idx)%nat eqn:E1, (idx <? (m_numComponents s) + jr * (m_numComponents s))%nat eqn:E2; simpl.
  - apply Nat.leb_le in E1. apply Nat.ltb_lt in E2.
    symmetry. apply same_row. lia.
  - apply Nat.ltb_ge in E2. simpl in Hidx. lia.
  - apply Nat.leb_gt in E1. apply H. exact E1.
  - apply Nat.leb_gt in E1. apply H. exact E1.
Qed.

Lemma b64_dot_rows_agree (m m' : buf) (j : nat) :
  (forall idx, (idx < S jr * (m_numComponents s))%nat -> m idx = m' idx) ->
  (j < jr)%nat ->
  dot_rows s m jr j = dot_rows s' m' jr j.
Proof.
  intros H Hj. unfold dot_rows. rewrite same_nc.
  apply (fold_left_rel eq); [|reflexivity].
  intros a a' i Hi ->. apply in_seq in Hi.
  rewrite !H; [reflexivity| |]; simpl; nia.
Qed.

Lemma b64_coeffs_spec (t : VCS_SOLVE) (w : work) (jl j : nat) :
  coeffs t w jr jl j =
  if (j <? jl)%nat then dot_rows t (sm w) jr j / sa w j else ss w j.
Proof.
  unfold coeffs.
  pose proof (b64_bfill (fun j => dot_rows t (sm w) jr j / sa w j) 0 jl 0 (ss w) j) as H.
  simpl in H. rewrite Nat.add_0_r, Nat.sub_0_r in H.
  rewrite <- H.
  assert (E : forall i,
             fold_left (fun c j => bset c j (dot_rows t (sm w) jr j / sa w j))
                       (seq 0 jl) (ss w) i =
             fold_left (fun m j => bset m (j + 0) (dot_rows t (sm w) jr j / sa w j))
                       (seq 0 jl) (ss w) i).
  { apply (fold_left_rel (fun a a' : buf => forall i, a i = a' i));
      [|reflexivity].
    intros a a' x _ Ha i. rewrite Nat.add_0_r. unfold bset.
    destruct (Nat.eqb i x); [reflexivity | apply Ha]. }
  apply E.
Qed.

Lemma b64_orthogonalize_agree (c c' m m' : buf) (jl : nat) :
  (jl <= jr)%nat ->
  (forall j, (j < jl)%nat -> c j = c' j) ->
  (forall idx, (idx < S jr * (m_numComponents s))%nat -> m idx = m' idx) ->
  forall idx, (idx < S jr * (m_numComponents s))%nat ->
    orthogonalize s c jr jl m idx = orthogonalize s' c' jr jl m' idx.
Proof.
  intros Hjl Hc Hm. unfold orthogonalize. rewrite same_nc.
  apply (fold_left_rel
           (fun a a' : buf => forall idx, (idx < S jr * (m_numComponents s))%nat -> a idx = a' idx));
    [|exact Hm].
  intros a a' j Hj Ha. apply in_seq in Hj.
  apply (fold_left_rel
           (fun a a' : buf => forall idx, (idx < S jr * (m_numComponents s))%nat -> a idx = a' idx));
    [|exact Ha].
  intros b b' l Hl Hb idx Hidx. apply in_seq in Hl.
  unfold bset. destruct (Nat.eqb idx (l + jr * (m_numComponents s))); [|apply Hb; exact Hidx].
  rewrite Hc by lia. rewrite !Hb; [reflexivity| |]; simpl; nia.
Qed.

Lemma b64_norm2_agree (m m' : buf) :
  (forall idx, (idx < S jr * (m_numComponents s))%nat -> m idx = m' idx) ->
  norm2 s m jr = norm2 s' m' jr.
Proof.
  intro H. unfold norm2. rewrite same_nc.
  apply (fold_left_rel eq); [|reflexivity].
  intros a a' i Hi ->. apply in_seq in Hi.
  rewrite H; [reflexivity|]. simpl; nia.
Qed.

Lemma b64_trial_agree (test test' : float) (w w' : work) :
  agree (m_numComponents s) jr w w' ->
  agree (m_numComponents s) (S jr) (trial s k jr test w) (trial s' k' jr test' w').
Proof.
  intros [Hsm Hsa].
  pose proof (b64_fill_row_agree (sm w) (sm w') Hsm) as Hfill.
  assert (Hm : forall idx, (idx < S jr * (m_numComponents s))%nat ->
               sm (trial s k jr test w) idx = sm (trial s' k' jr test' w') idx).
  { rewrite !b64_trial_sm. destruct (Nat.ltb 0 jr); [|exact Hfill].
    apply b64_orthogonalize_agree; [lia| |exact Hfill].
    intros j Hj. rewrite !b64_coeffs_spec. simpl.
    pose proof Hj as Hj'. apply Nat.ltb_lt in Hj'. rewrite Hj'.
    rewrite (b64_dot_rows_agree _ _ j Hfill Hj). rewrite Hsa by assumption.
    reflexivity. }
  split; [exact Hm|].
  intros j Hj. rewrite !b64_trial_sa.
  destruct (Nat.eqb j jr) eqn:E.
  - apply b64_norm2_agree. exact Hm.
  - apply Nat.eqb_neq in E. apply Hsa. lia.
Qed.

End TrialAgree.

Lemma b64_agree_trans (nc n : nat) (w1 w2 w3 : work) :
  agree nc n w1 w2 -> agree nc n w2 w3 -> agree nc n w1 w3.
Proof.
  intros [A1 A2] [B1 B2]. split; intros; [rewrite A1, B1 | rewrite A2, B2]; auto.
Qed.

Lemma b64_chain_sa_stable (s : VCS_SOLVE) (n j : nat) :
  (j < n)%nat -> sa (chain s n) j = sa (chain s (S j)) j.
Proof.
  induction n as [|n IH]; intro H; [lia|].
  destruct (Nat.eq_dec j n) as [->|Hne]; [reflexivity|].
  rewrite <- IH by lia.
  change (chain s (S n)) with (trial s n n 0 (chain s n)). rewrite b64_trial_sa.
  replace (Nat.eqb j n) with false by (symmetry; apply Nat.eqb_neq; lia).
  reflexivity.
Qed.

Lemma b64_active_prefix_nth (s : VCS_SOLVE) (n j : nat) :
  active_prefix s n = true -> (j < n)%nat -> nth j (ElActive s) false = true.
Proof.
  unfold active_prefix. rewrite forallb_forall. intros H Hj.
  apply H. apply in_seq. lia.
Qed.

(** ** No exchange when the first rows are accepted as they stand *)

Lemma b64_rearrange_loop_S (success : Z) (fuel : nat) (test : float) (jr : nat)
    (w : work) (s : VCS_SOLVE) :
  rearrange_loop success (S fuel) test jr w s =
  let k := find_k s (aw w) test (seq jr (m_numElemConstraints s - jr)) in
  if Nat.eqb k (m_numElemConstraints s) then Some (Exit (-1)%Z)
  else
    let w1 := trial s k jr test w in
    if PrimFloat.ltb (sa w1 jr) 1.0e-6%float then rearrange_loop success fuel test jr w1 s
    else
      let s1 := if Nat.eqb jr k then s else vcs_switch_elem_pos jr k s in
      let w2 := if Nat.eqb jr k then w1
                else mkWork (bsw (aw w1) jr k) (sa w1) (sm w1) (ss w1) in
      if Nat.ltb (S jr) (m_numComponents s)
      then rearrange_loop success fuel test (S jr) w2 s1
      else Some (Ok success s1).
Proof. reflexivity. Qed.

Lemma b64_find_k_head (s : VCS_SOLVE) (a : buf) (test : float) (jr : nat) :
  (jr < m_numElemConstraints s)%nat ->
  nth jr (ElActive s) false = true -> neb (a jr) test = true ->
  find_k s a test (seq jr (m_numElemConstraints s - jr)) = jr.
Proof.
  intros Hjr Hact Hne.
  replace (m_numElemConstraints s - jr)%nat
    with (S (m_numElemConstraints s - S jr)) by lia.
  simpl. rewrite Hact. rewrite Hne. reflexivity.
Qed.

(** ** Rows that a trial leaves alone *)

Lemma b64_orthogonalize_outside (s : VCS_SOLVE) (c : buf) (jr jl : nat) (m : buf)
    (idx : nat) :
  (idx < jr * m_numComponents s)%nat ->
  orthogonalize s c jr jl m idx = m idx.
Proof.
  intro H. unfold orthogonalize.
  apply (fold_left_inv (fun a : buf => a idx = m idx)); [|reflexivity].
  intros a j _ Ha.
  apply (fold_left_inv (fun a : buf => a idx = m idx)); [|exact Ha].
  intros b l _ Hb. rewrite b64_bset_ne by lia. exact Hb.
Qed.

Lemma b64_trial_keeps (s : VCS_SOLVE) (k jr : nat) (test : float) (w : work) :
  agree (m_numComponents s) jr (trial s k jr test w) w.
Proof.
  split.
  - intros idx Hidx. rewrite b64_trial_sm.
    assert (Hf : fill_row s k jr (sm w) idx = sm w idx).
    { rewrite b64_fill_row_spec.
      replace (jr * m_numComponents s <=? idx)%nat with false
        by (symmetry; apply Nat.leb_gt; lia).
      reflexivity. }
    destruct (Nat.ltb 0 jr); [|exact Hf].
    rewrite b64_orthogonalize_outside by assumption. exact Hf.
  - intros j Hj. rewrite b64_trial_sa.
    replace (Nat.eqb j jr) with false by (symmetry; apply Nat.eqb_neq; lia).
    reflexivity.
Qed.

Lemma b64_chain_agree_rows (s s' : VCS_SOLVE) (n : nat) :
  m_numComponents s' = m_numComponents s ->
  (forall i j, (i < n)%nat -> (j < m_numComponents s)%nat ->
               FM s' i j = FM s i j) ->
  agree (m_numComponents s) n (chain s n) (chain s' n).
Proof.
  intros Hnc. induction n as [|n IH]; intro H.
  - split; intros; lia.
  - change (chain s (S n)) with (trial s n n 0 (chain s n)).
    change (chain s' (S n)) with (trial s' n n 0 (chain s' n)).
    apply b64_trial_agree; auto.
Qed.

Lemma b64_active_prefix_intro (s : VCS_SOLVE) (n : nat) :
  (forall j, (j < n)%nat -> nth j (ElActive s) false = true) ->
  active_prefix s n = true.
Proof.
  intro H. unfold active_prefix. apply forallb_forall.
  intros j Hj. apply in_seq in Hj. apply H. lia.
Qed.

(** ** What the trial leaves in its row *)

Lemma b64_rows_apart (nc j jr : nat) : (j < jr)%nat -> (j * nc + nc <= jr * nc)%nat.
Proof.
  intro H. replace (j * nc + nc)%nat with (S j * nc)%nat by (simpl; lia).
  apply Nat.mul_le_mono_r. lia.
Qed.

(** The innermost loop of the orthogonalisation: row [jr] loses [c] times
    row [j]. *)
Lemma b64_orthogonalize_inner (nc jr j : nat) (c : float) :
  (j < jr)%nat ->
  forall (n a : nat) (m : buf) (idx : nat),
  (a + n <= nc)%nat ->
  fold_left (fun m l => bset m (l + jr * nc)
                          (m (l + jr * nc)%nat - c * m (l + j * nc)%nat))
            (seq a n) m idx =
  if (a + jr * nc <=? idx)%nat && (idx <? a + n + jr * nc)%nat
  then m idx - c * m (idx - jr * nc + j * nc)%nat else m idx.
Proof.
  intro Hj. pose proof (b64_rows_apart nc j jr Hj) as Hap.
  induction n as [|n IH]; intros a m idx Han; simpl.
  - replace ((a + jr * nc <=? idx)%nat && (idx <? a + 0 + jr * nc)%nat) with false;
      [reflexivity|].
    symmetry. apply andb_false_iff.
    destruct (Nat.le_gt_cases (a + jr * nc) idx);
      [right; apply Nat.ltb_ge; lia | left; apply Nat.leb_gt; lia].
  - rewrite IH by lia.
    destruct (Nat.eq_dec idx (a + jr * nc)) as [->|Hne].
    + replace (S a + jr * nc <=? a + jr * nc)%nat with false
        by (symmetry; apply Nat.leb_gt; lia).
      replace (a + jr * nc <=? a + jr * nc)%nat with true
        by (symmetry; apply Nat.leb_le; lia).
      replace (a + jr * nc <? a + S n + jr * nc)%nat with true
        by (symmetry; apply Nat.ltb_lt; lia).
      cbn [andb]. rewrite b64_bset_eq.
      replace (a + jr * nc - jr * nc + j * nc)%nat with (a + j * nc)%nat by lia.
      reflexivity.
    + rewrite b64_bset_ne by exact Hne.
      destruct ((S a + jr * nc <=? idx)%nat && (idx <? S a + n + jr * nc)%nat) eqn:E.
      * apply andb_true_iff in E. destruct E as [E1 E2].
        apply Nat.leb_le in E1. apply Nat.ltb_lt in E2.
        replace ((a + jr * nc <=? idx)%nat && (idx <? a + S n + jr * nc)%nat)
          with true
          by (symmetry; apply andb_true_iff; split;
              [apply Nat.leb_le; lia | apply Nat.ltb_lt; lia]).
        rewrite b64_bset_ne by lia. reflexivity.
      * replace ((a + jr * nc <=? idx)%nat && (idx <? a + S n + jr * nc)%nat)
          with false; [reflexivity|].
        symmetry. apply andb_false_iff. apply andb_false_iff in E.
        destruct E as [E|E].
        -- apply Nat.leb_gt in E. left. apply Nat.leb_gt. lia.
        -- apply Nat.ltb_ge in E. right. apply Nat.ltb_ge. lia.
Qed.

Lemma b64_orthogonalize_row (s : VCS_SOLVE) (c : buf) (jr jl : nat) (m : buf) (l : nat) :
  (jl <= jr)%nat -> (l < m_numComponents s)%nat ->
  orthogonalize s c jr jl m (l + jr * m_numComponents s)%nat =
  fold_left (fun acc j => acc - c j * m (l + j * m_numComponents s)%nat)
            (seq 0 jl) (m (l + jr * m_numComponents s)%nat).
Proof.
  intros Hjl Hl. induction jl as [|jl IH]; [reflexivity|].
  unfold orthogonalize in *. rewrite seq_S, !fold_left_app. cbn [fold_left plus].
  rewrite (b64_orthogonalize_inner (m_numComponents s) jr jl (c jl))
    by (simpl; lia).
  replace ((0 + jr * m_numComponents s <=? l + jr * m_numComponents s)%nat &&
           (l + jr * m_numComponents s <?
            0 + m_numComponents s + jr * m_numComponents s)%nat) with true
    by (symmetry; apply andb_true_iff; split;
        [apply Nat.leb_le; lia | apply Nat.ltb_lt; lia]).
  rewrite IH by lia.
  replace (l + jr * m_numComponents s - jr * m_numComponents s
           + jl * m_numComponents s)%nat
    with (l + jl * m_numComponents s)%nat by lia.
  f_equal. f_equal.
  pose proof (b64_rows_apart (m_numComponents s) jl jr) as Hap.
  apply (b64_orthogonalize_outside s c jr jl m). lia.
Qed.

Lemma b64_chain_sm_stable (s : VCS_SOLVE) (n j idx : nat) :
  (j < n)%nat -> (idx < S j * m_numComponents s)%nat ->
  sm (chain s n) idx = sm (chain s (S j)) idx.
Proof.
  induction n as [|n IH]; intros H Hidx; [lia|].
  destruct (Nat.eq_dec j n) as [->|Hne]; [reflexivity|].
  rewrite <- IH by lia.
  change (chain s (S n)) with (trial s n n 0 (chain s n)).
  apply (b64_trial_keeps s n n 0 (chain s n)).
  assert (S j * m_numComponents s <= n * m_numComponents s)%nat
    by (apply Nat.mul_le_mono_r; lia).
  lia.
Qed.

Lemma b64_filled_row (s : VCS_SOLVE) (n l : nat) :
  (l < m_numComponents s)%nat ->
  fill_row s n n (sm (chain s n)) (l + n * m_numComponents s)%nat = FM s n l.
Proof.
  intro Hl. rewrite b64_fill_row_spec.
  replace ((n * m_numComponents s <=? l + n * m_numComponents s)%nat &&
           (l + n * m_numComponents s <? m_numComponents s + n * m_numComponents s)%nat)
    with true
    by (symmetry; apply andb_true_iff; split;
        [apply Nat.leb_le; lia | apply Nat.ltb_lt; lia]).
  f_equal. lia.
Qed.

(** ** The acceptance test as a Gram-Schmidt process *)

Lemma b64_fold_left_map {A B C : Type} (f : A -> B -> A) (g : C -> B)
    (l : list C) (a : A) :
  fold_left f (map g l) a = fold_left (fun a x => f a (g x)) l a.
Proof. revert a; induction l as [|x l IH]; intro a; simpl; auto. Qed.

Lemma b64_list_as_map {A : Type} (d : A) (l : list A) :
  l = map (fun j => nth j l d) (seq 0 (length l)).
Proof.
  induction l as [|x l IH]; [reflexivity|].
  cbn [length seq map nth]. f_equal.
  rewrite <- seq_shift, map_map. exact IH.
Qed.

Lemma b64_gram_length (s : VCS_SOLVE) (n : nat) : length (gram s n) = n.
Proof.
  induction n as [|n IH]; [reflexivity|].
  cbn [gram]. rewrite length_app, IH. simpl. lia.
Qed.

Lemma b64_gram_stable (s : VCS_SOLVE) (n j : nat) (d : (nat -> float) * float) :
  (j < n)%nat -> nth j (gram s n) d = nth j (gram s (S j)) d.
Proof.
  induction n as [|n IH]; intro H; [lia|].
  destruct (Nat.eq_dec j n) as [->|Hne]; [reflexivity|].
  rewrite <- IH by lia. cbn [gram].
  apply app_nth1. rewrite b64_gram_length. lia.
Qed.

Lemma b64_gram_last (s : VCS_SOLVE) (n : nat) (d : (nat -> float) * float) :
  nth n (gram s (S n)) d =
  (residual (m_numComponents s) (gram s n) (fun l => FM s n l),
   dot (m_numComponents s)
       (residual (m_numComponents s) (gram s n) (fun l => FM s n l))
       (residual (m_numComponents s) (gram s n) (fun l => FM s n l))).
Proof.
  cbn [gram]. rewrite app_nth2 by (rewrite b64_gram_length; lia).
  rewrite b64_gram_length, Nat.sub_diag. reflexivity.
Qed.

(** The row [r] less its projections, entry by entry. *)
Lemma b64_residual_entry (nc : nat) (qs : list ((nat -> float) * float))
    (r : nat -> float) (d : (nat -> float) * float) (l : nat) :
  residual nc qs r l =
  fold_left (fun acc j => acc - dot nc r (fst (nth j qs d)) / snd (nth j qs d)
                                * fst (nth j qs d) l)
            (seq 0 (length qs)) (r l).
Proof.
  unfold residual.
  assert (E : forall (L : list (float * ((nat -> float) * float))) (r0 : nat -> float),
             fold_left (fun r' cq => fun l => r' l - fst cq * fst (snd cq) l) L r0 l =
             fold_left (fun acc cq => acc - fst cq * fst (snd cq) l) L (r0 l)).
  { induction L as [|x L IH]; intro r0; simpl; [reflexivity|]. apply IH. }
  rewrite E.
  assert (Ec : combine (map (fun qa => dot nc r (fst qa) / snd qa) qs) qs =
               map (fun qa => (dot nc r (fst qa) / snd qa, qa)) qs).
  { clear. induction qs as [|q qs IH]; simpl; [reflexivity|]. now rewrite IH. }
  rewrite Ec. rewrite (b64_list_as_map d qs) at 1.
  rewrite map_map, b64_fold_left_map. reflexivity.
Qed.

(** What the trials of the rows in their present order leave in [sm] and
    [sa] is what the Gram-Schmidt process makes of the rows. *)
Lemma b64_chain_gram (s : VCS_SOLVE) (d : (nat -> float) * float) (n : nat) :
  forall j, (j < n)%nat ->
    sa (chain s n) j = snd (nth j (gram s n) d) /\
    forall l, (l < m_numComponents s)%nat ->
      sm (chain s n) (l + j * m_numComponents s)%nat = fst (nth j (gram s n) d) l.
Proof.
  induction n as [|n IH]; intros j Hj; [lia|].
  destruct (Nat.eq_dec j n) as [->|Hne].
  - assert (Hrow : forall l, (l < m_numComponents s)%nat ->
              sm (chain s (S n)) (l + n * m_numComponents s)%nat =
              residual (m_numComponents s) (gram s n) (fun l => FM s n l) l).
    { intros l Hl.
      change (chain s (S n)) with (trial s n n 0 (chain s n)). rewrite b64_trial_sm.
      rewrite (b64_residual_entry _ _ _ d), b64_gram_length.
      destruct n as [|n].
      - cbn [Nat.ltb Nat.leb]. rewrite b64_filled_row by exact Hl. reflexivity.
      - replace (0 <? S n)%nat with true by reflexivity.
        rewrite b64_orthogonalize_row by (auto; lia).
        rewrite b64_filled_row by exact Hl.
        apply fold_left_ext_in. intros a i Hi. apply in_seq in Hi.
        assert (Hq : forall l', (l' < m_numComponents s)%nat ->
                  fill_row s (S n) (S n) (sm (chain s (S n)))
                           (l' + i * m_numComponents s)%nat =
                  fst (nth i (gram s (S n)) d) l').
        { intros l' Hl'.
          pose proof (b64_rows_apart (m_numComponents s) i (S n)) as Hap.
          rewrite b64_fill_row_spec.
          replace (S n * m_numComponents s <=? l' + i * m_numComponents s)%nat
            with false by (symmetry; apply Nat.leb_gt; lia).
          cbn [andb]. apply (IH i); lia. }
        rewrite Hq by exact Hl. f_equal. f_equal.
        rewrite b64_coeffs_spec.
        replace (i <? S n)%nat with true by (symmetry; apply Nat.ltb_lt; lia).
        cbn [sm sa]. f_equal.
        + unfold dot_rows, dot. apply fold_left_ext_in.
          intros a' l' Hl'. apply in_seq in Hl'.
          rewrite b64_filled_row, Hq by lia. reflexivity.
        + apply (IH i). lia. }
    rewrite b64_gram_last. cbn [fst snd]. split; [|exact Hrow].
    change (chain s (S n)) with (trial s n n 0 (chain s n)) at 1.
    rewrite b64_trial_sa, Nat.eqb_refl.
    change (trial s n n 0 (chain s n)) with (chain s (S n)).
    unfold norm2, dot, SQUARE. apply fold_left_ext_in.
    intros a l Hl. apply in_seq in Hl. rewrite Hrow by lia. reflexivity.
  - assert (Hj' : (j < n)%nat) by lia.
    destruct (IH j Hj') as [H1 H2].
    rewrite (b64_gram_stable s (S n) j d) by lia.
    rewrite <- (b64_gram_stable s n j d) by lia.
    split.
    + rewrite (b64_chain_sa_stable s (S n) j) by lia.
      rewrite <- (b64_chain_sa_stable s n j) by lia. exact H1.
    + intros l Hl.
      rewrite (b64_chain_sm_stable s (S n) j) by (try lia; simpl; lia).
      rewrite <- (b64_chain_sm_stable s n j) by (try lia; simpl; lia).
      apply H2. exact Hl.
Qed.

Lemma b64_chain_sa_norm (s : VCS_SOLVE) (j : nat) :
  sa (chain s (S j)) j = residual_norm2 s j.
Proof.
  unfold residual_norm2.
  apply (b64_chain_gram s (fun _ => 0, 0) (S j) j). lia.
Qed.

Lemma b64_accepted_prefix_nth (s : VCS_SOLVE) (n j : nat) :
  accepted_prefix s n = true -> (j < n)%nat ->
  PrimFloat.ltb (sa (chain s (S j)) j) 1.0e-6 = false.
Proof.
  unfold accepted_prefix. rewrite forallb_forall. intros H Hj.
  specialize (H j). rewrite in_seq in H.
  rewrite b64_chain_sa_norm.
  apply negb_true_iff. apply H. lia.
Qed.

Lemma b64_accepted_prefix_intro (s : VCS_SOLVE) (n : nat) :
  (forall j, (j < n)%nat -> PrimFloat.ltb (sa (chain s n) j) 1.0e-6 = false) ->
  accepted_prefix s n = true.
Proof.
  intro H. unfold accepted_prefix. apply forallb_forall.
  intros j Hj. apply in_seq in Hj. unfold passes.
  rewrite <- b64_chain_sa_norm, <- (b64_chain_sa_stable s n j) by lia.
  rewrite H by lia. reflexivity.
Qed.

Lemma b64_accepted_prefix_elim (s : VCS_SOLVE) (n j : nat) :
  accepted_prefix s n = true -> (j < n)%nat ->
  PrimFloat.ltb (sa (chain s n) j) 1.0e-6 = false.
Proof.
  intros H Hj. rewrite (b64_chain_sa_stable s n j Hj).
  eapply b64_accepted_prefix_nth; eassumption.
Qed.

Lemma b64_accepted_prefix_needs_component (s : VCS_SOLVE) :
  m_numComponents s = 0%nat -> accepted_prefix s 1 = false.
Proof.
  intro H. unfold accepted_prefix.
  change (seq 0 1) with [0%nat]. unfold forallb, passes.
  rewrite <- b64_chain_sa_norm.
  change (chain s 1) with (trial s 0 0 0 zero_work).
  rewrite b64_trial_sa. rewrite Nat.eqb_refl.
  unfold norm2. rewrite H. reflexivity.
Qed.

(** ** No exchange when the first rows are accepted as they stand *)

Section NoSwap.
Variable success : Z.
Variable s : VCS_SOLVE.
Variable test : float.
Hypothesis comps_le : (m_numComponents s <= m_numElemConstraints s)%nat.
Hypothesis act : active_prefix s (m_numComponents s) = true.
Hypothesis acc : accepted_prefix s (m_numComponents s) = true.

Lemma b64_no_swap_step (jr fuel : nat) (w : work) :
  (jr < m_numComponents s)%nat ->
  agree (m_numComponents s) jr w (chain s jr) ->
  neb (aw w jr) test = true ->
  agree (m_numComponents s) (S jr) (trial s jr jr test w) (chain s (S jr)) /\
  rearrange_loop success (S fuel) test jr w s =
    (if Nat.ltb (S jr) (m_numComponents s)
     then rearrange_loop success fuel test (S jr) (trial s jr jr test w) s
     else Some (Ok success s)).
Proof.
  intros Hjr Hag Haw.
  pose proof (b64_trial_agree s s jr jr jr eq_refl (fun j _ => eq_refl)
                test 0 w (chain s jr) Hag) as Hag'.
  change (trial s jr jr 0 (chain s jr)) with (chain s (S jr)) in Hag'.
  split; [exact Hag'|].
  rewrite b64_rearrange_loop_S.
  rewrite b64_find_k_head;
    [|lia|apply (b64_active_prefix_nth s _ jr act); lia|exact Haw].
  cbv zeta.
  replace (Nat.eqb jr (m_numElemConstraints s)) with false
    by (symmetry; apply Nat.eqb_neq; lia).
  destruct Hag' as [_ Hsa]. rewrite (Hsa jr) by lia.
  rewrite (b64_accepted_prefix_nth s _ jr acc) by lia.
  rewrite Nat.eqb_refl. reflexivity.
Qed.

Lemma b64_no_swap_loop (n : nat) :
  forall (jr fuel : nat) (w : work),
  (jr + S n = m_numComponents s)%nat -> (S n <= fuel)%nat ->
  agree (m_numComponents s) jr w (chain s jr) ->
  (forall j, (jr <= j < m_numComponents s)%nat -> neb (aw w j) test = true) ->
  rearrange_loop success fuel test jr w s = Some (Ok success s).
Proof.
  induction n as [|n IH]; intros jr fuel w Hjr Hfuel Hag Haw;
    (destruct fuel as [|fuel]; [lia|]);
    destruct (b64_no_swap_step jr fuel w) as [Hag' ->]; auto; try lia;
    try (apply Haw; lia).
  - replace (Nat.ltb (S jr) (m_numComponents s)) with false
      by (symmetry; apply Nat.ltb_ge; lia).
    reflexivity.
  - replace (Nat.ltb (S jr) (m_numComponents s)) with true
      by (symmetry; apply Nat.ltb_lt; lia).
    apply IH; try lia.
    + exact Hag'.
    + intros j Hj. rewrite b64_trial_aw. rewrite b64_bset_ne by lia. apply Haw. lia.
Qed.

End NoSwap.

(** ** Accepted rows stay accepted *)

Section Accepts.
Variable success : Z.

Lemma b64_accept_step (s : VCS_SOLVE) (test : float) (jr k : nat) (w : work) :
  wf_elem s ->
  (m_numComponents s <= m_numSpeciesTot s)%nat ->
  (jr <= k < m_numElemConstraints s)%nat ->
  nth k (ElActive s) false = true ->
  agree (m_numComponents s) jr w (chain s jr) ->
  accepted_prefix s jr = true -> active_prefix s jr = true ->
  PrimFloat.ltb (sa (trial s k jr test w) jr) 1.0e-6%float = false ->
  let s1 := if Nat.eqb jr k then s else vcs_switch_elem_pos jr k s in
  let w1 := trial s k jr test w in
  let w2 := if Nat.eqb jr k then w1
            else mkWork (bsw (aw w1) jr k) (sa w1) (sm w1) (ss w1) in
  wf_elem s1 /\
  m_numElemConstraints s1 = m_numElemConstraints s /\
  m_numComponents s1 = m_numComponents s /\
  m_numSpeciesTot s1 = m_numSpeciesTot s /\
  agree (m_numComponents s1) (S jr) w2 (chain s1 (S jr)) /\
  accepted_prefix s1 (S jr) = true /\ active_prefix s1 (S jr) = true.
Proof.
  intros W Hcs Hk Hka Hag Hacc Hact Hok s1 w1 w2.
  assert (Hs1 : wf_elem s1 /\ repositioned (transp jr k) s s1).
  { unfold s1. destruct (Nat.eqb jr k) eqn:E.
    - apply Nat.eqb_eq in E. split; [exact W|].
      rewrite <- E. unfold repositioned. repeat split; rewrite ?transp_same; auto.
    - split; [apply b64_switch_wf | apply b64_switch_repositioned]; auto; lia. }
  destruct Hs1 as [W1 (HE & Hnc & HS & Hpos)].
  assert (Hfix : forall p, (p < jr)%nat -> transp jr k p = p).
  { intros p Hp. unfold transp.
    replace (Nat.eqb p jr) with false by (symmetry; apply Nat.eqb_neq; lia).
    replace (Nat.eqb p k) with false by (symmetry; apply Nat.eqb_neq; lia).
    reflexivity. }
  assert (Hjrk : transp jr k jr = k) by (unfold transp; now rewrite Nat.eqb_refl).
  assert (HFM : forall i j, (i < jr)%nat -> (j < m_numComponents s)%nat ->
                            FM s1 i j = FM s i j).
  { intros i j Hi Hj. destruct (Hpos i) as (_ & _ & _ & _ & HF).
    rewrite HF by lia. now rewrite Hfix. }
  assert (HFMk : forall j, (j < m_numComponents s)%nat -> FM s1 jr j = FM s k j).
  { intros j Hj. destruct (Hpos jr) as (_ & _ & _ & _ & HF).
    rewrite HF by lia. now rewrite Hjrk. }
  pose proof (b64_chain_agree_rows s s1 jr Hnc HFM) as Hch.
  pose proof (b64_trial_agree s s1 k jr jr Hnc HFMk test 0 w (chain s1 jr)
                (b64_agree_trans _ _ _ _ _ Hag Hch)) as Hag1.
  change (trial s1 jr jr 0 (chain s1 jr)) with (chain s1 (S jr)) in Hag1.
  fold w1 in Hag1.
  split; [exact W1|]. split; [exact HE|]. split; [exact Hnc|].
  split; [exact HS|]. split; [|split].
  - rewrite Hnc. unfold w2. destruct (Nat.eqb jr k); exact Hag1.
  - apply b64_accepted_prefix_intro. intros j Hj.
    destruct Hag1 as [_ Hsa]. rewrite <- Hsa by assumption.
    destruct (Nat.eq_dec j jr) as [->|Hne]; [exact Hok|].
    unfold w1. rewrite b64_trial_sa.
    replace (Nat.eqb j jr) with false by (symmetry; apply Nat.eqb_neq; lia).
    destruct Hag as [_ Hsa0]. rewrite Hsa0 by lia.
    apply b64_accepted_prefix_elim; [exact Hacc | lia].
  - apply b64_active_prefix_intro. intros j Hj.
    destruct (Hpos j) as (_ & _ & HA & _). rewrite HA.
    destruct (Nat.eq_dec j jr) as [->|Hne].
    + rewrite Hjrk. exact Hka.
    + rewrite Hfix by lia. apply (b64_active_prefix_nth s jr); [exact Hact | lia].
Qed.

Lemma b64_rearrange_loop_accepts (fuel : nat) :
  forall (test : float) (jr : nat) (w : work) (s : VCS_SOLVE) (r : result Z),
  wf_elem s ->
  (m_numComponents s <= m_numSpeciesTot s)%nat ->
  (jr < Nat.max 1 (m_numComponents s))%nat ->
  agree (m_numComponents s) jr w (chain s jr) ->
  accepted_prefix s jr = true -> active_prefix s jr = true ->
  rearrange_loop success fuel test jr w s = Some r ->
  r = Exit (-1)%Z \/
  exists s', r = Ok success s' /\
             (Nat.max 1 (m_numComponents s) <= m_numElemConstraints s)%nat /\
             m_numComponents s' = m_numComponents s /\
             accepted_prefix s' (Nat.max 1 (m_numComponents s)) = true /\
             active_prefix s' (Nat.max 1 (m_numComponents s)) = true.
Proof.
  induction fuel as [|fuel IH]; intros test jr w s r W Hcs Hjr Hag Hacc Hact;
    [discriminate|].
  rewrite b64_rearrange_loop_S. cbv zeta.
  pose proof (b64_find_k_range s (aw w) test jr (m_numElemConstraints s - jr)) as Hk.
  cbv zeta in Hk.
  set (k := find_k s (aw w) test (seq jr (m_numElemConstraints s - jr))) in *.
  destruct (Nat.eqb k (m_numElemConstraints s)) eqn:Ek.
  { intro H. inversion H. left. reflexivity. }
  apply Nat.eqb_neq in Ek.
  destruct Hk as [Hk|(Hk & Hka & _)]; [contradiction|].
  destruct (PrimFloat.ltb (sa (trial s k jr test w) jr) 1.0e-6%float) eqn:Eacc.
  { apply IH; auto.
    eapply b64_agree_trans; [apply b64_trial_keeps | exact Hag]. }
  destruct (b64_accept_step s test jr k w W Hcs)
    as (W1 & HE & Hnc & HS & Hag1 & Hacc1 & Hact1); auto; try lia.
  destruct (Nat.ltb (S jr) (m_numComponents s)) eqn:Enext.
  - apply Nat.ltb_lt in Enext. intro H.
    assert (Hcs1 : (m_numComponents
                      (if Nat.eqb jr k then s else vcs_switch_elem_pos jr k s)
                    <= m_numSpeciesTot
                      (if Nat.eqb jr k then s else vcs_switch_elem_pos jr k s))%nat)
      by (rewrite Hnc, HS; exact Hcs).
    assert (Hjr1 : (S jr < Nat.max 1 (m_numComponents
                      (if Nat.eqb jr k then s else vcs_switch_elem_pos jr k s)))%nat)
      by (rewrite Hnc; lia).
    destruct (IH _ _ _ _ _ W1 Hcs1 Hjr1 Hag1 Hacc1 Hact1 H)
      as [Hr|(s' & H1 & H0 & H2 & H3 & H4)]; [left; exact Hr|].
    right. exists s'. rewrite Hnc, HE in *. auto.
  - apply Nat.ltb_ge in Enext. intro H. inversion H. right.
    eexists. split; [reflexivity|].
    replace (Nat.max 1 (m_numComponents s)) with (S jr) by lia.
    split; [lia|]. auto.
Qed.

End Accepts.

(** ** The search of vcs_elem_rearrange ends *)

Lemma b64_marks_left_bset (n k : nat) (a : buf) (test : float) :
  PrimFloat.eqb test test = true ->
  (k < n)%nat -> neb (a k) test = true ->
  marks_left n a test = S (marks_left n (bset a k test) test).
Proof.
  intros Ht Hk Hne. unfold marks_left.
  apply (count_flip _ _ k).
  - apply seq_NoDup.
  - apply in_seq. lia.
  - intros i Hi. rewrite b64_bset_ne by assumption. reflexivity.
  - exact Hne.
  - rewrite b64_bset_eq. unfold neb. rewrite Ht. reflexivity.
Qed.

Lemma b64_marks_left_bsw (n jr k : nat) (a : buf) (test : float) :
  (jr < n)%nat -> (k < n)%nat -> jr <> k -> neb (a k) test = false ->
  marks_left n (bsw a jr k) test = marks_left n a test.
Proof.
  intros Hjr Hk Hne Hak. unfold marks_left, bsw.
  pose proof Hak as Hk0.
  destruct (neb (a jr) test) eqn:Ejr.
  - rewrite (count_flip (fun i => neb (a i) test)
               (fun i => if Nat.eqb i jr then false else neb (a i) test) jr);
      [|apply seq_NoDup|apply in_seq; lia| | |].
    + apply (count_flip _ _ k).
      * apply seq_NoDup.
      * apply in_seq. lia.
      * intros i Hi. unfold bset.
        replace (Nat.eqb i k) with false by (symmetry; apply Nat.eqb_neq; lia).
        destruct (Nat.eqb i jr); [symmetry; exact Hk0 | reflexivity].
      * unfold bset. rewrite Nat.eqb_refl. exact Ejr.
      * replace (Nat.eqb k jr) with false by (symmetry; apply Nat.eqb_neq; lia).
        exact Hk0.
    + intros i Hi.
      replace (Nat.eqb i jr) with false by (symmetry; apply Nat.eqb_neq; lia).
      reflexivity.
    + exact Ejr.
    + now rewrite Nat.eqb_refl.
  - f_equal. apply filter_ext_in. intros i _. unfold bset.
    destruct (Nat.eqb i k) eqn:E1.
    + apply Nat.eqb_eq in E1. subst i. rewrite Ejr, Hk0. reflexivity.
    + destruct (Nat.eqb i jr) eqn:E2; [|reflexivity].
      apply Nat.eqb_eq in E2. subst i. rewrite Ejr, Hk0. reflexivity.
Qed.

Lemma b64_rearrange_loop_total (success : Z) (fuel : nat) :
  forall (test : float) (jr : nat) (w : work) (s : VCS_SOLVE),
  PrimFloat.eqb test test = true ->
  (marks_left (m_numElemConstraints s) (aw w) test < fuel)%nat ->
  rearrange_loop success fuel test jr w s <> None.
Proof.
  induction fuel as [|fuel IH]; intros test jr w s Ht Hf; [lia|].
  rewrite b64_rearrange_loop_S. cbv zeta.
  pose proof (b64_find_k_range s (aw w) test jr (m_numElemConstraints s - jr)) as Hk.
  cbv zeta in Hk.
  set (k := find_k s (aw w) test (seq jr (m_numElemConstraints s - jr))) in *.
  destruct (Nat.eqb k (m_numElemConstraints s)) eqn:Ek; [discriminate|].
  apply Nat.eqb_neq in Ek.
  destruct Hk as [Hk|(Hk & _ & Hne)]; [contradiction|].
  assert (Hm : marks_left (m_numElemConstraints s) (aw w) test =
               S (marks_left (m_numElemConstraints s)
                             (aw (trial s k jr test w)) test)).
  { rewrite b64_trial_aw. apply b64_marks_left_bset; [exact Ht | lia | exact Hne]. }
  destruct (PrimFloat.ltb _ _).
  { apply IH; [exact Ht | lia]. }
  destruct (Nat.ltb (S jr) (m_numComponents s)); [|discriminate].
  apply IH; [exact Ht|].
  destruct (Nat.eqb jr k) eqn:E; [lia|].
  apply Nat.eqb_neq in E.
  destruct (b64_switch_counts jr k s) as (-> & _).
  cbn [aw]. rewrite b64_marks_left_bsw; try lia.
  rewrite b64_trial_aw, b64_bset_eq. unfold neb. rewrite Ht. reflexivity.
Qed.

(** ** Abort or success of vcs_elem_rearrange *)

Lemma b64_active_count_bound (s s' : VCS_SOLVE) (pi : nat -> nat) (n : nat) :
  permutes (m_numElemConstraints s) pi ->
  (forall p, nth p (ElActive s') false = nth (pi p) (ElActive s) false) ->
  active_prefix s' n = true -> (n <= m_numElemConstraints s)%nat ->
  (n <= count_active s)%nat.
Proof.
  intros Hperm Hpos Hact Hn.
  assert (Hinj : Injective pi).
  { destruct Hperm as (pi' & H1 & _). intros x y E.
    rewrite <- (H1 x), <- (H1 y). now rewrite E. }
  assert (H : (length (map pi (seq 0 n)) <= count_active s)%nat);
    [|rewrite length_map, length_seq in H; exact H].
  unfold count_active. apply NoDup_incl_length.
  - apply Injective_map_NoDup; [exact Hinj | apply seq_NoDup].
  - intros x Hx. apply in_map_iff in Hx. destruct Hx as (p & <- & Hp).
    apply in_seq in Hp. apply filter_In. split.
    + apply in_seq. split; [lia|]. simpl.
      apply permutes_below; [exact Hperm | lia].
    + rewrite <- Hpos. apply (b64_active_prefix_nth s' n); [exact Hact | lia].
Qed.

(** ** The first loop of vcs_elem_rearrange copies the targets *)

Lemma b64_sentinel_fold_aw (s : VCS_SOLVE) (n : nat) :
  forall (i0 : nat) (t : float) (a : buf) (ld : bool) (i : nat),
  snd (fst (fold_left (sentinel_step s) (seq i0 n) (t, a, ld))) i =
  if (i0 <=? i)%nat && (i <? i0 + n)%nat then rdF (gai s) i else a i.
Proof.
  induction n as [|n IH]; intros i0 t a ld i.
  - simpl.
    replace ((i0 <=? i)%nat && (i <? i0 + 0)%nat) with false; [reflexivity|].
    symmetry. apply andb_false_iff.
    destruct (Nat.le_gt_cases i0 i);
      [right; apply Nat.ltb_ge; lia | left; apply Nat.leb_gt; lia].
  - cbn [seq fold_left].
    assert (Es : sentinel_step s (t, a, ld) i0 =
                 (t - 1.0, bset a i0 (rdF (gai s) i0),
                  if PrimFloat.eqb (t - 1.0) (rdF (gai s) i0) then true else ld)).
    { unfold sentinel_step. rewrite b64_bset_eq. reflexivity. }
    rewrite Es, IH. unfold bset.
    destruct (Nat.eqb i i0) eqn:E0;
    destruct (S i0 <=? i)%nat eqn:Ea, (i0 <=? i)%nat eqn:Eb,
             (i <? S i0 + n)%nat eqn:Ec, (i <? i0 + S n)%nat eqn:Ed;
      simpl; auto;
      repeat match goal with
      | H : Nat.eqb _ _ = true |- _ => apply Nat.eqb_eq in H
      | H : Nat.eqb _ _ = false |- _ => apply Nat.eqb_neq in H
      | H : (_ <=? _)%nat = true |- _ => apply Nat.leb_le in H
      | H : (_ <=? _)%nat = false |- _ => apply Nat.leb_gt in H
      | H : (_ <? _)%nat = true |- _ => apply Nat.ltb_lt in H
      | H : (_ <? _)%nat = false |- _ => apply Nat.ltb_ge in H
      end; try lia.
    subst i. reflexivity.
Qed.

Lemma b64_sentinel_loop_aw (s : VCS_SOLVE) (fuel : nat) :
  forall (t : float) (a : buf) (test : float) (a' : buf),
  sentinel_loop fuel s t a = Some (test, a') ->
  forall i, a' i = if (i <? m_numElemConstraints s)%nat
                   then rdF (gai s) i else a i.
Proof.
  induction fuel as [|fuel IH]; intros t a test a'; simpl; [discriminate|].
  unfold sentinel_pass.
  pose proof (b64_sentinel_fold_aw s (m_numElemConstraints s) 0 t a false) as H2.
  destruct (fold_left (sentinel_step s) (seq 0 (m_numElemConstraints s)) (t, a, false))
    as [[t1 a1] ld]. cbn [fst snd Nat.leb andb Nat.add] in H2.
  destruct ld.
  - intros H i. rewrite (IH _ _ _ _ H i), H2.
    destruct (i <? m_numElemConstraints s)%nat; reflexivity.
  - intro H. injection H as <- <-. exact H2.
Qed.

Lemma b64_key_loop (fuel : nat) (s : VCS_SOLVE) (a : buf) (test : float) :
  key fuel s a = Some test ->
  exists a', sentinel_loop fuel s (-1.0E10) a = Some (test, a') /\
             forall i, a' i = if (i <? m_numElemConstraints s)%nat
                              then rdF (gai s) i else a i.
Proof.
  unfold key. destruct (sentinel_loop fuel s (-1.0E10) a) as [[t a']|] eqn:E;
    [|discriminate].
  simpl. intro H. injection H as <-. exists a'. split; [reflexivity|].
  eapply b64_sentinel_loop_aw. exact E.
Qed.

(** ** The claims on vcs_elem_rearrange *)

(** C6, as amended: when there is at least one component, the first
    [m_numComponents] constraints are active and pass, one after the other
    in their present order, the independence test as the routine makes it
    (the squared norm, computed in binary64 arithmetic, of what the
    Gram-Schmidt process leaves of the row is not below 1e-6), and the key
    with which the first loop ends is none of their targets, then
    [vcs_elem_rearrange] returns [VCS_SUCCESS] and the problem instance it
    returns is the one it was given: no exchange is made. *)
Theorem rearrange_keeps_accepted_order
    (success : Z) (fuel : nat) (w : work) (s : VCS_SOLVE) (test : float) :
  (1 <= m_numComponents s)%nat ->
  (m_numComponents s <= m_numElemConstraints s)%nat ->
  (m_numComponents s <= fuel)%nat ->
  key fuel s (aw w) = Some test ->
  (forall j, (j < m_numComponents s)%nat -> neb (rdF (gai s) j) test = true) ->
  active_prefix s (m_numComponents s) = true ->
  accepted_prefix s (m_numComponents s) = true ->
  vcs_elem_rearrange success fuel w s = Some (Ok success s).
Proof.
  intros H1 Hle Hfuel Hkey Hg Hact Hacc. unfold vcs_elem_rearrange.
  destruct (b64_key_loop fuel s (aw w) test Hkey) as (a' & E & Ha).
  rewrite E.
  apply (b64_no_swap_loop success s test Hle Hact Hacc (m_numComponents s - 1));
    try lia.
  - split; intros; simpl in *; lia.
  - intros j Hj. simpl. rewrite Ha.
    replace (j <? m_numElemConstraints s)%nat with true
      by (symmetry; apply Nat.ltb_lt; lia).
    apply Hg. lia.
Qed.

Lemma rearrange_keeps_accepted_order_witness :
  vcs_elem_rearrange success_value 2 zero_work e2e = Some (Ok success_value e2e).
Proof.
  apply (rearrange_keeps_accepted_order success_value 2 zero_work e2e
           (-10000000002)).
  - simpl; lia.
  - simpl; lia.
  - simpl; lia.
  - reflexivity.
  - intros j Hj. simpl in Hj.
    destruct j as [|[|j]]; [reflexivity | reflexivity | lia].
  - reflexivity.
  - reflexivity.
Defined.

(** The claim C6 as stated fails on [small_row]: its single component row,
    [0.0001], is linearly independent, yet its squared norm, about 1e-8, is
    below the threshold, the row is rejected and the two constraints are
    exchanged. *)
Lemma rearrange_exchanges_independent_rows :
  independent_rows small_row /\
  gai small_row = [1; 2] /\
  match vcs_elem_rearrange success_value 3 zero_work small_row with
  | Some (Ok r s') =>
      gai s' = [2; 1] /\ FormulaMatrix s' = [[1]; [0.0001]] /\
      ElName s' = ["B"; "A"]%string
  | _ => False
  end.
Proof.
  split; [|split].
  - intros c H i Hi. simpl in Hi. assert (i = 0%nat) by lia. subst i.
    specialize (H 0%nat (Nat.lt_0_succ 0)).
    assert (Hv : ~ Qeq (value (FM small_row 0 0)) 0%Q)
      by (vm_compute; discriminate).
    cbn [m_numComponents small_row seq map sumQ fold_right] in H.
    rewrite Qplus_0_r in H. apply Qmult_integral in H.
    destruct H as [H|H]; [exact H | contradiction].
  - reflexivity.
  - vm_compute. repeat split; reflexivity.
Qed.

Lemma b64_wf_intro (s : VCS_SOLVE) :
  (m_numElemConstraints s <= length (ga s))%nat ->
  (m_numElemConstraints s <= length (gai s))%nat ->
  (m_numElemConstraints s <= length (IndEl s))%nat ->
  (m_numElemConstraints s <= length (m_elType s))%nat ->
  (m_numElemConstraints s <= length (ElActive s))%nat ->
  (m_numElemConstraints s <= length (ElName s))%nat ->
  (m_numElemConstraints s <= length (FormulaMatrix s))%nat ->
  forallb (fun r => (m_numSpeciesTot s <=? length (nth r (FormulaMatrix s) []))%nat)
          (seq 0 (m_numElemConstraints s)) = true ->
  wf_elem s.
Proof.
  intros. constructor; try assumption.
  intros r Hr. rewrite forallb_forall in H6.
  apply Nat.leb_le. apply H6. apply in_seq. lia.
Qed.

Lemma b64_rearrange_outcome (success : Z) (fuel : nat) (w : work) (s : VCS_SOLVE)
    (test : float) :
  wf_elem s ->
  (m_numComponents s <= m_numSpeciesTot s)%nat ->
  (m_numElemConstraints s < fuel)%nat ->
  key fuel s (aw w) = Some test ->
  PrimFloat.eqb test test = true ->
  vcs_elem_rearrange success fuel w s = Some (Exit (-1)%Z) \/
  exists s' pi,
    vcs_elem_rearrange success fuel w s = Some (Ok success s') /\
    (1 <= m_numComponents s <= m_numElemConstraints s)%nat /\
    permutes (m_numElemConstraints s) pi /\ repositioned pi s s' /\
    accepted_prefix s' (m_numComponents s) = true /\
    active_prefix s' (m_numComponents s) = true.
Proof.
  intros W Hcs Hf Hkey Ht.
  destruct (b64_key_loop fuel s (aw w) test Hkey) as (a' & E & _).
  assert (Htot : rearrange_loop success fuel test 0
                   (mkWork a' (sa w) (sm w) (ss w)) s <> None).
  { apply b64_rearrange_loop_total; [exact Ht|]. simpl.
    pose proof (filter_length_le (fun i => neb (a' i) test)
                  (seq 0 (m_numElemConstraints s))) as H.
    rewrite length_seq in H. unfold marks_left. lia. }
  pose proof (b64_rearrange_repositioned success fuel w s) as Hrep.
  unfold vcs_elem_rearrange in *. rewrite E in *.
  destruct (rearrange_loop success fuel test 0 _ s) as [r|] eqn:El;
    [|contradiction].
  apply b64_rearrange_loop_accepts in El; auto; try lia.
  - destruct El as [->|(s' & -> & H0 & H1 & H2 & H3)]; [left; reflexivity|].
    right.
    destruct (Hrep success s' W eq_refl) as (_ & _ & pi & Hperm & Hpos).
    exists s', pi. split; [reflexivity|].
    destruct (m_numComponents s) as [|c] eqn:Ec.
    + exfalso. change (Nat.max 1 0) with 1%nat in H2.
      rewrite b64_accepted_prefix_needs_component in H2 by exact H1.
      discriminate.
    + replace (Nat.max 1 (S c)) with (S c) in * by lia.
      split; [lia|]. split; [exact Hperm|]. split; [exact Hpos|].
      split; assumption.
  - split; intros; simpl in *; lia.
Qed.

(** C7, as amended: when the first loop of [vcs_elem_rearrange] ends with
    a key that is a number, the routine ends, and it ends in one of two
    ways: the abort [exit(-1)], or the return of [VCS_SUCCESS] with the
    constraints repositioned so that the first [m_numComponents] positions
    hold active constraints each of which passes, after those before it,
    the independence test as the routine makes it (the squared norm,
    computed in binary64 arithmetic, of what the Gram-Schmidt process
    leaves of the row is not below 1e-6).  So the routine aborts whenever
    no repositioning of the constraints puts such constraints first, in
    particular when fewer constraints are active than there are components
    or when there is no component; and the loop aborts whenever its search
    finds no candidate. *)
Theorem rearrange_aborts_or_accepts
    (success : Z) (fuel : nat) (w : work) (s : VCS_SOLVE) (test : float) :
  wf_elem s ->
  (m_numComponents s <= m_numSpeciesTot s)%nat ->
  (m_numElemConstraints s < fuel)%nat ->
  key fuel s (aw w) = Some test ->
  PrimFloat.eqb test test = true ->
  (vcs_elem_rearrange success fuel w s = Some (Exit (-1)%Z) \/
   exists s' pi,
     vcs_elem_rearrange success fuel w s = Some (Ok success s') /\
     (1 <= m_numComponents s <= m_numElemConstraints s)%nat /\
     permutes (m_numElemConstraints s) pi /\ repositioned pi s s' /\
     accepted_prefix s' (m_numComponents s) = true /\
     active_prefix s' (m_numComponents s) = true) /\
  ((forall s' pi,
      permutes (m_numElemConstraints s) pi -> repositioned pi s s' ->
      active_prefix s' (m_numComponents s)
        && accepted_prefix s' (m_numComponents s) = false) ->
   vcs_elem_rearrange success fuel w s = Some (Exit (-1)%Z)) /\
  ((count_active s < m_numComponents s)%nat \/ m_numComponents s = 0%nat ->
   vcs_elem_rearrange success fuel w s = Some (Exit (-1)%Z)) /\
  (forall fuel' t jr w',
     find_k s (aw w') t (seq jr (m_numElemConstraints s - jr))
       = m_numElemConstraints s ->
     rearrange_loop success (S fuel') t jr w' s = Some (Exit (-1)%Z)).
Proof.
  intros W Hcs Hf Hkey Ht.
  pose proof (b64_rearrange_outcome success fuel w s test W Hcs Hf Hkey Ht) as Hout.
  split; [exact Hout|]. split; [|split].
  - intros Hnone.
    destruct Hout as [H|(s' & pi & E & Hc & Hperm & Hpos & Hacc & Hact)];
      [exact H|].
    exfalso. specialize (Hnone s' pi Hperm Hpos).
    rewrite Hacc, Hact in Hnone. discriminate.
  - intros Hfew.
    destruct Hout as [H|(s' & pi & E & Hc & Hperm & Hpos & Hacc & Hact)];
      [exact H|].
    exfalso.
    assert ((m_numComponents s <= count_active s)%nat).
    { apply (b64_active_count_bound s s' pi); auto; [|lia].
      intro p. destruct Hpos as (_ & _ & _ & Hpos).
      destruct (Hpos p) as (_ & _ & HA & _). exact HA. }
    lia.
  - intros fuel' t jr w' Hk. rewrite b64_rearrange_loop_S. cbv zeta.
    rewrite Hk, Nat.eqb_refl. reflexivity.
Qed.

Lemma rearrange_aborts_or_accepts_witness :
  vcs_elem_rearrange success_value 3 zero_work inactive_rows = Some (Exit (-1)%Z) /\
  vcs_elem_rearrange success_value 3 zero_work doubled_row = Some (Exit (-1)%Z) /\
  exists s',
    vcs_elem_rearrange success_value 3 zero_work small_row
      = Some (Ok success_value s') /\
    accepted_prefix s' 1 = true.
Proof.
  split; [|split].
  - destruct (rearrange_aborts_or_accepts success_value 3 zero_work inactive_rows
                (-10000000002)) as (_ & _ & H & _).
    + apply b64_wf_intro; simpl; try lia; reflexivity.
    + simpl; lia.
    + simpl; lia.
    + reflexivity.
    + reflexivity.
    + apply H. left. vm_compute. lia.
  - destruct (rearrange_aborts_or_accepts success_value 3 zero_work doubled_row
                (-10000000002)) as ([H|(s' & pi & E & _)] & _).
    + apply b64_wf_intro; simpl; try lia; reflexivity.
    + simpl; lia.
    + simpl; lia.
    + reflexivity.
    + reflexivity.
    + exact H.
    + vm_compute in E. discriminate.
  - destruct (rearrange_aborts_or_accepts success_value 3 zero_work small_row
                (-10000000002)) as ([H|(s' & pi & E & _ & _ & _ & Hacc & _)] & _).
    + apply b64_wf_intro; simpl; try lia; reflexivity.
    + simpl; lia.
    + simpl; lia.
    + reflexivity.
    + reflexivity.
    + vm_compute in H. discriminate.
    + exists s'. split; [exact E | exact Hacc].
Defined.

(** The claim C7 as stated fails on [tripled_row]: its second row is three
    times the first, so of its two active constraints only one is
    linearly independent, fewer than the two components; yet the routine
    returns [VCS_SUCCESS], with the two rows where they were.  The
    coefficient of the projection, computed as 2.9999999999999996, leaves a
    row whose squared norm, about 1.5e-5, is not below 1e-6. *)
Lemma rearrange_accepts_dependent_rows :
  (forall k, (k < 2)%nat ->
     Qeq (value (FM tripled_row 1 k)) (Qmult 3%Q (value (FM tripled_row 0 k)))) /\
  ~ independent_rows tripled_row /\
  residual_norm2 tripled_row 1 = 1.5258789062513878e-05 /\
  vcs_elem_rearrange success_value 3 zero_work tripled_row
    = Some (Ok success_value tripled_row).
Proof.
  split; [|split; [|split]].
  - intros k Hk. destruct k as [|[|k]]; [vm_compute; reflexivity.. | lia].
  - intro H.
    pose (c := fun i : nat => match i with O => 3%Q | _ => (-1)%Q end).
    assert (E : Qeq (c O) 0%Q); [|discriminate E].
    apply (H c); [|simpl; lia].
    intros k Hk. simpl in Hk.
    destruct k as [|[|k]]; [vm_compute; reflexivity.. | lia].
  - vm_compute. reflexivity.
  - vm_compute. reflexivity.
Qed.

(** ** Comparisons of a double with zero *)

Lemma b64_zero_SF : FloatOps.Prim2SF 0 = SpecFloat.S754_zero false.
Proof. reflexivity. Qed.

Lemma b64_positive (c : float) :
  gtb c 0 = true -> (c <? 0) = false /\ neb c 0 = true.
Proof.
  unfold gtb, neb.
  rewrite !FloatAxioms.ltb_spec, FloatAxioms.eqb_spec, b64_zero_SF.
  destruct (FloatOps.Prim2SF c) as [sg|sg| |sg m e]; try destruct sg; simpl;
    intro H; try discriminate; split; reflexivity.
Qed.

Lemma b64_zero (c : float) :
  (c =? 0) = true -> (c <? 0) = false /\ gtb c 0 = false /\ neb c 0 = false.
Proof.
  unfold gtb, neb.
  rewrite !FloatAxioms.ltb_spec, FloatAxioms.eqb_spec, b64_zero_SF.
  destruct (FloatOps.Prim2SF c) as [sg|sg| |sg m e]; try destruct sg; simpl;
    intro H; try discriminate; repeat split; reflexivity.
Qed.

(** ** Stage 1 of vcs_elcorr on a constraint met by a single species *)

Lemma b64_sign_scan_fold (s : VCS_SOLVE) (i : nat) (l : list nat) (ms : bool)
    (nz : nat) :
  fold_left
    (fun (acc : bool * nat) kspec =>
       let '(multisign, numNonZero) := acc in
       if voltage s kspec then acc
       else
         let eval := FM s i kspec in
         (if PrimFloat.ltb eval 0 then true else multisign,
          if neb eval 0 then S numNonZero else numNonZero)) l (ms, nz) =
  (ms || existsb (fun k => negb (voltage s k) && (FM s i k <? 0)) l,
   (nz + length (filter (fun k => negb (voltage s k) && neb (FM s i k) 0) l))%nat).
Proof.
  revert ms nz; induction l as [|k l IH]; intros ms nz; simpl.
  - rewrite orb_false_r, Nat.add_0_r. reflexivity.
  - destruct (voltage s k); simpl; [apply IH|].
    rewrite IH. f_equal.
    + destruct (FM s i k <? 0); simpl;
        [rewrite orb_true_r; reflexivity | reflexivity].
    + destruct (neb (FM s i k) 0); simpl; lia.
Qed.

Lemma short_when_single {A : Type} (k : A) (l : list A) :
  NoDup l -> (forall x, In x l -> x = k) -> (length l < 2)%nat.
Proof.
  intros N H. destruct l as [|a [|b l]]; simpl; try lia.
  exfalso. inversion N as [|? ? Hn _]; subst. apply Hn.
  rewrite (H a) by (left; reflexivity).
  rewrite <- (H b) by (right; left; reflexivity). left. reflexivity.
Qed.

Lemma b64_sign_scan_single (s : VCS_SOLVE) (i k : nat) :
  single_species s i k ->
  fst (sign_scan s i) = false /\ (snd (sign_scan s i) < 2)%nat.
Proof.
  intros (Hk & Hl & Hv & Hp & Hz). unfold sign_scan.
  rewrite b64_sign_scan_fold. simpl. split.
  - destruct (existsb _ _) eqn:E; [|reflexivity]. exfalso.
    apply existsb_exists in E. destruct E as (j & Hj & E).
    apply in_seq in Hj. apply andb_true_iff in E. destruct E as [E1 E2].
    apply negb_true_iff in E1.
    destruct (Nat.eq_dec j k) as [->|Hne].
    + destruct (b64_positive _ Hp) as [H _]. congruence.
    + destruct (b64_zero _ (Hz j (proj2 Hj) Hne E1)) as [H _]. congruence.
  - apply (short_when_single k).
    + apply NoDup_filter. apply seq_NoDup.
    + intros j Hj. apply filter_In in Hj. destruct Hj as [Hj E].
      apply in_seq in Hj. apply andb_true_iff in E. destruct E as [E1 E2].
      apply negb_true_iff in E1.
      destruct (Nat.eq_dec j k) as [->|Hne]; [reflexivity|].
      exfalso. destruct (b64_zero _ (Hz j (proj2 Hj) Hne E1)) as (_ & _ & H).
      congruence.
Qed.

Lemma b64_same_rows_refl (s : VCS_SOLVE) : same_rows s s.
Proof. repeat split. Qed.

Lemma b64_single_fold (s : VCS_SOLVE) (i k : nat) (l : list nat) :
  single_species s i k ->
  (forall j, In j l -> (j < m_numSpeciesTot s)%nat) ->
  forall acc, same_rows s (fst acc) ->
  let acc' := fold_left (single_step i) l acc in
  same_rows s (fst acc') /\
  (forall j, j <> k -> rdF (soln (fst acc')) j = rdF (soln (fst acc)) j) /\
  (In k l -> rdF (soln (fst acc')) k = rdF (gai s) i / FM s i k) /\
  (~ In k l -> rdF (soln (fst acc')) k = rdF (soln (fst acc)) k).
Proof.
  intros (Hk & Hl & Hv & Hp & Hz).
  induction l as [|a l IH]; intros Hin acc F; cbn [fold_left].
  - split; [exact F|]. split; [reflexivity|]. split; [intros []|reflexivity].
  - assert (Hin' : forall j, In j l -> (j < m_numSpeciesTot s)%nat)
      by (intros j Hj; apply Hin; right; exact Hj).
    destruct acc as [t c]. destruct F as (F1 & F2 & F3 & F4).
    cbn [fst] in F1, F2, F3, F4 |- *.
    assert (Hfm : forall j, FM t i j = FM s i j)
      by (intro j; unfold FM; rewrite F2; reflexivity).
    assert (Hvt : forall j, voltage t j = voltage s j)
      by (intro j; unfold voltage; rewrite F3; reflexivity).
    destruct (Nat.eq_dec a k) as [->|Hne].
    + assert (E : single_step i (t, c) k =
                  (set_soln (upd k (rdF (gai s) i / FM s i k) (soln t)) t, true)).
      { unfold single_step. rewrite Hvt, Hv, Hfm, Hp, F1. reflexivity. }
      rewrite E.
      destruct (IH Hin' (set_soln (upd k (rdF (gai s) i / FM s i k) (soln t)) t,
                         true)) as (G1 & G2 & G3 & G4).
      { cbn [fst]. repeat split; simpl; auto. rewrite length_upd. exact F4. }
      cbn [fst] in G1, G2, G3, G4 |- *.
      split; [exact G1|]. split; [|split].
      * intros j Hj. rewrite G2 by exact Hj.
        unfold rdF. simpl. apply nth_upd_ne. auto.
      * intros _. destruct (in_dec Nat.eq_dec k l) as [Hi|Hi]; [apply G3; exact Hi|].
        rewrite G4 by exact Hi. unfold rdF. simpl. apply nth_upd_eq. lia.
      * intro Hn. exfalso. apply Hn. left. reflexivity.
    + assert (E : single_step i (t, c) a = (t, c)).
      { unfold single_step. rewrite Hvt, Hfm.
        destruct (voltage s a) eqn:Ea; [reflexivity|].
        destruct (b64_zero _ (Hz a (Hin a (or_introl eq_refl)) Hne Ea))
          as (_ & H & _).
        rewrite H. reflexivity. }
      rewrite E.
      destruct (IH Hin' (t, c)) as (G1 & G2 & G3 & G4).
      { cbn [fst]. repeat split; assumption. }
      cbn [fst] in G1, G2, G3, G4 |- *.
      split; [exact G1|]. split; [exact G2|]. split.
      * intros [H|H]; [contradiction | apply G3; exact H].
      * intro Hn. apply G4. intro H. apply Hn. right. exact H.
Qed.

(** X19: stage 1 of [vcs_elcorr] on a constraint that a single species
    meets.  When species [k] is the only species that is not a voltage and
    has a nonzero coefficient in constraint [i], and the coefficient is
    positive, the pass over constraint [i] sets [soln[k]] to the quotient
    [gai[i] / FormulaMatrix[i][k]], as the binary64 division rounds it,
    and touches no other mole number. *)
Theorem stage1_single_species (s : VCS_SOLVE) (c : bool) (i k : nat) :
  single_species s i k ->
  let s' := fst (stage1_row (s, c) i) in
  rdF (soln s') k = rdF (gai s) i / FM s i k /\
  (forall j, j <> k -> rdF (soln s') j = rdF (soln s) j).
Proof.
  intros Hs. cbv zeta.
  destruct (b64_sign_scan_single s i k Hs) as [Hms Hnz].
  unfold stage1_row. destruct (sign_scan s i) as [ms nz]. simpl in Hms, Hnz.
  subst ms. apply Nat.ltb_lt in Hnz. rewrite Hnz.
  destruct (b64_single_fold s i k (seq 0 (m_numSpeciesTot s)) Hs) with (acc := (s, c))
    as (F & G2 & G3 & _).
  { intros j Hj. apply in_seq in Hj. lia. }
  { apply b64_same_rows_refl. }
  destruct Hs as (Hk & Hl & Hv & Hp & Hz).
  assert (Hin : In k (seq 0 (m_numSpeciesTot s))) by (apply in_seq; lia).
  specialize (G3 Hin). simpl fst in G2, G3.
  split; [exact G3 | exact G2].
Qed.

Lemma stage1_single_species_witness :
  rdF (soln (fst (stage1_row (single_row, false) 0))) 1 = 0.020408163265306121 /\
  rdF (soln (fst (stage1_row (single_row, false) 0))) 0 = rdF (soln single_row) 0.
Proof.
  destruct (stage1_single_species single_row false 0 1) as [H1 H2].
  - split; [simpl; lia|]. split; [simpl; lia|]. split; [reflexivity|].
    split; [reflexivity|].
    intros j Hj Hne Hv. simpl in Hj.
    destruct j as [|[|[|j]]]; [reflexivity | contradiction | discriminate Hv | lia].
  - split; [|apply H2; discriminate].
    rewrite H1. reflexivity.
Defined.

(** ** What vcs_elabcheck accepts *)

Lemma b64_elabcheck_loop_cons (cutoff : float) (s : VCS_SOLVE) (i : nat)
    (rest : list nat) :
  elabcheck_loop cutoff s (i :: rest) =
  if gtb (discrepancy s i) (fabs (rdF (gai s) i) * 1.0e-12) then
    if elem_type_eqb (elType s i) VCS_ELEM_TYPE_CHARGENEUTRALITY
       && negb (rdF (gai s) i =? 0)
    then CkThrow
    else if (rdF (gai s) i =? 0)
            || elem_type_eqb (elType s i) VCS_ELEM_TYPE_ELECTRONCHARGE
    then
      if gtb (discrepancy s i) (row_tolerance cutoff s i) then CkFalse
      else elabcheck_loop cutoff s rest
    else CkFalse
  else elabcheck_loop cutoff s rest.
Proof.
  simpl. unfold row_tolerance.
  destruct (check_scan cutoff s i) as [[scale ms] nz]. simpl.
  destruct ms; reflexivity.
Qed.

Lemma b64_elabcheck_loop_step (cutoff : float) (s : VCS_SOLVE) (i : nat)
    (rest : list nat) :
  elabcheck_loop cutoff s (i :: rest) = CkTrue <->
  within_tolerance cutoff s i = true /\ elabcheck_loop cutoff s rest = CkTrue.
Proof.
  rewrite b64_elabcheck_loop_cons. unfold within_tolerance, not_above.
  destruct (gtb (discrepancy s i) (fabs (rdF (gai s) i) * 1.0e-12)); simpl.
  2:{ split; [intro H; split; [reflexivity | exact H] | intros [_ H]; exact H]. }
  destruct (elem_type_eqb (elType s i) VCS_ELEM_TYPE_CHARGENEUTRALITY) eqn:E2;
    destruct (rdF (gai s) i =? 0) eqn:E3; simpl.
  - destruct (gtb (discrepancy s i) (row_tolerance cutoff s i)); simpl.
    + split; [discriminate | intros [H _]; discriminate].
    + split; [intro H; split; [reflexivity | exact H] | intros [_ H]; exact H].
  - assert (E5 : elem_type_eqb (elType s i) VCS_ELEM_TYPE_ELECTRONCHARGE = false)
      by (destruct (elType s i); simpl in *; congruence).
    rewrite E5. simpl. split; [discriminate | intros [H _]; discriminate].
  - destruct (gtb (discrepancy s i) (row_tolerance cutoff s i)); simpl.
    + split; [discriminate | intros [H _]; discriminate].
    + split; [intro H; split; [reflexivity | exact H] | intros [_ H]; exact H].
  - destruct (elem_type_eqb (elType s i) VCS_ELEM_TYPE_ELECTRONCHARGE); simpl.
    + destruct (gtb (discrepancy s i) (row_tolerance cutoff s i)); simpl.
      * split; [discriminate | intros [H _]; discriminate].
      * split; [intro H; split; [reflexivity | exact H] | intros [_ H]; exact H].
    + split; [discriminate | intros [H _]; discriminate].
Qed.

Lemma b64_elabcheck_loop_true (cutoff : float) (s : VCS_SOLVE) (l : list nat) :
  elabcheck_loop cutoff s l = CkTrue <->
  forall i, In i l -> within_tolerance cutoff s i = true.
Proof.
  induction l as [|i l IH].
  - simpl. split; [intros _ k []|reflexivity].
  - rewrite b64_elabcheck_loop_step, IH. split.
    + intros [H1 H2] k [<-|Hk]; auto.
    + intro H. split; [apply H; left; reflexivity|].
      intros k Hk. apply H. right. exact Hk.
Qed.

(** X1: [vcs_elabcheck] returns TRUE, with the instance as it was, exactly
    when every constraint in scope is within its tolerance: its discrepancy
    is not above 1e-12 times the magnitude of the target, or the target is
    zero or the constraint is an electron charge and the discrepancy is not
    above the tolerance of its row.  Not above means that the test [>] of
    the code is false, as it is for a NaN. *)
Theorem elabcheck_true_iff (cutoff : float) (ibound : bool) (s : VCS_SOLVE) :
  vcs_elabcheck cutoff ibound s = Ok true s <->
  forall i, (i < check_scope ibound s)%nat -> within_tolerance cutoff s i = true.
Proof.
  unfold vcs_elabcheck. fold (check_scope ibound s).
  pose proof (b64_elabcheck_loop_true cutoff s (seq 0 (check_scope ibound s))) as H.
  destruct (elabcheck_loop cutoff s (seq 0 (check_scope ibound s))).
  - split; [|reflexivity]. intros _ i Hi.
    apply (proj1 H eq_refl). apply in_seq. lia.
  - split; [discriminate|]. intro Hall.
    assert (CkFalse = CkTrue); [|discriminate].
    apply H. intros i Hi. apply Hall. apply in_seq in Hi. lia.
  - split; [discriminate|]. intro Hall.
    assert (CkThrow = CkTrue); [|discriminate].
    apply H. intros i Hi. apply Hall. apply in_seq in Hi. lia.
Qed.

(** An abundance that is a NaN is within every tolerance: the check
    returns TRUE on it. *)
Lemma b64_elabcheck_nan_abundance :
  within_tolerance cutoff_value nan_abundance 0 = true /\
  vcs_elabcheck cutoff_value true nan_abundance = Ok true nan_abundance.
Proof. split; vm_compute; reflexivity. Qed.

(** ** The sum of the squared discrepancies across vcs_elcorr *)

